(** * Teakra DSP interpreter: a shallow embedding of [src/interpreter.h]

    The interpreter of the Teak DSP instruction stream is embedded as
    Rocq functions over an explicit machine state (register file and
    memory).  C++ exceptions become the [Throw] outcome of a small
    state-and-error monad; fixed-width unsigned integers are [Z] with the
    wrap-around written out. *)

From Stdlib Require Import ZArith Bool List String Lia.
Import ListNotations.
Local Open Scope Z_scope.
Local Open Scope bool_scope.

(* ================================================================= *)
(** ** Fixed-width integers *)

Definition u16 (v : Z) : Z := v mod 2 ^ 16.
Definition u32 (v : Z) : Z := v mod 2 ^ 32.
Definition u64 (v : Z) : Z := v mod 2 ^ 64.

(** Bitwise complement of an unsigned value of the given width. *)
Definition not16 (v : Z) : Z := u16 (Z.lnot v).
Definition not64 (v : Z) : Z := u64 (Z.lnot v).

(** Modelled from the spec: [SignExtend<bits, T>] of [common_types.h],
    which is not part of the sources at hand.  "SE(n,v) sign-extends the
    low n bits of v to the target width": the result is the unsigned
    [width]-bit pattern whose low [bits] bits are those of [v] and whose
    higher bits all copy bit [bits - 1]. *)
Definition SignExtend (width bits v : Z) : Z :=
  let low := v mod 2 ^ bits in
  if low <? 2 ^ (bits - 1) then low else low + (2 ^ width - 2 ^ bits).

Definition SignExtend16 (bits v : Z) : Z := SignExtend 16 bits v.
Definition SignExtend32 (bits v : Z) : Z := SignExtend 32 bits v.
Definition SignExtend64 (bits v : Z) : Z := SignExtend 64 bits v.

(** Modelled from the spec: [BitReverse] (the 16-bit bit reversal used by
    bit-reversed addressing, "bitreverse16(rU)"); its C++ definition is
    not part of the sources at hand. *)
Definition BitReverse (v : Z) : Z :=
  fold_left (fun acc i => Z.lor acc (Z.shiftl (Z.b2z (Z.testbit v i)) (15 - i)))
            [0; 1; 2; 3; 4; 5; 6; 7; 8; 9; 10; 11; 12; 13; 14; 15] 0.

(** Arrays of the register file ([std::array<T, n>]) are total maps from
    the index; [upd] is the assignment [arr[i] = v]. *)
Definition upd {T : Type} (arr : Z -> T) (i : Z) (v : T) : Z -> T :=
  fun j => if j =? i then v else arr j.

(* ================================================================= *)
(** ** Enumerations *)

(** [RegName]: the register names the handlers dispatch on. *)
Module RegName.
Inductive t : Set :=
| a0 | a0l | a0h | a0e
| a1 | a1l | a1h | a1e
| b0 | b0l | b0h | b0e
| b1 | b1l | b1h | b1e
| r0 | r1 | r2 | r3 | r4 | r5 | r6 | r7
| x0 | x1 | y0 | y1
| p0 | p1 | p
| pc | sp | sv | lc
| ar0 | ar1
| arp0 | arp1 | arp2 | arp3
| ext0 | ext1 | ext2 | ext3
| stt0 | stt1 | stt2
| st0 | st1 | st2
| cfgi | cfgj
| mod0 | mod1 | mod2 | mod3
| undefine.
End RegName.
Abbreviation RegName := RegName.t.

(** The bit-packed pseudo registers read and written through
    [regs.Get<T>()] and [regs.Set<T>(v)]. *)
Module Pseudo.
Inductive t : Set :=
| ar0 | ar1 | arp0 | arp1 | arp2 | arp3
| stt0 | stt1 | stt2 | st0 | st1 | st2
| cfgi | cfgj | mod0 | mod1 | mod2 | mod3 | icr.
End Pseudo.

Module StepValue.
Inductive t : Set :=
| Zero | Increase | Decrease | PlusStep
| Increase2Mode1 | Decrease2Mode1 | Increase2Mode2 | Decrease2Mode2.
End StepValue.
Abbreviation StepValue := StepValue.t.

Module OffsetValue.
Inductive t : Set := Zero | PlusOne | MinusOne | MinusOneDmod.
End OffsetValue.
Abbreviation OffsetValue := OffsetValue.t.

Module AlmOp.
Inductive t : Set :=
| Or | And | Xor | Add | Tst0 | Tst1 | Cmp | Sub
| Msu | Addh | Addl | Subh | Subl | Sqr | Sqra | Cmpu.
End AlmOp.
Abbreviation AlmOp := AlmOp.t.

Module AlbOp.
Inductive t : Set := Set_ | Rst | Chng | Addv | Tst0 | Tst1 | Cmpv | Subv.
End AlbOp.
Abbreviation AlbOp := AlbOp.t.

Module ModaOp.
Inductive t : Set :=
| Shr | Shr4 | Shl | Shl4 | Ror | Rol | Clr | Not | Neg | Rnd | Pacr | Clrr
| Inc | Dec | Copy.
End ModaOp.
Abbreviation ModaOp := ModaOp.t.

Module MulOp.
Inductive t : Set := Mpy | Mpysu | Mac | Macus | Maa | Macuu | Macsu | Maasu.
End MulOp.
Abbreviation MulOp := MulOp.t.

Module SumBase.
Inductive t : Set := Zero | Acc | Sv | SvRnd.
End SumBase.
Abbreviation SumBase := SumBase.t.

Module SwapTypeValue.
Inductive t : Set :=
| a0b0 | a0b1 | a1b0 | a1b1 | a0b0a1b1 | a0b1a1b0
| a0b0a1 | a0b1a1 | a1b0a0 | a1b1a0
| b0a0b1 | b0a1b1 | b1a0b0 | b1a1b0
| reserved.
End SwapTypeValue.
Abbreviation SwapTypeValue := SwapTypeValue.t.

Module CbsCondValue.
Inductive t : Set := Ge | Gt.
End CbsCondValue.
Abbreviation CbsCondValue := CbsCondValue.t.

(** [ProductSumConfig] and its four constants. *)
Record ProductSumConfig : Set := { align : bool; sub : bool }.
Definition p_add : ProductSumConfig := {| align := false; sub := false |}.
Definition p_adda : ProductSumConfig := {| align := true; sub := false |}.
Definition p_sub : ProductSumConfig := {| align := false; sub := true |}.
Definition p_suba : ProductSumConfig := {| align := true; sub := true |}.

(* ================================================================= *)
(** ** The register file *)

(** One frame of the block-repeat stack. *)
Record BlockRepeatFrame : Set := { start : Z; end_ : Z; lc : Z }.

(** Modelled from the spec: the fields of [RegisterState] (declared in
    [register.h], which is not part of the sources at hand) follow the data
    model of the spec and the uses in [interpreter.h].  One-bit fields are
    [bool]; [shadow] stands for the storage that only the register file's
    own bank and shadow operations touch. *)
Module regs.
Record RegisterState : Type := mk {
  pc : Z;
  sp : Z;
  a : Z -> Z;
  b : Z -> Z;
  p : Z -> Z;
  psign : Z -> bool;
  ps : Z -> Z;
  x : Z -> Z;
  y : Z -> Z;
  ym : Z;
  r : Z -> Z;
  sv : Z;
  mixp : Z;
  repc : Z;
  rep : bool;
  bcn : Z;
  lp : bool;
  bkrep_stack : Z -> BlockRepeatFrame;
  fz : bool;
  fm : bool;
  fn : bool;
  fv : bool;
  fe : bool;
  fc : Z -> bool;
  flv : bool;
  fls : bool;
  fr : bool;
  vtr : Z -> Z;
  ie : bool;
  im : Z -> bool;
  ip : Z -> bool;
  ic : Z -> bool;
  vim : bool;
  vip : bool;
  vic : bool;
  viaddr : Z;
  stepi : Z;
  stepj : Z;
  stepi0 : Z;
  stepj0 : Z;
  modi : Z;
  modj : Z;
  stepib : Z;
  stepjb : Z;
  stepi0b : Z;
  stepj0b : Z;
  modib : Z;
  modjb : Z;
  r0b : Z;
  r1b : Z;
  r4b : Z;
  r7b : Z;
  s : Z;
  sar : Z -> bool;
  brv : Z -> bool;
  m : Z -> bool;
  movpd : Z;
  page : Z;
  pc_endian : Z;
  bankstep : Z;
  legacy_mod : bool;
  r3z : bool;
  r7z : bool;
  arstep : Z -> Z;
  aroffset : Z -> Z;
  arrn : Z -> Z;
  arprni : Z -> Z;
  arprnj : Z -> Z;
  arpstepi : Z -> Z;
  arpstepj : Z -> Z;
  arpoffseti : Z -> Z;
  arpoffsetj : Z -> Z;
  shadow : Z -> Z
}.

Definition eta (rs : RegisterState) : RegisterState :=
  mk (pc rs) (sp rs) (a rs) (b rs) (p rs) (psign rs) (ps rs) (x rs) (y rs) (ym
    rs) (r rs) (sv rs) (mixp rs) (repc rs) (rep rs) (bcn rs) (lp rs)
    (bkrep_stack rs) (fz rs) (fm rs) (fn rs) (fv rs) (fe rs) (fc rs) (flv rs)
    (fls rs) (fr rs) (vtr rs) (ie rs) (im rs) (ip rs) (ic rs) (vim rs) (vip
    rs) (vic rs) (viaddr rs) (stepi rs) (stepj rs) (stepi0 rs) (stepj0 rs)
    (modi rs) (modj rs) (stepib rs) (stepjb rs) (stepi0b rs) (stepj0b rs)
    (modib rs) (modjb rs) (r0b rs) (r1b rs) (r4b rs) (r7b rs) (s rs) (sar rs)
    (brv rs) (m rs) (movpd rs) (page rs) (pc_endian rs) (bankstep rs)
    (legacy_mod rs) (r3z rs) (r7z rs) (arstep rs) (aroffset rs) (arrn rs)
    (arprni rs) (arprnj rs) (arpstepi rs) (arpstepj rs) (arpoffseti rs)
    (arpoffsetj rs) (shadow rs).

(** [setter proj v rs] builds the record [rs] with field [proj] replaced by
    [v]; every other field is the projection of [rs]. *)
Ltac setter proj v rs :=
  let e := eval cbv beta delta [eta] in (eta rs) in
  match eval pattern (proj rs) in e with
  | ?f _ => let t := eval cbv beta in (f v) in exact t
  end.

Definition set_pc (v : Z) (rs : RegisterState) : RegisterState :=
  ltac:(setter pc v rs).
Definition set_sp (v : Z) (rs : RegisterState) : RegisterState :=
  ltac:(setter sp v rs).
Definition set_a (v : Z -> Z) (rs : RegisterState) : RegisterState :=
  ltac:(setter a v rs).
Definition set_b (v : Z -> Z) (rs : RegisterState) : RegisterState :=
  ltac:(setter b v rs).
Definition set_p (v : Z -> Z) (rs : RegisterState) : RegisterState :=
  ltac:(setter p v rs).
Definition set_psign (v : Z -> bool) (rs : RegisterState) : RegisterState :=
  ltac:(setter psign v rs).
Definition set_ps (v : Z -> Z) (rs : RegisterState) : RegisterState :=
  ltac:(setter ps v rs).
Definition set_x (v : Z -> Z) (rs : RegisterState) : RegisterState :=
  ltac:(setter x v rs).
Definition set_y (v : Z -> Z) (rs : RegisterState) : RegisterState :=
  ltac:(setter y v rs).
Definition set_ym (v : Z) (rs : RegisterState) : RegisterState :=
  ltac:(setter ym v rs).
Definition set_r (v : Z -> Z) (rs : RegisterState) : RegisterState :=
  ltac:(setter r v rs).
Definition set_sv (v : Z) (rs : RegisterState) : RegisterState :=
  ltac:(setter sv v rs).
Definition set_mixp (v : Z) (rs : RegisterState) : RegisterState :=
  ltac:(setter mixp v rs).
Definition set_repc (v : Z) (rs : RegisterState) : RegisterState :=
  ltac:(setter repc v rs).
Definition set_rep (v : bool) (rs : RegisterState) : RegisterState :=
  ltac:(setter rep v rs).
Definition set_bcn (v : Z) (rs : RegisterState) : RegisterState :=
  ltac:(setter bcn v rs).
Definition set_lp (v : bool) (rs : RegisterState) : RegisterState :=
  ltac:(setter lp v rs).
Definition set_bkrep_stack (v : Z -> BlockRepeatFrame) (rs : RegisterState) : RegisterState :=
  ltac:(setter bkrep_stack v rs).
Definition set_fz (v : bool) (rs : RegisterState) : RegisterState :=
  ltac:(setter fz v rs).
Definition set_fm (v : bool) (rs : RegisterState) : RegisterState :=
  ltac:(setter fm v rs).
Definition set_fn (v : bool) (rs : RegisterState) : RegisterState :=
  ltac:(setter fn v rs).
Definition set_fv (v : bool) (rs : RegisterState) : RegisterState :=
  ltac:(setter fv v rs).
Definition set_fe (v : bool) (rs : RegisterState) : RegisterState :=
  ltac:(setter fe v rs).
Definition set_fc (v : Z -> bool) (rs : RegisterState) : RegisterState :=
  ltac:(setter fc v rs).
Definition set_flv (v : bool) (rs : RegisterState) : RegisterState :=
  ltac:(setter flv v rs).
Definition set_fls (v : bool) (rs : RegisterState) : RegisterState :=
  ltac:(setter fls v rs).
Definition set_fr (v : bool) (rs : RegisterState) : RegisterState :=
  ltac:(setter fr v rs).
Definition set_vtr (v : Z -> Z) (rs : RegisterState) : RegisterState :=
  ltac:(setter vtr v rs).
Definition set_ie (v : bool) (rs : RegisterState) : RegisterState :=
  ltac:(setter ie v rs).
Definition set_im (v : Z -> bool) (rs : RegisterState) : RegisterState :=
  ltac:(setter im v rs).
Definition set_ip (v : Z -> bool) (rs : RegisterState) : RegisterState :=
  ltac:(setter ip v rs).
Definition set_ic (v : Z -> bool) (rs : RegisterState) : RegisterState :=
  ltac:(setter ic v rs).
Definition set_vim (v : bool) (rs : RegisterState) : RegisterState :=
  ltac:(setter vim v rs).
Definition set_vip (v : bool) (rs : RegisterState) : RegisterState :=
  ltac:(setter vip v rs).
Definition set_vic (v : bool) (rs : RegisterState) : RegisterState :=
  ltac:(setter vic v rs).
Definition set_viaddr (v : Z) (rs : RegisterState) : RegisterState :=
  ltac:(setter viaddr v rs).
Definition set_stepi (v : Z) (rs : RegisterState) : RegisterState :=
  ltac:(setter stepi v rs).
Definition set_stepj (v : Z) (rs : RegisterState) : RegisterState :=
  ltac:(setter stepj v rs).
Definition set_stepi0 (v : Z) (rs : RegisterState) : RegisterState :=
  ltac:(setter stepi0 v rs).
Definition set_stepj0 (v : Z) (rs : RegisterState) : RegisterState :=
  ltac:(setter stepj0 v rs).
Definition set_modi (v : Z) (rs : RegisterState) : RegisterState :=
  ltac:(setter modi v rs).
Definition set_modj (v : Z) (rs : RegisterState) : RegisterState :=
  ltac:(setter modj v rs).
Definition set_stepib (v : Z) (rs : RegisterState) : RegisterState :=
  ltac:(setter stepib v rs).
Definition set_stepjb (v : Z) (rs : RegisterState) : RegisterState :=
  ltac:(setter stepjb v rs).
Definition set_stepi0b (v : Z) (rs : RegisterState) : RegisterState :=
  ltac:(setter stepi0b v rs).
Definition set_stepj0b (v : Z) (rs : RegisterState) : RegisterState :=
  ltac:(setter stepj0b v rs).
Definition set_modib (v : Z) (rs : RegisterState) : RegisterState :=
  ltac:(setter modib v rs).
Definition set_modjb (v : Z) (rs : RegisterState) : RegisterState :=
  ltac:(setter modjb v rs).
Definition set_r0b (v : Z) (rs : RegisterState) : RegisterState :=
  ltac:(setter r0b v rs).
Definition set_r1b (v : Z) (rs : RegisterState) : RegisterState :=
  ltac:(setter r1b v rs).
Definition set_r4b (v : Z) (rs : RegisterState) : RegisterState :=
  ltac:(setter r4b v rs).
Definition set_r7b (v : Z) (rs : RegisterState) : RegisterState :=
  ltac:(setter r7b v rs).
Definition set_s (v : Z) (rs : RegisterState) : RegisterState :=
  ltac:(setter s v rs).
Definition set_sar (v : Z -> bool) (rs : RegisterState) : RegisterState :=
  ltac:(setter sar v rs).
Definition set_brv (v : Z -> bool) (rs : RegisterState) : RegisterState :=
  ltac:(setter brv v rs).
Definition set_m (v : Z -> bool) (rs : RegisterState) : RegisterState :=
  ltac:(setter m v rs).
Definition set_movpd (v : Z) (rs : RegisterState) : RegisterState :=
  ltac:(setter movpd v rs).
Definition set_page (v : Z) (rs : RegisterState) : RegisterState :=
  ltac:(setter page v rs).
Definition set_pc_endian (v : Z) (rs : RegisterState) : RegisterState :=
  ltac:(setter pc_endian v rs).
Definition set_bankstep (v : Z) (rs : RegisterState) : RegisterState :=
  ltac:(setter bankstep v rs).
Definition set_legacy_mod (v : bool) (rs : RegisterState) : RegisterState :=
  ltac:(setter legacy_mod v rs).
Definition set_r3z (v : bool) (rs : RegisterState) : RegisterState :=
  ltac:(setter r3z v rs).
Definition set_r7z (v : bool) (rs : RegisterState) : RegisterState :=
  ltac:(setter r7z v rs).
Definition set_arstep (v : Z -> Z) (rs : RegisterState) : RegisterState :=
  ltac:(setter arstep v rs).
Definition set_aroffset (v : Z -> Z) (rs : RegisterState) : RegisterState :=
  ltac:(setter aroffset v rs).
Definition set_arrn (v : Z -> Z) (rs : RegisterState) : RegisterState :=
  ltac:(setter arrn v rs).
Definition set_arprni (v : Z -> Z) (rs : RegisterState) : RegisterState :=
  ltac:(setter arprni v rs).
Definition set_arprnj (v : Z -> Z) (rs : RegisterState) : RegisterState :=
  ltac:(setter arprnj v rs).
Definition set_arpstepi (v : Z -> Z) (rs : RegisterState) : RegisterState :=
  ltac:(setter arpstepi v rs).
Definition set_arpstepj (v : Z -> Z) (rs : RegisterState) : RegisterState :=
  ltac:(setter arpstepj v rs).
Definition set_arpoffseti (v : Z -> Z) (rs : RegisterState) : RegisterState :=
  ltac:(setter arpoffseti v rs).
Definition set_arpoffsetj (v : Z -> Z) (rs : RegisterState) : RegisterState :=
  ltac:(setter arpoffsetj v rs).
Definition set_shadow (v : Z -> Z) (rs : RegisterState) : RegisterState :=
  ltac:(setter shadow v rs).
End regs.
Abbreviation RegisterState := regs.RegisterState.

(* ================================================================= *)
(** ** Memory and the machine state *)

(** Modelled from the spec: the memory interface ([memory_interface.h] is
    not part of the sources at hand) offers [DataRead(addr16) -> u16],
    [DataWrite(addr16, u16)], [ProgramRead(addr18) -> u16] and
    [ProgramWrite(addr18, u16)]; it is modelled as two word stores. *)
Record MemoryInterface : Type := { data : Z -> Z; prog : Z -> Z }.

Record Machine : Type := { rf : RegisterState; mem : MemoryInterface }.

(** The outcome of running interpreter code: it returns a value, or a C++
    [throw] leaves it with the message thrown.  Both carry the machine
    state at that point. *)
Inductive Outcome (A : Type) : Type :=
| Ok (v : A) (mc : Machine)
| Throw (msg : string) (mc : Machine).
Arguments Ok {A} v mc.
Arguments Throw {A} msg mc.

(** Modelled from the spec: the reset state.  "All registers zero except
    the implementation must set sata=1 ...; lp=0, rep=0, ie=0, all ip=0,
    sp=0, pc=0 ...; treat unset fields as zero."  The static registers
    [sat], [sata] and [hwm] of the spec are not fields of the register file
    the interpreter at hand reads. *)
Definition reset_frame : BlockRepeatFrame := {| start := 0; end_ := 0; lc := 0 |}.
Definition reset_regs : RegisterState :=
  let z := fun _ : Z => 0 in
  let f := fun _ : Z => false in
  regs.mk 0 0 z z z f z z z 0 z 0 0 0 false 0 false (fun _ => reset_frame)
    false false false false false f false false false z
    false f f f false false false 0
    0 0 0 0 0 0 0 0 0 0 0 0 0 0 0 0
    0 f f f 0 0 0 0 false false false z z z z z z z z z z.
Definition reset_mem : MemoryInterface := {| data := fun _ => 0; prog := fun _ => 0 |}.
Definition reset_machine : Machine := {| rf := reset_regs; mem := reset_mem |}.

Definition M (A : Type) : Type := Machine -> Outcome A.

(** Handlers return nothing: [M void]. *)
Abbreviation void := Datatypes.unit.

Definition ret {A : Type} (v : A) : M A := fun mc => Ok v mc.

Definition bind {A B : Type} (c : M A) (k : A -> M B) : M B :=
  fun mc => match c mc with
            | Ok v mc' => k v mc'
            | Throw msg mc' => Throw msg mc'
            end.

Definition throw {A : Type} (msg : string) : M A := fun mc => Throw msg mc.

(** A point where the C++ program has undefined behaviour (an access
    outside a [std::array]).  The language says nothing about what the
    program does from there on, so the model stops there: the outcome is
    [Throw undefined_behaviour] with the state reached so far, under a
    message that no [throw] of the source carries. *)
Definition undefined_behaviour : string := "undefined behaviour".

Notation "x <- c1 ;; c2" := (bind c1 (fun x => c2))
  (at level 61, c1 at next level, right associativity).
Notation "' pat <- c1 ;; c2" := (bind c1 (fun x => match x with pat => c2 end))
  (at level 61, pat pattern, c1 at next level, right associativity).
Notation "c1 ;; c2" := (bind c1 (fun _ => c2))
  (at level 61, right associativity).

(** The state an outcome ends in. *)
Definition final {A : Type} (o : Outcome A) : Machine :=
  match o with Ok _ mc => mc | Throw _ mc => mc end.

(** Reading and updating the register file. *)
Definition get_regs : M RegisterState := fun mc => Ok (rf mc) mc.
Definition gets {A : Type} (f : RegisterState -> A) : M A := fun mc => Ok (f (rf mc)) mc.
Definition modify (f : RegisterState -> RegisterState) : M void :=
  fun mc => Ok tt {| rf := f (rf mc); mem := mem mc |}.

Definition DataRead (addr : Z) : M Z := fun mc => Ok (data (mem mc) addr) mc.
Definition DataWrite (addr value : Z) : M void :=
  fun mc => Ok tt {| rf := rf mc;
                     mem := {| data := upd (data (mem mc)) addr value;
                               prog := prog (mem mc) |} |}.
Definition ProgramRead (addr : Z) : M Z := fun mc => Ok (prog (mem mc) addr) mc.
Definition ProgramWrite (addr value : Z) : M void :=
  fun mc => Ok tt {| rf := rf mc;
                     mem := {| data := data (mem mc);
                               prog := upd (prog (mem mc)) addr value |} |}.

(** [when c body]: an [if] without [else]. *)
Definition when (c : bool) (body : M void) : M void := if c then body else ret tt.

(** C-like spelling of the bit operations on [Z]. *)
Declare Scope bits_scope.
Infix ">>" := Z.shiftr (at level 32, left associativity) : bits_scope.
Infix "<<" := Z.shiftl (at level 32, left associativity) : bits_scope.
Infix ".&" := Z.land (at level 40, left associativity) : bits_scope.
Infix ".|" := Z.lor (at level 50, left associativity) : bits_scope.
Infix ".^" := Z.lxor (at level 50, left associativity) : bits_scope.
Local Open Scope bits_scope.

(** [nz v] is the C++ conversion of an integer to [bool]. *)
Definition nz (v : Z) : bool := negb (v =? 0).

(** Assignments to one element of an array field. *)
Definition set_a (i v : Z) (rs : RegisterState) := regs.set_a (upd (regs.a rs) i v) rs.
Definition set_b (i v : Z) (rs : RegisterState) := regs.set_b (upd (regs.b rs) i v) rs.
Definition set_r (i v : Z) (rs : RegisterState) := regs.set_r (upd (regs.r rs) i v) rs.
Definition set_x (i v : Z) (rs : RegisterState) := regs.set_x (upd (regs.x rs) i v) rs.
Definition set_y (i v : Z) (rs : RegisterState) := regs.set_y (upd (regs.y rs) i v) rs.
Definition set_p (i v : Z) (rs : RegisterState) := regs.set_p (upd (regs.p rs) i v) rs.
Definition set_ps (i v : Z) (rs : RegisterState) := regs.set_ps (upd (regs.ps rs) i v) rs.
Definition set_vtr (i v : Z) (rs : RegisterState) := regs.set_vtr (upd (regs.vtr rs) i v) rs.
Definition set_psign (i : Z) (v : bool) (rs : RegisterState) :=
  regs.set_psign (upd (regs.psign rs) i v) rs.
Definition set_fc (i : Z) (v : bool) (rs : RegisterState) :=
  regs.set_fc (upd (regs.fc rs) i v) rs.
Definition set_ip (i : Z) (v : bool) (rs : RegisterState) :=
  regs.set_ip (upd (regs.ip rs) i v) rs.
Definition set_brv (i : Z) (v : bool) (rs : RegisterState) :=
  regs.set_brv (upd (regs.brv rs) i v) rs.
Definition set_frame (i : Z) (v : BlockRepeatFrame) (rs : RegisterState) :=
  regs.set_bkrep_stack (upd (regs.bkrep_stack rs) i v) rs.

(** Modelled from the spec: [GetPcL], [GetPcH] and [SetPC] of [register.h]
    (not part of the sources at hand): "PC is split to l = pc & 0xFFFF,
    h = (pc >> 16) & 3", and "Pop mirrors push". *)
Definition GetPcL (rs : RegisterState) : Z := regs.pc rs .& 0xFFFF.
Definition GetPcH (rs : RegisterState) : Z := (regs.pc rs >> 16) .& 3.
Definition SetPC (low high : Z) (rs : RegisterState) : RegisterState :=
  regs.set_pc (low .| (high << 16)) rs.

(** The [OffsetValue] a stored 16-bit offset code is cast to; a code other
    than 0, 1 and 3 takes the last branch of [OffsetAddress]. *)
Definition OffsetValue_of (v : Z) : OffsetValue :=
  match v with
  | 0 => OffsetValue.Zero
  | 1 => OffsetValue.PlusOne
  | 3 => OffsetValue.MinusOneDmod
  | _ => OffsetValue.MinusOne
  end.

(* ================================================================= *)
(** ** The interpreter *)

(** What [interpreter.h] uses of [register.h] and [oprand.h], neither of
    which is part of the sources at hand: the condition codes and their
    evaluation, the bit-packed pseudo registers, the loop counter accessor
    [Lc()], the shadow and bank operations, and the register an [Ab]
    operand's storage names.  The interpreter is written against this
    interface. *)
Class RegisterFile : Type := {
  Cond : Type;
  ConditionPass : RegisterState -> Cond -> bool;
  Get : Pseudo.t -> RegisterState -> Z;
  Set_ : Pseudo.t -> Z -> RegisterState -> RegisterState;
  GetLc : RegisterState -> Z;
  SetLc : Z -> RegisterState -> RegisterState;
  ShadowStore : RegisterState -> RegisterState;
  ShadowRestore : RegisterState -> RegisterState;
  ShadowSwap : RegisterState -> RegisterState;
  SwapAllArArp : RegisterState -> RegisterState;
  SwapAr : Z -> RegisterState -> RegisterState;
  SwapArp : Z -> RegisterState -> RegisterState;
  Ab_GetName : Z -> RegName
}.

Section Interpreter.

Context {RF : RegisterFile}.

Definition GetAcc (name : RegName) : M Z :=
  match name with
  | RegName.a0 | RegName.a0h | RegName.a0l | RegName.a0e => gets (fun rs => regs.a rs 0)
  | RegName.a1 | RegName.a1h | RegName.a1l | RegName.a1e => gets (fun rs => regs.a rs 1)
  | RegName.b0 | RegName.b0h | RegName.b0l | RegName.b0e => gets (fun rs => regs.b rs 0)
  | RegName.b1 | RegName.b1h | RegName.b1l | RegName.b1e => gets (fun rs => regs.b rs 1)
  | _ => throw "nope"
  end.

Definition SaturateAcc_Unconditional_NoFlag (value : Z) : Z :=
  if negb (value =? SignExtend64 32 value) then
    if nz (value >> 39) then 0xFFFFFFFF80000000 else 0x000000007FFFFFFF
  else value.

Definition SaturateAcc_Unconditional (value : Z) : M Z :=
  if negb (value =? SignExtend64 32 value) then
    modify (regs.set_fls true) ;;
    if nz (value >> 39) then ret 0xFFFFFFFF80000000 else ret 0x000000007FFFFFFF
  else
    (* note: fls doesn't change value otherwise *)
    ret value.

Definition SaturateAcc (value : Z) (storing : bool) : M Z :=
  sar <- gets regs.sar ;;
  if negb (sar (Z.b2z storing)) then SaturateAcc_Unconditional value
  else ret value.

Definition SaturateAcc_NoFlag (value : Z) (storing : bool) : M Z :=
  sar <- gets regs.sar ;;
  if negb (sar (Z.b2z storing)) then ret (SaturateAcc_Unconditional_NoFlag value)
  else ret value.

Definition SetAccFlag (value : Z) : M void :=
  if negb (value =? SignExtend64 40 value) then throw "remove this check later"
  else
    modify (regs.set_fz (value =? 0)) ;;
    modify (regs.set_fm (nz (value >> 39))) ;;
    modify (regs.set_fe (negb (value =? SignExtend64 32 value))) ;;
    let bit31 := (value >> 31) .& 1 in
    let bit30 := (value >> 30) .& 1 in
    modify (fun rs => regs.set_fn (regs.fz rs || (negb (regs.fe rs) && nz (bit31 .^ bit30))) rs).

Definition SetAcc_Simple (name : RegName) (value : Z) : M void :=
  match name with
  | RegName.a0 | RegName.a0h | RegName.a0l | RegName.a0e => modify (set_a 0 value)
  | RegName.a1 | RegName.a1h | RegName.a1l | RegName.a1e => modify (set_a 1 value)
  | RegName.b0 | RegName.b0h | RegName.b0l | RegName.b0e => modify (set_b 0 value)
  | RegName.b1 | RegName.b1h | RegName.b1l | RegName.b1e => modify (set_b 1 value)
  | _ => throw "nope"
  end.

Definition SetAcc_ (name : RegName) (value : Z) (no_saturation : bool) : M void :=
  SetAccFlag value ;;
  value <- (if negb no_saturation then SaturateAcc value true else ret value) ;;
  SetAcc_Simple name value.

(** [SetAcc(name, value)] with the default [no_saturation = false]. *)
Definition SetAcc (name : RegName) (value : Z) : M void := SetAcc_ name value false.

Definition SetAcc_NoSaturation (name : RegName) (value : Z) : M void :=
  SetAcc_ name value true.

Definition ProductToBus32_NoShift (reg : RegName) : M Z :=
  unit <- match reg with
          | RegName.p0 => ret 0
          | RegName.p1 => ret 1
          | _ => throw "???"
          end ;;
  gets (fun rs => regs.p rs unit).

Definition ProductToBus40 (reg : RegName) : M Z :=
  unit <- match reg with
          | RegName.p0 => ret 0
          | RegName.p1 => ret 1
          | _ => throw "???"
          end ;;
  rs <- get_regs ;;
  let value := regs.p rs unit .| (Z.b2z (regs.psign rs unit) << 32) in
  ret (match regs.ps rs unit with
       | 0 => SignExtend64 33 value
       | 1 => SignExtend64 32 (value >> 1)
       | 2 => SignExtend64 34 (u64 (value << 1))
       | 3 => SignExtend64 35 (u64 (value << 2))
       | _ => value
       end).

Definition ProductFromBus32 (reg : RegName) (value : Z) : M void :=
  unit <- match reg with
          | RegName.p0 => ret 0
          | RegName.p1 => ret 1
          | _ => throw "???"
          end ;;
  modify (set_p unit value) ;;
  modify (set_psign unit (nz (value >> 31))).

Definition DoMultiplication (unit : Z) (x_sign y_sign : bool) : M void :=
  rs <- get_regs ;;
  let x := regs.x rs unit in
  let y := regs.y rs unit in
  let ym := regs.ym rs in
  let y := if (ym =? 1) || ((ym =? 3) && (unit =? 0)) then y >> 8
           else if (ym =? 2) || ((ym =? 3) && (unit =? 1)) then y .& 0xFF
           else y in
  let x := if x_sign then SignExtend32 16 x else x in
  let y := if y_sign then SignExtend32 16 y else y in
  modify (set_p unit (u32 (x * y))) ;;
  if x_sign || y_sign then
    modify (fun rs => set_psign unit (nz (regs.p rs unit >> 31)) rs)
  else
    modify (set_psign unit false).

Definition AddSub (a b : Z) (sub : bool) : M Z :=
  let a := a .& 0xFFFFFFFFFF in
  let b := b .& 0xFFFFFFFFFF in
  let result := u64 (if sub then a - b else a + b) in
  modify (set_fc 0 (nz ((result >> 40) .& 1))) ;;
  let b := if sub then not64 b else b in
  modify (regs.set_fv (nz (((not64 (a .^ b) .& (a .^ result)) >> 39) .& 1))) ;;
  fv <- gets regs.fv ;;
  when fv (modify (regs.set_flv true)) ;;
  ret (SignExtend64 40 result).

Definition RegToBus16_ (reg : RegName) (enable_sat_for_mov : bool) : M Z :=
  match reg with
  | RegName.a0 | RegName.a1 | RegName.b0 | RegName.b1 =>
      (* get aXl, but unlike using RegName::aXl, this does never saturate. *)
      v <- GetAcc reg ;; ret (v .& 0xFFFF)
  | RegName.a0l | RegName.a1l | RegName.b0l | RegName.b1l =>
      if enable_sat_for_mov then
        v <- GetAcc reg ;; v <- SaturateAcc v false ;; ret (v .& 0xFFFF)
      else
        v <- GetAcc reg ;; ret (v .& 0xFFFF)
  | RegName.a0h | RegName.a1h | RegName.b0h | RegName.b1h =>
      if enable_sat_for_mov then
        v <- GetAcc reg ;; v <- SaturateAcc v false ;; ret ((v >> 16) .& 0xFFFF)
      else
        v <- GetAcc reg ;; ret ((v >> 16) .& 0xFFFF)
  | RegName.a0e | RegName.a1e | RegName.b0e | RegName.b1e => throw "?"
  | RegName.r0 => gets (fun rs => regs.r rs 0)
  | RegName.r1 => gets (fun rs => regs.r rs 1)
  | RegName.r2 => gets (fun rs => regs.r rs 2)
  | RegName.r3 => gets (fun rs => regs.r rs 3)
  | RegName.r4 => gets (fun rs => regs.r rs 4)
  | RegName.r5 => gets (fun rs => regs.r rs 5)
  | RegName.r6 => gets (fun rs => regs.r rs 6)
  | RegName.r7 => gets (fun rs => regs.r rs 7)
  | RegName.x0 => gets (fun rs => regs.x rs 0)
  | RegName.x1 => gets (fun rs => regs.x rs 1)
  | RegName.y0 => gets (fun rs => regs.y rs 0)
  | RegName.y1 => gets (fun rs => regs.y rs 1)
  | RegName.p0 | RegName.p1 => throw "?"
  | RegName.p => v <- ProductToBus40 RegName.p0 ;; ret ((v >> 16) .& 0xFFFF)
  | RegName.pc => throw "?"
  | RegName.sp => gets regs.sp
  | RegName.sv => gets regs.sv
  | RegName.lc => gets GetLc
  | RegName.ar0 => gets (Get Pseudo.ar0)
  | RegName.ar1 => gets (Get Pseudo.ar1)
  | RegName.arp0 => gets (Get Pseudo.arp0)
  | RegName.arp1 => gets (Get Pseudo.arp1)
  | RegName.arp2 => gets (Get Pseudo.arp2)
  | RegName.arp3 => gets (Get Pseudo.arp3)
  | RegName.ext0 | RegName.ext1 | RegName.ext2 | RegName.ext3 => throw "?"
  | RegName.stt0 => gets (Get Pseudo.stt0)
  | RegName.stt1 => gets (Get Pseudo.stt1)
  | RegName.stt2 => gets (Get Pseudo.stt2)
  | RegName.st0 => gets (Get Pseudo.st0)
  | RegName.st1 => gets (Get Pseudo.st1)
  | RegName.st2 => gets (Get Pseudo.st2)
  | RegName.cfgi => gets (Get Pseudo.cfgi)
  | RegName.cfgj => gets (Get Pseudo.cfgj)
  | RegName.mod0 => gets (Get Pseudo.mod0)
  | RegName.mod1 => gets (Get Pseudo.mod1)
  | RegName.mod2 => gets (Get Pseudo.mod2)
  | RegName.mod3 => gets (Get Pseudo.mod3)
  | RegName.undefine => throw "?"
  end.

(** [RegToBus16(reg)] with the default [enable_sat_for_mov = false]. *)
Definition RegToBus16 (reg : RegName) : M Z := RegToBus16_ reg false.

Definition RegFromBus16 (reg : RegName) (value : Z) : M void :=
  match reg with
  | RegName.a0 | RegName.a1 | RegName.b0 | RegName.b1 =>
      SetAcc reg (SignExtend64 16 value)
  | RegName.a0l | RegName.a1l | RegName.b0l | RegName.b1l =>
      SetAcc reg value
  | RegName.a0h | RegName.a1h | RegName.b0h | RegName.b1h =>
      SetAcc reg (SignExtend64 32 (value << 16))
  | RegName.a0e | RegName.a1e | RegName.b0e | RegName.b1e => throw "?"
  | RegName.r0 => modify (set_r 0 value)
  | RegName.r1 => modify (set_r 1 value)
  | RegName.r2 => modify (set_r 2 value)
  | RegName.r3 => modify (set_r 3 value)
  | RegName.r4 => modify (set_r 4 value)
  | RegName.r5 => modify (set_r 5 value)
  | RegName.r6 => modify (set_r 6 value)
  | RegName.r7 => modify (set_r 7 value)
  | RegName.x0 => modify (set_x 0 value)
  | RegName.x1 => modify (set_x 1 value)
  | RegName.y0 => modify (set_y 0 value)
  | RegName.y1 => modify (set_y 1 value)
  | RegName.p0 | RegName.p1 => throw "?"
  | RegName.p => (* p0h *)
      modify (set_psign 0 (0x7FFF <? value)) ;;
      modify (fun rs => set_p 0 ((regs.p rs 0 .& 0xFFFF) .| u32 (value << 16)) rs)
  | RegName.pc => throw "?"
  | RegName.sp => modify (regs.set_sp value)
  | RegName.sv => modify (regs.set_sv value)
  | RegName.lc => modify (SetLc value)
  | RegName.ar0 => modify (Set_ Pseudo.ar0 value)
  | RegName.ar1 => modify (Set_ Pseudo.ar1 value)
  | RegName.arp0 => modify (Set_ Pseudo.arp0 value)
  | RegName.arp1 => modify (Set_ Pseudo.arp1 value)
  | RegName.arp2 => modify (Set_ Pseudo.arp2 value)
  | RegName.arp3 => modify (Set_ Pseudo.arp3 value)
  | RegName.ext0 | RegName.ext1 | RegName.ext2 | RegName.ext3 => throw "?"
  | RegName.stt0 => modify (Set_ Pseudo.stt0 value)
  | RegName.stt1 => modify (Set_ Pseudo.stt1 value)
  | RegName.stt2 => modify (Set_ Pseudo.stt2 value)
  | RegName.st0 => modify (Set_ Pseudo.st0 value)
  | RegName.st1 => modify (Set_ Pseudo.st1 value)
  | RegName.st2 => modify (Set_ Pseudo.st2 value)
  | RegName.cfgi => modify (Set_ Pseudo.cfgi value)
  | RegName.cfgj => modify (Set_ Pseudo.cfgj value)
  | RegName.mod0 => modify (Set_ Pseudo.mod0 value)
  | RegName.mod1 => modify (Set_ Pseudo.mod1 value)
  | RegName.mod2 => modify (Set_ Pseudo.mod2 value)
  | RegName.mod3 => modify (Set_ Pseudo.mod3 value)
  | RegName.undefine => throw "?"
  end.

Definition GetRnUnit (reg : RegName) : M Z :=
  match reg with
  | RegName.r0 => ret 0
  | RegName.r1 => ret 1
  | RegName.r2 => ret 2
  | RegName.r3 => ret 3
  | RegName.r4 => ret 4
  | RegName.r5 => ret 5
  | RegName.r6 => ret 6
  | RegName.r7 => ret 7
  | _ => throw "?"
  end.

Definition GetArRnUnit (arrn : Z) : M Z := gets (fun rs => regs.arrn rs arrn).

Definition GetArpRnUnit (arprn : Z) : M (Z * Z) :=
  gets (fun rs => (regs.arprni rs arprn, u16 (regs.arprnj rs arprn + 4))).

Definition ConvertArStep (arvalue : Z) : M StepValue :=
  match arvalue with
  | 0 => ret StepValue.Zero
  | 1 => ret StepValue.Increase
  | 2 => ret StepValue.Decrease
  | 3 => ret StepValue.PlusStep
  | 4 => ret StepValue.Increase2Mode1
  | 5 => ret StepValue.Decrease2Mode1
  | 6 => ret StepValue.Increase2Mode2
  | 7 => ret StepValue.Decrease2Mode2
  | _ => throw "???"
  end.

Definition GetArStep (arstep : Z) : M StepValue :=
  v <- gets (fun rs => regs.arstep rs arstep) ;; ConvertArStep v.

Definition GetArStepAlt (arstep : Z) : M StepValue :=
  v <- gets (fun rs => regs.arstep rs (arstep + 2)) ;; ConvertArStep v.

Definition GetArpStep (arpstepi arpstepj : Z) : M (StepValue * StepValue) :=
  vi <- gets (fun rs => regs.arpstepi rs arpstepi) ;;
  vj <- gets (fun rs => regs.arpstepj rs arpstepj) ;;
  si <- ConvertArStep vi ;;
  sj <- ConvertArStep vj ;;
  ret (si, sj).

Definition GetArOffset (arstep : Z) : M OffsetValue :=
  gets (fun rs => OffsetValue_of (regs.aroffset rs arstep)).

Definition GetArpOffset (arpstepi arpstepj : Z) : M (OffsetValue * OffsetValue) :=
  gets (fun rs => (OffsetValue_of (regs.arpoffseti rs arpstepi),
                   OffsetValue_of (regs.arpoffsetj rs arpstepj))).

Definition RnAddress (unit value : Z) : M Z :=
  rs <- get_regs ;;
  let ret_ := u16 value in
  if regs.brv rs unit && negb (regs.m rs unit) then ret (BitReverse ret_) else ret ret_.

(** The loop [for (i = 0; i < 9; ++i) mask |= m >> i], started from
    [mask = init]. *)
Definition smear (init m : Z) : Z :=
  fold_left (fun mask i => mask .| (m >> i)) [0; 1; 2; 3; 4; 5; 6; 7; 8] init.

Definition OffsetAddress_ (rs : RegisterState) (unit address : Z) (offset : OffsetValue)
    (dmod : bool) : Z :=
  match offset with
  | OffsetValue.Zero => address
  | OffsetValue.MinusOneDmod => u16 (address - 1)
  | _ =>
      let emod := regs.m rs unit && negb (regs.brv rs unit) && negb dmod in
      let mod_ := if unit <? 4 then regs.modi rs else regs.modj rs in
      let mask := smear 1 mod_ in (* mod = 0 still have one bit mask *)
      match offset with
      | OffsetValue.PlusOne =>
          if negb emod then u16 (address + 1)
          else if (address .& mask) =? mod_ then address .& not16 mask
          else u16 (address + 1)
      | _ => (* OffsetValue::MinusOne *)
          if negb emod then u16 (address - 1)
          else if (address .& mask) =? 0 then address .| mod_
          else u16 (address - 1)
      end
  end.

Definition OffsetAddress (unit address : Z) (offset : OffsetValue) : M Z :=
  gets (fun rs => OffsetAddress_ rs unit address offset false).
Definition OffsetAddress_dmod (unit address : Z) (offset : OffsetValue) (dmod : bool) : M Z :=
  gets (fun rs => OffsetAddress_ rs unit address offset dmod).

(** One pass of the body of the [for] loop of [StepAddress]. *)
Definition StepAddress_iteration (legacy step2_mode2 : bool) (mod_ s address : Z) : Z :=
  if legacy || step2_mode2 then
    let negative := nz (s >> 15) in
    let m := if negative then mod_ .| not16 s else mod_ .| s in
    let mask := smear 0 m in
    let next :=
      if negb negative then
        if ((address .& mask) =? mod_) && (negb step2_mode2 || negb (mod_ =? mask)) then 0
        else (address + s) .& mask
      else
        if ((address .& mask) =? 0) && (negb step2_mode2 || negb (mod_ =? mask)) then mod_
        else (address + s) .& mask in
    (address .& not16 mask) .| next
  else
    let mask := smear 0 mod_ in
    let next :=
      if s <? 0x8000 then
        let next := (address + s) .& mask in
        if next =? ((mod_ + 1) .& mask) then 0 else next
      else
        let next := address .& mask in
        let next := if next =? 0 then u16 (mod_ + 1) else next in
        let next := u16 (next + s) in
        next .& mask in
    (address .& not16 mask) .| next.

Definition StepAddress (rs : RegisterState) (unit address : Z) (step : StepValue)
    (dmod : bool) : Z :=
  let legacy := regs.legacy_mod rs in
  let '(s, step2_mode1, step2_mode2) :=
    match step with
    | StepValue.Zero => (0, false, false)
    | StepValue.Increase => (1, false, false)
    | StepValue.Decrease => (0xFFFF, false, false)
    | StepValue.Increase2Mode1 => (2, negb legacy, false)
    | StepValue.Decrease2Mode1 => (0xFFFE, negb legacy, false)
    | StepValue.Increase2Mode2 => (2, false, negb legacy)
    | StepValue.Decrease2Mode2 => (0xFFFE, false, negb legacy)
    | StepValue.PlusStep =>
        let s := if regs.brv rs unit && negb (regs.m rs unit)
                 then (if unit <? 4 then regs.stepi0 rs else regs.stepj0 rs)
                 else SignExtend16 7 (if unit <? 4 then regs.stepi rs else regs.stepj rs) in
        let s := if (regs.bankstep rs =? 1) && negb legacy
                 then let s := if unit <? 4 then regs.stepi0 rs else regs.stepj0 rs in
                      if regs.m rs unit then SignExtend16 9 s else s
                 else s in
        (s, false, false)
    end in
  if s =? 0 then address
  else if negb dmod && negb (regs.brv rs unit) && regs.m rs unit then
    let mod_ := if unit <? 4 then regs.modi rs else regs.modj rs in
    if mod_ =? 0 then address
    else if (mod_ =? 1) && step2_mode2 then address
    else if step2_mode1 then
      let s := SignExtend16 15 (s >> 1) in
      StepAddress_iteration legacy step2_mode2 mod_ s
        (StepAddress_iteration legacy step2_mode2 mod_ s address)
    else StepAddress_iteration legacy step2_mode2 mod_ s address
  else u16 (address + s).

Definition RnAndModify_ (unit : Z) (step : StepValue) (dmod : bool) : M Z :=
  rs <- get_regs ;;
  let ret_ := regs.r rs unit in
  if (((unit =? 3) && regs.r3z rs) || ((unit =? 7) && regs.r7z rs)) &&
     match step with
     | StepValue.Increase2Mode1 | StepValue.Decrease2Mode1
     | StepValue.Increase2Mode2 | StepValue.Decrease2Mode2 => false
     | _ => true
     end
  then modify (set_r unit 0) ;; ret ret_
  else modify (fun rs => set_r unit (StepAddress rs unit (regs.r rs unit) step dmod) rs) ;;
       ret ret_.

(** [RnAndModify(unit, step)] with the default [dmod = false]. *)
Definition RnAndModify (unit : Z) (step : StepValue) : M Z := RnAndModify_ unit step false.

Definition RnAddressAndModify_ (unit : Z) (step : StepValue) (dmod : bool) : M Z :=
  v <- RnAndModify_ unit step dmod ;; RnAddress unit v.

Definition RnAddressAndModify (unit : Z) (step : StepValue) : M Z :=
  RnAddressAndModify_ unit step false.

(** [--regs.sp] and [regs.sp++]. *)
Definition predec_sp : M Z :=
  modify (fun rs => regs.set_sp (u16 (regs.sp rs - 1)) rs) ;; gets regs.sp.
Definition postinc_sp : M Z :=
  old <- gets regs.sp ;; modify (fun rs => regs.set_sp (u16 (regs.sp rs + 1)) rs) ;; ret old.

Definition PushPC : M void :=
  l <- gets GetPcL ;;
  h <- gets GetPcH ;;
  pc_endian <- gets regs.pc_endian ;;
  if pc_endian =? 1 then
    sp <- predec_sp ;; DataWrite sp h ;;
    sp <- predec_sp ;; DataWrite sp l
  else
    sp <- predec_sp ;; DataWrite sp l ;;
    sp <- predec_sp ;; DataWrite sp h.

Definition PopPC : M void :=
  pc_endian <- gets regs.pc_endian ;;
  if pc_endian =? 1 then
    sp <- postinc_sp ;; l <- DataRead sp ;;
    sp <- postinc_sp ;; h <- DataRead sp ;;
    modify (SetPC l h)
  else
    sp <- postinc_sp ;; h <- DataRead sp ;;
    sp <- postinc_sp ;; l <- DataRead sp ;;
    modify (SetPC l h).

Definition SetPC_Save (new_pc : Z) : M void :=
  if 0x40000 <=? new_pc then throw "pc flies"
  else modify (regs.set_pc new_pc).

Definition undefined (opcode : Z) : M void := throw "undefined code!".

Definition nop : M void := ret tt.

Definition norm (a b : RegName) (bs : StepValue) : M void :=
  fn <- gets regs.fn ;;
  when (negb fn) (
    value <- GetAcc a ;;
    modify (regs.set_fv (negb (value =? SignExtend64 39 value))) ;;
    fv <- gets regs.fv ;;
    when fv (modify (regs.set_flv true)) ;;
    let value := u64 (value << 1) in
    modify (set_fc 0 (nz (value .& (1 << 40)))) ;;
    let value := SignExtend64 40 value in
    SetAcc_NoSaturation a value ;;
    unit <- GetRnUnit b ;;
    RnAndModify unit bs ;;
    modify (fun rs => regs.set_fr (regs.r rs unit =? 0) rs)).

Definition swap (swap : SwapTypeValue) : M void :=
  '(s0, d0, s1, d1) <-
    match swap with
    | SwapTypeValue.a0b0 => ret (RegName.a0, RegName.b0, RegName.b0, RegName.a0)
    | SwapTypeValue.a0b1 => ret (RegName.a0, RegName.b1, RegName.b1, RegName.a0)
    | SwapTypeValue.a1b0 => ret (RegName.a1, RegName.b0, RegName.b0, RegName.a1)
    | SwapTypeValue.a1b1 => ret (RegName.a1, RegName.b1, RegName.b1, RegName.a1)
    | SwapTypeValue.a0b0a1b1 =>
        u <- GetAcc RegName.a1 ;;
        v <- GetAcc RegName.b1 ;;
        SetAcc RegName.a1 v ;;
        SetAcc RegName.b1 u ;;
        ret (RegName.a0, RegName.b0, RegName.b0, RegName.a0)
    | SwapTypeValue.a0b1a1b0 =>
        u <- GetAcc RegName.a1 ;;
        v <- GetAcc RegName.b0 ;;
        SetAcc RegName.a1 v ;;
        SetAcc RegName.b0 u ;;
        ret (RegName.a0, RegName.b1, RegName.b1, RegName.a0)
    | SwapTypeValue.a0b0a1 => ret (RegName.a0, RegName.b0, RegName.b0, RegName.a1)
    | SwapTypeValue.a0b1a1 => ret (RegName.a0, RegName.b1, RegName.b1, RegName.a1)
    | SwapTypeValue.a1b0a0 => ret (RegName.a1, RegName.b0, RegName.b0, RegName.a0)
    | SwapTypeValue.a1b1a0 => ret (RegName.a1, RegName.b1, RegName.b1, RegName.a0)
    | SwapTypeValue.b0a0b1 => ret (RegName.a0, RegName.b1, RegName.b0, RegName.a0)
    | SwapTypeValue.b0a1b1 => ret (RegName.a1, RegName.b1, RegName.b0, RegName.a1)
    | SwapTypeValue.b1a0b0 => ret (RegName.a0, RegName.b0, RegName.b1, RegName.a0)
    | SwapTypeValue.b1a1b0 => ret (RegName.a1, RegName.b0, RegName.b1, RegName.a1)
    | SwapTypeValue.reserved => throw "what"
    end ;;
  u <- GetAcc s0 ;;
  v <- GetAcc s1 ;;
  SetAcc d0 u ;;
  SetAcc d1 v. (* only this one affects flags (except for fl) *)

Definition trap : M void := throw "unimplemented".

Definition SumBase_value (base : SumBase) (acc : RegName) : M Z :=
  match base with
  | SumBase.Zero => ret 0
  | SumBase.Acc => GetAcc acc
  | SumBase.Sv => sv <- gets regs.sv ;; ret (SignExtend64 32 (sv << 16))
  | SumBase.SvRnd => sv <- gets regs.sv ;; ret (SignExtend64 32 (sv << 16) .| 0x8000)
  end.

Definition ProductSum (base : SumBase) (acc : RegName) (p0 p1 : ProductSumConfig) : M void :=
  value_a <- ProductToBus40 RegName.p0 ;;
  value_b <- ProductToBus40 RegName.p1 ;;
  let value_a := if align p0 then SignExtend64 24 (value_a >> 16) else value_a in
  let value_b := if align p1 then SignExtend64 24 (value_b >> 16) else value_b in
  value_c <- SumBase_value base acc ;;
  result <- AddSub value_c value_a (sub p0) ;;
  temp_c <- gets (fun rs => regs.fc rs 0) ;;
  temp_v <- gets regs.fv ;;
  result <- AddSub result value_b (sub p1) ;;
  (* Is this correct? *)
  (if Bool.eqb (sub p0) (sub p1) then
     modify (fun rs => set_fc 0 (regs.fc rs 0 || temp_c) rs) ;;
     modify (fun rs => regs.set_fv (regs.fv rs || temp_v) rs)
   else
     modify (fun rs => set_fc 0 (xorb (regs.fc rs 0) temp_c) rs) ;;
     modify (fun rs => regs.set_fv (xorb (regs.fv rs) temp_v) rs)) ;;
  SetAcc acc result.

Definition AlmGeneric (op : AlmOp) (a : Z) (b : RegName) : M void :=
  match op with
  | AlmOp.Or =>
      value <- GetAcc b ;;
      let value := value .| a in
      let value := SignExtend64 40 value in
      SetAcc_NoSaturation b value
  | AlmOp.And =>
      value <- GetAcc b ;;
      let value := value .& a in
      let value := SignExtend64 40 value in
      SetAcc_NoSaturation b value
  | AlmOp.Xor =>
      value <- GetAcc b ;;
      let value := value .^ a in
      let value := SignExtend64 40 value in
      SetAcc_NoSaturation b value
  | AlmOp.Tst0 =>
      value <- GetAcc b ;;
      let value := value .& 0xFFFF in
      modify (regs.set_fz ((value .& a) =? 0))
  | AlmOp.Tst1 =>
      value <- GetAcc b ;;
      let value := value .& 0xFFFF in
      modify (regs.set_fz ((value .& not64 a) =? 0))
  | AlmOp.Cmp | AlmOp.Cmpu | AlmOp.Sub | AlmOp.Subl | AlmOp.Subh
  | AlmOp.Add | AlmOp.Addl | AlmOp.Addh =>
      value <- GetAcc b ;;
      let sub := negb (match op with
                       | AlmOp.Add | AlmOp.Addl | AlmOp.Addh => true
                       | _ => false
                       end) in
      result <- AddSub value a sub ;;
      match op with
      | AlmOp.Cmp | AlmOp.Cmpu => SetAccFlag result
      | _ => SetAcc b result
      end
  | AlmOp.Msu =>
      value <- GetAcc b ;;
      product <- ProductToBus40 RegName.p0 ;;
      result <- AddSub value product true ;;
      SetAcc b result ;;
      modify (set_x 0 (a .& 0xFFFF)) ;;
      DoMultiplication 0 true true
  | AlmOp.Sqra =>
      value <- GetAcc b ;;
      product <- ProductToBus40 RegName.p0 ;;
      result <- AddSub value product false ;;
      SetAcc b result ;;
      (* fallthrough *)
      modify (set_x 0 (a .& 0xFFFF)) ;;
      modify (fun rs => set_y 0 (regs.x rs 0) rs) ;;
      DoMultiplication 0 true true
  | AlmOp.Sqr =>
      modify (set_x 0 (a .& 0xFFFF)) ;;
      modify (fun rs => set_y 0 (regs.x rs 0) rs) ;;
      DoMultiplication 0 true true
  end.

Definition ExtendOprandForAlm (op : AlmOp) (a : Z) : Z :=
  match op with
  | AlmOp.Cmp | AlmOp.Sub | AlmOp.Add => SignExtend64 16 a
  | AlmOp.Addh | AlmOp.Subh => SignExtend64 32 (a << 16)
  | _ => a
  end.

(** The four overloads of [LoadFromMemory] and [StoreToMemory]. *)
Definition LoadFromMemory_MemImm8 (addr : Z) : M Z :=
  page <- gets regs.page ;; DataRead (u16 (addr + (page << 8))).
Definition LoadFromMemory_MemImm16 (addr : Z) : M Z := DataRead addr.
Definition LoadFromMemory_MemR7Imm16 (addr : Z) : M Z :=
  r7 <- gets (fun rs => regs.r rs 7) ;; DataRead (u16 (addr + r7)).
Definition LoadFromMemory_MemR7Imm7s (addr : Z) : M Z :=
  r7 <- gets (fun rs => regs.r rs 7) ;; DataRead (u16 (SignExtend16 7 addr + r7)).

Definition StoreToMemory_MemImm8 (addr value : Z) : M void :=
  page <- gets regs.page ;; DataWrite (u16 (addr + (page << 8))) value.
Definition StoreToMemory_MemImm16 (addr value : Z) : M void := DataWrite addr value.
Definition StoreToMemory_MemR7Imm16 (addr value : Z) : M void :=
  r7 <- gets (fun rs => regs.r rs 7) ;; DataWrite (u16 (addr + r7)) value.
Definition StoreToMemory_MemR7Imm7s (addr value : Z) : M void :=
  r7 <- gets (fun rs => regs.r rs 7) ;; DataWrite (u16 (SignExtend16 7 addr + r7)) value.

Definition alm_MemImm8 (op : AlmOp) (a : Z) (b : RegName) : M void :=
  value <- LoadFromMemory_MemImm8 a ;;
  AlmGeneric op (ExtendOprandForAlm op value) b.
Definition alm_Rn (op : AlmOp) (a : RegName) (as_ : StepValue) (b : RegName) : M void :=
  unit <- GetRnUnit a ;;
  address <- RnAddressAndModify unit as_ ;;
  value <- DataRead address ;;
  AlmGeneric op (ExtendOprandForAlm op value) b.

Definition CheckBus40OprandAllowed (op : AlmOp) : M void :=
  match op with
  | AlmOp.Or | AlmOp.And | AlmOp.Xor | AlmOp.Add | AlmOp.Cmp | AlmOp.Sub => ret tt
  | _ => throw "weird effect. probably undefined"
  end.

Definition alm_Register (op : AlmOp) (a : RegName) (b : RegName) : M void :=
  value <-
    match a with
    (* need more test *)
    | RegName.p =>
        CheckBus40OprandAllowed op ;;
        ProductToBus40 RegName.p0
    | RegName.a0 | RegName.a1 =>
        CheckBus40OprandAllowed op ;;
        GetAcc a
    | _ =>
        v <- RegToBus16 a ;; ret (ExtendOprandForAlm op v)
    end ;;
  AlmGeneric op value b.
Definition alm_r6 (op : AlmOp) (b : RegName) : M void :=
  value <- gets (fun rs => regs.r rs 6) ;;
  AlmGeneric op (ExtendOprandForAlm op value) b.

Definition alu_MemImm16 (op : AlmOp) (a : Z) (b : RegName) : M void :=
  value <- LoadFromMemory_MemImm16 a ;;
  AlmGeneric op (ExtendOprandForAlm op value) b.
Definition alu_MemR7Imm16 (op : AlmOp) (a : Z) (b : RegName) : M void :=
  value <- LoadFromMemory_MemR7Imm16 a ;;
  AlmGeneric op (ExtendOprandForAlm op value) b.
Definition alu_Imm16 (op : AlmOp) (a : Z) (b : RegName) : M void :=
  let value := a in
  AlmGeneric op (ExtendOprandForAlm op value) b.
Definition alu_Imm8 (op : AlmOp) (a : Z) (b : RegName) : M void :=
  let value := a in
  and_backup <-
    match op with
    | AlmOp.And =>
        (* AND instruction has a special treatment:
           bit 8~15 are unaffected in the accumulator, but the flags are set
           as if they are affected *)
        v <- GetAcc b ;; ret (v .& 0xFF00)
    | _ => ret 0
    end ;;
  AlmGeneric op (ExtendOprandForAlm op value) b ;;
  match op with
  | AlmOp.And =>
      v <- GetAcc b ;;
      let and_new := v .& 0xFFFFFFFFFFFF00FF in
      SetAcc_Simple b (and_backup .| and_new)
  | _ => ret tt
  end.
Definition alu_MemR7Imm7s (op : AlmOp) (a : Z) (b : RegName) : M void :=
  value <- LoadFromMemory_MemR7Imm7s a ;;
  AlmGeneric op (ExtendOprandForAlm op value) b.

(** The three overloads of [or_] have one body. *)
Definition or_ (a b c : RegName) : M void :=
  va <- GetAcc a ;;
  vb <- GetAcc b ;;
  let value := va .| vb in
  SetAcc_NoSaturation c value.

Definition GenericAlb (op : AlbOp) (a b : Z) : M Z :=
  result <-
    match op with
    | AlbOp.Set_ =>
        let result := u16 (a .| b) in
        modify (regs.set_fm (nz (result >> 15))) ;; ret result
    | AlbOp.Rst =>
        let result := not16 a .& b in
        modify (regs.set_fm (nz (result >> 15))) ;; ret result
    | AlbOp.Chng =>
        let result := u16 (a .^ b) in
        modify (regs.set_fm (nz (result >> 15))) ;; ret result
    | AlbOp.Addv =>
        let r := a + b in
        modify (set_fc 0 (nz (r >> 16))) ;;
        modify (regs.set_fm (nz (u32 (SignExtend32 16 b + SignExtend32 16 a) >> 31))) ;; (* ! *)
        ret (r .& 0xFFFF)
    | AlbOp.Tst0 => ret (Z.b2z (nz (a .& b)))
    | AlbOp.Tst1 => ret (Z.b2z (nz (a .& not16 b)))
    | AlbOp.Cmpv | AlbOp.Subv =>
        let r := u32 (b - a) in
        modify (set_fc 0 (nz (r >> 16))) ;;
        modify (regs.set_fm (nz (u32 (SignExtend32 16 b - SignExtend32 16 a) >> 31))) ;; (* ! *)
        ret (r .& 0xFFFF)
    end ;;
  modify (regs.set_fz (result =? 0)) ;;
  ret result.

Definition IsAlbModifying (op : AlbOp) : bool :=
  match op with
  | AlbOp.Set_ | AlbOp.Rst | AlbOp.Chng | AlbOp.Addv | AlbOp.Subv => true
  | AlbOp.Tst0 | AlbOp.Tst1 | AlbOp.Cmpv => false
  end.

Definition alb_MemImm8 (op : AlbOp) (a : Z) (b : Z) : M void :=
  bv <- LoadFromMemory_MemImm8 b ;;
  result <- GenericAlb op a bv ;;
  when (IsAlbModifying op) (StoreToMemory_MemImm8 b result).
Definition alb_Rn (op : AlbOp) (a : Z) (b : RegName) (bs : StepValue) : M void :=
  unit <- GetRnUnit b ;;
  address <- RnAddressAndModify unit bs ;;
  bv <- DataRead address ;;
  result <- GenericAlb op a bv ;;
  when (IsAlbModifying op) (DataWrite address result).

Definition is_abl (n : RegName) : bool :=
  match n with
  | RegName.a0l | RegName.a1l | RegName.b0l | RegName.b1l => true
  | _ => false
  end.

Definition alb_Register (op : AlbOp) (a : Z) (b : RegName) : M void :=
  bv <-
    match b with
    | RegName.p => v <- ProductToBus40 RegName.p0 ;; ret (u16 (v >> 16))
    | RegName.a0 | RegName.a1 => throw "weird effect"
    | _ =>
        if is_abl b then v <- GetAcc b ;; ret (v .& 0xFFFF)
        else if is_abl b then v <- GetAcc b ;; ret ((v >> 16) .& 0xFFFF)
        else RegToBus16 b
    end ;;
  result <- GenericAlb op a bv ;;
  when (IsAlbModifying op) (
    match b with
    | RegName.a0 | RegName.a1 => throw "weird effect"
    (* operation on accumulators doesn't go through regular bus with flag
       and saturation *)
    | RegName.a0l => modify (fun rs => set_a 0 ((regs.a rs 0 .& 0xFFFFFFFFFFFF0000) .| result) rs)
    | RegName.a1l => modify (fun rs => set_a 1 ((regs.a rs 1 .& 0xFFFFFFFFFFFF0000) .| result) rs)
    | RegName.b0l => modify (fun rs => set_b 0 ((regs.b rs 0 .& 0xFFFFFFFFFFFF0000) .| result) rs)
    | RegName.b1l => modify (fun rs => set_b 1 ((regs.b rs 1 .& 0xFFFFFFFFFFFF0000) .| result) rs)
    | RegName.a0h =>
        modify (fun rs => set_a 0 ((regs.a rs 0 .& 0xFFFFFFFF0000FFFF) .| (result << 16)) rs)
    | RegName.a1h =>
        modify (fun rs => set_a 1 ((regs.a rs 1 .& 0xFFFFFFFF0000FFFF) .| (result << 16)) rs)
    | RegName.b0h =>
        modify (fun rs => set_b 0 ((regs.b rs 0 .& 0xFFFFFFFF0000FFFF) .| (result << 16)) rs)
    | RegName.b1h =>
        modify (fun rs => set_b 1 ((regs.b rs 1 .& 0xFFFFFFFF0000FFFF) .| (result << 16)) rs)
    | _ => RegFromBus16 b result (* including RegName:p (p0h) *)
    end).
Definition alb_r6 (op : AlbOp) (a : Z) : M void :=
  bv <- gets (fun rs => regs.r rs 6) ;;
  result <- GenericAlb op a bv ;;
  when (IsAlbModifying op) (modify (set_r 6 result)).
Definition alb_SttMod (op : AlbOp) (a : Z) (b : RegName) : M void :=
  bv <- RegToBus16 b ;;
  result <- GenericAlb op a bv ;;
  when (IsAlbModifying op) (RegFromBus16 b result).

(** [add(Ab, Bx)] and [add(Bx, Ax)] have one body; so have the overloads of
    [sub]. *)
Definition add (a b : RegName) : M void :=
  value_a <- GetAcc a ;;
  value_b <- GetAcc b ;;
  result <- AddSub value_b value_a false ;;
  SetAcc b result.
Definition add_p1 (b : RegName) : M void :=
  value_a <- ProductToBus40 RegName.p1 ;;
  value_b <- GetAcc b ;;
  result <- AddSub value_b value_a false ;;
  SetAcc b result.
Definition add_Px (a b : RegName) : M void :=
  value_a <- ProductToBus40 a ;;
  value_b <- GetAcc b ;;
  result <- AddSub value_b value_a false ;;
  SetAcc b result.
Definition add_p0_p1 (c : RegName) : M void := ProductSum SumBase.Zero c p_add p_add.
Definition add_p0_p1a (c : RegName) : M void := ProductSum SumBase.Zero c p_add p_adda.
Definition add3_p0_p1 (c : RegName) : M void := ProductSum SumBase.Acc c p_add p_add.
Definition add3_p0_p1a (c : RegName) : M void := ProductSum SumBase.Acc c p_add p_adda.
Definition add3_p0a_p1a (c : RegName) : M void := ProductSum SumBase.Acc c p_adda p_adda.

Definition sub_ (a b : RegName) : M void :=
  value_a <- GetAcc a ;;
  value_b <- GetAcc b ;;
  result <- AddSub value_b value_a true ;;
  SetAcc b result.
Definition sub_p1 (b : RegName) : M void :=
  value_a <- ProductToBus40 RegName.p1 ;;
  value_b <- GetAcc b ;;
  result <- AddSub value_b value_a true ;;
  SetAcc b result.
Definition sub_Px (a b : RegName) : M void :=
  value_a <- ProductToBus40 a ;;
  value_b <- GetAcc b ;;
  result <- AddSub value_b value_a true ;;
  SetAcc b result.
Definition sub_p0_p1 (c : RegName) : M void := ProductSum SumBase.Zero c p_add p_sub.
Definition sub_p0_p1a (c : RegName) : M void := ProductSum SumBase.Zero c p_add p_suba.
Definition sub3_p0_p1 (c : RegName) : M void := ProductSum SumBase.Acc c p_sub p_sub.
Definition sub3_p0_p1a (c : RegName) : M void := ProductSum SumBase.Acc c p_sub p_suba.
Definition sub3_p0a_p1a (c : RegName) : M void := ProductSum SumBase.Acc c p_suba p_suba.

Definition addsub_p0_p1 (c : RegName) : M void := ProductSum SumBase.Acc c p_add p_sub.
Definition addsub_p1_p0 (c : RegName) : M void := ProductSum SumBase.Acc c p_sub p_add.
Definition addsub_p0_p1a (c : RegName) : M void := ProductSum SumBase.Acc c p_add p_suba.
Definition addsub_p1a_p0 (c : RegName) : M void := ProductSum SumBase.Acc c p_sub p_adda.

(** The ten two-word add/subtract handlers [add_add] ... [add_sub_j_mov_i]
    differ in the sign of the high and the low operation; [hsub] and [lsub]
    say which is a subtraction. *)
Definition high_low (hsub lsub : bool) (h1 h2 l1 l2 : Z) : Z :=
  let high := u64 (if hsub then SignExtend64 16 h1 - SignExtend64 16 h2
                   else SignExtend64 16 h1 + SignExtend64 16 h2) in
  let low := u16 (if lsub then l1 - l2 else l1 + l2) in
  u64 (high << 16) .| low.

Definition arp_add_sub (hsub lsub : bool) (a asi asj : Z) (b : RegName) : M void :=
  '(ui, uj) <- GetArpRnUnit a ;;
  '(si, sj) <- GetArpStep asi asj ;;
  '(oi, oj) <- GetArpOffset asi asj ;;
  i <- RnAddressAndModify ui si ;;
  j <- RnAddressAndModify uj sj ;;
  mj <- DataRead j ;;
  mi <- DataRead i ;;
  aj <- OffsetAddress uj j oj ;;
  ai <- OffsetAddress ui i oi ;;
  lj <- DataRead aj ;;
  li <- DataRead ai ;;
  let result := high_low hsub lsub mj mi lj li in
  SetAcc_Simple b result.
Definition add_add := arp_add_sub false false.
Definition add_sub := arp_add_sub false true.
Definition sub_add := arp_add_sub true false.
Definition sub_sub := arp_add_sub true true.

Definition ar_add_sub_sv (hsub lsub : bool) (a as_ : Z) (b : RegName) : M void :=
  u <- GetArRnUnit a ;;
  s <- GetArStep as_ ;;
  o <- GetArOffset as_ ;;
  address <- RnAddressAndModify u s ;;
  m1 <- DataRead address ;;
  sv <- gets regs.sv ;;
  a2 <- OffsetAddress u address o ;;
  m2 <- DataRead a2 ;;
  let result := high_low hsub lsub m1 sv m2 sv in
  SetAcc_Simple b result.
Definition add_sub_sv := ar_add_sub_sv false true.
Definition sub_add_sv := ar_add_sub_sv true false.

Definition sub_add_i_mov_j_sv (a asi asj : Z) (b : RegName) : M void :=
  '(ui, uj) <- GetArpRnUnit a ;;
  '(si, sj) <- GetArpStep asi asj ;;
  '(oi, _) <- GetArpOffset asi asj ;;
  i <- RnAddressAndModify ui si ;;
  j <- RnAddressAndModify uj sj ;;
  mi <- DataRead i ;;
  sv <- gets regs.sv ;;
  ai <- OffsetAddress ui i oi ;;
  li <- DataRead ai ;;
  let result := high_low true false mi sv li sv in
  SetAcc_Simple b result ;;
  mj <- DataRead j ;;
  modify (regs.set_sv mj).
Definition sub_add_j_mov_i_sv (a asi asj : Z) (b : RegName) : M void :=
  '(ui, uj) <- GetArpRnUnit a ;;
  '(si, sj) <- GetArpStep asi asj ;;
  '(_, oj) <- GetArpOffset asi asj ;;
  i <- RnAddressAndModify ui si ;;
  j <- RnAddressAndModify uj sj ;;
  mj <- DataRead j ;;
  sv <- gets regs.sv ;;
  aj <- OffsetAddress uj j oj ;;
  lj <- DataRead aj ;;
  let result := high_low true false mj sv lj sv in
  SetAcc_Simple b result ;;
  mi <- DataRead i ;;
  modify (regs.set_sv mi).
Definition add_sub_i_mov_j (a asi asj : Z) (b : RegName) : M void :=
  '(ui, uj) <- GetArpRnUnit a ;;
  '(si, sj) <- GetArpStep asi asj ;;
  '(oi, _) <- GetArpOffset asi asj ;;
  i <- RnAddressAndModify ui si ;;
  j <- RnAddressAndModify uj sj ;;
  mi <- DataRead i ;;
  sv <- gets regs.sv ;;
  ai <- OffsetAddress ui i oi ;;
  li <- DataRead ai ;;
  let result := high_low false true mi sv li sv in
  vb <- GetAcc b ;;
  sat <- SaturateAcc_NoFlag vb false ;;
  let exchange := sat .& 0xFFFF in
  SetAcc_Simple b result ;;
  DataWrite j exchange.
Definition add_sub_j_mov_i (a asi asj : Z) (b : RegName) : M void :=
  '(ui, uj) <- GetArpRnUnit a ;;
  '(si, sj) <- GetArpStep asi asj ;;
  '(_, oj) <- GetArpOffset asi asj ;;
  i <- RnAddressAndModify ui si ;;
  j <- RnAddressAndModify uj sj ;;
  mj <- DataRead j ;;
  sv <- gets regs.sv ;;
  aj <- OffsetAddress uj j oj ;;
  lj <- DataRead aj ;;
  let result := high_low false true mj sv lj sv in
  vb <- GetAcc b ;;
  sat <- SaturateAcc_NoFlag vb false ;;
  let exchange := sat .& 0xFFFF in
  SetAcc_Simple b result ;;
  DataWrite i exchange.

Definition ShiftBus40 (value sv : Z) (dest : RegName) : M void :=
  let value := value .& 0xFFFFFFFFFF in
  let original_sign := value >> 39 in
  s <- gets regs.s ;;
  value <-
    (if (sv >> 15) =? 0 then
       (* left shift *)
       if 40 <=? sv then
         when (s =? 0) (
           modify (regs.set_fv (nz value)) ;;
           fv <- gets regs.fv ;;
           when fv (modify (regs.set_flv true))) ;;
         modify (set_fc 0 false) ;;
         ret 0
       else
         when (s =? 0) (
           modify (regs.set_fv (negb (SignExtend64 40 value =? SignExtend64 (40 - sv) value))) ;;
           fv <- gets regs.fv ;;
           when fv (modify (regs.set_flv true))) ;;
         let value := u64 (value << sv) in
         modify (set_fc 0 (nz (value .& (1 << 40)))) ;;
         ret value
     else
       (* right shift *)
       let nsv := u16 (not16 sv + 1) in
       value <-
         (if 40 <=? nsv then
            if s =? 0 then
              modify (set_fc 0 (nz ((value >> 39) .& 1))) ;;
              fc0 <- gets (fun rs => regs.fc rs 0) ;;
              ret (if fc0 then 0xFFFFFFFFFF else 0)
            else
              modify (set_fc 0 false) ;;
              ret 0
          else
            modify (set_fc 0 (nz (value .& (1 << (nsv - 1))))) ;;
            let value := value >> nsv in
            ret (if s =? 0 then SignExtend64 (40 - nsv) value else value)) ;;
       when (s =? 0) (modify (regs.set_fv false)) ;;
       ret value) ;;
  let value := SignExtend64 40 value in
  SetAccFlag value ;;
  rs <- get_regs ;;
  value <-
    (if (regs.s rs =? 0) && negb (regs.sar rs 1) then
       if regs.fv rs || negb (SignExtend64 32 value =? value) then
         modify (regs.set_fls true) ;;
         ret (if original_sign =? 1 then 0xFFFFFFFF80000000 else 0x7FFFFFFF)
       else ret value
     else ret value) ;;
  SetAcc_Simple dest value.

Definition Moda (op : ModaOp) (a : RegName) (cond : Cond) : M void :=
  pass <- gets (fun rs => ConditionPass rs cond) ;;
  when pass (
    match op with
    | ModaOp.Shr => v <- GetAcc a ;; ShiftBus40 v 0xFFFF a
    | ModaOp.Shr4 => v <- GetAcc a ;; ShiftBus40 v 0xFFFC a
    | ModaOp.Shl => v <- GetAcc a ;; ShiftBus40 v 1 a
    | ModaOp.Shl4 => v <- GetAcc a ;; ShiftBus40 v 4 a
    | ModaOp.Ror =>
        v <- GetAcc a ;;
        let value := v .& 0xFFFFFFFFFF in
        old_fc <- gets (fun rs => regs.fc rs 0) ;;
        modify (set_fc 0 (nz (value .& 1))) ;;
        let value := value >> 1 in
        let value := value .| (Z.b2z old_fc << 39) in
        let value := SignExtend64 40 value in
        SetAcc_NoSaturation a value
    | ModaOp.Rol =>
        value <- GetAcc a ;;
        old_fc <- gets (fun rs => regs.fc rs 0) ;;
        modify (set_fc 0 (nz ((value >> 39) .& 1))) ;;
        let value := u64 (value << 1) in
        let value := value .| Z.b2z old_fc in
        let value := SignExtend64 40 value in
        SetAcc_NoSaturation a value
    | ModaOp.Clr => SetAcc a 0
    | ModaOp.Not =>
        v <- GetAcc a ;;
        let result := not64 v in
        SetAcc_NoSaturation a result
    | ModaOp.Neg =>
        value <- GetAcc a ;;
        modify (set_fc 0 (nz value)) ;; (* ? *)
        modify (regs.set_fv (value =? 0xFFFFFF8000000000)) ;; (* ? *)
        fv <- gets regs.fv ;;
        when fv (modify (regs.set_flv true)) ;;
        v <- GetAcc a ;;
        let result := SignExtend64 40 (u64 (not64 v + 1)) in
        SetAcc a result
    | ModaOp.Rnd =>
        value <- GetAcc a ;;
        result <- AddSub value 0x8000 false ;;
        SetAcc a result
    | ModaOp.Pacr =>
        value <- ProductToBus40 RegName.p0 ;;
        result <- AddSub value 0x8000 false ;;
        SetAcc a result
    | ModaOp.Clrr => SetAcc a 0x8000
    | ModaOp.Inc =>
        value <- GetAcc a ;;
        result <- AddSub value 1 false ;;
        SetAcc a result
    | ModaOp.Dec =>
        value <- GetAcc a ;;
        result <- AddSub value 1 true ;;
        SetAcc a result
    | ModaOp.Copy =>
        (* note: bX doesn't support *)
        value <- GetAcc (match a with RegName.a0 => RegName.a1 | _ => RegName.a0 end) ;;
        SetAcc a value
    end).

Definition moda4 (op : ModaOp) (a : RegName) (cond : Cond) : M void := Moda op a cond.
Definition moda3 (op : ModaOp) (a : RegName) (cond : Cond) : M void := Moda op a cond.

Definition pacr1 (a : RegName) : M void :=
  value <- ProductToBus40 RegName.p1 ;;
  result <- AddSub value 0x8000 false ;;
  SetAcc a result.

(** [FilterDoubleClr(a, b)] changes the storage of [b] only; the new storage
    is returned. *)
Definition FilterDoubleClr (a b : Z) : Z :=
  if a =? 0 then 1
  else if a =? 1 then 0
  else if a =? 2 then (if b =? 2 then 3 else b)
  else (if b =? 1 then 1 else 0).

Definition clr (a b : Z) : M void :=
  let b := FilterDoubleClr a b in
  SetAcc (Ab_GetName a) 0 ;;
  SetAcc (Ab_GetName b) 0.
Definition clrr (a b : Z) : M void :=
  let b := FilterDoubleClr a b in
  SetAcc (Ab_GetName a) 0x8000 ;;
  SetAcc (Ab_GetName b) 0x8000.

(** Assignments to one field of the frame [bkrep_stack[i]]. *)
Definition set_frame_start (i v : Z) (rs : RegisterState) : RegisterState :=
  let f := regs.bkrep_stack rs i in set_frame i {| start := v; end_ := end_ f; lc := lc f |} rs.
Definition set_frame_end (i v : Z) (rs : RegisterState) : RegisterState :=
  let f := regs.bkrep_stack rs i in set_frame i {| start := start f; end_ := v; lc := lc f |} rs.
Definition set_frame_lc (i v : Z) (rs : RegisterState) : RegisterState :=
  let f := regs.bkrep_stack rs i in set_frame i {| start := start f; end_ := end_ f; lc := v |} rs.

Definition BlockRepeat (lc address : Z) : M void :=
  bcn <- gets regs.bcn ;;
  if 3 <? bcn then throw "stack overflow"
  else
    modify (fun rs => set_frame_start (regs.bcn rs) (regs.pc rs) rs) ;;
    modify (fun rs => set_frame_end (regs.bcn rs) address rs) ;;
    modify (fun rs => set_frame_lc (regs.bcn rs) lc rs) ;;
    modify (regs.set_lp true) ;;
    modify (fun rs => regs.set_bcn (u16 (regs.bcn rs + 1)) rs).

Definition bkrep_Imm8 (a addr : Z) : M void :=
  let lc := a in
  pc <- gets regs.pc ;;
  let address := addr .| (pc .& 0x30000) in (* ? *)
  BlockRepeat lc address.
Definition bkrep_Register (a : RegName) (addr_low addr_high : Z) : M void :=
  lc <- RegToBus16 a ;;
  let address := addr_low .| (addr_high << 16) in
  BlockRepeat lc address.
Definition bkrep_r6 (addr_low addr_high : Z) : M void :=
  lc <- gets (fun rs => regs.r rs 6) ;;
  let address := addr_low .| (addr_high << 16) in
  BlockRepeat lc address.

(** [std::copy_backward(first, last, d_last)] on a [std::array] of [size]
    cells, with the iterators given as indices and [n = last - first]: it
    assigns the cell [d_last - 1] from the cell [last - 1], then
    [d_last - 2] from [last - 2], and so on, as the C++ loop does.  An
    index outside [0, size) is an access outside the array, which is
    undefined behaviour in C++: the result is [None] then. *)
Fixpoint copy_backward {T : Type} (size : Z) (n : nat) (last d_last : Z) (arr : Z -> T)
    : option (Z -> T) :=
  match n with
  | O => Some arr
  | S n' =>
      if (0 <=? d_last - 1) && (d_last - 1 <? size) && (0 <=? last - 1) && (last - 1 <? size)
      then copy_backward size n' (last - 1) (d_last - 1)
             (upd arr (d_last - 1) (arr (last - 1)))
      else None
  end.

(** [std::copy(first, last, d_first)] with [n = last - first], on an array
    as a total map: elements are assigned one after the other, as the C++
    loop does.  [StoreBlockRepeat] calls it with [first = 1], [last = bcn]
    and [d_first = 0], which stays inside the four frames for [bcn] in
    1..4. *)
Fixpoint copy {T : Type} (n : nat) (first d_first : Z) (arr : Z -> T) : Z -> T :=
  match n with
  | O => arr
  | S n' => copy n' (first + 1) (d_first + 1) (upd arr d_first (arr first))
  end.

(** A [u16&] parameter: the register it aliases, as a getter and a setter. *)
Record u16_ref : Type := { ref_get : RegisterState -> Z;
                           ref_set : Z -> RegisterState -> RegisterState }.
Definition ref_r (unit : Z) : u16_ref :=
  {| ref_get := fun rs => regs.r rs unit; ref_set := set_r unit |}.
Definition ref_sp : u16_ref := {| ref_get := regs.sp; ref_set := regs.set_sp |}.
Definition preinc (x : u16_ref) : M Z :=
  modify (fun rs => ref_set x (u16 (ref_get x rs + 1)) rs) ;; gets (ref_get x).
Definition postdec (x : u16_ref) : M Z :=
  old <- gets (ref_get x) ;;
  modify (fun rs => ref_set x (u16 (ref_get x rs - 1)) rs) ;; ret old.

Definition RestoreBlockRepeat (address_reg : u16_ref) : M void :=
  lp <- gets regs.lp ;;
  (if lp then
     bcn <- gets regs.bcn ;;
     if 3 <? bcn then throw "stack overflow"
     else
       stack <- gets regs.bkrep_stack ;;
       (* std::copy_backward(begin, begin + bcn, begin + 1) on the four frames *)
       match copy_backward 4 (Z.to_nat bcn) bcn 1 stack with
       | Some stack' =>
           modify (regs.set_bkrep_stack stack') ;;
           modify (fun rs => regs.set_bcn (u16 (regs.bcn rs + 1)) rs)
       | None => throw undefined_behaviour
       end
   else ret tt) ;;
  addr <- preinc address_reg ;;
  flag <- DataRead addr ;;
  let valid := u16 (flag >> 15) in
  lp <- gets regs.lp ;;
  (if lp then
     if negb (nz valid) then throw "pop invalid loop below valid loop" else ret tt
   else
     when (nz valid) (modify (regs.set_bcn 1) ;; modify (regs.set_lp true))) ;;
  addr <- preinc address_reg ;;
  w <- DataRead addr ;;
  modify (set_frame_end 0 (w .| (((flag >> 8) .& 3) << 16))) ;;
  addr <- preinc address_reg ;;
  w <- DataRead addr ;;
  modify (set_frame_start 0 (w .| ((flag .& 3) << 16))) ;;
  addr <- preinc address_reg ;;
  w <- DataRead addr ;;
  modify (set_frame_lc 0 w).

Definition StoreBlockRepeat (address_reg : u16_ref) : M void :=
  addr <- postdec address_reg ;;
  f <- gets (fun rs => regs.bkrep_stack rs 0) ;;
  DataWrite addr (lc f) ;;
  addr <- postdec address_reg ;;
  DataWrite addr (start f .& 0xFFFF) ;;
  addr <- postdec address_reg ;;
  DataWrite addr (end_ f .& 0xFFFF) ;;
  lp <- gets regs.lp ;;
  let flag := u16 (Z.b2z lp << 15) in
  let flag := u16 (flag .| (start f >> 16)) in
  let flag := u16 (flag .| ((start f >> 16) << 8)) in
  addr <- postdec address_reg ;;
  DataWrite addr flag ;;
  when lp (
    modify (fun rs => regs.set_bkrep_stack
              (copy (Z.to_nat (regs.bcn rs - 1)) 1 0 (regs.bkrep_stack rs)) rs) ;;
    modify (fun rs => regs.set_bcn (u16 (regs.bcn rs - 1)) rs) ;;
    bcn <- gets regs.bcn ;;
    when (bcn =? 0) (modify (regs.set_lp false))).

Definition bkreprst (a : Z) : M void :=
  unit <- GetArRnUnit a ;; RestoreBlockRepeat (ref_r unit).
Definition bkreprst_memsp : M void := RestoreBlockRepeat ref_sp.
Definition bkrepsto (a : Z) : M void :=
  unit <- GetArRnUnit a ;; StoreBlockRepeat (ref_r unit).
Definition bkrepsto_memsp : M void := StoreBlockRepeat ref_sp.

Definition banke (flags : Z) : M void :=
  when (nz (flags .& 1)) (
    modify (fun rs => regs.set_stepib (regs.stepi rs) (regs.set_stepi (regs.stepib rs) rs)) ;;
    modify (fun rs => regs.set_modib (regs.modi rs) (regs.set_modi (regs.modib rs) rs)) ;;
    bankstep <- gets regs.bankstep ;;
    when (nz bankstep)
      (modify (fun rs => regs.set_stepi0b (regs.stepi0 rs) (regs.set_stepi0 (regs.stepi0b rs) rs)))) ;;
  when (nz (flags .& 2))
    (modify (fun rs => regs.set_r4b (regs.r rs 4) (set_r 4 (regs.r4b rs) rs))) ;;
  when (nz (flags .& 4))
    (modify (fun rs => regs.set_r1b (regs.r rs 1) (set_r 1 (regs.r1b rs) rs))) ;;
  when (nz (flags .& 8))
    (modify (fun rs => regs.set_r0b (regs.r rs 0) (set_r 0 (regs.r0b rs) rs))) ;;
  when (nz (flags .& 16))
    (modify (fun rs => regs.set_r7b (regs.r rs 7) (set_r 7 (regs.r7b rs) rs))) ;;
  when (nz (flags .& 32)) (
    modify (fun rs => regs.set_stepjb (regs.stepj rs) (regs.set_stepj (regs.stepjb rs) rs)) ;;
    modify (fun rs => regs.set_modjb (regs.modj rs) (regs.set_modj (regs.modjb rs) rs)) ;;
    bankstep <- gets regs.bankstep ;;
    when (nz bankstep)
      (modify (fun rs => regs.set_stepj0b (regs.stepj0 rs) (regs.set_stepj0 (regs.stepj0b rs) rs)))).

Definition bankr : M void := modify SwapAllArArp.
Definition bankr_Ar (a : Z) : M void := modify (SwapAr a).
Definition bankr_Ar_Arp (a b : Z) : M void := modify (SwapAr a) ;; modify (SwapArp b).
Definition bankr_Arp (a : Z) : M void := modify (SwapArp a).

Definition bitrev (a : RegName) : M void :=
  unit <- GetRnUnit a ;;
  modify (fun rs => set_r unit (BitReverse (regs.r rs unit)) rs).
Definition bitrev_dbrv (a : RegName) : M void :=
  unit <- GetRnUnit a ;;
  modify (fun rs => set_r unit (BitReverse (regs.r rs unit)) rs) ;;
  modify (set_brv unit false).
Definition bitrev_ebrv (a : RegName) : M void :=
  unit <- GetRnUnit a ;;
  modify (fun rs => set_r unit (BitReverse (regs.r rs unit)) rs) ;;
  modify (set_brv unit true).

Definition br (addr_low addr_high : Z) (cond : Cond) : M void :=
  pass <- gets (fun rs => ConditionPass rs cond) ;;
  when pass (modify (SetPC addr_low addr_high)).

Definition brr (addr : Z) (cond : Cond) : M void :=
  pass <- gets (fun rs => ConditionPass rs cond) ;;
  (* note: pc is the address of the NEXT instruction *)
  when pass (modify (fun rs => regs.set_pc (u32 (regs.pc rs + SignExtend32 7 addr)) rs)).

Definition break_ : M void :=
  lp <- gets regs.lp ;;
  if negb lp then throw "not in a loop"
  else
    modify (fun rs => regs.set_bcn (u16 (regs.bcn rs - 1)) rs) ;;
    modify (fun rs => regs.set_lp (nz (regs.bcn rs)) rs).
    (* Note: unlike one would expect, the "break" instruction doesn't jump
       out of the block *)

Definition call (addr_low addr_high : Z) (cond : Cond) : M void :=
  pass <- gets (fun rs => ConditionPass rs cond) ;;
  when pass (PushPC ;; modify (SetPC addr_low addr_high)).
Definition calla_Axl (a : RegName) : M void :=
  PushPC ;;
  v <- RegToBus16 a ;;
  SetPC_Save v. (* use movpd? *)
Definition calla_Ax (a : RegName) : M void :=
  PushPC ;;
  v <- GetAcc a ;;
  SetPC_Save (v .& 0x3FFFF). (* no saturation ? *)
Definition callr (addr : Z) (cond : Cond) : M void :=
  pass <- gets (fun rs => ConditionPass rs cond) ;;
  when pass (
    PushPC ;;
    modify (fun rs => regs.set_pc (u32 (regs.pc rs + SignExtend32 7 addr)) rs)).

Definition ContextStore : M void :=
  modify ShadowStore ;;
  modify ShadowSwap ;;
  a <- gets (fun rs => regs.a rs 1) ;;
  b <- gets (fun rs => regs.b rs 1) ;;
  modify (set_b 1 a) ;;
  SetAcc_NoSaturation RegName.a1 b. (* Flag set on b1->a1 *)

Definition ContextRestore : M void :=
  modify ShadowRestore ;;
  modify ShadowSwap ;;
  modify (fun rs => set_b 1 (regs.a rs 1) (set_a 1 (regs.b rs 1) rs)).

Definition cntx_s : M void := ContextStore.
Definition cntx_r : M void := ContextRestore.

Definition ret_ (c : Cond) : M void :=
  pass <- gets (fun rs => ConditionPass rs c) ;;
  when pass PopPC.
Definition retd : M void := throw "unimplemented".
Definition reti (c : Cond) : M void :=
  pass <- gets (fun rs => ConditionPass rs c) ;;
  when pass (PopPC ;; modify (regs.set_ie true)).
Definition retic (c : Cond) : M void :=
  pass <- gets (fun rs => ConditionPass rs c) ;;
  when pass (PopPC ;; modify (regs.set_ie true) ;; ContextRestore).
Definition retid : M void := throw "unimplemented".
Definition retidc : M void := throw "unimplemented".
Definition rets (a : Z) : M void :=
  PopPC ;;
  modify (fun rs => regs.set_sp (u16 (regs.sp rs + a)) rs).

Definition load_ps (a : Z) : M void := modify (set_ps 0 a).
Definition load_stepi (a : Z) : M void := modify (regs.set_stepi a).
Definition load_stepj (a : Z) : M void := modify (regs.set_stepj a).
Definition load_page (a : Z) : M void := modify (regs.set_page a).
Definition load_modi (a : Z) : M void := modify (regs.set_modi a).
Definition load_modj (a : Z) : M void := modify (regs.set_modj a).
Definition load_movpd (a : Z) : M void := modify (regs.set_movpd a).
Definition load_ps01 (a : Z) : M void :=
  modify (set_ps 0 (a .& 3)) ;;
  modify (set_ps 1 (a >> 2)).

(** [mem.DataWrite(--regs.sp, value)] and [mem.DataRead(regs.sp++)]. *)
Definition push16 (value : Z) : M void := sp <- predec_sp ;; DataWrite sp value.
Definition pop16 : M Z := sp <- postinc_sp ;; DataRead sp.

Definition push_Imm16 (a : Z) : M void := push16 a.
Definition push_Register (a : RegName) : M void :=
  (* need test: p0, aX *)
  value <- RegToBus16_ a true ;;
  push16 value.
Definition push_Abe (a : RegName) : M void :=
  v <- GetAcc a ;;
  v <- SaturateAcc v false ;;
  let value := (v >> 32) .& 0xFFFF in
  push16 value.
Definition push_ArArpSttMod (a : RegName) : M void :=
  value <- RegToBus16 a ;;
  push16 value.
Definition push_prpage : M void := throw "unimplemented".
Definition push_Px (a : RegName) : M void :=
  v <- ProductToBus40 a ;;
  let value := u32 v in
  let h := value >> 16 in
  let l := value .& 0xFFFF in
  push16 l ;;
  push16 h.
Definition push_r6 : M void := value <- gets (fun rs => regs.r rs 6) ;; push16 value.
Definition push_repc : M void := value <- gets regs.repc ;; push16 value.
Definition push_x0 : M void := value <- gets (fun rs => regs.x rs 0) ;; push16 value.
Definition push_x1 : M void := value <- gets (fun rs => regs.x rs 1) ;; push16 value.
Definition push_y1 : M void := value <- gets (fun rs => regs.y rs 1) ;; push16 value.
(** [pusha(Ax)] and [pusha(Bx)] have one body. *)
Definition pusha (a : RegName) : M void :=
  v <- GetAcc a ;;
  v <- SaturateAcc v false ;;
  let value := v .& 0xFFFFFFFF in
  let h := value >> 16 in
  let l := value .& 0xFFFF in
  push16 l ;;
  push16 h.

(** [pop(Register)], [pop(ArArpSttMod)] and [pop(Bx)] have one body. *)
Definition pop (a : RegName) : M void :=
  value <- pop16 ;;
  RegFromBus16 a value.
Definition pop_Abe (a : RegName) : M void :=
  w <- pop16 ;;
  let value32 := SignExtend32 8 (w .& 0xFF) in
  target <-
    match a with
    | RegName.a0e => gets (fun rs => regs.a rs 0)
    | RegName.a1e => gets (fun rs => regs.a rs 1)
    | RegName.b0e => gets (fun rs => regs.b rs 0)
    | RegName.b1e => gets (fun rs => regs.b rs 1)
    | _ => throw "???"
    end ;;
  SetAcc a ((target .& 0xFFFFFFFF) .| (value32 << 32)).
Definition pop_prpage : M void := throw "unimplemented".
Definition pop_Px (a : RegName) : M void :=
  h <- pop16 ;;
  l <- pop16 ;;
  let value := (h << 16) .| l in
  ProductFromBus32 a value.
Definition pop_r6 : M void := value <- pop16 ;; modify (set_r 6 value).
Definition pop_repc : M void := value <- pop16 ;; modify (regs.set_repc value).
Definition pop_x0 : M void := value <- pop16 ;; modify (set_x 0 value).
Definition pop_x1 : M void := value <- pop16 ;; modify (set_x 1 value).
Definition pop_y1 : M void := value <- pop16 ;; modify (set_y 1 value).
Definition popa (a : RegName) : M void :=
  h <- pop16 ;;
  l <- pop16 ;;
  let value := SignExtend64 32 ((h << 16) .| l) in
  SetAcc a value.

Definition Repeat (repc : Z) : M void :=
  modify (regs.set_repc repc) ;;
  modify (regs.set_rep true).

Definition rep_Imm8 (a : Z) : M void := Repeat a.
Definition rep_Register (a : RegName) : M void := v <- RegToBus16 a ;; Repeat v.
Definition rep_r6 : M void := v <- gets (fun rs => regs.r rs 6) ;; Repeat v.

Definition shfc (a b : RegName) (cond : Cond) : M void :=
  pass <- gets (fun rs => ConditionPass rs cond) ;;
  when pass (
    value <- GetAcc a ;;
    sv <- gets regs.sv ;;
    ShiftBus40 value sv b).
Definition shfi (a b : RegName) (s : Z) : M void :=
  value <- GetAcc a ;;
  let sv := SignExtend16 6 s in
  ShiftBus40 value sv b.

Definition tst4b (b bs : Z) : M void :=
  unit <- GetArRnUnit b ;;
  step <- GetArStep bs ;;
  address <- RnAddressAndModify unit step ;;
  value <- DataRead address ;;
  a0 <- GetAcc RegName.a0 ;;
  let bit := a0 .& 0xF in
  (* Is this correct? an why? *)
  modify (set_fc 0 (nz ((value >> bit) .& 1))) ;;
  modify (fun rs => regs.set_fz (regs.fc rs 0) rs).
Definition tst4b_Ax (b bs : Z) (c : RegName) : M void :=
  a <- GetAcc RegName.a0 ;;
  let bit := a .& 0xF in
  rs0 <- get_regs ;;
  ShiftBus40 a (regs.sv rs0) c ;;
  modify (fun rs => set_fc 1 (regs.fc rs 0) rs) ;;
  modify (regs.set_fv (regs.fv rs0)) ;;
  modify (regs.set_flv (regs.flv rs0)) ;;
  modify (regs.set_fm (regs.fm rs0)) ;;
  modify (regs.set_fn (regs.fn rs0)) ;;
  modify (regs.set_fe (regs.fe rs0)) ;;
  unit <- GetArRnUnit b ;;
  step <- GetArStep bs ;;
  address <- RnAddressAndModify unit step ;;
  value <- DataRead address ;;
  modify (set_fc 0 (nz ((value >> bit) .& 1))) ;;
  modify (fun rs => regs.set_fz (regs.fc rs 0) rs).
Definition tstb_MemImm8 (a b : Z) : M void :=
  value <- LoadFromMemory_MemImm8 a ;;
  modify (regs.set_fz (nz ((value >> b) .& 1))).
Definition tstb_Rn (a : RegName) (as_ : StepValue) (b : Z) : M void :=
  unit <- GetRnUnit a ;;
  address <- RnAddressAndModify unit as_ ;;
  value <- DataRead address ;;
  modify (regs.set_fz (nz ((value >> b) .& 1))).
(** [tstb(Register, Imm4)] and [tstb(SttMod, Imm16)] have one body. *)
Definition tstb_Register (a : RegName) (b : Z) : M void :=
  (* a0, a1, p? *)
  value <- RegToBus16 a ;;
  modify (regs.set_fz (nz ((value >> b) .& 1))).
Definition tstb_r6 (b : Z) : M void :=
  value <- gets (fun rs => regs.r rs 6) ;;
  modify (regs.set_fz (nz ((value >> b) .& 1))).

Definition and_ (a b c : RegName) : M void :=
  va <- GetAcc a ;;
  vb <- GetAcc b ;;
  let value := va .& vb in
  SetAcc_NoSaturation c value.

Definition dint : M void := modify (regs.set_ie false).
Definition eint : M void := modify (regs.set_ie true).

Definition MulGeneric (op : MulOp) (a : RegName) : M void :=
  match op with
  | MulOp.Mpy | MulOp.Mpysu => ret tt
  | _ =>
      value <- GetAcc a ;;
      product <- ProductToBus40 RegName.p0 ;;
      let product :=
        match op with
        | MulOp.Maa | MulOp.Maasu => SignExtend64 24 (product >> 16)
        | _ => product
        end in
      result <- AddSub value product false ;;
      SetAcc a result
  end ;;
  match op with
  | MulOp.Mpy | MulOp.Mac | MulOp.Maa => DoMultiplication 0 true true
  | MulOp.Mpysu | MulOp.Macsu | MulOp.Maasu =>
      (* Note: the naming conventin of "mpysu" is "multiply signed *y* by
         unsigned *x*" *)
      DoMultiplication 0 false true
  | MulOp.Macus => DoMultiplication 0 true false
  | MulOp.Macuu => DoMultiplication 0 false false
  end.

Definition mul_Rn_Imm16 (op : MulOp) (y : RegName) (ys : StepValue) (x : Z) (a : RegName)
    : M void :=
  unit <- GetRnUnit y ;;
  address <- RnAddressAndModify unit ys ;;
  v <- DataRead address ;;
  modify (set_y 0 v) ;;
  modify (set_x 0 x) ;;
  MulGeneric op a.
Definition mul_y0_Rn (op : MulOp) (x : RegName) (xs : StepValue) (a : RegName) : M void :=
  unit <- GetRnUnit x ;;
  address <- RnAddressAndModify unit xs ;;
  v <- DataRead address ;;
  modify (set_x 0 v) ;;
  MulGeneric op a.
Definition mul_y0_Register (op : MulOp) (x : RegName) (a : RegName) : M void :=
  (* a0, a1, p? *)
  v <- RegToBus16 x ;;
  modify (set_x 0 v) ;;
  MulGeneric op a.
Definition mul_R45_R0123 (op : MulOp) (y : RegName) (ys : StepValue) (x : RegName)
    (xs : StepValue) (a : RegName) : M void :=
  unit_y <- GetRnUnit y ;;
  address_y <- RnAddressAndModify unit_y ys ;;
  unit_x <- GetRnUnit x ;;
  address_x <- RnAddressAndModify unit_x xs ;;
  vy <- DataRead address_y ;;
  modify (set_y 0 vy) ;;
  vx <- DataRead address_x ;;
  modify (set_x 0 vx) ;;
  MulGeneric op a.
Definition mul_y0_r6 (op : MulOp) (a : RegName) : M void :=
  modify (fun rs => set_x 0 (regs.r rs 6) rs) ;;
  MulGeneric op a.
Definition mul_y0_MemImm8 (op : MulOp) (x : Z) (a : RegName) : M void :=
  v <- LoadFromMemory_MemImm8 x ;;
  modify (set_x 0 v) ;;
  MulGeneric op a.

Definition mpyi (x : Z) : M void :=
  modify (set_x 0 (SignExtend16 8 x)) ;;
  DoMultiplication 0 true true.

Definition msu_R45_R0123 (y : RegName) (ys : StepValue) (x : RegName) (xs : StepValue)
    (a : RegName) : M void :=
  unit_y <- GetRnUnit y ;;
  yi <- RnAddressAndModify unit_y ys ;;
  unit_x <- GetRnUnit x ;;
  xi <- RnAddressAndModify unit_x xs ;;
  value <- GetAcc a ;;
  product <- ProductToBus40 RegName.p0 ;;
  result <- AddSub value product true ;;
  SetAcc a result ;;
  vy <- DataRead yi ;;
  modify (set_y 0 vy) ;;
  vx <- DataRead xi ;;
  modify (set_x 0 vx) ;;
  DoMultiplication 0 true true.
Definition msu_Rn_Imm16 (y : RegName) (ys : StepValue) (x : Z) (a : RegName) : M void :=
  unit_y <- GetRnUnit y ;;
  yi <- RnAddressAndModify unit_y ys ;;
  value <- GetAcc a ;;
  product <- ProductToBus40 RegName.p0 ;;
  result <- AddSub value product true ;;
  SetAcc a result ;;
  vy <- DataRead yi ;;
  modify (set_y 0 vy) ;;
  modify (set_x 0 x) ;;
  DoMultiplication 0 true true.
Definition msusu (x xs : Z) (a : RegName) : M void :=
  unit <- GetArRnUnit x ;;
  step <- GetArStep xs ;;
  xi <- RnAddressAndModify unit step ;;
  value <- GetAcc a ;;
  product <- ProductToBus40 RegName.p0 ;;
  result <- AddSub value product true ;;
  SetAcc a result ;;
  vx <- DataRead xi ;;
  modify (set_x 0 vx) ;;
  DoMultiplication 0 false true.
Definition mac_x1to0 (a : RegName) : M void :=
  value <- GetAcc a ;;
  product <- ProductToBus40 RegName.p0 ;;
  result <- AddSub value product false ;;
  SetAcc a result ;;
  modify (fun rs => set_x 0 (regs.x rs 1) rs) ;;
  DoMultiplication 0 true true.
Definition mac1 (xy xis yjs : Z) (a : RegName) : M void :=
  '(ui, uj) <- GetArpRnUnit xy ;;
  '(si, sj) <- GetArpStep xis yjs ;;
  i <- RnAddressAndModify ui si ;;
  j <- RnAddressAndModify uj sj ;;
  value <- GetAcc a ;;
  product <- ProductToBus40 RegName.p1 ;;
  result <- AddSub value product false ;;
  SetAcc a result ;;
  vi <- DataRead i ;;
  modify (set_x 1 vi) ;;
  vj <- DataRead j ;;
  modify (set_y 1 vj) ;;
  DoMultiplication 1 true true.

Definition modr_ (a : RegName) (as_ : StepValue) (dmod : bool) : M void :=
  unit <- GetRnUnit a ;;
  RnAndModify_ unit as_ dmod ;;
  modify (fun rs => regs.set_fr (regs.r rs unit =? 0) rs).
Definition modr (a : RegName) (as_ : StepValue) : M void := modr_ a as_ false.
Definition modr_dmod (a : RegName) (as_ : StepValue) : M void := modr_ a as_ true.
Definition modr_i2 (a : RegName) : M void := modr_ a StepValue.Increase2Mode1 false.
Definition modr_i2_dmod (a : RegName) : M void := modr_ a StepValue.Increase2Mode1 true.
Definition modr_d2 (a : RegName) : M void := modr_ a StepValue.Decrease2Mode1 false.
Definition modr_d2_dmod (a : RegName) : M void := modr_ a StepValue.Decrease2Mode1 true.
Definition modr_arp (dmodi dmodj : bool) (a asi asj : Z) : M void :=
  '(uniti, unitj) <- GetArpRnUnit a ;;
  '(stepi, stepj) <- GetArpStep asi asj ;;
  RnAndModify_ uniti stepi dmodi ;;
  RnAndModify_ unitj stepj dmodj ;;
  ret tt.
Definition modr_eemod := modr_arp false false.
Definition modr_edmod := modr_arp false true.
Definition modr_demod := modr_arp true false.
Definition modr_ddmod := modr_arp true true.

Definition movd (a : RegName) (as_ : StepValue) (b : RegName) (bs : StepValue) : M void :=
  unit_a <- GetRnUnit a ;;
  address_s <- RnAddressAndModify unit_a as_ ;;
  unit_b <- GetRnUnit b ;;
  address_d <- RnAddressAndModify unit_b bs ;;
  movpd <- gets regs.movpd ;;
  let address_d := address_d .| (movpd << 16) in
  v <- DataRead address_s ;;
  ProgramWrite address_d v.
Definition movp_Axl (a b : RegName) : M void :=
  address <- RegToBus16 a ;;
  movpd <- gets regs.movpd ;;
  let address := address .| (movpd << 16) in
  value <- ProgramRead address ;;
  RegFromBus16 b value.
Definition movp_Ax (a b : RegName) : M void :=
  v <- GetAcc a ;;
  let address := v .& 0x3FFFF in (* no saturation *)
  value <- ProgramRead address ;;
  RegFromBus16 b value.
Definition movp_Rn (a : RegName) (as_ : StepValue) (b : RegName) (bs : StepValue) : M void :=
  unit_a <- GetRnUnit a ;;
  address_s <- RnAddressAndModify unit_a as_ ;;
  unit_b <- GetRnUnit b ;;
  address_d <- RnAddressAndModify unit_b bs ;;
  movpd <- gets regs.movpd ;;
  let address_s := address_s .| (movpd << 16) in
  v <- ProgramRead address_s ;;
  DataWrite address_d v.
Definition movpdw (a : RegName) : M void :=
  v <- GetAcc a ;;
  let address := v .& 0x3FFFF in (* no saturation *)
  (* the endianess doesn't seem to be affected by regs.pc_endian *)
  h <- ProgramRead address ;;
  l <- ProgramRead (address + 1) ;;
  modify (SetPC l h).

Definition mov_Ab_Ab (a b : RegName) : M void :=
  value <- GetAcc a ;;
  SetAcc b value.
Definition mov_dvm (a : RegName) : M void := throw "unimplemented".
Definition mov_x0 (a : RegName) : M void :=
  value16 <- RegToBus16_ a true ;; modify (set_x 0 value16).
Definition mov_x1 (a : RegName) : M void :=
  value16 <- RegToBus16_ a true ;; modify (set_x 1 value16).
Definition mov_y1 (a : RegName) : M void :=
  value16 <- RegToBus16_ a true ;; modify (set_y 1 value16).

Definition mov_Ablh_MemImm8 (a : RegName) (b : Z) : M void :=
  value16 <- RegToBus16_ a true ;; StoreToMemory_MemImm8 b value16.
Definition mov_Axl_MemImm16 (a : RegName) (b : Z) : M void :=
  value16 <- RegToBus16_ a true ;; StoreToMemory_MemImm16 b value16.
Definition mov_Axl_MemR7Imm16 (a : RegName) (b : Z) : M void :=
  value16 <- RegToBus16_ a true ;; StoreToMemory_MemR7Imm16 b value16.
Definition mov_Axl_MemR7Imm7s (a : RegName) (b : Z) : M void :=
  value16 <- RegToBus16_ a true ;; StoreToMemory_MemR7Imm7s b value16.

Definition mov_MemImm16_Ax (a : Z) (b : RegName) : M void :=
  value <- LoadFromMemory_MemImm16 a ;; RegFromBus16 b value.
(** [mov(MemImm8, Ab)], [mov(MemImm8, Ablh)] and [mov(MemImm8, RnOld)] have
    one body. *)
Definition mov_MemImm8 (a : Z) (b : RegName) : M void :=
  value <- LoadFromMemory_MemImm8 a ;; RegFromBus16 b value.
Definition mov_eu (a : Z) (b : RegName) : M void := throw "unimplemented".
Definition mov_sv_MemImm8 (a : Z) : M void :=
  value <- LoadFromMemory_MemImm8 a ;; modify (regs.set_sv value).
Definition mov_dvm_to (b : RegName) : M void := throw "unimplemented".
Definition mov_icr_to (b : RegName) : M void :=
  value <- gets (Get Pseudo.icr) ;; RegFromBus16 b value.
(** [mov(Imm16, Bx)], [mov(Imm16, Register)], [mov(Imm8, Axl)],
    [mov(Imm16, ArArp)] and [mov(Imm16, SttMod)] have one body. *)
Definition mov_Imm (a : Z) (b : RegName) : M void :=
  let value := a in RegFromBus16 b value.
Definition mov_icr_Imm5 (a : Z) : M void := throw "unimplemented".
(** [mov(Imm8s, Axh)] and [mov(Imm8s, RnOld)] have one body. *)
Definition mov_Imm8s (a : Z) (b : RegName) : M void :=
  let value := SignExtend16 8 a in RegFromBus16 b value.
Definition mov_sv_Imm8s (a : Z) : M void :=
  let value := SignExtend16 8 a in modify (regs.set_sv value).
Definition mov_MemR7Imm16_Ax (a : Z) (b : RegName) : M void :=
  value <- LoadFromMemory_MemR7Imm16 a ;; RegFromBus16 b value.
Definition mov_MemR7Imm7s_Ax (a : Z) (b : RegName) : M void :=
  value <- LoadFromMemory_MemR7Imm7s a ;; RegFromBus16 b value.
(** [mov(Rn, StepZIDS, Bx)] and [mov(Rn, StepZIDS, Register)] have one
    body. *)
Definition mov_Rn (a : RegName) (as_ : StepValue) (b : RegName) : M void :=
  unit <- GetRnUnit a ;;
  address <- RnAddressAndModify unit as_ ;;
  value <- DataRead address ;;
  RegFromBus16 b value.
Definition mov_memsp_to (b : RegName) : M void :=
  sp <- gets regs.sp ;;
  value <- DataRead sp ;;
  RegFromBus16 b value.
(** [mov_mixp_to(Register)] and [mov_mixp_to(Bx)] have one body. *)
Definition mov_mixp_to (b : RegName) : M void :=
  value <- gets regs.mixp ;; RegFromBus16 b value.
Definition mov_RnOld_MemImm8 (a : RegName) (b : Z) : M void :=
  value <- RegToBus16 a ;; StoreToMemory_MemImm8 b value.
Definition mov_icr_Register (a : RegName) : M void :=
  value <- RegToBus16_ a true ;; modify (Set_ Pseudo.icr value).
Definition mov_mixp (a : RegName) : M void :=
  value <- RegToBus16_ a true ;; modify (regs.set_mixp value).
Definition mov_Register_Rn (a b : RegName) (bs : StepValue) : M void :=
  (* a = a0 or a1 is overrided; a = p0 untested *)
  value <- RegToBus16_ a true ;;
  unit <- GetRnUnit b ;;
  address <- RnAddressAndModify unit bs ;;
  DataWrite address value.
Definition mov_Register_Bx (a b : RegName) : M void :=
  match a with
  | RegName.p =>
      value <- ProductToBus40 RegName.p0 ;; SetAcc b value
  | RegName.a0 | RegName.a1 =>
      (* Is there any difference from the mov(Ab, Ab) instruction? *)
      value <- GetAcc a ;; SetAcc b value
  | _ =>
      value <- RegToBus16_ a true ;; RegFromBus16 b value
  end.
(** [b_storage] is the operand field [b.storage]. *)
Definition mov_Register_Register (a b : RegName) (b_storage : Z) : M void :=
  (* a = a0 or a1 is overrided *)
  match a with
  | RegName.p =>
      (* b loses its typical meaning in this case *)
      let b_name := if nz (b_storage .& 1) then RegName.a1 else RegName.a0 in
      value <- ProductToBus40 RegName.p0 ;;
      SetAcc b_name value
  | RegName.pc =>
      pc <- gets regs.pc ;;
      match b with
      | RegName.a0 | RegName.a1 => SetAcc b pc
      | _ => RegFromBus16 b (pc .& 0xFFFF)
      end
  | _ =>
      value <- RegToBus16_ a true ;; RegFromBus16 b value
  end.
(** [mov_repc_to(Ab)] and [mov_repc_to(Abl)] have one body. *)
Definition mov_repc_to (b : RegName) : M void :=
  value <- gets regs.repc ;; RegFromBus16 b value.
Definition mov_sv_to (b : Z) : M void :=
  value <- gets regs.sv ;; StoreToMemory_MemImm8 b value.
Definition mov_x0_to (b : RegName) : M void :=
  value <- gets (fun rs => regs.x rs 0) ;; RegFromBus16 b value.
Definition mov_x1_to (b : RegName) : M void :=
  value <- gets (fun rs => regs.x rs 1) ;; RegFromBus16 b value.
Definition mov_y1_to (b : RegName) : M void :=
  value <- gets (fun rs => regs.y rs 1) ;; RegFromBus16 b value.
Definition mov_r6_Imm16 (a : Z) : M void := modify (set_r 6 a).
Definition mov_repc_Imm16 (a : Z) : M void := modify (regs.set_repc a).
Definition mov_stepi0 (a : Z) : M void := modify (regs.set_stepi0 a).
Definition mov_stepj0 (a : Z) : M void := modify (regs.set_stepj0 a).
Definition mov_prpage_Imm4 (a : Z) : M void := throw "unimplemented".

Definition mov_a0h_stepi0 : M void :=
  value <- RegToBus16_ RegName.a0h true ;; modify (regs.set_stepi0 value).
Definition mov_a0h_stepj0 : M void :=
  value <- RegToBus16_ RegName.a0h true ;; modify (regs.set_stepj0 value).
Definition mov_stepi0_a0h : M void :=
  value <- gets regs.stepi0 ;; RegFromBus16 RegName.a0h value.
Definition mov_stepj0_a0h : M void :=
  value <- gets regs.stepj0 ;; RegFromBus16 RegName.a0h value.

Definition mov_prpage_Abl (a : RegName) : M void := throw "unimplemented".
Definition mov_repc_Abl (a : RegName) : M void :=
  value <- RegToBus16_ a true ;; modify (regs.set_repc value).
(** [mov(Abl, ArArp)] and [mov(Abl, SttMod)] have one body. *)
Definition mov_Abl (a b : RegName) : M void :=
  value <- RegToBus16_ a true ;; RegFromBus16 b value.

Definition mov_prpage_to (b : RegName) : M void := throw "unimplemented".
(** [mov(ArArp, Abl)] and [mov(SttMod, Abl)] have one body. *)
Definition mov_to_Abl (a b : RegName) : M void :=
  value <- RegToBus16 a ;; RegFromBus16 b value.

Definition mov_repc_to_ArRn1 (b bs : Z) : M void :=
  unit <- GetArRnUnit b ;;
  step <- GetArStep bs ;;
  address <- RnAddressAndModify unit step ;;
  value <- gets regs.repc ;;
  DataWrite address value.
(** [mov(ArArp, ArRn1, ArStep1)] and [mov(SttMod, ArRn1, ArStep1)] have one
    body. *)
Definition mov_to_ArRn1 (a : RegName) (b bs : Z) : M void :=
  unit <- GetArRnUnit b ;;
  step <- GetArStep bs ;;
  address <- RnAddressAndModify unit step ;;
  value <- RegToBus16 a ;;
  DataWrite address value.

Definition mov_repc_ArRn1 (a as_ : Z) : M void :=
  unit <- GetArRnUnit a ;;
  step <- GetArStep as_ ;;
  address <- RnAddressAndModify unit step ;;
  value <- DataRead address ;;
  modify (regs.set_repc value).
(** [mov(ArRn1, ArStep1, ArArp)] and [mov(ArRn1, ArStep1, SttMod)] have one
    body. *)
Definition mov_ArRn1 (a as_ : Z) (b : RegName) : M void :=
  (* are you sure it is ok to both use and modify ar registers? *)
  unit <- GetArRnUnit a ;;
  step <- GetArStep as_ ;;
  address <- RnAddressAndModify unit step ;;
  value <- DataRead address ;;
  RegFromBus16 b value.

Definition mov_repc_to_MemR7Imm16 (b : Z) : M void :=
  value <- gets regs.repc ;; StoreToMemory_MemR7Imm16 b value.
Definition mov_ArArpSttMod_MemR7Imm16 (a : RegName) (b : Z) : M void :=
  value <- RegToBus16 a ;; StoreToMemory_MemR7Imm16 b value.

Definition mov_repc_MemR7Imm16 (a : Z) : M void :=
  value <- LoadFromMemory_MemR7Imm16 a ;; modify (regs.set_repc value).
Definition mov_MemR7Imm16_ArArpSttMod (a : Z) (b : RegName) : M void :=
  value <- LoadFromMemory_MemR7Imm16 a ;; RegFromBus16 b value.

(** [mov_pc(Ax)] and [mov_pc(Bx)] have one body. *)
Definition mov_pc (a : RegName) : M void :=
  value <- GetAcc a ;;
  SetPC_Save (value .& 0xFFFFFFFF).

Definition mov_mixp_r6 : M void := modify (fun rs => set_r 6 (regs.mixp rs) rs).
(** [mov_p0h_to(Bx)] and [mov_p0h_to(Register)] have one body. *)
Definition mov_p0h_to (b : RegName) : M void :=
  v <- ProductToBus40 RegName.p0 ;;
  let value := (v >> 16) .& 0xFFFF in
  RegFromBus16 b value.
Definition mov_p0h_r6 : M void :=
  v <- ProductToBus40 RegName.p0 ;;
  let value := (v >> 16) .& 0xFFFF in
  modify (set_r 6 value).
Definition mov_p0 (a : RegName) : M void :=
  v <- GetAcc a ;;
  v <- SaturateAcc v false ;;
  let value := v .& 0xFFFFFFFF in
  ProductFromBus32 RegName.p0 value.
Definition mov_p1_to (b : RegName) : M void :=
  value <- ProductToBus40 RegName.p1 ;;
  SetAcc b value.

Definition mov2_Px (a : RegName) (b bs : Z) : M void :=
  value <- ProductToBus32_NoShift a ;;
  let l := value .& 0xFFFF in
  let h := (value >> 16) .& 0xFFFF in
  unit <- GetArRnUnit b ;;
  step <- GetArStep bs ;;
  address <- RnAddressAndModify unit step ;;
  o <- GetArOffset bs ;;
  address2 <- OffsetAddress unit address o ;;
  (* NOTE: keep the write order exactly like this. *)
  DataWrite address2 l ;;
  DataWrite address h.
Definition mov2s (a : RegName) (b bs : Z) : M void :=
  value <- ProductToBus40 a ;;
  let l := value .& 0xFFFF in
  let h := (value >> 16) .& 0xFFFF in
  unit <- GetArRnUnit b ;;
  step <- GetArStep bs ;;
  address <- RnAddressAndModify unit step ;;
  o <- GetArOffset bs ;;
  address2 <- OffsetAddress unit address o ;;
  (* NOTE: keep the write order exactly like this. *)
  DataWrite address2 l ;;
  DataWrite address h.
Definition mov2_to_Px (a as_ : Z) (b : RegName) : M void :=
  unit <- GetArRnUnit a ;;
  step <- GetArStep as_ ;;
  address <- RnAddressAndModify unit step ;;
  o <- GetArOffset as_ ;;
  address2 <- OffsetAddress unit address o ;;
  l <- DataRead address2 ;;
  h <- DataRead address ;;
  let value := SignExtend64 32 ((h << 16) .| l) in
  ProductFromBus32 b (u32 value).
Definition mova_Ab (a : RegName) (b bs : Z) : M void :=
  v <- GetAcc a ;;
  value <- SaturateAcc v false ;;
  let l := value .& 0xFFFF in
  let h := (value >> 16) .& 0xFFFF in
  unit <- GetArRnUnit b ;;
  step <- GetArStep bs ;;
  address <- RnAddressAndModify unit step ;;
  o <- GetArOffset bs ;;
  address2 <- OffsetAddress unit address o ;;
  (* NOTE: keep the write order exactly like this. The second one overrides
     the first one if the offset is zero. *)
  DataWrite address2 l ;;
  DataWrite address h.
Definition mova_to_Ab (a as_ : Z) (b : RegName) : M void :=
  unit <- GetArRnUnit a ;;
  step <- GetArStep as_ ;;
  address <- RnAddressAndModify unit step ;;
  o <- GetArOffset as_ ;;
  address2 <- OffsetAddress unit address o ;;
  l <- DataRead address2 ;;
  h <- DataRead address ;;
  let value := SignExtend64 32 ((h << 16) .| l) in
  SetAcc b value.

(** [mov_r6_to(Bx)] and [mov_r6_to(Register)] have one body. *)
Definition mov_r6_to (b : RegName) : M void :=
  value <- gets (fun rs => regs.r rs 6) ;; RegFromBus16 b value.
Definition mov_r6_mixp : M void := modify (fun rs => regs.set_mixp (regs.r rs 6) rs).
Definition mov_r6_Register (a : RegName) : M void :=
  value <- RegToBus16_ a true ;; modify (set_r 6 value).
Definition mov_memsp_r6 : M void :=
  sp <- gets regs.sp ;;
  value <- DataRead sp ;;
  modify (set_r 6 value).
Definition mov_r6_to_Rn (b : RegName) (bs : StepValue) : M void :=
  value <- gets (fun rs => regs.r rs 6) ;;
  unit <- GetRnUnit b ;;
  address <- RnAddressAndModify unit bs ;;
  DataWrite address value.
Definition mov_r6_Rn (a : RegName) (as_ : StepValue) : M void :=
  unit <- GetRnUnit a ;;
  address <- RnAddressAndModify unit as_ ;;
  value <- DataRead address ;;
  modify (set_r 6 value).

Definition mov2_axh_m_y0_m (a : RegName) (b bs : Z) : M void :=
  va <- GetAcc a ;;
  sat <- SaturateAcc_NoFlag va false ;;
  let u := (sat >> 16) .& 0xFFFF in
  v <- gets (fun rs => regs.y rs 0) ;;
  unit <- GetArRnUnit b ;;
  step <- GetArStep bs ;;
  ua <- RnAddressAndModify unit step ;;
  o <- GetArOffset bs ;;
  va_ <- OffsetAddress unit ua o ;;
  (* keep the order *)
  DataWrite va_ v ;;
  DataWrite ua u.

Definition mov2_ax_mij (a : RegName) (b bsi bsj : Z) : M void :=
  '(ui, uj) <- GetArpRnUnit b ;;
  '(si, sj) <- GetArpStep bsi bsj ;;
  i <- RnAddressAndModify ui si ;;
  j <- RnAddressAndModify uj sj ;;
  va <- GetAcc a ;;
  value <- SaturateAcc_NoFlag va false ;;
  DataWrite i ((value >> 16) .& 0xFFFF) ;;
  DataWrite j (value .& 0xFFFF).
Definition mov2_ax_mji (a : RegName) (b bsi bsj : Z) : M void :=
  '(ui, uj) <- GetArpRnUnit b ;;
  '(si, sj) <- GetArpStep bsi bsj ;;
  i <- RnAddressAndModify ui si ;;
  j <- RnAddressAndModify uj sj ;;
  va <- GetAcc a ;;
  value <- SaturateAcc_NoFlag va false ;;
  DataWrite j ((value >> 16) .& 0xFFFF) ;;
  DataWrite i (value .& 0xFFFF).
Definition mov2_mij_ax (a asi asj : Z) (b : RegName) : M void :=
  '(ui, uj) <- GetArpRnUnit a ;;
  '(si, sj) <- GetArpStep asi asj ;;
  i <- RnAddressAndModify ui si ;;
  h <- DataRead i ;;
  j <- RnAddressAndModify uj sj ;;
  l <- DataRead j ;;
  let value := SignExtend64 32 ((h << 16) .| l) in
  SetAcc_Simple b value.
Definition mov2_mji_ax (a asi asj : Z) (b : RegName) : M void :=
  '(ui, uj) <- GetArpRnUnit a ;;
  '(si, sj) <- GetArpStep asi asj ;;
  i <- RnAddressAndModify ui si ;;
  l <- DataRead i ;;
  j <- RnAddressAndModify uj sj ;;
  h <- DataRead j ;;
  let value := SignExtend64 32 ((h << 16) .| l) in
  SetAcc_Simple b value.
Definition mov2_abh_m (ax ay : RegName) (b bs : Z) : M void :=
  vx <- GetAcc ax ;;
  sx <- SaturateAcc_NoFlag vx false ;;
  let u := (sx >> 16) .& 0xFFFF in
  vy <- GetAcc ay ;;
  sy <- SaturateAcc_NoFlag vy false ;;
  let v := (sy >> 16) .& 0xFFFF in
  unit <- GetArRnUnit b ;;
  step <- GetArStep bs ;;
  ua <- RnAddressAndModify unit step ;;
  o <- GetArOffset bs ;;
  va <- OffsetAddress unit ua o ;;
  (* keep the order *)
  DataWrite va v ;;
  DataWrite ua u.

(** The four [exchange_*] handlers: [to_j] says whether the accumulator half
    is written to address j (and the new value read from i) or the other
    way round; [rnd] adds the rounding constant 0x8000. *)
Definition exchange (to_j rnd : bool) (a : RegName) (b bsi bsj : Z) : M void :=
  '(ui, uj) <- GetArpRnUnit b ;;
  '(si, sj) <- GetArpStep bsi bsj ;;
  i <- RnAddressAndModify ui si ;;
  j <- RnAddressAndModify uj sj ;;
  va <- GetAcc a ;;
  value <- SaturateAcc_NoFlag va false ;;
  DataWrite (if to_j then j else i) ((value >> 16) .& 0xFFFF) ;;
  w <- DataRead (if to_j then i else j) ;;
  let value := SignExtend64 32 (if rnd then (w << 16) .| 0x8000 else w << 16) in
  SetAcc_Simple a value.
Definition exchange_iaj := exchange true false.
Definition exchange_riaj := exchange true true.
Definition exchange_jai := exchange false false.
Definition exchange_rjai := exchange false true.

Definition movs_MemImm8 (a : Z) (b : RegName) : M void :=
  w <- LoadFromMemory_MemImm8 a ;;
  let value := SignExtend64 16 w in
  sv <- gets regs.sv ;;
  ShiftBus40 value sv b.
Definition movs_Rn (a : RegName) (as_ : StepValue) (b : RegName) : M void :=
  unit <- GetRnUnit a ;;
  address <- RnAddressAndModify unit as_ ;;
  w <- DataRead address ;;
  let value := SignExtend64 16 w in
  sv <- gets regs.sv ;;
  ShiftBus40 value sv b.
Definition movs_Register (a b : RegName) : M void :=
  w <- RegToBus16 a ;;
  let value := SignExtend64 16 w in
  sv <- gets regs.sv ;;
  ShiftBus40 value sv b.
Definition movs_r6_to (b : RegName) : M void :=
  w <- gets (fun rs => regs.r rs 6) ;;
  let value := SignExtend64 16 w in
  sv <- gets regs.sv ;;
  ShiftBus40 value sv b.
Definition movsi (a b : RegName) (s : Z) : M void :=
  w <- RegToBus16 a ;;
  let value := SignExtend64 16 w in
  let sv := SignExtend16 5 s in
  ShiftBus40 value sv b.

Definition movr_ArRn2 (a as_ : Z) (b : RegName) : M void :=
  unit <- GetArRnUnit a ;;
  step <- GetArStep as_ ;;
  address <- RnAddressAndModify unit step ;;
  value16 <- DataRead address ;;
  let value := SignExtend64 32 (value16 << 16) in
  result <- AddSub value 0x8000 false ;;
  SetAcc b result.

(** The 16-bit rounding shared by [movr(Rn, ...)], [movr(Register, ...)] and
    [movr_r6_to]: "Do 16-bit arithmetic. Flag C is set according to bit 16
    but Flag V is always cleared". *)
Definition round16 (value16 : Z) : M Z :=
  let result := value16 + 0x8000 in
  modify (set_fc 0 (nz (result >> 16))) ;;
  modify (regs.set_fv false) ;;
  ret (result .& 0xFFFF).

Definition movr_Rn (a : RegName) (as_ : StepValue) (b : RegName) : M void :=
  unit <- GetRnUnit a ;;
  address <- RnAddressAndModify unit as_ ;;
  value16 <- DataRead address ;;
  result <- round16 value16 ;;
  SetAcc b result.
Definition movr_Register (a b : RegName) : M void :=
  result <-
    match a with
    | RegName.a0 | RegName.a1 =>
        value <- GetAcc a ;; AddSub value 0x8000 false
    | RegName.p =>
        value <- ProductToBus40 RegName.p0 ;; AddSub value 0x8000 false
    | _ =>
        value16 <- RegToBus16 a ;; round16 value16
    end ;;
  SetAcc b result.
Definition movr_Bx (a b : RegName) : M void :=
  value <- GetAcc a ;;
  result <- AddSub value 0x8000 false ;;
  SetAcc b result.
Definition movr_r6_to (b : RegName) : M void :=
  value16 <- gets (fun rs => regs.r rs 6) ;;
  result <- round16 value16 ;;
  SetAcc b result.

(** The [while (true)] loop of [Exp]; [bit] runs from 38 down to 0, so 39
    passes suffice. *)
Fixpoint Exp_loop (fuel : nat) (value sign bit count : Z) : Z :=
  match fuel with
  | O => count
  | S fuel' =>
      if negb (((value >> bit) .& 1) =? sign) then count
      else
        let count := count + 1 in
        if bit =? 0 then count else Exp_loop fuel' value sign (bit - 1) count
  end.
Definition Exp (value : Z) : Z :=
  let sign := (value >> 39) .& 1 in
  u16 (Exp_loop 39 value sign 38 0 - 8).

Definition ExpStore (b : RegName) : M void :=
  sv <- gets regs.sv ;; SetAcc_Simple b (SignExtend64 16 sv).

Definition exp_Bx (a : RegName) : M void :=
  value <- GetAcc a ;;
  modify (regs.set_sv (Exp value)).
Definition exp_Bx_Ax (a b : RegName) : M void := exp_Bx a ;; ExpStore b.
Definition exp_Rn (a : RegName) (as_ : StepValue) : M void :=
  unit <- GetRnUnit a ;;
  address <- RnAddressAndModify unit as_ ;;
  w <- DataRead address ;;
  let value := SignExtend64 32 (w << 16) in
  modify (regs.set_sv (Exp value)).
Definition exp_Rn_Ax (a : RegName) (as_ : StepValue) (b : RegName) : M void :=
  exp_Rn a as_ ;; ExpStore b.
Definition exp_Register (a : RegName) : M void :=
  value <-
    match a with
    | RegName.a0 | RegName.a1 => GetAcc a
    | _ =>
        (* RegName::p follows the usual rule *)
        w <- RegToBus16 a ;; ret (SignExtend64 32 (w << 16))
    end ;;
  modify (regs.set_sv (Exp value)).
Definition exp_Register_Ax (a b : RegName) : M void := exp_Register a ;; ExpStore b.
Definition exp_r6 : M void :=
  w <- RegToBus16 RegName.r6 ;;
  let value := SignExtend64 32 (w << 16) in
  modify (regs.set_sv (Exp value)).
Definition exp_r6_Ax (b : RegName) : M void := exp_r6 ;; ExpStore b.

Definition lim (a b : RegName) : M void :=
  value <- GetAcc a ;;
  value <- SaturateAcc_Unconditional value ;;
  SetAcc_NoSaturation b value.

Definition vtrclr0 : M void := modify (set_vtr 0 0).
Definition vtrclr1 : M void := modify (set_vtr 1 0).
Definition vtrclr : M void := modify (set_vtr 0 0) ;; modify (set_vtr 1 0).
Definition vtrmov0 (a : RegName) : M void :=
  v <- gets (fun rs => regs.vtr rs 0) ;; SetAcc a v.
Definition vtrmov1 (a : RegName) : M void :=
  v <- gets (fun rs => regs.vtr rs 1) ;; SetAcc a v.
Definition vtrmov (a : RegName) : M void :=
  rs <- get_regs ;;
  SetAcc a ((regs.vtr rs 1 .& 0xFF00) .| (regs.vtr rs 0 >> 8)).
Definition vtrshr : M void :=
  (* TODO: This instruction has one cycle delay on vtr0, but not on vtr1 *)
  modify (fun rs => set_vtr 0 (u16 ((regs.vtr rs 0 >> 1) .| (Z.b2z (regs.fc rs 0) << 15))) rs) ;;
  modify (fun rs => set_vtr 1 (u16 ((regs.vtr rs 1 >> 1) .| (Z.b2z (regs.fc rs 1) << 15))) rs).

Definition clrp0 : M void := ProductFromBus32 RegName.p0 0.
Definition clrp1 : M void := ProductFromBus32 RegName.p1 0.
Definition clrp : M void := ProductFromBus32 RegName.p0 0 ;; ProductFromBus32 RegName.p1 0.

Definition CounterAcc (name : RegName) : M RegName :=
  match name with
  | RegName.a0 => ret RegName.a1
  | RegName.a1 => ret RegName.a0
  | RegName.b0 => ret RegName.b1
  | RegName.b1 => ret RegName.b0
  | RegName.a0l => ret RegName.a1l
  | RegName.a1l => ret RegName.a0l
  | RegName.b0l => ret RegName.b1l
  | RegName.b1l => ret RegName.b0l
  | RegName.a0h => ret RegName.a1h
  | RegName.a1h => ret RegName.a0h
  | RegName.b0h => ret RegName.b1h
  | RegName.b1h => ret RegName.b0h
  | RegName.a0e => ret RegName.a1e
  | RegName.a1e => ret RegName.a0e
  | RegName.b0e => ret RegName.b1e
  | RegName.b1e => ret RegName.b0e
  | _ => throw "std::out_of_range"
  end.

(** The conditions the eight extremum handlers test on [d = v - u]. *)
Definition cond_ge (d : Z) : bool := ((d >> 63) .& 1) =? 0.
Definition cond_gt (d : Z) : bool := (((d >> 63) .& 1) =? 0) && nz d.
Definition cond_le (d : Z) : bool := (((d >> 63) .& 1) =? 1) || (d =? 0).
Definition cond_lt (d : Z) : bool := ((d >> 63) .& 1) =? 1.

Definition max_min (test : Z -> bool) (a : RegName) (bs : StepValue) : M void :=
  u <- GetAcc a ;;
  ca <- CounterAcc a ;;
  v <- GetAcc ca ;;
  let d := u64 (v - u) in
  r0 <- RnAndModify 0 bs ;;
  if test d then
    modify (regs.set_fm true) ;;
    modify (regs.set_mixp r0) ;;
    SetAcc_Simple a v
  else
    modify (regs.set_fm false).
Definition max_ge := max_min cond_ge.
Definition max_gt := max_min cond_gt.
Definition min_le := max_min cond_le.
Definition min_lt := max_min cond_lt.

Definition max_min_r0 (test : Z -> bool) (a : RegName) (bs : StepValue) : M void :=
  u <- GetAcc a ;;
  r0 <- RnAndModify 0 bs ;;
  addr <- RnAddress 0 r0 ;;
  w <- DataRead addr ;;
  let v := SignExtend64 16 w in
  let d := u64 (v - u) in
  if test d then
    modify (regs.set_fm true) ;;
    modify (regs.set_mixp r0) ;;
    SetAcc_Simple a v
  else
    modify (regs.set_fm false).
Definition max_ge_r0 := max_min_r0 cond_ge.
Definition max_gt_r0 := max_min_r0 cond_gt.
Definition min_le_r0 := max_min_r0 cond_le.
Definition min_lt_r0 := max_min_r0 cond_lt.

Definition divs (a : Z) (b : RegName) : M void :=
  da <- LoadFromMemory_MemImm8 a ;;
  db <- GetAcc b ;;
  let value := u64 (db - (da << 15)) in
  if nz (value >> 63) then
    SetAcc_NoSaturation b (SignExtend64 40 (u64 (db << 1)))
  else
    SetAcc_NoSaturation b (SignExtend64 40 (u64 (u64 (value << 1) + 1))).

Definition sqr_sqr_add3_Ab (a b : RegName) : M void :=
  value <- GetAcc a ;;
  add3_p0_p1 b ;;
  modify (set_y 0 ((value >> 16) .& 0xFFFF)) ;;
  modify (fun rs => set_x 0 (regs.y rs 0) rs) ;;
  modify (set_y 1 (value .& 0xFFFF)) ;;
  modify (fun rs => set_x 1 (regs.y rs 1) rs) ;;
  DoMultiplication 0 true true ;;
  DoMultiplication 1 true true.
Definition sqr_sqr_add3_ArRn2 (a as_ : Z) (b : RegName) : M void :=
  add3_p0_p1 b ;;
  unit <- GetArRnUnit a ;;
  step <- GetArStep as_ ;;
  address0 <- RnAddressAndModify unit step ;;
  o <- GetArOffset as_ ;;
  address1 <- OffsetAddress unit address0 o ;;
  w0 <- DataRead address0 ;;
  modify (set_y 0 w0) ;;
  modify (fun rs => set_x 0 (regs.y rs 0) rs) ;;
  w1 <- DataRead address1 ;;
  modify (set_y 1 w1) ;;
  modify (fun rs => set_x 1 (regs.y rs 1) rs) ;;
  DoMultiplication 0 true true ;;
  DoMultiplication 1 true true.
Definition sqr_mpysu_add3a (a b : RegName) : M void :=
  value <- GetAcc a ;;
  add3_p0_p1a b ;;
  modify (set_y 1 ((value >> 16) .& 0xFFFF)) ;;
  modify (fun rs => set_y 0 (regs.y rs 1) rs) ;;
  modify (fun rs => set_x 0 (regs.y rs 0) rs) ;;
  modify (set_x 1 (value .& 0xFFFF)) ;;
  DoMultiplication 0 true true ;;
  DoMultiplication 1 false true.

(** [cmp(Ax, Bx)] and [cmp(Bx, Ax)] have one body. *)
Definition cmp (a b : RegName) : M void :=
  va <- GetAcc a ;;
  vb <- GetAcc b ;;
  r <- AddSub vb va true ;;
  SetAccFlag r.
Definition cmp_b0_b1 : M void := cmp RegName.b0 RegName.b1.
Definition cmp_b1_b0 : M void := cmp RegName.b1 RegName.b0.
Definition cmp_p1_to (b : RegName) : M void :=
  va <- ProductToBus40 RegName.p1 ;;
  vb <- GetAcc b ;;
  r <- AddSub vb va true ;;
  SetAccFlag r.

Definition MinMaxVtr (a b : RegName) (min : bool) : M void :=
  u <- GetAcc a ;;
  v <- GetAcc b ;;
  let uh := SignExtend64 24 (u >> 16) in
  let ul := SignExtend64 16 (u .& 0xFFFF) in
  let vh := SignExtend64 24 (v >> 16) in
  let vl := SignExtend64 16 (v .& 0xFFFF) in
  let wh := u64 (if min then uh - vh else vh - uh) in
  let wl := u64 (if min then ul - vl else vl - ul) in
  modify (set_fc 0 (negb (nz (wh >> 63)))) ;;
  fc0 <- gets (fun rs => regs.fc rs 0) ;;
  let wh := if fc0 then vh else uh in
  modify (set_fc 1 (negb (nz (wl >> 63)))) ;;
  fc1 <- gets (fun rs => regs.fc rs 1) ;;
  let wl := if fc1 then vl else ul in
  let w := u64 (wh << 16) .| (wl .& 0xFFFF) in
  SetAcc_Simple a w ;;
  vtrshr.

Definition max2_vtr (a : RegName) : M void :=
  ca <- CounterAcc a ;; MinMaxVtr a ca false.
Definition min2_vtr (a : RegName) : M void :=
  ca <- CounterAcc a ;; MinMaxVtr a ca true.
Definition max2_vtr_Ax_Bx (a b : RegName) : M void := MinMaxVtr a b false.
Definition min2_vtr_Ax_Bx (a b : RegName) : M void := MinMaxVtr a b true.

(** The eight handlers [max2_vtr_movl] ... [min2_vtr_movh] (two operand
    orders each): [min] selects the extremum and [high] the half stored. *)
Definition minmax2_vtr_mov (min high : bool) (a b : RegName) (c cs : Z) : M void :=
  MinMaxVtr a b min ;;
  ca <- CounterAcc a ;;
  vc <- GetAcc ca ;;
  value <- SaturateAcc_NoFlag vc false ;;
  unit <- GetArRnUnit c ;;
  step <- GetArStep cs ;;
  address <- RnAddressAndModify unit step ;;
  let value16 := if high then (value >> 16) .& 0xFFFF else value .& 0xFFFF in
  DataWrite address value16.
Definition max2_vtr_movl := minmax2_vtr_mov false false.
Definition max2_vtr_movh := minmax2_vtr_mov false true.
Definition min2_vtr_movl := minmax2_vtr_mov true false.
Definition min2_vtr_movh := minmax2_vtr_mov true true.

(** The four handlers [max2_vtr_movij] ... [min2_vtr_movji]: [ij] says
    whether the high half goes to address i. *)
Definition minmax2_vtr_movij (min ij : bool) (a b : RegName) (c csi csj : Z) : M void :=
  MinMaxVtr a b min ;;
  ca <- CounterAcc a ;;
  vc <- GetAcc ca ;;
  value <- SaturateAcc_NoFlag vc false ;;
  let h := (value >> 16) .& 0xFFFF in
  let l := value .& 0xFFFF in
  '(ui, uj) <- GetArpRnUnit c ;;
  '(si, sj) <- GetArpStep csi csj ;;
  i <- RnAddressAndModify ui si ;;
  j <- RnAddressAndModify uj sj ;;
  DataWrite i (if ij then h else l) ;;
  DataWrite j (if ij then l else h).
Definition max2_vtr_movij := minmax2_vtr_movij false true.
Definition max2_vtr_movji := minmax2_vtr_movij false false.
Definition min2_vtr_movij := minmax2_vtr_movij true true.
Definition min2_vtr_movji := minmax2_vtr_movij true false.

(** The eight handlers [mov_addsubsv] ... [mov_sub3rndsv]: [alt] selects
    [GetArStepAlt]. *)
Definition mov_sv_sum (alt : bool) (base : SumBase) (p1 : ProductSumConfig) (a as_ : Z)
    (b : RegName) : M void :=
  unit <- GetArRnUnit a ;;
  step <- (if alt then GetArStepAlt as_ else GetArStep as_) ;;
  address <- RnAddressAndModify unit step ;;
  w <- DataRead address ;;
  modify (regs.set_sv w) ;;
  ProductSum base b p_sub p1.
Definition mov_addsubsv := mov_sv_sum false SumBase.Sv p_add.
Definition mov_addsubsv_Alt := mov_sv_sum true SumBase.Sv p_add.
Definition mov_addsubrndsv := mov_sv_sum false SumBase.SvRnd p_add.
Definition mov_addsubrndsv_Alt := mov_sv_sum true SumBase.SvRnd p_add.
Definition mov_sub3sv := mov_sv_sum false SumBase.Sv p_sub.
Definition mov_sub3sv_Alt := mov_sv_sum true SumBase.Sv p_sub.
Definition mov_sub3rndsv := mov_sv_sum false SumBase.SvRnd p_sub.
Definition mov_sub3rndsv_Alt := mov_sv_sum true SumBase.SvRnd p_sub.

Definition Cbs (u v r : Z) (c : CbsCondValue) : M void :=
  x0 <- gets (fun rs => regs.x rs 0) ;;
  modify (set_x 0 u) ;;
  pa <- ProductToBus40 RegName.p0 ;;
  pb <- ProductToBus40 RegName.p1 ;;
  let diff := u64 (pa - pb) in
  modify (set_y 0 u) ;;
  DoMultiplication 0 true true ;;
  pa <- ProductToBus40 RegName.p0 ;;
  modify (set_y 0 ((pa >> 16) .& 0xFFFF)) ;;
  modify (set_x 0 x0) ;;
  let cond :=
    match c with
    | CbsCondValue.Ge => negb (nz (diff >> 63))
    | CbsCondValue.Gt => negb (nz (diff >> 63)) && nz diff
    end in
  when cond (
    modify (regs.set_mixp r) ;;
    (* this is likely incorrect. It involves hidden variable *)
    modify (fun rs => set_x 0 (regs.y rs 1) rs) ;;
    modify (fun rs => set_x 1 (regs.y rs 0) rs)) ;;
  modify (set_y 1 v) ;;
  DoMultiplication 0 true true ;;
  DoMultiplication 1 true true.

Definition cbs_Axh (a : RegName) (c : CbsCondValue) : M void :=
  va <- GetAcc a ;;
  let u := (va >> 16) .& 0xFFFF in
  ca <- CounterAcc a ;;
  vc <- GetAcc ca ;;
  let v := (vc >> 16) .& 0xFFFF in
  r <- gets (fun rs => regs.r rs 0) ;;
  Cbs u v r c.
Definition cbs_Axh_Bxh (a b : RegName) (c : CbsCondValue) : M void :=
  va <- GetAcc a ;;
  let u := (va >> 16) .& 0xFFFF in
  vb <- GetAcc b ;;
  let v := (vb >> 16) .& 0xFFFF in
  r <- gets (fun rs => regs.r rs 0) ;;
  Cbs u v r c.
Definition cbs_ArpRn1 (a asi asj : Z) (c : CbsCondValue) : M void :=
  '(ui, uj) <- GetArpRnUnit a ;;
  '(si, sj) <- GetArpStep asi asj ;;
  aip <- RnAndModify ui si ;;
  ai <- RnAddress ui aip ;;
  aj <- RnAddressAndModify uj sj ;;
  u <- DataRead ai ;;
  v <- DataRead aj ;;
  let r := aip in
  Cbs u v r c.

(** The sign and sum configuration shared by the [mma] family. *)
Record MmaConfig : Set := {
  x0_sign : bool; y0_sign : bool; x1_sign : bool; y1_sign : bool;
  base : SumBase; mma_sub_p0 : bool; p0_align : bool; mma_sub_p1 : bool; p1_align : bool }.

Definition mma_sum (a : RegName) (k : MmaConfig) : M void :=
  ProductSum (base k) a {| align := p0_align k; sub := mma_sub_p0 k |}
                        {| align := p1_align k; sub := mma_sub_p1 k |}.
Definition mma_mul (k : MmaConfig) : M void :=
  DoMultiplication 0 (x0_sign k) (y0_sign k) ;;
  DoMultiplication 1 (x1_sign k) (y1_sign k).
Definition swap_x : M void :=
  modify (fun rs => set_x 1 (regs.x rs 0) (set_x 0 (regs.x rs 1) rs)).

Definition mma (a : RegName) (k : MmaConfig) : M void :=
  mma_sum a k ;;
  swap_x ;;
  mma_mul k.
Definition mma_arp (xy i j : Z) (dmodi dmodj : bool) (a : RegName) (k : MmaConfig) : M void :=
  mma_sum a k ;;
  '(ui, uj) <- GetArpRnUnit xy ;;
  '(si, sj) <- GetArpStep i j ;;
  '(oi, oj) <- GetArpOffset i j ;;
  x <- RnAddressAndModify_ ui si dmodi ;;
  y <- RnAddressAndModify_ uj sj dmodj ;;
  wx <- DataRead x ;;
  modify (set_x 0 wx) ;;
  wy <- DataRead y ;;
  modify (set_y 0 wy) ;;
  ax <- OffsetAddress_dmod ui x oi dmodi ;;
  wx1 <- DataRead ax ;;
  modify (set_x 1 wx1) ;;
  ay <- OffsetAddress_dmod uj y oj dmodj ;;
  wy1 <- DataRead ay ;;
  modify (set_y 1 wy1) ;;
  mma_mul k.
Definition mma_mx_xy (y ys : Z) (a : RegName) (k : MmaConfig) : M void :=
  mma_sum a k ;;
  swap_x ;;
  unit <- GetArRnUnit y ;;
  step <- GetArStep ys ;;
  address <- RnAddressAndModify unit step ;;
  w <- DataRead address ;;
  modify (set_y 0 w) ;;
  mma_mul k.
Definition mma_xy_mx (y ys : Z) (a : RegName) (k : MmaConfig) : M void :=
  mma_sum a k ;;
  swap_x ;;
  unit <- GetArRnUnit y ;;
  step <- GetArStep ys ;;
  address <- RnAddressAndModify unit step ;;
  w <- DataRead address ;;
  modify (set_y 1 w) ;;
  mma_mul k.
Definition mma_my_my (x xs : Z) (a : RegName) (k : MmaConfig) : M void :=
  mma_sum a k ;;
  unit <- GetArRnUnit x ;;
  step <- GetArStep xs ;;
  address <- RnAddressAndModify unit step ;;
  w0 <- DataRead address ;;
  modify (set_x 0 w0) ;;
  o <- GetArOffset xs ;;
  a1 <- OffsetAddress unit address o ;;
  w1 <- DataRead a1 ;;
  modify (set_x 1 w1) ;;
  mma_mul k.
Definition mma_mov_Axh_Bxh (u v : RegName) (w ws : Z) (a : RegName) (k : MmaConfig) : M void :=
  unit <- GetArRnUnit w ;;
  step <- GetArStep ws ;;
  address <- RnAddressAndModify unit step ;;
  vu <- GetAcc u ;;
  su <- SaturateAcc_NoFlag vu false ;;
  let u_value := (su >> 16) .& 0xFFFF in
  vv <- GetAcc v ;;
  sv_ <- SaturateAcc_NoFlag vv false ;;
  let v_value := (sv_ >> 16) .& 0xFFFF in
  (* keep the order like this *)
  o <- GetArOffset ws ;;
  a2 <- OffsetAddress unit address o ;;
  DataWrite a2 v_value ;;
  DataWrite address u_value ;;
  mma_sum a k ;;
  swap_x ;;
  mma_mul k.
Definition mma_mov_ArRn2 (w ws : Z) (a : RegName) (k : MmaConfig) : M void :=
  unit <- GetArRnUnit w ;;
  step <- GetArStep ws ;;
  address <- RnAddressAndModify unit step ;;
  vu <- GetAcc a ;;
  su <- SaturateAcc_NoFlag vu false ;;
  let u_value := (su >> 16) .& 0xFFFF in
  ca <- CounterAcc a ;;
  vv <- GetAcc ca ;;
  sv_ <- SaturateAcc_NoFlag vv false ;;
  let v_value := (sv_ >> 16) .& 0xFFFF in
  (* keep the order like this *)
  o <- GetArOffset ws ;;
  a2 <- OffsetAddress unit address o ;;
  DataWrite a2 v_value ;;
  DataWrite address u_value ;;
  mma_sum a k ;;
  swap_x ;;
  mma_mul k.

Definition addhp (a as_ : Z) (b c : RegName) : M void :=
  unit <- GetArRnUnit a ;;
  step <- GetArStep as_ ;;
  address <- RnAddressAndModify unit step ;;
  w <- DataRead address ;;
  let value := SignExtend64 32 ((w << 16) .| 0x8000) in
  p <- ProductToBus40 b ;;
  result <- AddSub value p false ;;
  SetAcc c result.

Definition mov_ext0 (a : Z) : M void := throw "unimplemented".
Definition mov_ext1 (a : Z) : M void := throw "unimplemented".
Definition mov_ext2 (a : Z) : M void := throw "unimplemented".
Definition mov_ext3 (a : Z) : M void := throw "unimplemented".

(** An instruction as the decoder hands it to the interpreter: the handler
    to call with its decoded operands.  The constructor [I_h] stands for a
    call of the handler [h]. *)
Inductive Inst : Type :=
| I_undefined (_ : Z)
| I_nop
| I_norm (_ : RegName) (_ : RegName) (_ : StepValue)
| I_swap (_ : SwapTypeValue)
| I_trap
| I_alm_MemImm8 (_ : AlmOp) (_ : Z) (_ : RegName)
| I_alm_Rn (_ : AlmOp) (_ : RegName) (_ : StepValue) (_ : RegName)
| I_alm_Register (_ : AlmOp) (_ : RegName) (_ : RegName)
| I_alm_r6 (_ : AlmOp) (_ : RegName)
| I_alu_MemImm16 (_ : AlmOp) (_ : Z) (_ : RegName)
| I_alu_MemR7Imm16 (_ : AlmOp) (_ : Z) (_ : RegName)
| I_alu_Imm16 (_ : AlmOp) (_ : Z) (_ : RegName)
| I_alu_Imm8 (_ : AlmOp) (_ : Z) (_ : RegName)
| I_alu_MemR7Imm7s (_ : AlmOp) (_ : Z) (_ : RegName)
| I_or_ (_ : RegName) (_ : RegName) (_ : RegName)
| I_alb_MemImm8 (_ : AlbOp) (_ : Z) (_ : Z)
| I_alb_Rn (_ : AlbOp) (_ : Z) (_ : RegName) (_ : StepValue)
| I_alb_Register (_ : AlbOp) (_ : Z) (_ : RegName)
| I_alb_r6 (_ : AlbOp) (_ : Z)
| I_alb_SttMod (_ : AlbOp) (_ : Z) (_ : RegName)
| I_add (_ : RegName) (_ : RegName)
| I_add_p1 (_ : RegName)
| I_add_Px (_ : RegName) (_ : RegName)
| I_add_p0_p1 (_ : RegName)
| I_add_p0_p1a (_ : RegName)
| I_add3_p0_p1 (_ : RegName)
| I_add3_p0_p1a (_ : RegName)
| I_add3_p0a_p1a (_ : RegName)
| I_sub_ (_ : RegName) (_ : RegName)
| I_sub_p1 (_ : RegName)
| I_sub_Px (_ : RegName) (_ : RegName)
| I_sub_p0_p1 (_ : RegName)
| I_sub_p0_p1a (_ : RegName)
| I_sub3_p0_p1 (_ : RegName)
| I_sub3_p0_p1a (_ : RegName)
| I_sub3_p0a_p1a (_ : RegName)
| I_addsub_p0_p1 (_ : RegName)
| I_addsub_p1_p0 (_ : RegName)
| I_addsub_p0_p1a (_ : RegName)
| I_addsub_p1a_p0 (_ : RegName)
| I_add_add (_ : Z) (_ : Z) (_ : Z) (_ : RegName)
| I_add_sub (_ : Z) (_ : Z) (_ : Z) (_ : RegName)
| I_sub_add (_ : Z) (_ : Z) (_ : Z) (_ : RegName)
| I_sub_sub (_ : Z) (_ : Z) (_ : Z) (_ : RegName)
| I_add_sub_sv (_ : Z) (_ : Z) (_ : RegName)
| I_sub_add_sv (_ : Z) (_ : Z) (_ : RegName)
| I_sub_add_i_mov_j_sv (_ : Z) (_ : Z) (_ : Z) (_ : RegName)
| I_sub_add_j_mov_i_sv (_ : Z) (_ : Z) (_ : Z) (_ : RegName)
| I_add_sub_i_mov_j (_ : Z) (_ : Z) (_ : Z) (_ : RegName)
| I_add_sub_j_mov_i (_ : Z) (_ : Z) (_ : Z) (_ : RegName)
| I_moda4 (_ : ModaOp) (_ : RegName) (_ : Cond)
| I_moda3 (_ : ModaOp) (_ : RegName) (_ : Cond)
| I_pacr1 (_ : RegName)
| I_clr (_ : Z) (_ : Z)
| I_clrr (_ : Z) (_ : Z)
| I_bkrep_Imm8 (_ : Z) (_ : Z)
| I_bkrep_Register (_ : RegName) (_ : Z) (_ : Z)
| I_bkrep_r6 (_ : Z) (_ : Z)
| I_bkreprst (_ : Z)
| I_bkreprst_memsp
| I_bkrepsto (_ : Z)
| I_bkrepsto_memsp
| I_banke (_ : Z)
| I_bankr
| I_bankr_Ar (_ : Z)
| I_bankr_Ar_Arp (_ : Z) (_ : Z)
| I_bankr_Arp (_ : Z)
| I_bitrev (_ : RegName)
| I_bitrev_dbrv (_ : RegName)
| I_bitrev_ebrv (_ : RegName)
| I_br (_ : Z) (_ : Z) (_ : Cond)
| I_brr (_ : Z) (_ : Cond)
| I_break_
| I_call (_ : Z) (_ : Z) (_ : Cond)
| I_calla_Axl (_ : RegName)
| I_calla_Ax (_ : RegName)
| I_callr (_ : Z) (_ : Cond)
| I_cntx_s
| I_cntx_r
| I_ret_ (_ : Cond)
| I_retd
| I_reti (_ : Cond)
| I_retic (_ : Cond)
| I_retid
| I_retidc
| I_rets (_ : Z)
| I_load_ps (_ : Z)
| I_load_stepi (_ : Z)
| I_load_stepj (_ : Z)
| I_load_page (_ : Z)
| I_load_modi (_ : Z)
| I_load_modj (_ : Z)
| I_load_movpd (_ : Z)
| I_load_ps01 (_ : Z)
| I_push_Imm16 (_ : Z)
| I_push_Register (_ : RegName)
| I_push_Abe (_ : RegName)
| I_push_ArArpSttMod (_ : RegName)
| I_push_prpage
| I_push_Px (_ : RegName)
| I_push_r6
| I_push_repc
| I_push_x0
| I_push_x1
| I_push_y1
| I_pusha (_ : RegName)
| I_pop (_ : RegName)
| I_pop_Abe (_ : RegName)
| I_pop_prpage
| I_pop_Px (_ : RegName)
| I_pop_r6
| I_pop_repc
| I_pop_x0
| I_pop_x1
| I_pop_y1
| I_popa (_ : RegName)
| I_rep_Imm8 (_ : Z)
| I_rep_Register (_ : RegName)
| I_rep_r6
| I_shfc (_ : RegName) (_ : RegName) (_ : Cond)
| I_shfi (_ : RegName) (_ : RegName) (_ : Z)
| I_tst4b (_ : Z) (_ : Z)
| I_tst4b_Ax (_ : Z) (_ : Z) (_ : RegName)
| I_tstb_MemImm8 (_ : Z) (_ : Z)
| I_tstb_Rn (_ : RegName) (_ : StepValue) (_ : Z)
| I_tstb_Register (_ : RegName) (_ : Z)
| I_tstb_r6 (_ : Z)
| I_and_ (_ : RegName) (_ : RegName) (_ : RegName)
| I_dint
| I_eint
| I_mul_Rn_Imm16 (_ : MulOp) (_ : RegName) (_ : StepValue) (_ : Z) (_ : RegName)
| I_mul_y0_Rn (_ : MulOp) (_ : RegName) (_ : StepValue) (_ : RegName)
| I_mul_y0_Register (_ : MulOp) (_ : RegName) (_ : RegName)
| I_mul_R45_R0123 (_ : MulOp) (_ : RegName) (_ : StepValue) (_ : RegName) (_ : StepValue) (_ : RegName)
| I_mul_y0_r6 (_ : MulOp) (_ : RegName)
| I_mul_y0_MemImm8 (_ : MulOp) (_ : Z) (_ : RegName)
| I_mpyi (_ : Z)
| I_msu_R45_R0123 (_ : RegName) (_ : StepValue) (_ : RegName) (_ : StepValue) (_ : RegName)
| I_msu_Rn_Imm16 (_ : RegName) (_ : StepValue) (_ : Z) (_ : RegName)
| I_msusu (_ : Z) (_ : Z) (_ : RegName)
| I_mac_x1to0 (_ : RegName)
| I_mac1 (_ : Z) (_ : Z) (_ : Z) (_ : RegName)
| I_modr (_ : RegName) (_ : StepValue)
| I_modr_dmod (_ : RegName) (_ : StepValue)
| I_modr_i2 (_ : RegName)
| I_modr_i2_dmod (_ : RegName)
| I_modr_d2 (_ : RegName)
| I_modr_d2_dmod (_ : RegName)
| I_modr_eemod (_ : Z) (_ : Z) (_ : Z)
| I_modr_edmod (_ : Z) (_ : Z) (_ : Z)
| I_modr_demod (_ : Z) (_ : Z) (_ : Z)
| I_modr_ddmod (_ : Z) (_ : Z) (_ : Z)
| I_movd (_ : RegName) (_ : StepValue) (_ : RegName) (_ : StepValue)
| I_movp_Axl (_ : RegName) (_ : RegName)
| I_movp_Ax (_ : RegName) (_ : RegName)
| I_movp_Rn (_ : RegName) (_ : StepValue) (_ : RegName) (_ : StepValue)
| I_movpdw (_ : RegName)
| I_mov_Ab_Ab (_ : RegName) (_ : RegName)
| I_mov_dvm (_ : RegName)
| I_mov_x0 (_ : RegName)
| I_mov_x1 (_ : RegName)
| I_mov_y1 (_ : RegName)
| I_mov_Ablh_MemImm8 (_ : RegName) (_ : Z)
| I_mov_Axl_MemImm16 (_ : RegName) (_ : Z)
| I_mov_Axl_MemR7Imm16 (_ : RegName) (_ : Z)
| I_mov_Axl_MemR7Imm7s (_ : RegName) (_ : Z)
| I_mov_MemImm16_Ax (_ : Z) (_ : RegName)
| I_mov_MemImm8 (_ : Z) (_ : RegName)
| I_mov_eu (_ : Z) (_ : RegName)
| I_mov_sv_MemImm8 (_ : Z)
| I_mov_dvm_to (_ : RegName)
| I_mov_icr_to (_ : RegName)
| I_mov_Imm (_ : Z) (_ : RegName)
| I_mov_icr_Imm5 (_ : Z)
| I_mov_Imm8s (_ : Z) (_ : RegName)
| I_mov_sv_Imm8s (_ : Z)
| I_mov_MemR7Imm16_Ax (_ : Z) (_ : RegName)
| I_mov_MemR7Imm7s_Ax (_ : Z) (_ : RegName)
| I_mov_Rn (_ : RegName) (_ : StepValue) (_ : RegName)
| I_mov_memsp_to (_ : RegName)
| I_mov_mixp_to (_ : RegName)
| I_mov_RnOld_MemImm8 (_ : RegName) (_ : Z)
| I_mov_icr_Register (_ : RegName)
| I_mov_mixp (_ : RegName)
| I_mov_Register_Rn (_ : RegName) (_ : RegName) (_ : StepValue)
| I_mov_Register_Bx (_ : RegName) (_ : RegName)
| I_mov_Register_Register (_ : RegName) (_ : RegName) (_ : Z)
| I_mov_repc_to (_ : RegName)
| I_mov_sv_to (_ : Z)
| I_mov_x0_to (_ : RegName)
| I_mov_x1_to (_ : RegName)
| I_mov_y1_to (_ : RegName)
| I_mov_r6_Imm16 (_ : Z)
| I_mov_repc_Imm16 (_ : Z)
| I_mov_stepi0 (_ : Z)
| I_mov_stepj0 (_ : Z)
| I_mov_prpage_Imm4 (_ : Z)
| I_mov_a0h_stepi0
| I_mov_a0h_stepj0
| I_mov_stepi0_a0h
| I_mov_stepj0_a0h
| I_mov_prpage_Abl (_ : RegName)
| I_mov_repc_Abl (_ : RegName)
| I_mov_Abl (_ : RegName) (_ : RegName)
| I_mov_prpage_to (_ : RegName)
| I_mov_to_Abl (_ : RegName) (_ : RegName)
| I_mov_repc_to_ArRn1 (_ : Z) (_ : Z)
| I_mov_to_ArRn1 (_ : RegName) (_ : Z) (_ : Z)
| I_mov_repc_ArRn1 (_ : Z) (_ : Z)
| I_mov_ArRn1 (_ : Z) (_ : Z) (_ : RegName)
| I_mov_repc_to_MemR7Imm16 (_ : Z)
| I_mov_ArArpSttMod_MemR7Imm16 (_ : RegName) (_ : Z)
| I_mov_repc_MemR7Imm16 (_ : Z)
| I_mov_MemR7Imm16_ArArpSttMod (_ : Z) (_ : RegName)
| I_mov_pc (_ : RegName)
| I_mov_mixp_r6
| I_mov_p0h_to (_ : RegName)
| I_mov_p0h_r6
| I_mov_p0 (_ : RegName)
| I_mov_p1_to (_ : RegName)
| I_mov2_Px (_ : RegName) (_ : Z) (_ : Z)
| I_mov2s (_ : RegName) (_ : Z) (_ : Z)
| I_mov2_to_Px (_ : Z) (_ : Z) (_ : RegName)
| I_mova_Ab (_ : RegName) (_ : Z) (_ : Z)
| I_mova_to_Ab (_ : Z) (_ : Z) (_ : RegName)
| I_mov_r6_to (_ : RegName)
| I_mov_r6_mixp
| I_mov_r6_Register (_ : RegName)
| I_mov_memsp_r6
| I_mov_r6_to_Rn (_ : RegName) (_ : StepValue)
| I_mov_r6_Rn (_ : RegName) (_ : StepValue)
| I_mov2_axh_m_y0_m (_ : RegName) (_ : Z) (_ : Z)
| I_mov2_ax_mij (_ : RegName) (_ : Z) (_ : Z) (_ : Z)
| I_mov2_ax_mji (_ : RegName) (_ : Z) (_ : Z) (_ : Z)
| I_mov2_mij_ax (_ : Z) (_ : Z) (_ : Z) (_ : RegName)
| I_mov2_mji_ax (_ : Z) (_ : Z) (_ : Z) (_ : RegName)
| I_mov2_abh_m (_ : RegName) (_ : RegName) (_ : Z) (_ : Z)
| I_exchange_iaj (_ : RegName) (_ : Z) (_ : Z) (_ : Z)
| I_exchange_riaj (_ : RegName) (_ : Z) (_ : Z) (_ : Z)
| I_exchange_jai (_ : RegName) (_ : Z) (_ : Z) (_ : Z)
| I_exchange_rjai (_ : RegName) (_ : Z) (_ : Z) (_ : Z)
| I_movs_MemImm8 (_ : Z) (_ : RegName)
| I_movs_Rn (_ : RegName) (_ : StepValue) (_ : RegName)
| I_movs_Register (_ : RegName) (_ : RegName)
| I_movs_r6_to (_ : RegName)
| I_movsi (_ : RegName) (_ : RegName) (_ : Z)
| I_movr_ArRn2 (_ : Z) (_ : Z) (_ : RegName)
| I_movr_Rn (_ : RegName) (_ : StepValue) (_ : RegName)
| I_movr_Register (_ : RegName) (_ : RegName)
| I_movr_Bx (_ : RegName) (_ : RegName)
| I_movr_r6_to (_ : RegName)
| I_exp_Bx (_ : RegName)
| I_exp_Bx_Ax (_ : RegName) (_ : RegName)
| I_exp_Rn (_ : RegName) (_ : StepValue)
| I_exp_Rn_Ax (_ : RegName) (_ : StepValue) (_ : RegName)
| I_exp_Register (_ : RegName)
| I_exp_Register_Ax (_ : RegName) (_ : RegName)
| I_exp_r6
| I_exp_r6_Ax (_ : RegName)
| I_lim (_ : RegName) (_ : RegName)
| I_vtrclr0
| I_vtrclr1
| I_vtrclr
| I_vtrmov0 (_ : RegName)
| I_vtrmov1 (_ : RegName)
| I_vtrmov (_ : RegName)
| I_vtrshr
| I_clrp0
| I_clrp1
| I_clrp
| I_max_ge (_ : RegName) (_ : StepValue)
| I_max_gt (_ : RegName) (_ : StepValue)
| I_min_le (_ : RegName) (_ : StepValue)
| I_min_lt (_ : RegName) (_ : StepValue)
| I_max_ge_r0 (_ : RegName) (_ : StepValue)
| I_max_gt_r0 (_ : RegName) (_ : StepValue)
| I_min_le_r0 (_ : RegName) (_ : StepValue)
| I_min_lt_r0 (_ : RegName) (_ : StepValue)
| I_divs (_ : Z) (_ : RegName)
| I_sqr_sqr_add3_Ab (_ : RegName) (_ : RegName)
| I_sqr_sqr_add3_ArRn2 (_ : Z) (_ : Z) (_ : RegName)
| I_sqr_mpysu_add3a (_ : RegName) (_ : RegName)
| I_cmp (_ : RegName) (_ : RegName)
| I_cmp_b0_b1
| I_cmp_b1_b0
| I_cmp_p1_to (_ : RegName)
| I_max2_vtr (_ : RegName)
| I_min2_vtr (_ : RegName)
| I_max2_vtr_Ax_Bx (_ : RegName) (_ : RegName)
| I_min2_vtr_Ax_Bx (_ : RegName) (_ : RegName)
| I_max2_vtr_movl (_ : RegName) (_ : RegName) (_ : Z) (_ : Z)
| I_max2_vtr_movh (_ : RegName) (_ : RegName) (_ : Z) (_ : Z)
| I_min2_vtr_movl (_ : RegName) (_ : RegName) (_ : Z) (_ : Z)
| I_min2_vtr_movh (_ : RegName) (_ : RegName) (_ : Z) (_ : Z)
| I_max2_vtr_movij (_ : RegName) (_ : RegName) (_ : Z) (_ : Z) (_ : Z)
| I_max2_vtr_movji (_ : RegName) (_ : RegName) (_ : Z) (_ : Z) (_ : Z)
| I_min2_vtr_movij (_ : RegName) (_ : RegName) (_ : Z) (_ : Z) (_ : Z)
| I_min2_vtr_movji (_ : RegName) (_ : RegName) (_ : Z) (_ : Z) (_ : Z)
| I_mov_addsubsv (_ : Z) (_ : Z) (_ : RegName)
| I_mov_addsubsv_Alt (_ : Z) (_ : Z) (_ : RegName)
| I_mov_addsubrndsv (_ : Z) (_ : Z) (_ : RegName)
| I_mov_addsubrndsv_Alt (_ : Z) (_ : Z) (_ : RegName)
| I_mov_sub3sv (_ : Z) (_ : Z) (_ : RegName)
| I_mov_sub3sv_Alt (_ : Z) (_ : Z) (_ : RegName)
| I_mov_sub3rndsv (_ : Z) (_ : Z) (_ : RegName)
| I_mov_sub3rndsv_Alt (_ : Z) (_ : Z) (_ : RegName)
| I_cbs_Axh (_ : RegName) (_ : CbsCondValue)
| I_cbs_Axh_Bxh (_ : RegName) (_ : RegName) (_ : CbsCondValue)
| I_cbs_ArpRn1 (_ : Z) (_ : Z) (_ : Z) (_ : CbsCondValue)
| I_mma (_ : RegName) (_ : MmaConfig)
| I_mma_arp (_ : Z) (_ : Z) (_ : Z) (_ : bool) (_ : bool) (_ : RegName) (_ : MmaConfig)
| I_mma_mx_xy (_ : Z) (_ : Z) (_ : RegName) (_ : MmaConfig)
| I_mma_xy_mx (_ : Z) (_ : Z) (_ : RegName) (_ : MmaConfig)
| I_mma_my_my (_ : Z) (_ : Z) (_ : RegName) (_ : MmaConfig)
| I_mma_mov_Axh_Bxh (_ : RegName) (_ : RegName) (_ : Z) (_ : Z) (_ : RegName) (_ : MmaConfig)
| I_mma_mov_ArRn2 (_ : Z) (_ : Z) (_ : RegName) (_ : MmaConfig)
| I_addhp (_ : Z) (_ : Z) (_ : RegName) (_ : RegName)
| I_mov_ext0 (_ : Z)
| I_mov_ext1 (_ : Z)
| I_mov_ext2 (_ : Z)
| I_mov_ext3 (_ : Z).

(** What [decoder.call] runs for a decoded instruction. *)
Definition exec (i : Inst) : M void :=
  match i with
  | I_undefined x1 => undefined x1
  | I_nop => nop
  | I_norm x1 x2 x3 => norm x1 x2 x3
  | I_swap x1 => swap x1
  | I_trap => trap
  | I_alm_MemImm8 x1 x2 x3 => alm_MemImm8 x1 x2 x3
  | I_alm_Rn x1 x2 x3 x4 => alm_Rn x1 x2 x3 x4
  | I_alm_Register x1 x2 x3 => alm_Register x1 x2 x3
  | I_alm_r6 x1 x2 => alm_r6 x1 x2
  | I_alu_MemImm16 x1 x2 x3 => alu_MemImm16 x1 x2 x3
  | I_alu_MemR7Imm16 x1 x2 x3 => alu_MemR7Imm16 x1 x2 x3
  | I_alu_Imm16 x1 x2 x3 => alu_Imm16 x1 x2 x3
  | I_alu_Imm8 x1 x2 x3 => alu_Imm8 x1 x2 x3
  | I_alu_MemR7Imm7s x1 x2 x3 => alu_MemR7Imm7s x1 x2 x3
  | I_or_ x1 x2 x3 => or_ x1 x2 x3
  | I_alb_MemImm8 x1 x2 x3 => alb_MemImm8 x1 x2 x3
  | I_alb_Rn x1 x2 x3 x4 => alb_Rn x1 x2 x3 x4
  | I_alb_Register x1 x2 x3 => alb_Register x1 x2 x3
  | I_alb_r6 x1 x2 => alb_r6 x1 x2
  | I_alb_SttMod x1 x2 x3 => alb_SttMod x1 x2 x3
  | I_add x1 x2 => add x1 x2
  | I_add_p1 x1 => add_p1 x1
  | I_add_Px x1 x2 => add_Px x1 x2
  | I_add_p0_p1 x1 => add_p0_p1 x1
  | I_add_p0_p1a x1 => add_p0_p1a x1
  | I_add3_p0_p1 x1 => add3_p0_p1 x1
  | I_add3_p0_p1a x1 => add3_p0_p1a x1
  | I_add3_p0a_p1a x1 => add3_p0a_p1a x1
  | I_sub_ x1 x2 => sub_ x1 x2
  | I_sub_p1 x1 => sub_p1 x1
  | I_sub_Px x1 x2 => sub_Px x1 x2
  | I_sub_p0_p1 x1 => sub_p0_p1 x1
  | I_sub_p0_p1a x1 => sub_p0_p1a x1
  | I_sub3_p0_p1 x1 => sub3_p0_p1 x1
  | I_sub3_p0_p1a x1 => sub3_p0_p1a x1
  | I_sub3_p0a_p1a x1 => sub3_p0a_p1a x1
  | I_addsub_p0_p1 x1 => addsub_p0_p1 x1
  | I_addsub_p1_p0 x1 => addsub_p1_p0 x1
  | I_addsub_p0_p1a x1 => addsub_p0_p1a x1
  | I_addsub_p1a_p0 x1 => addsub_p1a_p0 x1
  | I_add_add x1 x2 x3 x4 => add_add x1 x2 x3 x4
  | I_add_sub x1 x2 x3 x4 => add_sub x1 x2 x3 x4
  | I_sub_add x1 x2 x3 x4 => sub_add x1 x2 x3 x4
  | I_sub_sub x1 x2 x3 x4 => sub_sub x1 x2 x3 x4
  | I_add_sub_sv x1 x2 x3 => add_sub_sv x1 x2 x3
  | I_sub_add_sv x1 x2 x3 => sub_add_sv x1 x2 x3
  | I_sub_add_i_mov_j_sv x1 x2 x3 x4 => sub_add_i_mov_j_sv x1 x2 x3 x4
  | I_sub_add_j_mov_i_sv x1 x2 x3 x4 => sub_add_j_mov_i_sv x1 x2 x3 x4
  | I_add_sub_i_mov_j x1 x2 x3 x4 => add_sub_i_mov_j x1 x2 x3 x4
  | I_add_sub_j_mov_i x1 x2 x3 x4 => add_sub_j_mov_i x1 x2 x3 x4
  | I_moda4 x1 x2 x3 => moda4 x1 x2 x3
  | I_moda3 x1 x2 x3 => moda3 x1 x2 x3
  | I_pacr1 x1 => pacr1 x1
  | I_clr x1 x2 => clr x1 x2
  | I_clrr x1 x2 => clrr x1 x2
  | I_bkrep_Imm8 x1 x2 => bkrep_Imm8 x1 x2
  | I_bkrep_Register x1 x2 x3 => bkrep_Register x1 x2 x3
  | I_bkrep_r6 x1 x2 => bkrep_r6 x1 x2
  | I_bkreprst x1 => bkreprst x1
  | I_bkreprst_memsp => bkreprst_memsp
  | I_bkrepsto x1 => bkrepsto x1
  | I_bkrepsto_memsp => bkrepsto_memsp
  | I_banke x1 => banke x1
  | I_bankr => bankr
  | I_bankr_Ar x1 => bankr_Ar x1
  | I_bankr_Ar_Arp x1 x2 => bankr_Ar_Arp x1 x2
  | I_bankr_Arp x1 => bankr_Arp x1
  | I_bitrev x1 => bitrev x1
  | I_bitrev_dbrv x1 => bitrev_dbrv x1
  | I_bitrev_ebrv x1 => bitrev_ebrv x1
  | I_br x1 x2 x3 => br x1 x2 x3
  | I_brr x1 x2 => brr x1 x2
  | I_break_ => break_
  | I_call x1 x2 x3 => call x1 x2 x3
  | I_calla_Axl x1 => calla_Axl x1
  | I_calla_Ax x1 => calla_Ax x1
  | I_callr x1 x2 => callr x1 x2
  | I_cntx_s => cntx_s
  | I_cntx_r => cntx_r
  | I_ret_ x1 => ret_ x1
  | I_retd => retd
  | I_reti x1 => reti x1
  | I_retic x1 => retic x1
  | I_retid => retid
  | I_retidc => retidc
  | I_rets x1 => rets x1
  | I_load_ps x1 => load_ps x1
  | I_load_stepi x1 => load_stepi x1
  | I_load_stepj x1 => load_stepj x1
  | I_load_page x1 => load_page x1
  | I_load_modi x1 => load_modi x1
  | I_load_modj x1 => load_modj x1
  | I_load_movpd x1 => load_movpd x1
  | I_load_ps01 x1 => load_ps01 x1
  | I_push_Imm16 x1 => push_Imm16 x1
  | I_push_Register x1 => push_Register x1
  | I_push_Abe x1 => push_Abe x1
  | I_push_ArArpSttMod x1 => push_ArArpSttMod x1
  | I_push_prpage => push_prpage
  | I_push_Px x1 => push_Px x1
  | I_push_r6 => push_r6
  | I_push_repc => push_repc
  | I_push_x0 => push_x0
  | I_push_x1 => push_x1
  | I_push_y1 => push_y1
  | I_pusha x1 => pusha x1
  | I_pop x1 => pop x1
  | I_pop_Abe x1 => pop_Abe x1
  | I_pop_prpage => pop_prpage
  | I_pop_Px x1 => pop_Px x1
  | I_pop_r6 => pop_r6
  | I_pop_repc => pop_repc
  | I_pop_x0 => pop_x0
  | I_pop_x1 => pop_x1
  | I_pop_y1 => pop_y1
  | I_popa x1 => popa x1
  | I_rep_Imm8 x1 => rep_Imm8 x1
  | I_rep_Register x1 => rep_Register x1
  | I_rep_r6 => rep_r6
  | I_shfc x1 x2 x3 => shfc x1 x2 x3
  | I_shfi x1 x2 x3 => shfi x1 x2 x3
  | I_tst4b x1 x2 => tst4b x1 x2
  | I_tst4b_Ax x1 x2 x3 => tst4b_Ax x1 x2 x3
  | I_tstb_MemImm8 x1 x2 => tstb_MemImm8 x1 x2
  | I_tstb_Rn x1 x2 x3 => tstb_Rn x1 x2 x3
  | I_tstb_Register x1 x2 => tstb_Register x1 x2
  | I_tstb_r6 x1 => tstb_r6 x1
  | I_and_ x1 x2 x3 => and_ x1 x2 x3
  | I_dint => dint
  | I_eint => eint
  | I_mul_Rn_Imm16 x1 x2 x3 x4 x5 => mul_Rn_Imm16 x1 x2 x3 x4 x5
  | I_mul_y0_Rn x1 x2 x3 x4 => mul_y0_Rn x1 x2 x3 x4
  | I_mul_y0_Register x1 x2 x3 => mul_y0_Register x1 x2 x3
  | I_mul_R45_R0123 x1 x2 x3 x4 x5 x6 => mul_R45_R0123 x1 x2 x3 x4 x5 x6
  | I_mul_y0_r6 x1 x2 => mul_y0_r6 x1 x2
  | I_mul_y0_MemImm8 x1 x2 x3 => mul_y0_MemImm8 x1 x2 x3
  | I_mpyi x1 => mpyi x1
  | I_msu_R45_R0123 x1 x2 x3 x4 x5 => msu_R45_R0123 x1 x2 x3 x4 x5
  | I_msu_Rn_Imm16 x1 x2 x3 x4 => msu_Rn_Imm16 x1 x2 x3 x4
  | I_msusu x1 x2 x3 => msusu x1 x2 x3
  | I_mac_x1to0 x1 => mac_x1to0 x1
  | I_mac1 x1 x2 x3 x4 => mac1 x1 x2 x3 x4
  | I_modr x1 x2 => modr x1 x2
  | I_modr_dmod x1 x2 => modr_dmod x1 x2
  | I_modr_i2 x1 => modr_i2 x1
  | I_modr_i2_dmod x1 => modr_i2_dmod x1
  | I_modr_d2 x1 => modr_d2 x1
  | I_modr_d2_dmod x1 => modr_d2_dmod x1
  | I_modr_eemod x1 x2 x3 => modr_eemod x1 x2 x3
  | I_modr_edmod x1 x2 x3 => modr_edmod x1 x2 x3
  | I_modr_demod x1 x2 x3 => modr_demod x1 x2 x3
  | I_modr_ddmod x1 x2 x3 => modr_ddmod x1 x2 x3
  | I_movd x1 x2 x3 x4 => movd x1 x2 x3 x4
  | I_movp_Axl x1 x2 => movp_Axl x1 x2
  | I_movp_Ax x1 x2 => movp_Ax x1 x2
  | I_movp_Rn x1 x2 x3 x4 => movp_Rn x1 x2 x3 x4
  | I_movpdw x1 => movpdw x1
  | I_mov_Ab_Ab x1 x2 => mov_Ab_Ab x1 x2
  | I_mov_dvm x1 => mov_dvm x1
  | I_mov_x0 x1 => mov_x0 x1
  | I_mov_x1 x1 => mov_x1 x1
  | I_mov_y1 x1 => mov_y1 x1
  | I_mov_Ablh_MemImm8 x1 x2 => mov_Ablh_MemImm8 x1 x2
  | I_mov_Axl_MemImm16 x1 x2 => mov_Axl_MemImm16 x1 x2
  | I_mov_Axl_MemR7Imm16 x1 x2 => mov_Axl_MemR7Imm16 x1 x2
  | I_mov_Axl_MemR7Imm7s x1 x2 => mov_Axl_MemR7Imm7s x1 x2
  | I_mov_MemImm16_Ax x1 x2 => mov_MemImm16_Ax x1 x2
  | I_mov_MemImm8 x1 x2 => mov_MemImm8 x1 x2
  | I_mov_eu x1 x2 => mov_eu x1 x2
  | I_mov_sv_MemImm8 x1 => mov_sv_MemImm8 x1
  | I_mov_dvm_to x1 => mov_dvm_to x1
  | I_mov_icr_to x1 => mov_icr_to x1
  | I_mov_Imm x1 x2 => mov_Imm x1 x2
  | I_mov_icr_Imm5 x1 => mov_icr_Imm5 x1
  | I_mov_Imm8s x1 x2 => mov_Imm8s x1 x2
  | I_mov_sv_Imm8s x1 => mov_sv_Imm8s x1
  | I_mov_MemR7Imm16_Ax x1 x2 => mov_MemR7Imm16_Ax x1 x2
  | I_mov_MemR7Imm7s_Ax x1 x2 => mov_MemR7Imm7s_Ax x1 x2
  | I_mov_Rn x1 x2 x3 => mov_Rn x1 x2 x3
  | I_mov_memsp_to x1 => mov_memsp_to x1
  | I_mov_mixp_to x1 => mov_mixp_to x1
  | I_mov_RnOld_MemImm8 x1 x2 => mov_RnOld_MemImm8 x1 x2
  | I_mov_icr_Register x1 => mov_icr_Register x1
  | I_mov_mixp x1 => mov_mixp x1
  | I_mov_Register_Rn x1 x2 x3 => mov_Register_Rn x1 x2 x3
  | I_mov_Register_Bx x1 x2 => mov_Register_Bx x1 x2
  | I_mov_Register_Register x1 x2 x3 => mov_Register_Register x1 x2 x3
  | I_mov_repc_to x1 => mov_repc_to x1
  | I_mov_sv_to x1 => mov_sv_to x1
  | I_mov_x0_to x1 => mov_x0_to x1
  | I_mov_x1_to x1 => mov_x1_to x1
  | I_mov_y1_to x1 => mov_y1_to x1
  | I_mov_r6_Imm16 x1 => mov_r6_Imm16 x1
  | I_mov_repc_Imm16 x1 => mov_repc_Imm16 x1
  | I_mov_stepi0 x1 => mov_stepi0 x1
  | I_mov_stepj0 x1 => mov_stepj0 x1
  | I_mov_prpage_Imm4 x1 => mov_prpage_Imm4 x1
  | I_mov_a0h_stepi0 => mov_a0h_stepi0
  | I_mov_a0h_stepj0 => mov_a0h_stepj0
  | I_mov_stepi0_a0h => mov_stepi0_a0h
  | I_mov_stepj0_a0h => mov_stepj0_a0h
  | I_mov_prpage_Abl x1 => mov_prpage_Abl x1
  | I_mov_repc_Abl x1 => mov_repc_Abl x1
  | I_mov_Abl x1 x2 => mov_Abl x1 x2
  | I_mov_prpage_to x1 => mov_prpage_to x1
  | I_mov_to_Abl x1 x2 => mov_to_Abl x1 x2
  | I_mov_repc_to_ArRn1 x1 x2 => mov_repc_to_ArRn1 x1 x2
  | I_mov_to_ArRn1 x1 x2 x3 => mov_to_ArRn1 x1 x2 x3
  | I_mov_repc_ArRn1 x1 x2 => mov_repc_ArRn1 x1 x2
  | I_mov_ArRn1 x1 x2 x3 => mov_ArRn1 x1 x2 x3
  | I_mov_repc_to_MemR7Imm16 x1 => mov_repc_to_MemR7Imm16 x1
  | I_mov_ArArpSttMod_MemR7Imm16 x1 x2 => mov_ArArpSttMod_MemR7Imm16 x1 x2
  | I_mov_repc_MemR7Imm16 x1 => mov_repc_MemR7Imm16 x1
  | I_mov_MemR7Imm16_ArArpSttMod x1 x2 => mov_MemR7Imm16_ArArpSttMod x1 x2
  | I_mov_pc x1 => mov_pc x1
  | I_mov_mixp_r6 => mov_mixp_r6
  | I_mov_p0h_to x1 => mov_p0h_to x1
  | I_mov_p0h_r6 => mov_p0h_r6
  | I_mov_p0 x1 => mov_p0 x1
  | I_mov_p1_to x1 => mov_p1_to x1
  | I_mov2_Px x1 x2 x3 => mov2_Px x1 x2 x3
  | I_mov2s x1 x2 x3 => mov2s x1 x2 x3
  | I_mov2_to_Px x1 x2 x3 => mov2_to_Px x1 x2 x3
  | I_mova_Ab x1 x2 x3 => mova_Ab x1 x2 x3
  | I_mova_to_Ab x1 x2 x3 => mova_to_Ab x1 x2 x3
  | I_mov_r6_to x1 => mov_r6_to x1
  | I_mov_r6_mixp => mov_r6_mixp
  | I_mov_r6_Register x1 => mov_r6_Register x1
  | I_mov_memsp_r6 => mov_memsp_r6
  | I_mov_r6_to_Rn x1 x2 => mov_r6_to_Rn x1 x2
  | I_mov_r6_Rn x1 x2 => mov_r6_Rn x1 x2
  | I_mov2_axh_m_y0_m x1 x2 x3 => mov2_axh_m_y0_m x1 x2 x3
  | I_mov2_ax_mij x1 x2 x3 x4 => mov2_ax_mij x1 x2 x3 x4
  | I_mov2_ax_mji x1 x2 x3 x4 => mov2_ax_mji x1 x2 x3 x4
  | I_mov2_mij_ax x1 x2 x3 x4 => mov2_mij_ax x1 x2 x3 x4
  | I_mov2_mji_ax x1 x2 x3 x4 => mov2_mji_ax x1 x2 x3 x4
  | I_mov2_abh_m x1 x2 x3 x4 => mov2_abh_m x1 x2 x3 x4
  | I_exchange_iaj x1 x2 x3 x4 => exchange_iaj x1 x2 x3 x4
  | I_exchange_riaj x1 x2 x3 x4 => exchange_riaj x1 x2 x3 x4
  | I_exchange_jai x1 x2 x3 x4 => exchange_jai x1 x2 x3 x4
  | I_exchange_rjai x1 x2 x3 x4 => exchange_rjai x1 x2 x3 x4
  | I_movs_MemImm8 x1 x2 => movs_MemImm8 x1 x2
  | I_movs_Rn x1 x2 x3 => movs_Rn x1 x2 x3
  | I_movs_Register x1 x2 => movs_Register x1 x2
  | I_movs_r6_to x1 => movs_r6_to x1
  | I_movsi x1 x2 x3 => movsi x1 x2 x3
  | I_movr_ArRn2 x1 x2 x3 => movr_ArRn2 x1 x2 x3
  | I_movr_Rn x1 x2 x3 => movr_Rn x1 x2 x3
  | I_movr_Register x1 x2 => movr_Register x1 x2
  | I_movr_Bx x1 x2 => movr_Bx x1 x2
  | I_movr_r6_to x1 => movr_r6_to x1
  | I_exp_Bx x1 => exp_Bx x1
  | I_exp_Bx_Ax x1 x2 => exp_Bx_Ax x1 x2
  | I_exp_Rn x1 x2 => exp_Rn x1 x2
  | I_exp_Rn_Ax x1 x2 x3 => exp_Rn_Ax x1 x2 x3
  | I_exp_Register x1 => exp_Register x1
  | I_exp_Register_Ax x1 x2 => exp_Register_Ax x1 x2
  | I_exp_r6 => exp_r6
  | I_exp_r6_Ax x1 => exp_r6_Ax x1
  | I_lim x1 x2 => lim x1 x2
  | I_vtrclr0 => vtrclr0
  | I_vtrclr1 => vtrclr1
  | I_vtrclr => vtrclr
  | I_vtrmov0 x1 => vtrmov0 x1
  | I_vtrmov1 x1 => vtrmov1 x1
  | I_vtrmov x1 => vtrmov x1
  | I_vtrshr => vtrshr
  | I_clrp0 => clrp0
  | I_clrp1 => clrp1
  | I_clrp => clrp
  | I_max_ge x1 x2 => max_ge x1 x2
  | I_max_gt x1 x2 => max_gt x1 x2
  | I_min_le x1 x2 => min_le x1 x2
  | I_min_lt x1 x2 => min_lt x1 x2
  | I_max_ge_r0 x1 x2 => max_ge_r0 x1 x2
  | I_max_gt_r0 x1 x2 => max_gt_r0 x1 x2
  | I_min_le_r0 x1 x2 => min_le_r0 x1 x2
  | I_min_lt_r0 x1 x2 => min_lt_r0 x1 x2
  | I_divs x1 x2 => divs x1 x2
  | I_sqr_sqr_add3_Ab x1 x2 => sqr_sqr_add3_Ab x1 x2
  | I_sqr_sqr_add3_ArRn2 x1 x2 x3 => sqr_sqr_add3_ArRn2 x1 x2 x3
  | I_sqr_mpysu_add3a x1 x2 => sqr_mpysu_add3a x1 x2
  | I_cmp x1 x2 => cmp x1 x2
  | I_cmp_b0_b1 => cmp_b0_b1
  | I_cmp_b1_b0 => cmp_b1_b0
  | I_cmp_p1_to x1 => cmp_p1_to x1
  | I_max2_vtr x1 => max2_vtr x1
  | I_min2_vtr x1 => min2_vtr x1
  | I_max2_vtr_Ax_Bx x1 x2 => max2_vtr_Ax_Bx x1 x2
  | I_min2_vtr_Ax_Bx x1 x2 => min2_vtr_Ax_Bx x1 x2
  | I_max2_vtr_movl x1 x2 x3 x4 => max2_vtr_movl x1 x2 x3 x4
  | I_max2_vtr_movh x1 x2 x3 x4 => max2_vtr_movh x1 x2 x3 x4
  | I_min2_vtr_movl x1 x2 x3 x4 => min2_vtr_movl x1 x2 x3 x4
  | I_min2_vtr_movh x1 x2 x3 x4 => min2_vtr_movh x1 x2 x3 x4
  | I_max2_vtr_movij x1 x2 x3 x4 x5 => max2_vtr_movij x1 x2 x3 x4 x5
  | I_max2_vtr_movji x1 x2 x3 x4 x5 => max2_vtr_movji x1 x2 x3 x4 x5
  | I_min2_vtr_movij x1 x2 x3 x4 x5 => min2_vtr_movij x1 x2 x3 x4 x5
  | I_min2_vtr_movji x1 x2 x3 x4 x5 => min2_vtr_movji x1 x2 x3 x4 x5
  | I_mov_addsubsv x1 x2 x3 => mov_addsubsv x1 x2 x3
  | I_mov_addsubsv_Alt x1 x2 x3 => mov_addsubsv_Alt x1 x2 x3
  | I_mov_addsubrndsv x1 x2 x3 => mov_addsubrndsv x1 x2 x3
  | I_mov_addsubrndsv_Alt x1 x2 x3 => mov_addsubrndsv_Alt x1 x2 x3
  | I_mov_sub3sv x1 x2 x3 => mov_sub3sv x1 x2 x3
  | I_mov_sub3sv_Alt x1 x2 x3 => mov_sub3sv_Alt x1 x2 x3
  | I_mov_sub3rndsv x1 x2 x3 => mov_sub3rndsv x1 x2 x3
  | I_mov_sub3rndsv_Alt x1 x2 x3 => mov_sub3rndsv_Alt x1 x2 x3
  | I_cbs_Axh x1 x2 => cbs_Axh x1 x2
  | I_cbs_Axh_Bxh x1 x2 x3 => cbs_Axh_Bxh x1 x2 x3
  | I_cbs_ArpRn1 x1 x2 x3 x4 => cbs_ArpRn1 x1 x2 x3 x4
  | I_mma x1 x2 => mma x1 x2
  | I_mma_arp x1 x2 x3 x4 x5 x6 x7 => mma_arp x1 x2 x3 x4 x5 x6 x7
  | I_mma_mx_xy x1 x2 x3 x4 => mma_mx_xy x1 x2 x3 x4
  | I_mma_xy_mx x1 x2 x3 x4 => mma_xy_mx x1 x2 x3 x4
  | I_mma_my_my x1 x2 x3 x4 => mma_my_my x1 x2 x3 x4
  | I_mma_mov_Axh_Bxh x1 x2 x3 x4 x5 x6 => mma_mov_Axh_Bxh x1 x2 x3 x4 x5 x6
  | I_mma_mov_ArRn2 x1 x2 x3 x4 => mma_mov_ArRn2 x1 x2 x3 x4
  | I_addhp x1 x2 x3 x4 => addhp x1 x2 x3 x4
  | I_mov_ext0 x1 => mov_ext0 x1
  | I_mov_ext1 x1 => mov_ext1 x1
  | I_mov_ext2 x1 => mov_ext2 x1
  | I_mov_ext3 x1 => mov_ext3 x1
  end.

(** One entry of the decode table ([decoder.h] is not part of the sources
    at hand): whether the opcode takes an expansion word, and the handler
    call that [decoder.call] (here [decoder_call]) makes for the opcode and expansion word. *)
Record Matcher : Type := { NeedExpansion : bool; decoder_call : Z -> Z -> Inst }.

Variable decoders : Z -> Matcher.

(** [mem.ProgramRead(regs.pc++)]. *)
Definition fetch : M Z :=
  pc <- gets regs.pc ;;
  modify (regs.set_pc (u32 (pc + 1))) ;;
  ProgramRead pc.

(** The single-instruction repeat bookkeeping of [Run]. *)
Definition Run_rep : M void :=
  rep <- gets regs.rep ;;
  when rep (
    repc <- gets regs.repc ;;
    if repc =? 0 then modify (regs.set_rep false)
    else
      modify (fun rs => regs.set_repc (u16 (regs.repc rs - 1)) rs) ;;
      modify (fun rs => regs.set_pc (u32 (regs.pc rs - 1)) rs)).

(** The block-repeat bookkeeping of [Run]. *)
Definition Run_bkrep : M void :=
  rs <- get_regs ;;
  when (regs.lp rs && (u32 (end_ (regs.bkrep_stack rs (regs.bcn rs - 1)) + 1) =? regs.pc rs)) (
    if lc (regs.bkrep_stack rs (regs.bcn rs - 1)) =? 0 then
      modify (fun rs => regs.set_bcn (u16 (regs.bcn rs - 1)) rs) ;;
      modify (fun rs => regs.set_lp (nz (regs.bcn rs)) rs)
    else
      modify (fun rs => set_frame_lc (regs.bcn rs - 1)
                          (u16 (lc (regs.bkrep_stack rs (regs.bcn rs - 1)) - 1)) rs) ;;
      modify (fun rs => regs.set_pc (start (regs.bkrep_stack rs (regs.bcn rs - 1))) rs)).

(** The [for] loop over [regs.im] in [Run]; [regs.im] has three elements.
    The result is [interrupt_handled]. *)
Fixpoint Run_interrupt_scan (is_ : list Z) : M bool :=
  match is_ with
  | [] => ret false
  | i :: rest =>
      rs <- get_regs ;;
      if regs.im rs i && regs.ip rs i then
        modify (set_ip i false) ;;
        modify (regs.set_ie false) ;;
        PushPC ;;
        modify (regs.set_pc (0x0006 + i * 8)) ;;
        ic <- gets (fun rs => regs.ic rs i) ;;
        when ic ContextStore ;;
        ret true
      else Run_interrupt_scan rest
  end.

(** The interrupt part of [Run]. *)
Definition Run_interrupts : M void :=
  (* I am not sure if a single-instruction loop is interruptable and how it
     is handled, so just disable interrupt for it for now. *)
  rs <- get_regs ;;
  when (regs.ie rs && negb (regs.rep rs)) (
    interrupt_handled <- Run_interrupt_scan [0; 1; 2] ;;
    rs <- get_regs ;;
    when (negb interrupt_handled && regs.vim rs && regs.vip rs) (
      modify (regs.set_vip false) ;;
      modify (regs.set_ie false) ;;
      PushPC ;;
      modify (fun rs => regs.set_pc (regs.viaddr rs) rs) ;;
      vic <- gets regs.vic ;;
      when vic ContextStore)).

(** The part of one pass of the loop of [Run] that comes before the
    handler call: the fetch and the repeat bookkeeping.  It returns the
    instruction to dispatch. *)
Definition Run_fetch : M Inst :=
  opcode <- fetch ;;
  let decoder := decoders opcode in
  expand_value <- (if NeedExpansion decoder then fetch else ret 0) ;;
  Run_rep ;;
  Run_bkrep ;;
  ret (decoder_call decoder opcode expand_value).

(** One pass of the loop of [Run]. *)
Definition Run_cycle : M void :=
  i <- Run_fetch ;;
  exec i ;;
  Run_interrupts.

Fixpoint Run (cycles : nat) : M void :=
  match cycles with
  | O => ret tt
  | S n => Run_cycle ;; Run n
  end.

(** [Run] with a log of the handler calls it made, oldest first. *)
Fixpoint Run_log (cycles : nat) (mc : Machine) : list Inst * Outcome void :=
  match cycles with
  | O => ([], Ok tt mc)
  | S n =>
      match Run_fetch mc with
      | Throw msg mc' => ([], Throw msg mc')
      | Ok i mc1 =>
          match (exec i ;; Run_interrupts) mc1 with
          | Throw msg mc' => ([i], Throw msg mc')
          | Ok _ mc2 => let '(l, o) := Run_log n mc2 in (i :: l, o)
          end
      end
  end.

Definition SignalInterrupt (i : Z) : M void := modify (set_ip i true).
Definition SignalVectoredInterrupt (address : Z) : M void :=
  modify (regs.set_viaddr address) ;;
  modify (regs.set_vip true).

End Interpreter.

(* ================================================================= *)
(** ** Derived notions used in the statements *)

(** [n] applications of the PlusStep post-modification to [r[unit]]. *)
Fixpoint PlusStep_times (n : nat) (unit : Z) : M void :=
  match n with
  | O => ret tt
  | S n' => RnAndModify unit StepValue.PlusStep ;; PlusStep_times n' unit
  end.

(** The address sequence PlusStep walks through: [n] applications of
    [StepAddress] with [StepValue.PlusStep] from the address [r]. *)
Fixpoint PlusStep_orbit (rs : RegisterState) (unit : Z) (n : nat) (r : Z) : Z :=
  match n with
  | O => r
  | S n' => PlusStep_orbit rs unit n' (StepAddress rs unit r StepValue.PlusStep false)
  end.

(** The universal invariant of the register file: every accumulator is the
    sign extension of its low 40 bits, [bcn] lies in 0..4, and [lp] holds
    exactly when [bcn] is positive. *)
Definition is_SE40 (v : Z) : Prop := v = SignExtend64 40 v.

Definition Invariant (rs : RegisterState) : Prop :=
  is_SE40 (regs.a rs 0) /\ is_SE40 (regs.a rs 1) /\
  is_SE40 (regs.b rs 0) /\ is_SE40 (regs.b rs 1) /\
  0 <= regs.bcn rs <= 4 /\
  (regs.lp rs = true <-> 0 < regs.bcn rs).

(** A value on the 40-bit accumulator bus: either the bare 40 bits or their
    sign extension in the 64-bit storage. *)
Definition is_40bit (v : Z) : Prop := 0 <= v < 2 ^ 40 \/ is_SE40 v.

(** The shadow operations leave the registers alone that interrupt
    delivery writes. *)
Definition Shadow_frame (RF : RegisterFile) : Prop :=
  forall f, f = ShadowStore \/ f = ShadowSwap ->
  forall rs, regs.pc (f rs) = regs.pc rs /\ regs.sp (f rs) = regs.sp rs /\
             regs.ie (f rs) = regs.ie rs /\ regs.vip (f rs) = regs.vip rs /\
             (forall i, regs.ip (f rs) i = regs.ip rs i).

(** The operations of the register-file interface preserve the universal
    invariant. *)
Definition RegisterFile_invariant (RF : RegisterFile) : Prop :=
  (forall k v rs, Invariant rs -> Invariant (Set_ k v rs)) /\
  (forall v rs, Invariant rs -> Invariant (SetLc v rs)) /\
  (forall rs, Invariant rs -> Invariant (ShadowStore rs)) /\
  (forall rs, Invariant rs -> Invariant (ShadowRestore rs)) /\
  (forall rs, Invariant rs -> Invariant (ShadowSwap rs)) /\
  (forall rs, Invariant rs -> Invariant (SwapAllArArp rs)) /\
  (forall i rs, Invariant rs -> Invariant (SwapAr i rs)) /\
  (forall i rs, Invariant rs -> Invariant (SwapArp i rs)).

(** [hoare m Q]: started in a state that satisfies the invariant, [m] ends
    in one that does, whether it returns or throws, and a returned value
    satisfies [Q]. *)
Definition hoare {A : Type} (m : M A) (Q : A -> Prop) : Prop :=
  forall mc, Invariant (rf mc) ->
    match m mc with
    | Ok v mc' => Invariant (rf mc') /\ Q v
    | Throw _ mc' => Invariant (rf mc')
    end.

(** The index of an [Ax] accumulator in [regs.a]. *)
Definition Ax_index (b : RegName) : Z :=
  match b with RegName.a0 => 0 | _ => 1 end.

(** Two register states agree on what interrupt delivery writes. *)
Definition same_control (rs rs' : RegisterState) : Prop :=
  regs.pc rs' = regs.pc rs /\ regs.sp rs' = regs.sp rs /\
  regs.ie rs' = regs.ie rs /\ regs.vip rs' = regs.vip rs /\
  (forall i, regs.ip rs' i = regs.ip rs i).

(** [i] is the first interrupt, in the order of the scan, that is both
    enabled by its mask and pending. *)
Definition first_pending (rs : RegisterState) (i : Z) : Prop :=
  0 <= i <= 2 /\ regs.im rs i = true /\ regs.ip rs i = true /\
  forall j, 0 <= j < i -> regs.im rs j && regs.ip rs j = false.

Definition none_pending (rs : RegisterState) : Prop :=
  forall j, 0 <= j <= 2 -> regs.im rs j && regs.ip rs j = false.

(** The state in which the handler of interrupt [i] starts when no context
    is stored: [ip[i]] and [ie] cleared, the PC pushed, the PC at the
    vector. *)
Definition delivered (i sp' : Z) (data' : Z -> Z) (mc : Machine) : Machine :=
  {| rf := regs.set_pc (0x0006 + i * 8)
             (regs.set_sp sp' (regs.set_ie false (set_ip i false (rf mc))));
     mem := {| data := data'; prog := prog (mem mc) |} |}.

(** An instruction that does not throw and leaves alone what the repeat
    bookkeeping of [Run] depends on: the PC, the repeat and block-repeat
    state, the interrupt enable and the program memory. *)
Definition steady {RF : RegisterFile} (i : Inst) : Prop :=
  forall mc, exists mc',
    exec i mc = Ok tt mc' /\
    regs.pc (rf mc') = regs.pc (rf mc) /\
    regs.rep (rf mc') = regs.rep (rf mc) /\
    regs.repc (rf mc') = regs.repc (rf mc) /\
    regs.lp (rf mc') = regs.lp (rf mc) /\
    regs.ie (rf mc') = regs.ie (rf mc) /\
    (forall a, prog (mem mc') a = prog (mem mc) a).

(** The word at [P] decodes to [rep k], the word at [P + 1] to the
    one-word instruction [inst]. *)
Definition rep_program {RF : RegisterFile} (decoders : Z -> Matcher) (P k : Z)
    (inst : Inst) (mc : Machine) : Prop :=
  NeedExpansion (decoders (prog (mem mc) P)) = false /\
  decoder_call (decoders (prog (mem mc) P)) (prog (mem mc) P) 0 = I_rep_Imm8 k /\
  NeedExpansion (decoders (prog (mem mc) (P + 1))) = false /\
  decoder_call (decoders (prog (mem mc) (P + 1))) (prog (mem mc) (P + 1)) 0 = inst.

(** The modulus of an address unit, as [StepAddress] selects it, and the
    number of address bits of the block that holds the offsets 0..[mod_]. *)
Definition unit_mod (rs : RegisterState) (unit : Z) : Z :=
  if unit <? 4 then regs.modi rs else regs.modj rs.
Definition block_bits (mod_ : Z) : Z := Z.log2 mod_ + 1.

(** A register-file interface for the examples: a condition is a boolean
    and passes when it is [true]; the pseudo registers read as zero and
    ignore writes; [Lc()] is the counter of the innermost frame; there are no
    shadow copies; an [Ab] storage names b0, b1, a0, a1 in this order. *)
Definition sample_Lc_index (rs : RegisterState) : Z :=
  if regs.lp rs then regs.bcn rs - 1 else 0.
Definition sample_RF : RegisterFile := {|
  Cond := bool;
  ConditionPass := fun _ c => c;
  Get := fun _ _ => 0;
  Set_ := fun _ _ rs => rs;
  GetLc := fun rs => lc (regs.bkrep_stack rs (sample_Lc_index rs));
  SetLc := fun v rs => set_frame_lc (sample_Lc_index rs) v rs;
  ShadowStore := fun rs => rs;
  ShadowRestore := fun rs => rs;
  ShadowSwap := fun rs => rs;
  SwapAllArArp := fun rs => rs;
  SwapAr := fun _ rs => rs;
  SwapArp := fun _ rs => rs;
  Ab_GetName := fun s => match s with
                         | 0 => RegName.b0
                         | 1 => RegName.b1
                         | 2 => RegName.a0
                         | _ => RegName.a1
                         end
|}.

(** A decode table for the examples: opcodes 0x0C00..0x0CFF are
    [rep Imm8], opcodes 0x0400..0x04FF are [load_page Imm8], opcode 0x5F00
    is the two-word [mov Imm16, r6], every other opcode is [nop]. *)
Definition sample_decoders : Z -> @Matcher sample_RF :=
  fun opcode =>
    if (opcode >> 8) =? 0x0C then
      {| NeedExpansion := false; decoder_call := fun op _ => I_rep_Imm8 (op .& 0xFF) |}
    else if (opcode >> 8) =? 0x04 then
      {| NeedExpansion := false; decoder_call := fun op _ => I_load_page (op .& 0xFF) |}
    else if opcode =? 0x5F00 then
      {| NeedExpansion := true; decoder_call := fun _ ex => I_mov_r6_Imm16 ex |}
    else
      {| NeedExpansion := false; decoder_call := fun _ _ => I_nop |}.

(** A program memory holding the words of [code] from address [base] on. *)
Definition load_program (base : Z) (code : list Z) : MemoryInterface :=
  {| data := fun _ => 0;
     prog := fun addr => if addr <? base then 0 else nth (Z.to_nat (addr - base)) code 0 |}.

(* ================================================================= *)
(** ** Signed readings *)

(** The two's complement value of the low [bits] bits of [v]. *)
Definition signed (bits v : Z) : Z :=
  let low := v mod 2 ^ bits in
  if low <? 2 ^ (bits - 1) then low else low - 2 ^ bits.
(* ================================================================= *)
(** ** Block repeat under [Run] *)

(** An instruction that may stand in the body of a block repeat: it does
    not throw and leaves alone the PC, the repeat and block-repeat state,
    the interrupt enable and the program memory. *)
Definition loop_steady {RF : RegisterFile} (i : Inst) : Prop :=
  forall mc, exists mc',
    exec i mc = Ok tt mc' /\
    regs.pc (rf mc') = regs.pc (rf mc) /\
    regs.rep (rf mc') = regs.rep (rf mc) /\
    regs.lp (rf mc') = regs.lp (rf mc) /\
    regs.bcn (rf mc') = regs.bcn (rf mc) /\
    regs.ie (rf mc') = regs.ie (rf mc) /\
    (forall j, regs.bkrep_stack (rf mc') j = regs.bkrep_stack (rf mc) j) /\
    (forall a, prog (mem mc') a = prog (mem mc) a).

(** The words at [P] and [P + 1] decode to [bkrep k, addr]; the words from
    [P + 2] on decode to the one-word instructions of [body]. *)
Definition bkrep_program {RF : RegisterFile} (decoders : Z -> Matcher) (P k addr : Z)
    (body : list Inst) (mc : Machine) : Prop :=
  NeedExpansion (decoders (prog (mem mc) P)) = true /\
  decoder_call (decoders (prog (mem mc) P)) (prog (mem mc) P) (prog (mem mc) (P + 1))
    = I_bkrep_Imm8 k addr /\
  forall j i, nth_error body j = Some i ->
    NeedExpansion (decoders (prog (mem mc) (P + 2 + Z.of_nat j))) = false /\
    decoder_call (decoders (prog (mem mc) (P + 2 + Z.of_nat j)))
      (prog (mem mc) (P + 2 + Z.of_nat j)) 0 = i.

(** The state before the fetch of instruction [j] of a block of [m]
    one-word instructions that starts at [P + 2], with [c] passes to come
    after the current one. *)
Definition in_block (P m j c : Z) (mc : Machine) : Prop :=
  regs.pc (rf mc) = P + 2 + j /\
  regs.lp (rf mc) = true /\ regs.bcn (rf mc) = 1 /\
  regs.bkrep_stack (rf mc) 0 = {| start := P + 2; end_ := P + 1 + m; lc := c |} /\
  regs.rep (rf mc) = false /\ regs.ie (rf mc) = false.

(** The state after the block: the frame popped, the PC past the block. *)
Definition after_block (P m : Z) (mc : Machine) : Prop :=
  regs.pc (rf mc) = P + 2 + m /\
  regs.lp (rf mc) = false /\ regs.bcn (rf mc) = 0 /\
  regs.rep (rf mc) = false /\ regs.ie (rf mc) = false.
(* ================================================================= *)
(** ** Registers on the 16-bit bus *)

(** The registers that [RegFromBus16] writes and [RegToBus16] reads in
    the register file itself: the accumulators and their low and high
    words, the address registers, the multiplier inputs, [sp] and [sv]. *)
Definition bus_register (reg : RegName) : bool :=
  match reg with
  | RegName.a0 | RegName.a1 | RegName.b0 | RegName.b1
  | RegName.a0l | RegName.a1l | RegName.b0l | RegName.b1l
  | RegName.a0h | RegName.a1h | RegName.b0h | RegName.b1h
  | RegName.r0 | RegName.r1 | RegName.r2 | RegName.r3
  | RegName.r4 | RegName.r5 | RegName.r6 | RegName.r7
  | RegName.x0 | RegName.x1 | RegName.y0 | RegName.y1
  | RegName.sp | RegName.sv => true
  | _ => false
  end.
(* ================================================================= *)
(** ** Running a handler several times *)

(** [iterate n c] runs [c] [n] times in a row, stopping at the first
    throw. *)
Fixpoint iterate (n : nat) (c : M void) : M void :=
  match n with
  | O => ret tt
  | S n' => c ;; iterate n' c
  end.

(** The accumulator in the course of dividing [N] by [d] with [divs],
    with [P] the weight the dividend has been moved up by and [F] the
    weight still to go: the quotient bits found so far, [q], are below
    [P], and above them stands the partial remainder [r]. *)
Definition dividing (N d P F v : Z) : Prop :=
  exists q r, 0 <= q < P /\ 0 <= r < d * F /\ N = d * F * q + r /\ v = P * r + q.

(** The PC of [mc] is on the stack of [mc'], as [PushPC] leaves it: [sp]
    is two words further down (modulo 2^16), the word pushed first lies at
    [sp - 1] and the one pushed second at [sp - 2], the high half first
    when [pc_endian] is 1 and the low half first otherwise; no other data
    word and no program word differs. *)
Definition pc_pushed (mc mc' : Machine) : Prop :=
  let s1 := u16 (regs.sp (rf mc) - 1) in
  let s2 := u16 (regs.sp (rf mc) - 2) in
  let big := regs.pc_endian (rf mc) =? 1 in
  regs.sp (rf mc') = s2 /\
  data (mem mc') s1 = (if big then GetPcH (rf mc) else GetPcL (rf mc)) /\
  data (mem mc') s2 = (if big then GetPcL (rf mc) else GetPcH (rf mc)) /\
  (forall a, a <> s1 -> a <> s2 -> data (mem mc') a = data (mem mc) a) /\
  prog (mem mc') = prog (mem mc).

(** The step [s] that [StepAddress] takes for [StepValue.PlusStep]: [stepi]
    or [stepj] sign-extended from 7 bits ([stepi0] or [stepj0] as it is in
    bit-reversed mode without modulo), replaced, when [bankstep] is 1 in
    the non-legacy dialect, by [stepi0] or [stepj0], sign-extended from 9
    bits in modulo mode. *)
Definition PlusStep_step (rs : RegisterState) (unit : Z) : Z :=
  let s := if regs.brv rs unit && negb (regs.m rs unit)
           then (if unit <? 4 then regs.stepi0 rs else regs.stepj0 rs)
           else SignExtend16 7 (if unit <? 4 then regs.stepi rs else regs.stepj rs) in
  if (regs.bankstep rs =? 1) && negb (regs.legacy_mod rs)
  then let s := if unit <? 4 then regs.stepi0 rs else regs.stepj0 rs in
       if regs.m rs unit then SignExtend16 9 s else s
  else s.

(** *** Example states *)

(** Interrupts 1 and 2 enabled and pending, interrupts globally enabled. *)
Definition irq_machine : Machine :=
  {| rf := regs.set_ie true
             (regs.set_im (fun i => (i =? 1) || (i =? 2))
                (regs.set_ip (fun i => (i =? 1) || (i =? 2))
                   (regs.set_sp 0x100 (regs.set_pc 0x1234 reset_regs))));
     mem := reset_mem |}.

(** [rep 2] followed by the one-word [load_page 5]. *)
Definition rep_machine : Machine :=
  {| rf := reset_regs; mem := load_program 0 [0x0C02; 0x0405] |}.

(** [rep 1] followed by the two-word [mov 0x1234, r6]. *)
Definition rep_two_word_machine : Machine :=
  {| rf := reset_regs; mem := load_program 0 [0x0C01; 0x5F00; 0x1234; 0x0000] |}.

(** One block repeat under way: [bcn = 1], frame 0 in use. *)
Definition nested_machine : Machine :=
  {| rf := regs.set_pc 0x40
             (regs.set_lp true
                (regs.set_bcn 1
                   (set_frame 0 {| start := 1; end_ := 2; lc := 3 |} reset_regs)));
     mem := reset_mem |}.

(** The last 18-bit program address. *)
Definition pc_edge_machine : Machine :=
  {| rf := regs.set_pc 0x3FFFF reset_regs; mem := reset_mem |}.

(** Two nested block repeats entered from the reset state: [lp] is set and
    [bcn] is 2. *)
Definition nested_loops_machine : Machine :=
  final ((bkrep_Imm8 1 0x20 ;; bkrep_Imm8 1 0x10) reset_machine).

(** Unit 0 in modulo mode with modulus 5 and step +1 in the bank register
    [stepi0], which the non-legacy dialect reads when [bankstep] is 1;
    [stepi] holds 3. *)
Definition bank_modulo_machine : Machine :=
  {| rf := set_r 0 0x1233
             (regs.set_bankstep 1
                (regs.set_stepi0 1
                   (regs.set_m (fun i => i =? 0)
                      (regs.set_modi 5 (regs.set_stepi 3 reset_regs)))));
     mem := reset_mem |}.

(** Unit 0 in modulo mode with modulus 5 and step +1. *)
Definition modulo_regs : RegisterState :=
  regs.set_m (fun i => i =? 0) (regs.set_modi 5 (regs.set_stepi 1 reset_regs)).

(** Accumulator a0 holding 0x1234. *)
Definition acc_machine : Machine :=
  {| rf := set_a 0 0x1234 reset_regs; mem := reset_mem |}.

(** Multiplier unit 0 with [x0 = 0xFFFF] and [y0 = 3]. *)
Definition mul_machine : Machine :=
  {| rf := set_y 0 3 (set_x 0 0xFFFF reset_regs); mem := reset_mem |}.

(** Accumulators [a0 = 5] and [a1 = -2]. *)
Definition extremum_machine : Machine :=
  {| rf := set_a 1 0xFFFFFFFFFFFFFFFE (set_a 0 5 reset_regs); mem := reset_mem |}.

(** A decode table for the examples with a block repeat: opcodes
    0x5C00..0x5CFF are the two-word [bkrep Imm8, Address16], opcodes
    0x0400..0x04FF are [load_page Imm8], and every other opcode decodes
    to [nop]. *)
Definition loop_decoders : Z -> @Matcher sample_RF :=
  fun opcode =>
    if (opcode >> 8) =? 0x5C then
      {| NeedExpansion := true; decoder_call := fun op ex => I_bkrep_Imm8 (op .& 0xFF) ex |}
    else if (opcode >> 8) =? 0x04 then
      {| NeedExpansion := false; decoder_call := fun op _ => I_load_page (op .& 0xFF) |}
    else
      {| NeedExpansion := false; decoder_call := fun _ _ => I_nop |}.

(** [bkrep 2, 3] followed by the block [load_page 5; load_page 6]. *)
Definition loop_machine : Machine :=
  {| rf := reset_regs; mem := load_program 0 [0x5C02; 0x0003; 0x0405; 0x0406] |}.

(** Accumulator [a0 = 100] and the divisor 7 in the data word 0. *)
Definition divs_machine : Machine :=
  {| rf := set_a 0 100 reset_regs;
     mem := {| data := upd (data reset_mem) 0 7; prog := prog reset_mem |} |}.

(** The data word 0 holds 3. *)
Definition alb_machine : Machine :=
  {| rf := reset_regs;
     mem := {| data := upd (data reset_mem) 0 3; prog := prog reset_mem |} |}.

(** Accumulator [a0 = 10], the product register [p0 = 4] from before, and
    the factors [x0 = 0xFFFF] and [y0 = 3]. *)
Definition mac_machine : Machine :=
  {| rf := set_p 0 4 (set_a 0 10 (set_y 0 3 (set_x 0 0xFFFF reset_regs)));
     mem := reset_mem |}.

(* ================================================================= *)
(** * Properties of the interpreter *)

Local Open Scope bits_scope.

(** Integer arithmetic stays folded under [cbn]. *)
#[local] Arguments Z.shiftr : simpl never.
#[local] Arguments Z.shiftl : simpl never.
#[local] Arguments Z.land : simpl never.
#[local] Arguments Z.lor : simpl never.
#[local] Arguments Z.lxor : simpl never.
#[local] Arguments Z.lnot : simpl never.
#[local] Arguments Z.modulo : simpl never.
#[local] Arguments Z.pow : simpl never.
#[local] Arguments Z.add : simpl never.
#[local] Arguments Z.sub : simpl never.
#[local] Arguments Z.mul : simpl never.
#[local] Arguments Z.eqb : simpl never.
#[local] Arguments Z.ltb : simpl never.
#[local] Arguments Z.leb : simpl never.
#[local] Arguments Z.testbit : simpl never.
#[local] Arguments Z.b2z : simpl never.
#[local] Arguments u16 : simpl never.
#[local] Arguments u32 : simpl never.
#[local] Arguments u64 : simpl never.
#[local] Arguments not16 : simpl never.
#[local] Arguments not64 : simpl never.
#[local] Arguments SignExtend : simpl never.
#[local] Arguments SignExtend16 : simpl never.
#[local] Arguments SignExtend32 : simpl never.
#[local] Arguments SignExtend64 : simpl never.
#[local] Arguments BitReverse : simpl never.
#[local] Arguments nz : simpl never.
#[local] Arguments upd : simpl never.

Ltac pow_consts :=
  change (2 ^ 64) with 18446744073709551616 in *;
  change (2 ^ 40) with 1099511627776 in *;
  change (2 ^ 39) with 549755813888 in *;
  change (2 ^ 32) with 4294967296 in *;
  change (2 ^ 31) with 2147483648 in *;
  change (2 ^ 16) with 65536 in *.

(** ** Sign extension to 40 bits *)

Lemma SignExtend64_40_eq v :
  SignExtend64 40 v =
  if v mod 2 ^ 40 <? 2 ^ 39 then v mod 2 ^ 40 else v mod 2 ^ 40 + (2 ^ 64 - 2 ^ 40).
Proof. reflexivity. Qed.

Lemma is_SE40_iff v :
  is_SE40 v <-> (0 <= v < 2 ^ 39 \/ 2 ^ 64 - 2 ^ 39 <= v < 2 ^ 64).
Proof.
  unfold is_SE40. rewrite SignExtend64_40_eq. pow_consts.
  pose proof (Z.mod_pos_bound v 1099511627776 ltac:(lia)) as Hm.
  split.
  - intros H. destruct (Z.ltb_spec (v mod 1099511627776) 549755813888); lia.
  - intros [H | H].
    + rewrite Z.mod_small by lia. destruct (Z.ltb_spec v 549755813888); lia.
    + assert (E : v mod 1099511627776 = v - 18446742974197923840).
      { symmetry. apply Z.mod_unique with (q := 16777215); lia. }
      rewrite E. destruct (Z.ltb_spec (v - 18446742974197923840) 549755813888); lia.
Qed.

Lemma SignExtend64_40_is_SE40 v : is_SE40 (SignExtend64 40 v).
Proof.
  apply is_SE40_iff. rewrite SignExtend64_40_eq. pow_consts.
  pose proof (Z.mod_pos_bound v 1099511627776 ltac:(lia)) as Hm.
  destruct (Z.ltb_spec (v mod 1099511627776) 549755813888); lia.
Qed.

Lemma SignExtend64_40_mod v w :
  v mod 2 ^ 40 = w mod 2 ^ 40 -> SignExtend64 40 v = SignExtend64 40 w.
Proof. intros H. rewrite !SignExtend64_40_eq, H. reflexivity. Qed.

Lemma land_mask40 v : v .& 0xFFFFFFFFFF = v mod 2 ^ 40.
Proof. change 0xFFFFFFFFFF with (Z.ones 40). apply Z.land_ones. lia. Qed.

Lemma u64_mod40 v : u64 v mod 2 ^ 40 = v mod 2 ^ 40.
Proof.
  unfold u64. change (2 ^ 64) with (2 ^ 40 * 2 ^ 24).
  rewrite Z.rem_mul_r by lia.
  rewrite (Z.mul_comm (2 ^ 40)), Z.mod_add by lia. apply Z.mod_mod. lia.
Qed.


Section Props.
Context {RF : RegisterFile}.

(** ** Addition and subtraction on the accumulator bus *)

Lemma AddSub_value a b sub mc :
  exists mc', AddSub a b sub mc = Ok (SignExtend64 40 (if sub then a - b else a + b)) mc'
    /\ mem mc' = mem mc.
Proof.
  unfold AddSub, bind, modify, gets, when, ret. cbn.
  match goal with |- context [regs.set_fv ?c _] => destruct c end; cbn;
  (eexists; split; [ f_equal | reflexivity ]);
  apply SignExtend64_40_mod; rewrite u64_mod40, !land_mask40;
  destruct sub; symmetry; first [ apply Zminus_mod | apply Zplus_mod ].
Qed.

(** C6, with the carry of the code.  [AddSub 0x00FFFFFFFF 1 false] returns
    0x0100000000 and clears [fv]; it also clears [fc[0]], which records the
    carry out of the 40-bit addition (bit 40 of the sum): the sum, 2^32,
    does not reach bit 40. *)
Lemma AddSub_basic mc :
  exists mc', AddSub 0x00FFFFFFFF 0x01 false mc = Ok 0x0100000000 mc'
    /\ regs.fc (rf mc') 0 = false /\ regs.fv (rf mc') = false.
Proof.
  exists (final (AddSub 0x00FFFFFFFF 0x01 false mc)).
  vm_compute. repeat split.
Qed.

(** C7.  [AddSub] round trip: for every accumulator value [a] that is the
    sign extension of its low 40 bits and every operand [b], adding [b] and
    then subtracting [b] again returns [a]; [AddSub] itself never
    saturates. *)
Lemma AddSub_round_trip (a b : Z) (mc : Machine) :
  is_SE40 a ->
  exists r mc1 mc2,
    AddSub a b false mc = Ok r mc1 /\ AddSub r b true mc1 = Ok a mc2.
Proof.
  intros Ha.
  destruct (AddSub_value a b false mc) as [mc1 [E1 _]].
  destruct (AddSub_value (SignExtend64 40 (a + b)) b true mc1) as [mc2 [E2 _]].
  exists (SignExtend64 40 (a + b)), mc1, mc2. split; [ exact E1 | ].
  rewrite E2. f_equal. unfold is_SE40 in Ha. rewrite Ha at 2.
  apply SignExtend64_40_mod.
  rewrite Zminus_mod.
  assert (E : SignExtend64 40 (a + b) mod 2 ^ 40 = (a + b) mod 2 ^ 40).
  { rewrite SignExtend64_40_eq. pow_consts.
    pose proof (Z.mod_pos_bound (a + b) 1099511627776 ltac:(lia)).
    destruct (Z.ltb_spec ((a + b) mod 1099511627776) 549755813888).
    - apply Z.mod_mod. lia.
    - replace (18446744073709551616 - 1099511627776) with (16777215 * 1099511627776) by lia.
      rewrite Z.mod_add by lia. apply Z.mod_mod. lia. }
  rewrite E, <- Zminus_mod. f_equal. lia.
Qed.

(** ** Saturation *)

Lemma shr39_testbit v : is_40bit v -> nz (v >> 39) = Z.testbit v 39.
Proof.
  intros H.
  assert (E : Z.testbit v 39 = Z.odd (v >> 39)).
  { rewrite <- Z.bit0_odd, Z.shiftr_spec by lia. reflexivity. }
  rewrite E. unfold nz. rewrite Z.shiftr_div_pow2 by lia.
  destruct H as [H | H].
  - pow_consts.
    assert (v / 549755813888 = 0 \/ v / 549755813888 = 1) as [-> | ->]; [ | reflexivity .. ].
    assert (0 <= v / 549755813888 < 2); [ | lia ].
    split; [ apply Z.div_pos; lia | apply Z.div_lt_upper_bound; lia ].
  - apply is_SE40_iff in H. pow_consts. destruct H as [H | H].
    + rewrite Z.div_small by lia. reflexivity.
    + assert (v / 549755813888 = 33554431) as ->; [ | reflexivity ].
      symmetry. apply Z.div_unique with (r := v - 33554431 * 549755813888); lia.
Qed.

(** C8.  Saturation: for a 40-bit value [v] and a selector [s],
    [SaturateAcc v s] returns [v] and leaves the state unchanged, [fls]
    included, when [v] equals the sign extension of its low 32 bits or
    [sar[s]] is set; otherwise it returns 0xFFFFFFFF80000000 when bit 39
    of [v] is set and 0x7FFFFFFF when it is clear, and sets [fls]. *)
Theorem SaturateAcc_spec (v : Z) (s : bool) (mc : Machine) :
  is_40bit v ->
  SaturateAcc v s mc =
    if (v =? SignExtend64 32 v) || regs.sar (rf mc) (Z.b2z s) then Ok v mc
    else Ok (if Z.testbit v 39 then 0xFFFFFFFF80000000 else 0x000000007FFFFFFF)
            {| rf := regs.set_fls true (rf mc); mem := mem mc |}.
Proof.
  intros H. unfold SaturateAcc, SaturateAcc_Unconditional, bind, gets, modify, ret.
  destruct (regs.sar (rf mc) (Z.b2z s)); cbn.
  - rewrite orb_true_r. reflexivity.
  - rewrite orb_false_r. destruct (v =? SignExtend64 32 v); cbn; [ reflexivity | ].
    rewrite (shr39_testbit v H). destruct (Z.testbit v 39); reflexivity.
Qed.

(** ** AND with an 8-bit immediate *)

(** Bit-level facts about a byte. *)
Lemma byte_bits_high x n : 0 <= x < 256 -> 8 <= n -> Z.testbit x n = false.
Proof.
  intros Hx Hn. destruct (Z.eq_dec x 0) as [-> | Hnz]; [ apply Z.bits_0 | ].
  apply Z.bits_above_log2; [ lia | ].
  apply Z.lt_le_trans with 8; [ | lia ].
  apply Z.log2_lt_pow2; [ lia | ]. change (2 ^ 8) with 256. lia.
Qed.

Lemma land_byte v imm : 0 <= imm < 256 -> 0 <= v .& imm < 256.
Proof.
  intros H.
  assert (E : v .& imm = (v .& imm) mod 2 ^ 8).
  { rewrite <- Z.land_ones, <- Z.land_assoc by lia.
    f_equal. rewrite Z.land_ones by lia. symmetry. apply Z.mod_small.
    change (2 ^ 8) with 256. lia. }
  rewrite E. change (2 ^ 8) with 256. apply Z.mod_pos_bound. lia.
Qed.

Lemma testbit_FF00 n : Z.testbit 0xFF00 n = (8 <=? n) && (n <? 16).
Proof.
  destruct (Z.leb_spec 8 n); destruct (Z.ltb_spec n 16); cbn [andb].
  - assert (n = 8 \/ n = 9 \/ n = 10 \/ n = 11 \/ n = 12 \/ n = 13 \/ n = 14 \/ n = 15)
      as Hcases by lia.
    repeat (destruct Hcases as [-> | Hcases]; [ reflexivity | ]). subst. reflexivity.
  - apply Z.bits_above_log2; [ lia | ]. change (Z.log2 0xFF00) with 15. lia.
  - destruct (Z.ltb_spec n 0); [ apply Z.testbit_neg_r; lia | ].
    assert (n = 0 \/ n = 1 \/ n = 2 \/ n = 3 \/ n = 4 \/ n = 5 \/ n = 6 \/ n = 7)
      as Hcases by lia.
    repeat (destruct Hcases as [-> | Hcases]; [ reflexivity | ]). subst. reflexivity.
  - lia.
Qed.

Lemma land_byte_keep x : 0 <= x < 256 -> x .& 0xFFFFFFFFFFFF00FF = x.
Proof.
  intros H. apply Z.bits_inj'. intros n Hn. rewrite Z.land_spec.
  destruct (Z.ltb_spec n 8).
  - assert (n = 0 \/ n = 1 \/ n = 2 \/ n = 3 \/ n = 4 \/ n = 5 \/ n = 6 \/ n = 7)
      as Hcases by lia.
    repeat (destruct Hcases as [-> | Hcases]; [ apply andb_true_r | ]). subst. apply andb_true_r.
  - rewrite (byte_bits_high x n) by lia. reflexivity.
Qed.

Lemma SignExtend64_small bits x :
  0 < bits -> 0 <= x < 2 ^ (bits - 1) -> SignExtend64 bits x = x.
Proof.
  intros Hb Hx. unfold SignExtend64, SignExtend.
  assert (2 ^ (bits - 1) < 2 ^ bits) by (apply Z.pow_lt_mono_r; lia).
  rewrite Z.mod_small by lia. cbv zeta.
  destruct (Z.ltb_spec x (2 ^ (bits - 1))); [ reflexivity | lia ].
Qed.

Lemma upd_same {T} (f : Z -> T) i v : upd f i v i = v.
Proof. unfold upd. rewrite Z.eqb_refl. reflexivity. Qed.

Lemma upd_other {T} (f : Z -> T) i j v : j <> i -> upd f i v j = f j.
Proof. unfold upd. intros H. destruct (Z.eqb_spec j i); [ contradiction | reflexivity ]. Qed.

(** C10.  The AND of an [Ax] accumulator with an 8-bit immediate: bits
    8..15 of the accumulator keep their value, every other bit is that of
    the AND with the zero-extended immediate, and the flags Z, M, E and N
    are those of the full AND, in which bits 8..15 are zero. *)
Theorem alu_Imm8_And (b : RegName) (imm : Z) (mc : Machine) :
  b = RegName.a0 \/ b = RegName.a1 ->
  0 <= imm < 256 ->
  let old := regs.a (rf mc) (Ax_index b) in
  exists mc',
    alu_Imm8 AlmOp.And imm b mc = Ok tt mc' /\
    (forall n, 8 <= n < 16 ->
       Z.testbit (regs.a (rf mc') (Ax_index b)) n = Z.testbit old n) /\
    (forall n, n < 8 \/ 16 <= n ->
       Z.testbit (regs.a (rf mc') (Ax_index b)) n = Z.testbit (old .& imm) n) /\
    regs.fz (rf mc') = (old .& imm =? 0) /\
    regs.fm (rf mc') = false /\
    regs.fe (rf mc') = false /\
    regs.fn (rf mc') = (old .& imm =? 0).
Proof.
  intros Hb Himm old.
  pose proof (land_byte old imm Himm) as Hx.
  assert (E40 : SignExtend64 40 (old .& imm) = old .& imm)
    by (apply SignExtend64_small; [ lia | pow_consts; lia ]).
  assert (E32 : SignExtend64 32 (old .& imm) = old .& imm)
    by (apply SignExtend64_small; [ lia | cbn; pow_consts; lia ]).
  assert (S39 : (old .& imm) >> 39 = 0)
    by (rewrite Z.shiftr_div_pow2 by lia; apply Z.div_small; pow_consts; lia).
  assert (S31 : (old .& imm) >> 31 = 0)
    by (rewrite Z.shiftr_div_pow2 by lia; apply Z.div_small; pow_consts; lia).
  assert (S30 : (old .& imm) >> 30 = 0)
    by (rewrite Z.shiftr_div_pow2 by lia; apply Z.div_small;
        change (2 ^ 30) with 1073741824; lia).
  assert (Hfinal : forall n,
            Z.testbit ((old .& 0xFF00) .| ((old .& imm) .& 0xFFFFFFFFFFFF00FF)) n =
            if (8 <=? n) && (n <? 16) then Z.testbit old n else Z.testbit (old .& imm) n).
  { intros n. rewrite land_byte_keep by exact Hx.
    rewrite Z.lor_spec, (Z.land_spec old 0xFF00), testbit_FF00.
    destruct ((8 <=? n) && (n <? 16)) eqn:En.
    - apply andb_true_iff in En. destruct En as [E1 E2].
      apply Z.leb_le in E1. rewrite (byte_bits_high _ n Hx E1).
      rewrite andb_true_r. apply orb_false_r.
    - rewrite andb_false_r. reflexivity. }
  subst old.
  destruct Hb as [-> | ->]; cbn [Ax_index] in *;
    unfold alu_Imm8, AlmGeneric, ExtendOprandForAlm, SetAcc_NoSaturation, SetAcc_, SetAccFlag,
      SetAcc_Simple, GetAcc, bind, gets, modify, ret; cbn;
    rewrite !E40, !E32, !S39, !S31, !S30, !Z.eqb_refl; cbn;
    unfold set_a; cbn; rewrite !upd_same;
    (eexists; split; [ reflexivity | ]); cbn; rewrite !upd_same;
    (split; [ | split ];
     [ intros n Hn; rewrite Hfinal;
       destruct (Z.leb_spec 8 n); destruct (Z.ltb_spec n 16); cbn; (reflexivity || lia)
     | intros n Hn; rewrite Hfinal;
       destruct (Z.leb_spec 8 n); destruct (Z.ltb_spec n 16); cbn; (reflexivity || lia)
     | repeat split; apply orb_false_r ]).
Qed.

(** ** Block repeat *)

(** C4, with the frame order of the code.  [BlockRepeat lc address] with
    [bcn > 3] throws and changes nothing.  Otherwise it writes the frame
    [{start = pc, end = address, lc}] to [bkrep_stack[bcn]], leaves every
    other frame in its slot, sets [lp] and increments [bcn]: the innermost
    frame is the one at index [bcn - 1], which is the frame that the
    bookkeeping of [Run] reads, and frame 0 is the outermost. *)
Theorem BlockRepeat_push (lc_ address : Z) (mc : Machine) :
  if 3 <? regs.bcn (rf mc) then
    BlockRepeat lc_ address mc = Throw "stack overflow" mc
  else
    exists rs',
      BlockRepeat lc_ address mc = Ok tt {| rf := rs'; mem := mem mc |} /\
      regs.bkrep_stack rs' (regs.bcn (rf mc)) =
        {| start := regs.pc (rf mc); end_ := address; lc := lc_ |} /\
      (forall i, i <> regs.bcn (rf mc) ->
         regs.bkrep_stack rs' i = regs.bkrep_stack (rf mc) i) /\
      regs.lp rs' = true /\
      regs.bcn rs' = u16 (regs.bcn (rf mc) + 1) /\
      regs.pc rs' = regs.pc (rf mc).
Proof.
  unfold BlockRepeat, bind, gets, modify, throw. cbn.
  destruct (3 <? regs.bcn (rf mc)); [ reflexivity | ].
  eexists. split; [ reflexivity | ].
  unfold set_frame_lc, set_frame_end, set_frame_start, set_frame. cbn.
  rewrite !upd_same. cbn.
  split; [ reflexivity | ].
  split; [ | repeat split ].
  intros i Hi. rewrite !upd_other by exact Hi. reflexivity.
Qed.

(** ** Writes to the PC *)

Lemma SetPC_Save_overflow (new_pc : Z) (mc : Machine) :
  0x40000 <= new_pc -> SetPC_Save new_pc mc = Throw "pc flies" mc.
Proof.
  intros H. unfold SetPC_Save. destruct (Z.leb_spec 0x40000 new_pc); [ reflexivity | lia ].
Qed.

Lemma brr_unchecked (addr : Z) (cond : Cond) (mc : Machine) :
  ConditionPass (rf mc) cond = true ->
  brr addr cond mc =
    Ok tt {| rf := regs.set_pc (u32 (regs.pc (rf mc) + SignExtend32 7 addr)) (rf mc);
             mem := mem mc |}.
Proof.
  intros H. unfold brr, bind, gets, modify, when. cbn. rewrite H. reflexivity.
Qed.

(** C5.  [brr] adds its offset to the PC without a range check: when the
    condition passes and the sum is 2^18 or more, [brr] returns normally
    with that value installed in [pc], whereas [SetPC_Save], the checked
    write that [calla] and [mov_pc] use, throws "pc flies" on the same
    value. *)
Theorem brr_pc_unchecked (addr : Z) (cond : Cond) (mc : Machine) :
  ConditionPass (rf mc) cond = true ->
  0x40000 <= u32 (regs.pc (rf mc) + SignExtend32 7 addr) ->
  (exists mc',
     brr addr cond mc = Ok tt mc' /\
     regs.pc (rf mc') = u32 (regs.pc (rf mc) + SignExtend32 7 addr) /\
     0x40000 <= regs.pc (rf mc')) /\
  SetPC_Save (u32 (regs.pc (rf mc) + SignExtend32 7 addr)) mc = Throw "pc flies" mc.
Proof.
  intros Hc Hpc. split.
  - eexists. split; [ apply brr_unchecked; exact Hc | ]. split; [ reflexivity | exact Hpc ].
  - apply SetPC_Save_overflow. exact Hpc.
Qed.

(** ** Interrupt delivery *)

Lemma same_control_refl rs : same_control rs rs.
Proof. repeat split. Qed.

Lemma same_control_trans rs1 rs2 rs3 :
  same_control rs1 rs2 -> same_control rs2 rs3 -> same_control rs1 rs3.
Proof.
  unfold same_control. intros (A1 & A2 & A3 & A4 & A5) (B1 & B2 & B3 & B4 & B5).
  repeat split; try congruence. all: intros i; rewrite B5; apply A5.
Qed.

Lemma SetAcc_NoSaturation_control name value mc :
  same_control (rf mc) (rf (final (SetAcc_NoSaturation name value mc))) /\
  mem (final (SetAcc_NoSaturation name value mc)) = mem mc.
Proof.
  unfold SetAcc_NoSaturation, SetAcc_, SetAccFlag, SetAcc_Simple, bind, modify, ret, throw.
  destruct (negb (value =? SignExtend64 40 value)); cbn.
  - split; [ apply same_control_refl | reflexivity ].
  - destruct name; cbn; repeat split.
Qed.

Lemma ContextStore_control mc :
  Shadow_frame RF ->
  same_control (rf mc) (rf (final (ContextStore mc))) /\
  mem (final (ContextStore mc)) = mem mc.
Proof.
  intros HF.
  pose proof (HF ShadowStore (or_introl eq_refl)) as H1.
  pose proof (HF ShadowSwap (or_intror eq_refl)) as H2.
  destruct (H1 (rf mc)) as (A1 & A2 & A3 & A4 & A5).
  destruct (H2 (ShadowStore (rf mc))) as (B1 & B2 & B3 & B4 & B5).
  unfold ContextStore, SetAcc_NoSaturation, SetAcc_, SetAccFlag, SetAcc_Simple,
    bind, modify, gets, ret, throw. cbn.
  match goal with |- context [if ?c then _ else _] => destruct c end; cbn;
    unfold same_control, set_b, set_a; cbn;
    (repeat split; try congruence); intros i; rewrite B5; apply A5.
Qed.

Lemma PushPC_final mc :
  exists sp' data',
    PushPC mc = Ok tt {| rf := regs.set_sp sp' (rf mc);
                         mem := {| data := data'; prog := prog (mem mc) |} |}.
Proof.
  unfold PushPC, predec_sp, bind, gets, modify, DataWrite, ret. cbn.
  destruct (regs.pc_endian (rf mc) =? 1); cbn; eexists; eexists; reflexivity.
Qed.

(** PushPC only looks at pc, pc_endian, sp and the data memory. *)
Lemma PushPC_cong rs1 rs2 m :
  regs.pc rs1 = regs.pc rs2 -> regs.pc_endian rs1 = regs.pc_endian rs2 ->
  regs.sp rs1 = regs.sp rs2 ->
  exists sp' data',
    PushPC {| rf := rs1; mem := m |} =
      Ok tt {| rf := regs.set_sp sp' rs1; mem := {| data := data'; prog := prog m |} |} /\
    PushPC {| rf := rs2; mem := m |} =
      Ok tt {| rf := regs.set_sp sp' rs2; mem := {| data := data'; prog := prog m |} |}.
Proof.
  intros E1 E2 E3.
  unfold PushPC, predec_sp, bind, gets, modify, DataWrite, ret, GetPcL, GetPcH. cbn.
  rewrite E1, E2.
  destruct (regs.pc_endian rs2 =? 1); cbn; rewrite E3; eexists; eexists; split; reflexivity.
Qed.

Lemma Run_interrupt_scan_eq (i : Z) (rest : list Z) (mc : Machine) :
  regs.im (rf mc) i = true -> regs.ip (rf mc) i = true ->
  exists sp' data',
    PushPC mc = Ok tt {| rf := regs.set_sp sp' (rf mc);
                         mem := {| data := data'; prog := prog (mem mc) |} |} /\
    Run_interrupt_scan (i :: rest) mc =
      (when (regs.ic (rf mc) i) ContextStore ;; ret true) (delivered i sp' data' mc).
Proof.
  intros Him Hip.
  destruct (PushPC_cong (regs.set_ie false (set_ip i false (rf mc))) (rf mc) (mem mc)
              eq_refl eq_refl eq_refl) as (sp' & data' & P1 & P2).
  replace {| rf := rf mc; mem := mem mc |} with mc in P2 by (destruct mc; reflexivity).
  exists sp', data'. split; [ exact P2 | ].
  cbn [Run_interrupt_scan].
  unfold bind at 1. unfold get_regs at 1. rewrite Him, Hip. cbn [andb].
  unfold bind at 1. unfold modify at 1.
  unfold bind at 1. unfold modify at 1.
  cbn [rf mem].
  unfold bind at 1. rewrite P1.
  unfold bind at 1. unfold modify at 1. cbn [rf mem].
  unfold bind at 1. unfold gets at 1. cbn [rf mem].
  reflexivity.
Qed.

Lemma Run_interrupt_scan_taken (i : Z) (rest : list Z) (mc : Machine) :
  Shadow_frame RF ->
  regs.im (rf mc) i = true -> regs.ip (rf mc) i = true ->
  exists mc',
    (Run_interrupt_scan (i :: rest) mc = Ok true mc' \/
     exists msg, Run_interrupt_scan (i :: rest) mc = Throw msg mc') /\
    regs.pc (rf mc') = 0x0006 + i * 8 /\
    regs.ip (rf mc') i = false /\
    (forall j, j <> i -> regs.ip (rf mc') j = regs.ip (rf mc) j) /\
    regs.ie (rf mc') = false /\
    regs.vip (rf mc') = regs.vip (rf mc) /\
    regs.sp (rf mc') = regs.sp (rf (final (PushPC mc))) /\
    mem mc' = mem (final (PushPC mc)).
Proof.
  intros HF Him Hip.
  destruct (Run_interrupt_scan_eq i rest mc Him Hip) as (sp' & data' & P & E).
  rewrite E, P. cbn [final rf mem]. clear E P.
  set (mc2 := delivered i sp' data' mc).
  assert (Hbase : regs.pc (rf mc2) = 6 + i * 8 /\ regs.ip (rf mc2) i = false /\
            (forall j, j <> i -> regs.ip (rf mc2) j = regs.ip (rf mc) j) /\
            regs.ie (rf mc2) = false /\ regs.vip (rf mc2) = regs.vip (rf mc) /\
            regs.sp (rf mc2) = sp' /\
            mem mc2 = {| data := data'; prog := prog (mem mc) |}).
  { subst mc2. unfold delivered, set_ip. cbn. rewrite upd_same.
    repeat split. intros j Hj. apply upd_other. exact Hj. }
  destruct Hbase as (B1 & B2 & B3 & B4 & B5 & B6 & B7).
  destruct (regs.ic (rf mc) i); unfold when.
  - destruct (ContextStore_control mc2 HF) as [(C1 & C2 & C3 & C4 & C5) Cm].
    unfold bind. destruct (ContextStore mc2) as [v mc3 | msg mc3] eqn:E;
      cbn [final] in *; unfold ret; exists mc3;
      (split; [ eauto | ]);
      rewrite C1, C2, C3, C4, Cm, !C5;
      (repeat split; auto).
    all: intros j Hj; rewrite C5; auto.
  - unfold bind, ret. exists mc2.
    split; [ auto | ]. repeat split; auto.
Qed.

Lemma Run_interrupt_scan_none (l : list Z) (mc : Machine) :
  (forall j, In j l -> regs.im (rf mc) j && regs.ip (rf mc) j = false) ->
  Run_interrupt_scan l mc = Ok false mc.
Proof.
  induction l as [ | i rest IH ]; intros H.
  - reflexivity.
  - cbn [Run_interrupt_scan]. unfold bind at 1. unfold get_regs at 1.
    rewrite (H i (or_introl eq_refl)). apply IH. intros j Hj. apply H. right. exact Hj.
Qed.

Lemma Run_interrupt_scan_skip (i : Z) (rest : list Z) (mc : Machine) :
  regs.im (rf mc) i && regs.ip (rf mc) i = false ->
  Run_interrupt_scan (i :: rest) mc = Run_interrupt_scan rest mc.
Proof.
  intros H. cbn [Run_interrupt_scan]. unfold bind at 1. unfold get_regs at 1.
  rewrite H. reflexivity.
Qed.

(** What the interrupt step leaves, relative to [PushPC]: the stack pointer
    and the memory are those that [PushPC] leaves from the state before. *)
Lemma Run_interrupts_taken (mc : Machine) :
  Shadow_frame RF ->
  regs.ie (rf mc) = true -> regs.rep (rf mc) = false ->
  (forall i, first_pending (rf mc) i ->
     let mc' := final (Run_interrupts mc) in
     regs.pc (rf mc') = 0x0006 + 8 * i /\
     regs.ip (rf mc') i = false /\
     (forall j, j <> i -> regs.ip (rf mc') j = regs.ip (rf mc) j) /\
     regs.ie (rf mc') = false /\
     regs.sp (rf mc') = regs.sp (rf (final (PushPC mc))) /\
     mem mc' = mem (final (PushPC mc)) /\
     regs.vip (rf mc') = regs.vip (rf mc)) /\
  (none_pending (rf mc) ->
     regs.vim (rf mc) = true -> regs.vip (rf mc) = true ->
     let mc' := final (Run_interrupts mc) in
     regs.pc (rf mc') = regs.viaddr (rf mc) /\
     regs.vip (rf mc') = false /\
     regs.ie (rf mc') = false /\
     (forall j, regs.ip (rf mc') j = regs.ip (rf mc) j) /\
     regs.sp (rf mc') = regs.sp (rf (final (PushPC mc))) /\
     mem mc' = mem (final (PushPC mc))).
Proof.
  intros HF Hie Hrep. split.
  - intros i (Hi & Him & Hip & Hmin) mc'.
    assert (E : exists mc1,
               (Run_interrupt_scan [0; 1; 2] mc = Ok true mc1 \/
                exists msg, Run_interrupt_scan [0; 1; 2] mc = Throw msg mc1) /\
               regs.pc (rf mc1) = 0x0006 + i * 8 /\
               regs.ip (rf mc1) i = false /\
               (forall j, j <> i -> regs.ip (rf mc1) j = regs.ip (rf mc) j) /\
               regs.ie (rf mc1) = false /\
               regs.vip (rf mc1) = regs.vip (rf mc) /\
               regs.sp (rf mc1) = regs.sp (rf (final (PushPC mc))) /\
               mem mc1 = mem (final (PushPC mc))).
    { assert (i = 0 \/ i = 1 \/ i = 2) as [-> | [-> | ->]] by lia.
      - apply Run_interrupt_scan_taken; assumption.
      - rewrite Run_interrupt_scan_skip by (apply Hmin; lia).
        apply Run_interrupt_scan_taken; assumption.
      - rewrite !Run_interrupt_scan_skip by (apply Hmin; lia).
        apply Run_interrupt_scan_taken; assumption. }
    destruct E as (mc1 & Hout & E1 & E2 & E3 & E4 & E5 & E6 & E7).
    assert (Hfin : mc' = mc1).
    { subst mc'. unfold Run_interrupts.
      unfold bind at 1. unfold get_regs at 1. rewrite Hie, Hrep. cbn [andb negb when].
      unfold bind at 1.
      destruct Hout as [Hout | [msg Hout]]; rewrite Hout; [ | reflexivity ].
      unfold bind, get_regs. cbn [rf negb andb when ret final]. reflexivity. }
    rewrite Hfin. replace (8 * i) with (i * 8) by lia. repeat split; assumption.
  - intros Hnone Hvim Hvip mc'.
    destruct (PushPC_cong (regs.set_ie false (regs.set_vip false (rf mc))) (rf mc) (mem mc)
                eq_refl eq_refl eq_refl) as (sp' & data' & P1 & P2).
    replace {| rf := rf mc; mem := mem mc |} with mc in P2 by (destruct mc; reflexivity).
    set (mc2 := {| rf := regs.set_pc (regs.viaddr (rf mc))
                           (regs.set_sp sp' (regs.set_ie false (regs.set_vip false (rf mc))));
                   mem := {| data := data'; prog := prog (mem mc) |} |}).
    assert (Hout : Run_interrupts mc = when (regs.vic (rf mc)) ContextStore mc2).
    { unfold Run_interrupts.
      unfold bind at 1. unfold get_regs at 1. rewrite Hie, Hrep. cbn [andb negb when].
      unfold bind at 1.
      rewrite Run_interrupt_scan_none
        by (intros j [<- | [<- | [<- | []]]]; apply Hnone; lia).
      unfold bind at 1. unfold get_regs at 1. rewrite Hvim, Hvip. cbn [andb negb when].
      unfold bind at 1. unfold modify at 1.
      unfold bind at 1. unfold modify at 1. cbn [rf mem].
      unfold bind at 1. rewrite P1.
      unfold bind at 1. unfold modify at 1. cbn [rf mem].
      unfold bind at 1. unfold gets at 1. cbn [rf mem].
      reflexivity. }
    subst mc'. rewrite Hout, P2. cbn [final rf mem]. clear Hout P1 P2.
    assert (Hbase : regs.pc (rf mc2) = regs.viaddr (rf mc) /\ regs.vip (rf mc2) = false /\
              regs.ie (rf mc2) = false /\
              (forall j, regs.ip (rf mc2) j = regs.ip (rf mc) j) /\
              regs.sp (rf mc2) = sp' /\
              mem mc2 = {| data := data'; prog := prog (mem mc) |}).
    { subst mc2. cbn. repeat split. }
    destruct Hbase as (B1 & B2 & B3 & B4 & B5 & B6).
    destruct (regs.vic (rf mc)); unfold when.
    + destruct (ContextStore_control mc2 HF) as [(C1 & C2 & C3 & C4 & C5) Cm].
      rewrite C1, C2, C3, C4, Cm. repeat split; auto.
      all: intros j; rewrite C5; apply B4.
    + unfold ret. cbn [final]. repeat split; auto.
Qed.

Lemma u16_pred_pred (sp : Z) :
  u16 (u16 (sp - 1) - 1) = u16 (sp - 2) /\ u16 (sp - 1) <> u16 (sp - 2).
Proof.
  unfold u16. split.
  - rewrite Zminus_mod_idemp_l. f_equal. lia.
  - intros E.
    assert (D : (sp - 1 - (sp - 2)) mod 2 ^ 16 = 0).
    { rewrite Zminus_mod, E, Z.sub_diag. reflexivity. }
    replace (sp - 1 - (sp - 2)) with 1 in D by lia. discriminate D.
Qed.

(** [PushPC] pushes the PC. *)
Lemma PushPC_pushed (mc : Machine) : pc_pushed mc (final (PushPC mc)).
Proof.
  destruct (u16_pred_pred (regs.sp (rf mc))) as (E2 & Hne).
  unfold pc_pushed, PushPC, predec_sp, bind, gets, modify, DataWrite, ret. cbn.
  destruct (regs.pc_endian (rf mc) =? 1); cbn; rewrite E2;
    (split; [ reflexivity | ]);
    (split; [ rewrite upd_other by exact Hne; apply upd_same | ]);
    (split; [ apply upd_same | ]);
    (split; [ | reflexivity ]);
    intros a H1 H2; rewrite upd_other by exact H2; apply upd_other; exact H1.
Qed.

Lemma pc_pushed_ext (mc m1 mc' : Machine) :
  regs.sp (rf mc') = regs.sp (rf m1) -> mem mc' = mem m1 ->
  pc_pushed mc m1 -> pc_pushed mc mc'.
Proof. unfold pc_pushed. intros -> ->. exact (fun H => H). Qed.

(** C2.  Interrupt acceptance at the end of an instruction cycle
    ([Run_interrupts], the last step of [Run_cycle]).  With [ie] set and
    [rep] clear: if [i] is the lowest index in 0..2 with [im[i]] and [ip[i]]
    set, then afterwards [pc = 0x0006 + 8 * i], [ip[i]] is clear, the other
    [ip] bits are as before, [ie] is clear, the old PC is pushed ([sp] is
    two words down, the two halves of the old PC lie at [sp - 1] and
    [sp - 2] in the order [pc_endian] selects, and no other word of the
    memory differs), and a pending vectored interrupt stays pending.  If no
    index in 0..2 has both bits set while [vim] and [vip] are set, the
    vectored interrupt is taken: [pc = viaddr], [vip] and [ie] are clear
    and the old PC is pushed in the same way.  The shadow operations of
    the register-file interface are taken to leave [pc], [sp], [ie], [vip]
    and [ip] alone ([Shadow_frame]). *)
Theorem interrupt_acceptance (mc : Machine) :
  Shadow_frame RF ->
  regs.ie (rf mc) = true -> regs.rep (rf mc) = false ->
  (forall i, first_pending (rf mc) i ->
     let mc' := final (Run_interrupts mc) in
     regs.pc (rf mc') = 0x0006 + 8 * i /\
     regs.ip (rf mc') i = false /\
     (forall j, j <> i -> regs.ip (rf mc') j = regs.ip (rf mc) j) /\
     regs.ie (rf mc') = false /\
     pc_pushed mc mc' /\
     regs.vip (rf mc') = regs.vip (rf mc)) /\
  (none_pending (rf mc) ->
     regs.vim (rf mc) = true -> regs.vip (rf mc) = true ->
     let mc' := final (Run_interrupts mc) in
     regs.pc (rf mc') = regs.viaddr (rf mc) /\
     regs.vip (rf mc') = false /\
     regs.ie (rf mc') = false /\
     (forall j, regs.ip (rf mc') j = regs.ip (rf mc) j) /\
     pc_pushed mc mc').
Proof.
  intros HF Hie Hrep.
  destruct (Run_interrupts_taken mc HF Hie Hrep) as (H1 & H2).
  split.
  - intros i Hi mc'.
    destruct (H1 i Hi) as (A1 & A2 & A3 & A4 & A5 & A6 & A7).
    do 4 (split; [ assumption | ]).
    split; [ | exact A7 ].
    exact (pc_pushed_ext mc _ mc' A5 A6 (PushPC_pushed mc)).
  - intros Hnone Hvim Hvip mc'.
    destruct (H2 Hnone Hvim Hvip) as (A1 & A2 & A3 & A4 & A5 & A6).
    do 4 (split; [ assumption | ]).
    exact (pc_pushed_ext mc _ mc' A5 A6 (PushPC_pushed mc)).
Qed.

(** ** Single-instruction repeat *)

Lemma u32_small v : 0 <= v < 2 ^ 32 -> u32 v = v.
Proof. intros H. apply Z.mod_small. exact H. Qed.

Lemma u16_small v : 0 <= v < 2 ^ 16 -> u16 v = v.
Proof. intros H. apply Z.mod_small. exact H. Qed.

Section Repeat.
Variable decoders : Z -> Matcher.
Variables (P k : Z) (inst : Inst).
Hypothesis P_range : 0 <= P /\ P + 2 < 2 ^ 32.
Hypothesis k_range : 0 <= k < 2 ^ 16.
Hypothesis inst_steady : steady inst.

Lemma rep_program_ext mc mc' :
  (forall a, prog (mem mc') a = prog (mem mc) a) -> rep_program decoders P k inst mc -> rep_program decoders P k inst mc'.
Proof. unfold rep_program. intros E H. rewrite !E. exact H. Qed.

Lemma fetch_eq mc :
  fetch mc = Ok (prog (mem mc) (regs.pc (rf mc)))
               {| rf := regs.set_pc (u32 (regs.pc (rf mc) + 1)) (rf mc); mem := mem mc |}.
Proof. reflexivity. Qed.

Lemma Run_rep_off mc : regs.rep (rf mc) = false -> Run_rep mc = Ok tt mc.
Proof.
  intros H. unfold Run_rep, bind, gets, get_regs, when. cbn. rewrite H.
  destruct mc; reflexivity.
Qed.

Lemma Run_rep_last mc :
  regs.rep (rf mc) = true -> regs.repc (rf mc) = 0 ->
  Run_rep mc = Ok tt {| rf := regs.set_rep false (rf mc); mem := mem mc |}.
Proof.
  intros H H0. unfold Run_rep, bind, gets, get_regs, when. cbn. rewrite H. cbn.
  rewrite H0. reflexivity.
Qed.

Lemma Run_rep_again mc :
  regs.rep (rf mc) = true -> regs.repc (rf mc) <> 0 ->
  Run_rep mc =
  Ok tt {| rf := regs.set_pc (u32 (regs.pc (rf mc) - 1))
                   (regs.set_repc (u16 (regs.repc (rf mc) - 1)) (rf mc));
           mem := mem mc |}.
Proof.
  intros H H0. unfold Run_rep, bind, gets, get_regs, when. cbn. rewrite H. cbn.
  destruct (Z.eqb_spec (regs.repc (rf mc)) 0); [ contradiction | reflexivity ].
Qed.

Lemma Run_bkrep_off mc : regs.lp (rf mc) = false -> Run_bkrep mc = Ok tt mc.
Proof.
  intros H. unfold Run_bkrep, bind, get_regs, when. cbn. rewrite H.
  destruct mc; reflexivity.
Qed.

Lemma Run_interrupts_off mc : regs.ie (rf mc) = false -> Run_interrupts mc = Ok tt mc.
Proof.
  intros H. unfold Run_interrupts, bind, get_regs, when. cbn. rewrite H.
  destruct mc; reflexivity.
Qed.

Lemma Run_interrupts_rep mc : regs.rep (rf mc) = true -> Run_interrupts mc = Ok tt mc.
Proof.
  intros H. unfold Run_interrupts, bind, get_regs, when. cbn. rewrite H.
  rewrite andb_false_r. destruct mc; reflexivity.
Qed.

Lemma Run_fetch_plain mc :
  NeedExpansion (decoders (prog (mem mc) (regs.pc (rf mc)))) = false ->
  Run_fetch decoders mc =
  (Run_rep ;; Run_bkrep ;;
   ret (decoder_call (decoders (prog (mem mc) (regs.pc (rf mc))))
          (prog (mem mc) (regs.pc (rf mc))) 0))
    {| rf := regs.set_pc (u32 (regs.pc (rf mc) + 1)) (rf mc); mem := mem mc |}.
Proof.
  intros H. unfold Run_fetch. unfold bind at 1. rewrite fetch_eq.
  unfold bind at 1. rewrite H. reflexivity.
Qed.

Lemma Run_log_S n mc :
  Run_log decoders (S n) mc =
  match Run_fetch decoders mc with
  | Throw msg mc' => ([], Throw msg mc')
  | Ok i mc1 =>
      match (exec i ;; Run_interrupts) mc1 with
      | Throw msg mc' => ([i], Throw msg mc')
      | Ok _ mc2 => let '(l, o) := Run_log decoders n mc2 in (i :: l, o)
      end
  end.
Proof. reflexivity. Qed.

Lemma repeat_loop (n : nat) : forall mc,
  rep_program decoders P k inst mc ->
  regs.pc (rf mc) = P + 1 -> regs.rep (rf mc) = true ->
  regs.repc (rf mc) = Z.of_nat n -> Z.of_nat n < 2 ^ 16 ->
  regs.lp (rf mc) = false -> regs.ie (rf mc) = false ->
  exists mc',
    Run_log decoders (S n) mc = (repeat inst (S n), Ok tt mc') /\
    regs.rep (rf mc') = false /\ regs.pc (rf mc') = P + 2.
Proof.
  induction n as [ | n IH ]; intros mc HP Hpc Hrep Hrepc Hn Hlp Hie.
  - destruct HP as (_ & _ & HN & HC).
    assert (EF : Run_fetch decoders mc =
                 Ok inst {| rf := regs.set_rep false (regs.set_pc (P + 2) (rf mc));
                            mem := mem mc |}).
    { rewrite Run_fetch_plain by (rewrite Hpc; exact HN).
      unfold bind at 1. rewrite Run_rep_last by assumption.
      unfold bind at 1. rewrite Run_bkrep_off by assumption.
      rewrite Hpc, HC. unfold ret. rewrite u32_small by lia.
      cbn [rf mem]. do 4 f_equal. lia. }
    cbn [Run_log]. rewrite EF.
    destruct (inst_steady {| rf := regs.set_rep false (regs.set_pc (P + 2) (rf mc));
                             mem := mem mc |})
      as (mc1 & E1 & S1 & S2 & S3 & S4 & S5 & S6).
    unfold bind at 1. rewrite E1.
    rewrite Run_interrupts_off by (rewrite S5; exact Hie).
    exists mc1. repeat split.
    + rewrite S2. reflexivity.
    + rewrite S1. reflexivity.
  - pose proof HP as (_ & _ & HN & HC).
    set (mcf := {| rf := regs.set_pc (P + 1) (regs.set_repc (Z.of_nat n)
                           (regs.set_pc (P + 2) (rf mc)));
                   mem := mem mc |}).
    assert (EF : Run_fetch decoders mc = Ok inst mcf).
    { rewrite Run_fetch_plain by (rewrite Hpc; exact HN).
      unfold bind at 1. rewrite Run_rep_again by (cbn; first [ assumption | lia ]).
      unfold bind at 1. rewrite Run_bkrep_off by assumption.
      rewrite Hpc, HC. unfold ret. subst mcf. cbn [rf mem].
      change (regs.pc (regs.set_pc (u32 (P + 1 + 1)) (rf mc))) with (u32 (P + 1 + 1)).
      change (regs.repc (regs.set_pc (u32 (P + 1 + 1)) (rf mc))) with (regs.repc (rf mc)).
      rewrite Hrepc.
      rewrite (u32_small (P + 1 + 1)) by lia.
      rewrite u16_small by lia. rewrite u32_small by lia.
      do 3 f_equal; try lia. do 2 f_equal; lia. }
    rewrite Run_log_S, EF.
    destruct (inst_steady mcf) as (mc1 & E1 & S1 & S2 & S3 & S4 & S5 & S6).
    unfold bind at 1. rewrite E1.
    rewrite Run_interrupts_off by (rewrite S5; exact Hie).
    destruct (IH mc1) as (mc' & EL & R1 & R2).
    + apply rep_program_ext with mc; [ intros a; rewrite S6; reflexivity | exact HP ].
    + rewrite S1. reflexivity.
    + rewrite S2. exact Hrep.
    + rewrite S3. reflexivity.
    + lia.
    + rewrite S4. exact Hlp.
    + rewrite S5. exact Hie.
    + rewrite EL. exists mc'. repeat split; assumption.
Qed.

(** C3, for a one-word instruction.  Let the word at [P] decode to [rep k]
    and the word at [P + 1] to the one-word instruction [inst], which does
    not throw and leaves the PC, the repeat state, [lp], [ie] and the
    program memory alone.  Started at [pc = P] with [rep], [lp] and [ie]
    clear, [Run] dispatches [rep k] and then [inst] exactly [k + 1] times in
    its next [k + 2] cycles, after which [rep] is clear and the PC is
    [P + 2], just past [inst]. *)
Theorem rep_executes_k_plus_1_times (mc : Machine) :
  rep_program decoders P k inst mc ->
  regs.pc (rf mc) = P -> regs.rep (rf mc) = false ->
  regs.lp (rf mc) = false -> regs.ie (rf mc) = false ->
  exists mc',
    Run_log decoders (S (S (Z.to_nat k))) mc =
      (I_rep_Imm8 k :: repeat inst (S (Z.to_nat k)), Ok tt mc') /\
    regs.rep (rf mc') = false /\ regs.pc (rf mc') = P + 2.
Proof.
  intros HP Hpc Hrep Hlp Hie.
  pose proof HP as (HN & HC & _ & _).
  set (mc1 := {| rf := regs.set_rep true (regs.set_repc k (regs.set_pc (P + 1) (rf mc)));
                 mem := mem mc |}).
  assert (EF : Run_fetch decoders mc =
               Ok (I_rep_Imm8 k) {| rf := regs.set_pc (P + 1) (rf mc); mem := mem mc |}).
  { rewrite Run_fetch_plain by (rewrite Hpc; exact HN).
    unfold bind at 1. rewrite Run_rep_off by assumption.
    unfold bind at 1. rewrite Run_bkrep_off by assumption.
    rewrite Hpc, HC. rewrite u32_small by lia. reflexivity. }
  assert (EX : (exec (I_rep_Imm8 k) ;; Run_interrupts)
                 {| rf := regs.set_pc (P + 1) (rf mc); mem := mem mc |} = Ok tt mc1).
  { unfold exec, rep_Imm8, Repeat, Run_interrupts, bind, get_regs, modify, when. cbn.
    rewrite Hie. reflexivity. }
  destruct (repeat_loop (Z.to_nat k) mc1) as (mc' & EL & R1 & R2).
  - apply rep_program_ext with mc; [ reflexivity | exact HP ].
  - reflexivity.
  - reflexivity.
  - subst mc1. cbn. lia.
  - lia.
  - exact Hlp.
  - exact Hie.
  - rewrite Run_log_S.
    rewrite EF, EX, EL. exists mc'. repeat split; assumption.
Qed.
End Repeat.

(** ** Modulo addressing *)

Lemma smear_ones m : 0 < m < 512 -> smear 0 m = Z.ones (Z.log2 m + 1).
Proof.
  intros H.
  assert (A : forallb (fun n => smear 0 (Z.of_nat n) =? Z.ones (Z.log2 (Z.of_nat n) + 1))
                (seq 1 511) = true) by (vm_compute; reflexivity).
  rewrite forallb_forall in A. specialize (A (Z.to_nat m)).
  rewrite Z2Nat.id in A by lia. apply Z.eqb_eq, A, in_seq. lia.
Qed.

Lemma smear_lor_1 m : 0 < m < 512 -> smear 0 (m .| 1) = smear 0 m.
Proof.
  intros H.
  assert (A : forallb (fun n => smear 0 (Z.of_nat n .| 1) =? smear 0 (Z.of_nat n))
                (seq 1 511) = true) by (vm_compute; reflexivity).
  rewrite forallb_forall in A. specialize (A (Z.to_nat m)).
  rewrite Z2Nat.id in A by lia. apply Z.eqb_eq, A, in_seq. lia.
Qed.

Lemma land_not16_ones k a :
  0 <= k <= 16 -> 0 <= a < 2 ^ 16 -> a .& not16 (Z.ones k) = 2 ^ k * (a / 2 ^ k).
Proof.
  intros Hk Ha. unfold not16, u16.
  rewrite (Z.mul_comm (2 ^ k)), <- Z.shiftr_div_pow2, <- Z.shiftl_mul_pow2 by lia.
  apply Z.bits_inj'. intros i Hi.
  rewrite Z.land_spec, Z.testbit_mod_pow2, Z.lnot_spec by lia.
  rewrite Z.testbit_ones_nonneg by lia.
  destruct (Z.ltb_spec i k) as [ L | L ].
  - rewrite Z.shiftl_spec_low by lia.
    cbn. rewrite !andb_false_r. reflexivity.
  - rewrite Z.shiftl_spec, Z.shiftr_spec by lia.
    replace (i - k + k) with i by lia.
    destruct (Z.ltb_spec i 16) as [ L' | L' ]; cbn.
    + rewrite andb_true_r. reflexivity.
    + rewrite andb_false_r. symmetry.
      destruct (Z.eq_dec a 0) as [ -> | Hne ]; [ apply Z.bits_0 | ].
      apply Z.bits_above_log2; [ lia | ].
      apply Z.lt_le_trans with 16; [ apply Z.log2_lt_pow2; lia | lia ].
Qed.

Lemma lor_block k q n : 0 <= k -> 0 <= n < 2 ^ k -> (2 ^ k * q) .| n = 2 ^ k * q + n.
Proof.
  intros Hk Hn.
  assert (D : Z.land (2 ^ k * q) n = 0).
  { rewrite (Z.mul_comm (2 ^ k)), <- Z.shiftl_mul_pow2 by lia. apply Z.bits_inj'. intros i Hi.
    rewrite Z.land_spec, Z.bits_0.
    destruct (Z.ltb_spec i k) as [ L | L ].
    - rewrite Z.shiftl_spec_low by lia. reflexivity.
    - replace (Z.testbit n i) with false; [ apply andb_false_r | ].
      symmetry. destruct (Z.eq_dec n 0) as [ -> | Hne ]; [ apply Z.bits_0 | ].
      apply Z.bits_above_log2; [ lia | ].
      apply Z.lt_le_trans with k; [ apply Z.log2_lt_pow2; lia | lia ]. }
  rewrite <- Z.lxor_lor by exact D. symmetry. apply Z.add_nocarry_lxor. exact D.
Qed.

Section Modulo.
Variables (mod_ : Z).
Hypothesis mod_range : 0 < mod_ < 512.

Lemma block_bits_range : 1 <= block_bits mod_ <= 9.
Proof.
  unfold block_bits. pose proof (Z.log2_nonneg mod_).
  assert (Z.log2 mod_ < 9) by (apply Z.log2_lt_pow2; lia). lia.
Qed.

Lemma mod_lt_block : mod_ < 2 ^ block_bits mod_.
Proof.
  unfold block_bits. pose proof (Z.log2_spec mod_ ltac:(lia)) as H.
  replace (Z.log2 mod_ + 1) with (Z.succ (Z.log2 mod_)) by lia. lia.
Qed.

(** One iteration with step +1, in either dialect: the offset inside the
    block goes from [mod_] to zero and otherwise up by one. *)
Lemma StepAddress_iteration_plus_1 legacy a :
  0 <= a < 2 ^ 16 -> a mod 2 ^ block_bits mod_ <= mod_ ->
  StepAddress_iteration legacy false mod_ 1 a =
  2 ^ block_bits mod_ * (a / 2 ^ block_bits mod_) +
  (if a mod 2 ^ block_bits mod_ =? mod_ then 0 else a mod 2 ^ block_bits mod_ + 1).
Proof.
  intros Ha Hlo.
  pose proof block_bits_range as Hk. pose proof mod_lt_block as Hm.
  set (bb := block_bits mod_) in *.
  assert (P0 : 0 < 2 ^ bb) by (apply Z.pow_pos_nonneg; lia).
  pose proof (Z.mod_pos_bound a (2 ^ bb) P0) as Hb.
  assert (E1 : (a + 1) mod 2 ^ bb =
               if a mod 2 ^ bb =? 2 ^ bb - 1 then 0
               else a mod 2 ^ bb + 1).
  { rewrite <- Z.add_mod_idemp_l by lia.
    destruct (Z.eqb_spec (a mod 2 ^ bb) (2 ^ bb - 1)) as [ E | E ].
    - rewrite E. replace (2 ^ bb - 1 + 1) with (1 * 2 ^ bb) by lia.
      apply Z.mod_mul. lia.
    - apply Z.mod_small. lia. }
  unfold StepAddress_iteration.
  destruct legacy; cbn [orb negb andb].
  - change (nz (1 >> 15)) with false. cbn [negb].
    rewrite smear_lor_1, smear_ones by exact mod_range. fold (block_bits mod_); fold bb.
    rewrite land_not16_ones by lia.
    rewrite !Z.land_ones by lia.
    rewrite andb_true_r.
    destruct (Z.eqb_spec (a mod 2 ^ bb) mod_) as [ E | E ].
    + apply lor_block; lia.
    + rewrite E1.
      destruct (Z.eqb_spec (a mod 2 ^ bb) (2 ^ bb - 1)); [ lia | ].
      apply lor_block; lia.
  - change (1 <? 32768) with true. cbv iota.
    rewrite smear_ones by exact mod_range. fold (block_bits mod_); fold bb.
    rewrite land_not16_ones by lia.
    rewrite !Z.land_ones by lia.
    rewrite E1.
    assert (E2 : (mod_ + 1) mod 2 ^ bb =
                 if mod_ =? 2 ^ bb - 1 then 0 else mod_ + 1).
    { destruct (Z.eqb_spec mod_ (2 ^ bb - 1)) as [ E | E ].
      - rewrite E. replace (2 ^ bb - 1 + 1) with (1 * 2 ^ bb) by lia.
        apply Z.mod_mul. lia.
      - apply Z.mod_small. lia. }
    rewrite E2.
    destruct (Z.eqb_spec (a mod 2 ^ bb) mod_) as [ E | E ].
    + rewrite E.
      destruct (Z.eqb_spec mod_ (2 ^ bb - 1)) as [ F | F ].
      * rewrite Z.eqb_refl. apply lor_block; lia.
      * rewrite Z.eqb_refl. apply lor_block; lia.
    + destruct (Z.eqb_spec (a mod 2 ^ bb) (2 ^ bb - 1)) as [ F | F ];
        [ lia | ].
      destruct (Z.eqb_spec mod_ (2 ^ bb - 1)) as [ G | G ].
      * destruct (Z.eqb_spec (a mod 2 ^ bb + 1) 0); [ lia | ].
        apply lor_block; lia.
      * destruct (Z.eqb_spec (a mod 2 ^ bb + 1) (mod_ + 1)); [ lia | ].
        apply lor_block; lia.
Qed.
End Modulo.

Section PlusStep.
Variables (rs : RegisterState) (unit : Z).
Hypothesis modulo_mode : regs.m rs unit = true.
Hypothesis not_brv : regs.brv rs unit = false.
Hypothesis step_1 : PlusStep_step rs unit = 1.
Hypothesis mod_range : 0 < unit_mod rs unit < 512.

Lemma StepAddress_PlusStep a :
  StepAddress rs unit a StepValue.PlusStep false =
  StepAddress_iteration (regs.legacy_mod rs) false (unit_mod rs unit) 1 a.
Proof.
  pose proof step_1 as S1. unfold PlusStep_step in S1. unfold StepAddress.
  rewrite not_brv, modulo_mode in S1 |- *. cbn [andb negb] in S1 |- *.
  destruct ((regs.bankstep rs =? 1) && negb (regs.legacy_mod rs));
    cbv zeta in S1 |- *; rewrite S1;
    change (1 =? 0) with false; cbv iota;
    fold (unit_mod rs unit);
    (destruct (Z.eqb_spec (unit_mod rs unit) 0); [ lia | ]);
    rewrite andb_false_r; reflexivity.
Qed.

Lemma PlusStep_orbit_spec n : forall a,
  0 <= a < 2 ^ 16 -> a mod 2 ^ block_bits (unit_mod rs unit) <= unit_mod rs unit ->
  0 <= PlusStep_orbit rs unit n a < 2 ^ 16 /\
  PlusStep_orbit rs unit n a / 2 ^ block_bits (unit_mod rs unit) = a / 2 ^ block_bits (unit_mod rs unit) /\
  PlusStep_orbit rs unit n a mod 2 ^ block_bits (unit_mod rs unit) = (a mod 2 ^ block_bits (unit_mod rs unit) + Z.of_nat n) mod (unit_mod rs unit + 1).
Proof.
  set (k := block_bits (unit_mod rs unit)).
  pose proof (block_bits_range _ mod_range) as Hk.
  pose proof (mod_lt_block _ mod_range) as Hm. fold k in Hk, Hm.
  assert (P0 : 0 < 2 ^ k) by (apply Z.pow_pos_nonneg; lia).
  induction n as [ | n IH ]; intros a Ha Hlo.
  - pose proof (Z.mod_pos_bound a (2 ^ k) P0) as Hb.
    cbn [PlusStep_orbit]. repeat split; try lia.
    rewrite Z.add_0_r. symmetry. apply Z.mod_small. lia.
  - pose proof (Z.mod_pos_bound a (2 ^ k) P0) as Hb.
    cbn [PlusStep_orbit]. rewrite StepAddress_PlusStep.
    rewrite StepAddress_iteration_plus_1 by assumption. fold k.
    set (lo' := if a mod 2 ^ k =? unit_mod rs unit then 0 else a mod 2 ^ k + 1).
    assert (Hlo' : 0 <= lo' <= unit_mod rs unit /\ lo' < 2 ^ k /\
                   lo' = (a mod 2 ^ k + 1) mod (unit_mod rs unit + 1)).
    { subst lo'. destruct (Z.eqb_spec (a mod 2 ^ k) (unit_mod rs unit)) as [ E | E ].
      - repeat split; try lia. rewrite E. symmetry. apply Z.mod_same. lia.
      - repeat split; try lia. symmetry. apply Z.mod_small. lia. }
    destruct Hlo' as (B1 & B2 & B3).
    assert (Q : 0 <= a / 2 ^ k < 2 ^ 16 / 2 ^ k + 1).
    { split; [ apply Z.div_pos; lia | ].
      assert (a / 2 ^ k <= 2 ^ 16 / 2 ^ k) by (apply Z.div_le_mono; lia). lia. }
    assert (D : (2 ^ k * (a / 2 ^ k) + lo') / 2 ^ k = a / 2 ^ k).
    { rewrite Z.mul_comm, Z.div_add_l by lia.
      rewrite (Z.div_small lo') by (split; [ apply B1 | exact B2 ]). apply Z.add_0_r. }
    assert (R : (2 ^ k * (a / 2 ^ k) + lo') mod 2 ^ k = lo').
    { rewrite Z.add_comm, Z.mul_comm, Z.mod_add by lia. apply Z.mod_small.
      split; [ apply B1 | exact B2 ]. }
    assert (Ha' : 0 <= 2 ^ k * (a / 2 ^ k) + lo' < 2 ^ 16).
    { pose proof (Z.div_mod a (2 ^ k) ltac:(lia)) as DM.
      split; [ nia | ].
      assert (a / 2 ^ k * 2 ^ k + 2 ^ k <= 2 ^ 16); [ | lia ].
      assert (X : 2 ^ 16 = 2 ^ (16 - k) * 2 ^ k)
        by (rewrite <- Z.pow_add_r by lia; f_equal; lia).
      assert (a / 2 ^ k < 2 ^ (16 - k)).
      { apply Z.div_lt_upper_bound; [ lia | ]. rewrite Z.mul_comm, <- X. lia. }
      rewrite X. nia. }
    destruct (IH (2 ^ k * (a / 2 ^ k) + lo') Ha') as (I1 & I2 & I3).
    + rewrite R. lia.
    + repeat split; try lia.
      rewrite I3, R, B3. rewrite Z.add_mod_idemp_l by lia. f_equal. lia.
Qed.

(** The orbit of [StepAddress] under the step +1: [mod + 1] steps lead
    back to the start, no smaller positive number of steps does, and every
    address on the way lies in the aligned block of the start. *)
Lemma PlusStep_orbit_cycle (r : Z) :
  0 <= r < 2 ^ 16 -> r .& smear 0 (unit_mod rs unit) <= unit_mod rs unit ->
  PlusStep_orbit rs unit (Z.to_nat (unit_mod rs unit + 1)) r = r /\
  (forall n, (0 < n < Z.to_nat (unit_mod rs unit + 1))%nat ->
             PlusStep_orbit rs unit n r <> r) /\
  (forall n, PlusStep_orbit rs unit n r .& not16 (smear 0 (unit_mod rs unit)) =
             r .& not16 (smear 0 (unit_mod rs unit))).
Proof.
  intros Hr Hlo. set (k := block_bits (unit_mod rs unit)).
  pose proof (block_bits_range _ mod_range) as Hk.
  pose proof (mod_lt_block _ mod_range) as Hm. fold k in Hk, Hm.
  assert (P0 : 0 < 2 ^ k) by (apply Z.pow_pos_nonneg; lia).
  rewrite smear_ones in Hlo |- * by exact mod_range.
  fold (block_bits (unit_mod rs unit)) in Hlo |- *. fold k in Hlo |- *.
  rewrite Z.land_ones in Hlo by lia.
  pose proof (Z.mod_pos_bound r (2 ^ k) P0) as Hb.
  repeat split.
  - destruct (PlusStep_orbit_spec (Z.to_nat (unit_mod rs unit + 1)) r Hr Hlo)
      as (I1 & I2 & I3).
    fold k in I2, I3.
    rewrite Z2Nat.id in I3 by lia.
    rewrite <- Z.add_mod_idemp_r, Z.mod_same, Z.add_0_r in I3 by lia.
    rewrite (Z.mod_small (r mod 2 ^ k)) in I3 by lia.
    rewrite (Z.div_mod (PlusStep_orbit rs unit (Z.to_nat (unit_mod rs unit + 1)) r) (2 ^ k))
      by lia.
    rewrite I2, I3. symmetry. apply Z.div_mod. lia.
  - intros n Hn E.
    destruct (PlusStep_orbit_spec n r Hr Hlo) as (I1 & I2 & I3).
    fold k in I2, I3.
    rewrite E in I3.
    destruct (Z.ltb_spec (r mod 2 ^ k + Z.of_nat n) (unit_mod rs unit + 1)) as [ L | L ].
    + rewrite (Z.mod_small (r mod 2 ^ k + Z.of_nat n)) in I3 by lia. lia.
    + replace (r mod 2 ^ k + Z.of_nat n)
        with ((r mod 2 ^ k + Z.of_nat n - (unit_mod rs unit + 1)) +
              1 * (unit_mod rs unit + 1)) in I3 by lia.
      rewrite Z.mod_add in I3 by lia.
      rewrite (Z.mod_small (r mod 2 ^ k + Z.of_nat n - (unit_mod rs unit + 1))) in I3 by lia.
      lia.
  - intros n. destruct (PlusStep_orbit_spec n r Hr Hlo) as (I1 & I2 & I3).
    fold k in I2, I3.
    rewrite !land_not16_ones by lia. rewrite I2. reflexivity.
Qed.
End PlusStep.

(** The orbit is what the register goes through under repeated
    [RnAndModify] with [StepValue.PlusStep], for a unit whose zeroing
    option ([r3z], [r7z]) is off. *)
Lemma PlusStep_orbit_ext rs1 rs2 unit n : forall a,
  (forall x, StepAddress rs1 unit x StepValue.PlusStep false =
             StepAddress rs2 unit x StepValue.PlusStep false) ->
  PlusStep_orbit rs1 unit n a = PlusStep_orbit rs2 unit n a.
Proof.
  induction n as [ | n IH ]; intros a H; cbn [PlusStep_orbit]; [ reflexivity | ].
  rewrite H. apply IH. exact H.
Qed.

Lemma PlusStep_times_orbit unit n : forall mc,
  ((unit =? 3) && regs.r3z (rf mc)) || ((unit =? 7) && regs.r7z (rf mc)) = false ->
  exists mc',
    PlusStep_times n unit mc = Ok tt mc' /\
    regs.r (rf mc') unit = PlusStep_orbit (rf mc) unit n (regs.r (rf mc) unit).
Proof.
  induction n as [ | n IH ]; intros mc Hz.
  - exists mc. split; reflexivity.
  - set (mc1 := {| rf := set_r unit (StepAddress (rf mc) unit (regs.r (rf mc) unit)
                                       StepValue.PlusStep false) (rf mc);
                   mem := mem mc |}).
    assert (E1 : RnAndModify unit StepValue.PlusStep mc = Ok (regs.r (rf mc) unit) mc1).
    { unfold RnAndModify, RnAndModify_, bind, get_regs, modify, ret.
      rewrite Hz. reflexivity. }
    destruct (IH mc1 Hz) as (mc' & E & Hr).
    exists mc'. split.
    + cbn [PlusStep_times]. unfold bind at 1. rewrite E1. exact E.
    + rewrite Hr. cbn [PlusStep_orbit].
      replace (regs.r (rf mc1) unit)
        with (StepAddress (rf mc) unit (regs.r (rf mc) unit) StepValue.PlusStep false)
        by (symmetry; apply upd_same).
      apply PlusStep_orbit_ext. intros x. reflexivity.
Qed.

Lemma smear_is_mod (m : Z) :
  0 < m < 512 -> (smear 0 m + 1 = m + 1 <-> exists k, m = 2 ^ k - 1).
Proof.
  intros H. rewrite smear_ones by exact H. rewrite Z.ones_equiv.
  pose proof (Z.log2_nonneg m) as Hl.
  split.
  - intros E. exists (Z.log2 m + 1). lia.
  - intros (k & E).
    assert (Hk : 0 < k).
    { destruct (Z.ltb_spec 0 k) as [ L | L ]; [ exact L | ].
      destruct (Z.eq_dec k 0) as [ -> | N ]; [ cbn in E; lia | ].
      rewrite Z.pow_neg_r in E by lia. lia. }
    assert (L2 : Z.log2 m = k - 1).
    { apply Z.log2_unique; [ lia | ].
      replace (Z.succ (k - 1)) with k by lia.
      assert (2 ^ k = 2 * 2 ^ (k - 1)).
      { replace k with (k - 1 + 1) at 1 by lia.
        rewrite Z.pow_add_r by lia. change (2 ^ 1) with 2. lia. }
      assert (0 < 2 ^ (k - 1)) by (apply Z.pow_pos_nonneg; lia).
      lia. }
    rewrite L2. replace (k - 1 + 1) with k by lia. lia.
Qed.

(** C9, for the step +1.  For an address unit in modulo mode ([m] set,
    [brv] clear, no [dmod]) whose PlusStep step ([PlusStep_step]: [stepi]
    or [stepj], or the bank register [stepi0] or [stepj0] when [bankstep]
    is 1 in the non-legacy dialect) is +1, whose modulus [mod] lies in
    1..511 and whose zeroing option ([r3z] for unit 3, [r7z] for unit 7)
    is off, from a 16-bit address in [rU] whose offset inside its block is
    at most [mod]: [n] applications of [RnAndModify] with PlusStep return
    and leave in [rU] the [n]-th address of the orbit of [StepAddress];
    [mod + 1] steps lead back to the start, no smaller positive number of
    steps does, and every address on the way lies in the aligned block of
    size [mask + 1] of the start, where [mask] is the smear of [mod].  The
    cycle has length [mod + 1]; that is [mask + 1] exactly when [mod] is of
    the form 2^k - 1. *)
Theorem PlusStep_cycle (unit : Z) (mc : Machine) :
  let rs := rf mc in
  let r := regs.r rs unit in
  let mod_ := unit_mod rs unit in
  let mask := smear 0 mod_ in
  regs.m rs unit = true ->
  regs.brv rs unit = false ->
  PlusStep_step rs unit = 1 ->
  0 < mod_ < 512 ->
  ((unit =? 3) && regs.r3z rs) || ((unit =? 7) && regs.r7z rs) = false ->
  0 <= r < 2 ^ 16 ->
  r .& mask <= mod_ ->
  (forall n, exists mc',
     PlusStep_times n unit mc = Ok tt mc' /\
     regs.r (rf mc') unit = PlusStep_orbit rs unit n r) /\
  PlusStep_orbit rs unit (Z.to_nat (mod_ + 1)) r = r /\
  (forall n, (0 < n < Z.to_nat (mod_ + 1))%nat -> PlusStep_orbit rs unit n r <> r) /\
  (forall n, PlusStep_orbit rs unit n r .& not16 mask = r .& not16 mask) /\
  (mask + 1 = mod_ + 1 <-> exists k, mod_ = 2 ^ k - 1).
Proof.
  intros rs r mod_ mask Hm Hbrv Hstep Hmod Hz Hr Hlo.
  destruct (PlusStep_orbit_cycle rs unit Hm Hbrv Hstep Hmod r Hr Hlo) as (C1 & C2 & C3).
  split; [ intros n; apply PlusStep_times_orbit; exact Hz | ].
  split; [ exact C1 | ]. split; [ exact C2 | ]. split; [ exact C3 | ].
  apply smear_is_mod. exact Hmod.
Qed.

End Props.

(* ================================================================= *)
(** ** The universal invariant *)

(** *** Rules *)

Lemma hoare_ret {A} (v : A) (Q : A -> Prop) : Q v -> hoare (ret v) Q.
Proof. intros H mc I. cbn. auto. Qed.

Lemma hoare_throw {A} msg (Q : A -> Prop) : hoare (throw msg) Q.
Proof. intros mc I. exact I. Qed.

Lemma hoare_bind {A B} (m : M A) (f : A -> M B) (P : A -> Prop) (Q : B -> Prop) :
  hoare m P -> (forall v, P v -> hoare (f v) Q) -> hoare (bind m f) Q.
Proof.
  intros Hm Hf mc I. unfold bind. specialize (Hm mc I).
  destruct (m mc) as [ v mc' | msg mc' ]; [ | exact Hm ].
  destruct Hm as [ I' Pv ]. exact (Hf v Pv mc' I').
Qed.

Lemma hoare_weaken {A} (m : M A) (P Q : A -> Prop) :
  hoare m P -> (forall v, P v -> Q v) -> hoare m Q.
Proof.
  intros Hm HPQ mc I. specialize (Hm mc I).
  destruct (m mc); [ destruct Hm; auto | exact Hm ].
Qed.

Lemma hoare_assoc {A B C} (m : M A) (g : A -> M B) (f : B -> M C) Q :
  hoare (bind m (fun x => bind (g x) f)) Q -> hoare (bind (bind m g) f) Q.
Proof.
  intros H mc I. specialize (H mc I). unfold bind in *.
  destruct (m mc); [ | exact H ]. exact H.
Qed.

Lemma hoare_ret_bind {A B} (v : A) (f : A -> M B) Q :
  hoare (f v) Q -> hoare (bind (ret v) f) Q.
Proof. intros H mc I. exact (H mc I). Qed.

Lemma hoare_throw_bind {A B} msg (f : A -> M B) Q : hoare (bind (throw msg) f) Q.
Proof. intros mc I. exact I. Qed.

Lemma hoare_gets {A} (g : RegisterState -> A) (Q : A -> Prop) :
  (forall rs, Invariant rs -> Q (g rs)) -> hoare (gets g) Q.
Proof. intros H mc I. cbn. auto. Qed.

Lemma hoare_gets_bind {A B} (g : RegisterState -> A) (f : A -> M B) Q :
  (forall rs, Invariant rs -> hoare (f (g rs)) Q) -> hoare (bind (gets g) f) Q.
Proof. intros H mc I. exact (H (rf mc) I mc I). Qed.

Lemma hoare_get_regs_bind {B} (f : RegisterState -> M B) Q :
  (forall rs, Invariant rs -> hoare (f rs) Q) -> hoare (bind get_regs f) Q.
Proof. intros H mc I. exact (H (rf mc) I mc I). Qed.

Lemma hoare_get_regs (Q : RegisterState -> Prop) :
  (forall rs, Invariant rs -> Q rs) -> hoare get_regs Q.
Proof. intros H mc I. cbn. auto. Qed.

Lemma hoare_modify (g : RegisterState -> RegisterState) (Q : void -> Prop) :
  (forall rs, Invariant rs -> Invariant (g rs)) -> Q tt -> hoare (modify g) Q.
Proof. intros H HQ mc I. cbn. auto. Qed.

Lemma hoare_modify_bind {B} (g : RegisterState -> RegisterState) (f : void -> M B) Q :
  (forall rs, Invariant rs -> Invariant (g rs)) -> hoare (f tt) Q ->
  hoare (bind (modify g) f) Q.
Proof.
  intros H Hf mc I.
  exact (Hf {| rf := g (rf mc); mem := mem mc |} (H _ I)).
Qed.

Lemma hoare_DataRead_bind {B} addr (f : Z -> M B) Q :
  (forall v, hoare (f v) Q) -> hoare (bind (DataRead addr) f) Q.
Proof. intros H mc I. exact (H _ mc I). Qed.

Lemma hoare_ProgramRead_bind {B} addr (f : Z -> M B) Q :
  (forall v, hoare (f v) Q) -> hoare (bind (ProgramRead addr) f) Q.
Proof. intros H mc I. exact (H _ mc I). Qed.

Lemma hoare_DataWrite_bind {B} addr v (f : void -> M B) Q :
  hoare (f tt) Q -> hoare (bind (DataWrite addr v) f) Q.
Proof. intros H mc I. unfold bind, DataWrite. apply H. exact I. Qed.

Lemma hoare_ProgramWrite_bind {B} addr v (f : void -> M B) Q :
  hoare (f tt) Q -> hoare (bind (ProgramWrite addr v) f) Q.
Proof. intros H mc I. unfold bind, ProgramWrite. apply H. exact I. Qed.

Lemma hoare_DataRead addr (Q : Z -> Prop) : (forall v, Q v) -> hoare (DataRead addr) Q.
Proof. intros H mc I. cbn. auto. Qed.

Lemma hoare_ProgramRead addr (Q : Z -> Prop) : (forall v, Q v) -> hoare (ProgramRead addr) Q.
Proof. intros H mc I. cbn. auto. Qed.

Lemma hoare_DataWrite addr v (Q : void -> Prop) : Q tt -> hoare (DataWrite addr v) Q.
Proof. intros H mc I. cbn. auto. Qed.

Lemma hoare_ProgramWrite addr v (Q : void -> Prop) : Q tt -> hoare (ProgramWrite addr v) Q.
Proof. intros H mc I. cbn. auto. Qed.

(** A step whose result carries no information: the continuation is
    verified once, whatever path the step took. *)
Lemma hoare_seq {B} (m : M void) (f : void -> M B) Q :
  hoare m (fun _ => True) -> hoare (f tt) Q -> hoare (bind m f) Q.
Proof.
  intros Hm Hf. apply hoare_bind with (P := fun _ => True); [ exact Hm | ].
  intros [] _. exact Hf.
Qed.

Lemma hoare_intro {A} (m : M A) (Q : A -> Prop) :
  (forall mc, Invariant (rf mc) ->
     match m mc with
     | Ok v mc' => Invariant (rf mc') /\ Q v
     | Throw _ mc' => Invariant (rf mc')
     end) -> hoare m Q.
Proof. intros H. exact H. Qed.

Lemma hoare_elim {A} (m : M A) (Q : A -> Prop) :
  hoare m Q -> forall mc, Invariant (rf mc) -> Invariant (rf (final (m mc))).
Proof.
  intros H mc I. specialize (H mc I). destruct (m mc); [ apply H | exact H ].
Qed.

(** *** Values that are sign extensions of 40 bits *)

Lemma is_SE40_signed s : - 2 ^ 39 <= s < 2 ^ 39 -> is_SE40 (s mod 2 ^ 64).
Proof.
  intros H. apply is_SE40_iff. pow_consts.
  destruct (Z.le_gt_cases 0 s) as [ L | L ].
  - rewrite Z.mod_small by lia. lia.
  - replace s with ((s + 18446744073709551616) + (-1) * 18446744073709551616) by lia.
    rewrite Z.mod_add by lia. rewrite Z.mod_small by lia. lia.
Qed.

Lemma SignExtend64_signed n x :
  0 < n <= 64 ->
  exists s, - 2 ^ (n - 1) <= s < 2 ^ (n - 1) /\ SignExtend64 n x = s mod 2 ^ 64.
Proof.
  intros Hn. unfold SignExtend64, SignExtend.
  assert (P1 : 0 < 2 ^ (n - 1)) by (apply Z.pow_pos_nonneg; lia).
  assert (P2 : 2 ^ n = 2 * 2 ^ (n - 1)).
  { replace n with (Z.succ (n - 1)) at 1 by lia. apply Z.pow_succ_r. lia. }
  assert (P3 : 2 ^ n <= 2 ^ 64) by (apply Z.pow_le_mono_r; lia).
  pose proof (Z.mod_pos_bound x (2 ^ n) ltac:(lia)) as Hm.
  destruct (Z.ltb_spec (x mod 2 ^ n) (2 ^ (n - 1))) as [ L | L ].
  - exists (x mod 2 ^ n). split; [ lia | ]. symmetry. apply Z.mod_small. lia.
  - exists (x mod 2 ^ n - 2 ^ n). split; [ lia | ].
    replace (x mod 2 ^ n - 2 ^ n)
      with ((x mod 2 ^ n + (2 ^ 64 - 2 ^ n)) + (-1) * 2 ^ 64) by lia.
    rewrite Z.mod_add by lia. symmetry. apply Z.mod_small. lia.
Qed.

Lemma SignExtend64_is_SE40 n x : 0 < n <= 40 -> is_SE40 (SignExtend64 n x).
Proof.
  intros Hn. destruct (SignExtend64_signed n x ltac:(lia)) as (s & Hs & ->).
  apply is_SE40_signed.
  assert (2 ^ (n - 1) <= 2 ^ 39) by (apply Z.pow_le_mono_r; lia). lia.
Qed.

Lemma SignExtend64_16_is_SE40 x : is_SE40 (SignExtend64 16 x).
Proof. apply SignExtend64_is_SE40. lia. Qed.
Lemma SignExtend64_32_is_SE40 x : is_SE40 (SignExtend64 32 x).
Proof. apply SignExtend64_is_SE40. lia. Qed.

(** Whether a 64-bit value is a sign extension of 40 bits is decided by
    its bits from 39 on. *)
Lemma is_SE40_same_high k a w :
  0 <= k <= 39 -> is_SE40 a -> w >> k = a >> k -> is_SE40 w.
Proof.
  intros Hk Ha E.
  assert (E39 : w / 2 ^ 39 = a / 2 ^ 39).
  { rewrite <- !Z.shiftr_div_pow2 by lia.
    replace 39 with (k + (39 - k)) by lia.
    rewrite <- !Z.shiftr_shiftr by lia. rewrite E. reflexivity. }
  apply is_SE40_iff in Ha. apply is_SE40_iff.
  pose proof (Z.div_mod w (2 ^ 39) ltac:(lia)) as Dw.
  pose proof (Z.div_mod a (2 ^ 39) ltac:(lia)) as Da.
  pose proof (Z.mod_pos_bound w (2 ^ 39) ltac:(lia)) as Bw.
  pose proof (Z.mod_pos_bound a (2 ^ 39) ltac:(lia)) as Ba.
  rewrite E39 in Dw. pow_consts. lia.
Qed.

Lemma shiftr_small v k : 0 <= k -> 0 <= v < 2 ^ k -> v >> k = 0.
Proof. intros Hk Hv. rewrite Z.shiftr_div_pow2 by lia. apply Z.div_small. exact Hv. Qed.

Lemma is_SE40_range v : is_SE40 v -> 0 <= v < 2 ^ 64.
Proof. intros H. apply is_SE40_iff in H. pow_consts. lia. Qed.

Lemma land_ones_shiftr v w k : 0 <= k <= w -> 0 <= v < 2 ^ w -> (v >> k) .& Z.ones (w - k) = v >> k.
Proof.
  intros Hk Hv. rewrite Z.land_ones by lia. apply Z.mod_small.
  rewrite Z.shiftr_div_pow2 by lia. split.
  - apply Z.div_pos; [ lia | apply Z.pow_pos_nonneg; lia ].
  - apply Z.div_lt_upper_bound; [ apply Z.pow_pos_nonneg; lia | ].
    rewrite <- Z.pow_add_r by lia. replace (k + (w - k)) with w by lia. lia.
Qed.

(** The AND with an 8-bit immediate restores bits 8..15. *)
Lemma is_SE40_and8 x v : is_SE40 v -> is_SE40 ((x .& 0xFF00) .| (v .& 0xFFFFFFFFFFFF00FF)).
Proof.
  intros Hv. apply (is_SE40_same_high 16 v); [ lia | exact Hv | ].
  rewrite Z.shiftr_lor, !Z.shiftr_land.
  change (0xFF00 >> 16) with 0. change (0xFFFFFFFFFFFF00FF >> 16) with (Z.ones (64 - 16)).
  rewrite Z.land_0_r, Z.lor_0_l.
  apply land_ones_shiftr; [ lia | apply is_SE40_range, Hv ].
Qed.

(** The bit operations of [alb] on the low and the high word of an
    accumulator. *)
Lemma is_SE40_set_low a r :
  is_SE40 a -> 0 <= r < 2 ^ 16 -> is_SE40 ((a .& 0xFFFFFFFFFFFF0000) .| r).
Proof.
  intros Ha Hr. apply (is_SE40_same_high 16 a); [ lia | exact Ha | ].
  rewrite Z.shiftr_lor, Z.shiftr_land.
  change (0xFFFFFFFFFFFF0000 >> 16) with (Z.ones (64 - 16)).
  rewrite (shiftr_small r) by lia. rewrite Z.lor_0_r.
  apply land_ones_shiftr; [ lia | apply is_SE40_range, Ha ].
Qed.

Lemma is_SE40_set_high a r :
  is_SE40 a -> 0 <= r < 2 ^ 16 -> is_SE40 ((a .& 0xFFFFFFFF0000FFFF) .| (r << 16)).
Proof.
  intros Ha Hr. apply (is_SE40_same_high 32 a); [ lia | exact Ha | ].
  rewrite Z.shiftr_lor, Z.shiftr_land.
  change (0xFFFFFFFF0000FFFF >> 32) with (Z.ones (64 - 32)).
  rewrite Z.shiftr_shiftl_r by lia. change (32 - 16) with 16.
  rewrite (shiftr_small r) by lia. rewrite Z.lor_0_r.
  apply land_ones_shiftr; [ lia | apply is_SE40_range, Ha ].
Qed.

(** A signed value of at most 24 bits, moved up by 16 bits, with any low
    word. *)
Lemma is_SE40_high_word s l :
  - 2 ^ 23 <= s < 2 ^ 23 -> 0 <= l < 2 ^ 16 ->
  is_SE40 (u64 ((s mod 2 ^ 64) << 16) .| l).
Proof.
  intros Hs Hl.
  assert (A : is_SE40 (u64 ((s mod 2 ^ 64) << 16))).
  { unfold u64. rewrite Z.shiftl_mul_pow2 by lia.
    rewrite Z.mul_mod_idemp_l by lia. apply is_SE40_signed. pow_consts. lia. }
  apply (is_SE40_same_high 16 _ _ ltac:(lia) A).
  rewrite Z.shiftr_lor, (shiftr_small l) by lia. apply Z.lor_0_r.
Qed.

Lemma land_FFFF_range v : 0 <= v .& 0xFFFF < 2 ^ 16.
Proof.
  change 0xFFFF with (Z.ones 16). rewrite Z.land_ones by lia.
  apply Z.mod_pos_bound. lia.
Qed.

Lemma u16_range v : 0 <= u16 v < 2 ^ 16.
Proof. apply Z.mod_pos_bound. lia. Qed.

Lemma is_SE40_high_low hsub lsub h1 h2 l1 l2 : is_SE40 (high_low hsub lsub h1 h2 l1 l2).
Proof.
  unfold high_low.
  destruct (SignExtend64_signed 16 h1 ltac:(lia)) as (s1 & B1 & E1).
  destruct (SignExtend64_signed 16 h2 ltac:(lia)) as (s2 & B2 & E2).
  rewrite E1, E2. change (2 ^ (16 - 1)) with 32768 in *.
  assert (E : u64 (if hsub then s1 mod 2 ^ 64 - s2 mod 2 ^ 64
                   else s1 mod 2 ^ 64 + s2 mod 2 ^ 64) =
              (if hsub then s1 - s2 else s1 + s2) mod 2 ^ 64).
  { unfold u64. destruct hsub.
    - symmetry. apply Zminus_mod.
    - symmetry. apply Zplus_mod. }
  rewrite E. apply is_SE40_high_word; [ | apply u16_range ].
  change (2 ^ 23) with 8388608. destruct hsub; lia.
Qed.

Lemma land_small_range x b : 0 <= x < 2 ^ 16 -> 0 <= x .& b < 2 ^ 16.
Proof.
  intros Hx.
  assert (E : x .& b = (x .& b) mod 2 ^ 16).
  { rewrite <- Z.land_ones by lia.
    rewrite <- Z.land_assoc, (Z.land_comm b), Z.land_assoc.
    rewrite (Z.land_ones x) by lia. rewrite (Z.mod_small x) by exact Hx. reflexivity. }
  rewrite E. apply Z.mod_pos_bound. lia.
Qed.

Lemma land_not16_range a b : 0 <= not16 a .& b < 2 ^ 16.
Proof. apply land_small_range. apply u16_range. Qed.

Lemma b2z_range16 c : 0 <= Z.b2z c < 2 ^ 16.
Proof. destruct c; cbv; split; congruence. Qed.

Lemma is_SE40_if (c : bool) a b : is_SE40 a -> is_SE40 b -> is_SE40 (if c then a else b).
Proof. destruct c; auto. Qed.

Lemma is_SE40_vtr (c : bool) x y l :
  is_SE40 (u64 ((if c then SignExtend64 24 x else SignExtend64 24 y) << 16) .| (l .& 0xFFFF)).
Proof.
  assert (A : forall z, is_SE40 (u64 (SignExtend64 24 z << 16) .| (l .& 0xFFFF))).
  { intros z. destruct (SignExtend64_signed 24 z ltac:(lia)) as (s & Hs & ->).
    apply is_SE40_high_word; [ exact Hs | apply land_FFFF_range ]. }
  destruct c; apply A.
Qed.

(** *** Preservation, handler by handler *)

Create HintDb hoare discriminated.
#[global] Hint Constants Opaque : hoare.
#[global] Hint Variables Opaque : hoare.
Create HintDb inv discriminated.

Lemma Invariant_a0 rs : Invariant rs -> is_SE40 (regs.a rs 0).
Proof. intros H. apply H. Qed.
Lemma Invariant_a1 rs : Invariant rs -> is_SE40 (regs.a rs 1).
Proof. intros H. apply H. Qed.
Lemma Invariant_b0 rs : Invariant rs -> is_SE40 (regs.b rs 0).
Proof. intros H. apply H. Qed.
Lemma Invariant_b1 rs : Invariant rs -> is_SE40 (regs.b rs 1).
Proof. intros H. apply H. Qed.

Lemma Invariant_set_a0 v rs : is_SE40 v -> Invariant rs -> Invariant (set_a 0 v rs).
Proof. intros Hv (A0 & A1 & B0 & B1 & C). repeat split; try assumption; apply C. Qed.
Lemma Invariant_set_a1 v rs : is_SE40 v -> Invariant rs -> Invariant (set_a 1 v rs).
Proof. intros Hv (A0 & A1 & B0 & B1 & C). repeat split; try assumption; apply C. Qed.
Lemma Invariant_set_b0 v rs : is_SE40 v -> Invariant rs -> Invariant (set_b 0 v rs).
Proof. intros Hv (A0 & A1 & B0 & B1 & C). repeat split; try assumption; apply C. Qed.
Lemma Invariant_set_b1 v rs : is_SE40 v -> Invariant rs -> Invariant (set_b 1 v rs).
Proof. intros Hv (A0 & A1 & B0 & B1 & C). repeat split; try assumption; apply C. Qed.

Lemma is_SE40_clamp_low : is_SE40 0xFFFFFFFF80000000.
Proof. reflexivity. Qed.
Lemma is_SE40_clamp_high : is_SE40 0x7FFFFFFF.
Proof. reflexivity. Qed.
Lemma is_SE40_eqb v : (v =? SignExtend64 40 v) = true -> is_SE40 v.
Proof. apply Z.eqb_eq. Qed.
Lemma is_SE40_negb_eqb v : negb (v =? SignExtend64 40 v) = false -> is_SE40 v.
Proof. intros H. apply Z.eqb_eq. destruct (v =? SignExtend64 40 v); [ reflexivity | discriminate ]. Qed.

#[local] Hint Resolve is_SE40_clamp_low is_SE40_clamp_high is_SE40_eqb is_SE40_negb_eqb : inv.
#[local] Hint Resolve Invariant_a0 Invariant_a1 Invariant_b0 Invariant_b1
  Invariant_set_a0 Invariant_set_a1 Invariant_set_b0 Invariant_set_b1
  SignExtend64_40_is_SE40 SignExtend64_16_is_SE40 SignExtend64_32_is_SE40
  is_SE40_and8 is_SE40_set_low is_SE40_set_high is_SE40_high_low
  land_FFFF_range u16_range land_not16_range b2z_range16 is_SE40_if is_SE40_vtr : inv.

Section Preservation.
Context {RF : RegisterFile}.
Hypothesis RF_ok : RegisterFile_invariant RF.

Lemma Invariant_Set_ k v rs : Invariant rs -> Invariant (Set_ k v rs).
Proof. apply RF_ok. Qed.
Lemma Invariant_SetLc v rs : Invariant rs -> Invariant (SetLc v rs).
Proof. apply RF_ok. Qed.
Lemma Invariant_ShadowStore rs : Invariant rs -> Invariant (ShadowStore rs).
Proof. apply RF_ok. Qed.
Lemma Invariant_ShadowRestore rs : Invariant rs -> Invariant (ShadowRestore rs).
Proof. apply RF_ok. Qed.
Lemma Invariant_ShadowSwap rs : Invariant rs -> Invariant (ShadowSwap rs).
Proof. apply RF_ok. Qed.
Lemma Invariant_SwapAllArArp rs : Invariant rs -> Invariant (SwapAllArArp rs).
Proof. apply RF_ok. Qed.
Lemma Invariant_SwapAr i rs : Invariant rs -> Invariant (SwapAr i rs).
Proof. apply RF_ok. Qed.
Lemma Invariant_SwapArp i rs : Invariant rs -> Invariant (SwapArp i rs).
Proof. apply RF_ok. Qed.

#[local] Hint Resolve Invariant_Set_ Invariant_SetLc Invariant_ShadowStore
  Invariant_ShadowRestore Invariant_ShadowSwap Invariant_SwapAllArArp
  Invariant_SwapAr Invariant_SwapArp : inv.

(** The side conditions: a register update that does not touch the
    accumulators and the block-repeat state keeps the invariant by
    computation; the others by the lemmas of the hint database. *)
Ltac inv_frame :=
  let rs := fresh "rs" in
  let H := fresh "Hinv" in
  intros rs H; cbv beta; first [ exact H | solve [ eauto 6 with inv nocore ] ].

Ltac inv_done :=
  repeat split; cbn; intros; first [ assumption | lia | reflexivity | congruence ].

(** Symbolic execution of a short stretch of code that changes the
    block-repeat state in several steps. *)
Ltac run_cases :=
  repeat (cbn;
          match goal with
          | |- context [ if ?c then _ else _ ] => destruct c eqn:?
          end);
  cbn.

Ltac inv_arith :=
  unfold Invariant, u16, nz in *; cbn in *; change (2 ^ 16) with 65536 in *;
  repeat match goal with
         | H : (_ <? _) = true |- _ => apply Z.ltb_lt in H
         | H : (_ <? _) = false |- _ => apply Z.ltb_ge in H
         | H : (_ =? _) = true |- _ => apply Z.eqb_eq in H
         | H : (_ =? _) = false |- _ => apply Z.eqb_neq in H
         | H : negb _ = true |- _ => apply negb_true_iff in H
         | H : negb _ = false |- _ => apply negb_false_iff in H
         | H : _ && _ = true |- _ => apply andb_true_iff in H; destruct H
         | |- context [ ?a =? ?b ] => destruct (Z.eqb_spec a b)
         end;
  cbn [negb] in *;
  intuition (first [ lia | congruence | Z.to_euclidean_division_equations; lia ]).

Ltac post := first [ exact I | solve [ eauto 6 with inv nocore ] ].

Ltac hoare_step :=
  cbv beta zeta;
  lazymatch goal with
  | |- hoare (@bind _ _ (ret _) _) _ => apply hoare_ret_bind
  | |- hoare (@bind _ _ (throw _) _) _ => apply hoare_throw_bind
  | |- hoare (@bind _ _ (gets _) _) _ => apply hoare_gets_bind; intros ? ?
  | |- hoare (@bind _ _ get_regs _) _ => apply hoare_get_regs_bind; intros ? ?
  | |- hoare (@bind _ _ (modify _) _) _ => apply hoare_modify_bind; [ inv_frame | ]
  | |- hoare (@bind _ _ (DataRead _) _) _ => apply hoare_DataRead_bind; intros ?
  | |- hoare (@bind _ _ (ProgramRead _) _) _ => apply hoare_ProgramRead_bind; intros ?
  | |- hoare (@bind _ _ (DataWrite _ _) _) _ => apply hoare_DataWrite_bind
  | |- hoare (@bind _ _ (ProgramWrite _ _) _) _ => apply hoare_ProgramWrite_bind
  | |- hoare (@bind Datatypes.unit _ _ _) _ =>
      first [ eapply hoare_bind; [ solve [ eauto 6 with hoare inv nocore ] | intros ? ? ]
            | apply hoare_seq ]
  | |- hoare (@bind _ _ (bind _ _) _) _ => apply hoare_assoc
  | |- hoare (@bind _ _ (match ?x with _ => _ end) _) _ => destruct x eqn:?
  | |- hoare (@bind _ _ _ _) _ =>
      eapply hoare_bind; [ solve [ eauto 6 with hoare inv nocore ] | intros ? ? ]
  | |- hoare (ret _) _ => apply hoare_ret; post
  | |- hoare (throw _) _ => apply hoare_throw
  | |- hoare (gets _) _ => apply hoare_gets; intros ? ?; post
  | |- hoare get_regs _ => apply hoare_get_regs; intros ? ?; post
  | |- hoare (modify _) _ => apply hoare_modify; [ inv_frame | post ]
  | |- hoare (DataRead _) _ => apply hoare_DataRead; intros ?; post
  | |- hoare (ProgramRead _) _ => apply hoare_ProgramRead; intros ?; post
  | |- hoare (DataWrite _ _) _ => apply hoare_DataWrite; post
  | |- hoare (ProgramWrite _ _) _ => apply hoare_ProgramWrite; post
  | |- hoare (match ?x with _ => _ end) _ => destruct x eqn:?
  | |- hoare _ _ =>
      first [ solve [ eauto 6 with hoare inv nocore ]
            | eapply hoare_weaken; [ solve [ eauto 6 with hoare inv nocore ] | intros; post ] ]
  end.

Ltac hoare_auto := unfold when; repeat hoare_step.

Lemma hoare_GetAcc (name : RegName) : hoare (GetAcc name) is_SE40.
Proof. unfold GetAcc. hoare_auto. Qed.
#[local] Hint Resolve hoare_GetAcc : hoare.

Lemma hoare_SaturateAcc_Unconditional (value : Z) :
  is_SE40 value -> hoare (SaturateAcc_Unconditional value) is_SE40.
Proof. intros Hv. unfold SaturateAcc_Unconditional. hoare_auto. Qed.
#[local] Hint Resolve hoare_SaturateAcc_Unconditional : hoare.

Lemma hoare_SaturateAcc (value : Z) (storing : bool) :
  is_SE40 value -> hoare (SaturateAcc value storing) is_SE40.
Proof. intros Hv. unfold SaturateAcc. hoare_auto. Qed.
#[local] Hint Resolve hoare_SaturateAcc : hoare.

Lemma hoare_SaturateAcc_NoFlag (value : Z) (storing : bool) :
  hoare (SaturateAcc_NoFlag value storing) (fun _ => True).
Proof. unfold SaturateAcc_NoFlag. hoare_auto. Qed.
#[local] Hint Resolve hoare_SaturateAcc_NoFlag : hoare.

Lemma hoare_SetAccFlag (value : Z) : hoare (SetAccFlag value) (fun _ => is_SE40 value).
Proof. unfold SetAccFlag. hoare_auto. Qed.
#[local] Hint Resolve hoare_SetAccFlag : hoare.

Lemma hoare_SetAcc_Simple (name : RegName) (value : Z) :
  is_SE40 value -> hoare (SetAcc_Simple name value) (fun _ => True).
Proof. intros Hv. unfold SetAcc_Simple. hoare_auto. Qed.
#[local] Hint Resolve hoare_SetAcc_Simple : hoare.

Lemma hoare_SetAcc_ (name : RegName) (value : Z) (no_saturation : bool) :
  hoare (SetAcc_ name value no_saturation) (fun _ => True).
Proof. unfold SetAcc_. hoare_auto. Qed.
#[local] Hint Resolve hoare_SetAcc_ : hoare.

Lemma hoare_SetAcc (name : RegName) (value : Z) : hoare (SetAcc name value) (fun _ => True).
Proof. unfold SetAcc. hoare_auto. Qed.
#[local] Hint Resolve hoare_SetAcc : hoare.

Lemma hoare_SetAcc_NoSaturation (name : RegName) (value : Z) :
  hoare (SetAcc_NoSaturation name value) (fun _ => True).
Proof. unfold SetAcc_NoSaturation. hoare_auto. Qed.
#[local] Hint Resolve hoare_SetAcc_NoSaturation : hoare.

Lemma hoare_ProductToBus32_NoShift (reg : RegName) :
  hoare (ProductToBus32_NoShift reg) (fun _ => True).
Proof. unfold ProductToBus32_NoShift. hoare_auto. Qed.
#[local] Hint Resolve hoare_ProductToBus32_NoShift : hoare.

Lemma hoare_ProductToBus40 (reg : RegName) : hoare (ProductToBus40 reg) (fun _ => True).
Proof. unfold ProductToBus40. hoare_auto. Qed.
#[local] Hint Resolve hoare_ProductToBus40 : hoare.

Lemma hoare_ProductFromBus32 (reg : RegName) (value : Z) :
  hoare (ProductFromBus32 reg value) (fun _ => True).
Proof. unfold ProductFromBus32. hoare_auto. Qed.
#[local] Hint Resolve hoare_ProductFromBus32 : hoare.

Lemma hoare_DoMultiplication (unit : Z) (x_sign y_sign : bool) :
  hoare (DoMultiplication unit x_sign y_sign) (fun _ => True).
Proof. unfold DoMultiplication. hoare_auto. Qed.
#[local] Hint Resolve hoare_DoMultiplication : hoare.

Lemma hoare_AddSub (a b : Z) (sub : bool) : hoare (AddSub a b sub) is_SE40.
Proof. unfold AddSub. hoare_auto. Qed.
#[local] Hint Resolve hoare_AddSub : hoare.

Lemma hoare_RegToBus16_ (reg : RegName) (enable_sat_for_mov : bool) :
  hoare (RegToBus16_ reg enable_sat_for_mov) (fun _ => True).
Proof. unfold RegToBus16_. hoare_auto. Qed.
#[local] Hint Resolve hoare_RegToBus16_ : hoare.

Lemma hoare_RegToBus16 (reg : RegName) : hoare (RegToBus16 reg) (fun _ => True).
Proof. unfold RegToBus16. hoare_auto. Qed.
#[local] Hint Resolve hoare_RegToBus16 : hoare.

Lemma hoare_RegFromBus16 (reg : RegName) (value : Z) :
  hoare (RegFromBus16 reg value) (fun _ => True).
Proof. unfold RegFromBus16. hoare_auto. Qed.
#[local] Hint Resolve hoare_RegFromBus16 : hoare.

Lemma hoare_GetRnUnit (reg : RegName) : hoare (GetRnUnit reg) (fun _ => True).
Proof. unfold GetRnUnit. hoare_auto. Qed.
#[local] Hint Resolve hoare_GetRnUnit : hoare.

Lemma hoare_GetArRnUnit (arrn : Z) : hoare (GetArRnUnit arrn) (fun _ => True).
Proof. unfold GetArRnUnit. hoare_auto. Qed.
#[local] Hint Resolve hoare_GetArRnUnit : hoare.

Lemma hoare_GetArpRnUnit (arprn : Z) : hoare (GetArpRnUnit arprn) (fun _ => True).
Proof. unfold GetArpRnUnit. hoare_auto. Qed.
#[local] Hint Resolve hoare_GetArpRnUnit : hoare.

Lemma hoare_ConvertArStep (arvalue : Z) : hoare (ConvertArStep arvalue) (fun _ => True).
Proof. unfold ConvertArStep. hoare_auto. Qed.
#[local] Hint Resolve hoare_ConvertArStep : hoare.

Lemma hoare_GetArStep (arstep : Z) : hoare (GetArStep arstep) (fun _ => True).
Proof. unfold GetArStep. hoare_auto. Qed.
#[local] Hint Resolve hoare_GetArStep : hoare.

Lemma hoare_GetArStepAlt (arstep : Z) : hoare (GetArStepAlt arstep) (fun _ => True).
Proof. unfold GetArStepAlt. hoare_auto. Qed.
#[local] Hint Resolve hoare_GetArStepAlt : hoare.

Lemma hoare_GetArpStep (arpstepi arpstepj : Z) :
  hoare (GetArpStep arpstepi arpstepj) (fun _ => True).
Proof. unfold GetArpStep. hoare_auto. Qed.
#[local] Hint Resolve hoare_GetArpStep : hoare.

Lemma hoare_GetArOffset (arstep : Z) : hoare (GetArOffset arstep) (fun _ => True).
Proof. unfold GetArOffset. hoare_auto. Qed.
#[local] Hint Resolve hoare_GetArOffset : hoare.

Lemma hoare_GetArpOffset (arpstepi arpstepj : Z) :
  hoare (GetArpOffset arpstepi arpstepj) (fun _ => True).
Proof. unfold GetArpOffset. hoare_auto. Qed.
#[local] Hint Resolve hoare_GetArpOffset : hoare.

Lemma hoare_RnAddress (unit value : Z) : hoare (RnAddress unit value) (fun _ => True).
Proof. unfold RnAddress. hoare_auto. Qed.
#[local] Hint Resolve hoare_RnAddress : hoare.

Lemma hoare_OffsetAddress (unit address : Z) (offset : OffsetValue) :
  hoare (OffsetAddress unit address offset) (fun _ => True).
Proof. unfold OffsetAddress. hoare_auto. Qed.
#[local] Hint Resolve hoare_OffsetAddress : hoare.

Lemma hoare_OffsetAddress_dmod (unit address : Z) (offset : OffsetValue) (dmod : bool) :
  hoare (OffsetAddress_dmod unit address offset dmod) (fun _ => True).
Proof. unfold OffsetAddress_dmod. hoare_auto. Qed.
#[local] Hint Resolve hoare_OffsetAddress_dmod : hoare.

Lemma hoare_RnAndModify_ (unit : Z) (step : StepValue) (dmod : bool) :
  hoare (RnAndModify_ unit step dmod) (fun _ => True).
Proof. unfold RnAndModify_. hoare_auto. Qed.
#[local] Hint Resolve hoare_RnAndModify_ : hoare.

Lemma hoare_RnAndModify (unit : Z) (step : StepValue) :
  hoare (RnAndModify unit step) (fun _ => True).
Proof. unfold RnAndModify. hoare_auto. Qed.
#[local] Hint Resolve hoare_RnAndModify : hoare.

Lemma hoare_RnAddressAndModify_ (unit : Z) (step : StepValue) (dmod : bool) :
  hoare (RnAddressAndModify_ unit step dmod) (fun _ => True).
Proof. unfold RnAddressAndModify_. hoare_auto. Qed.
#[local] Hint Resolve hoare_RnAddressAndModify_ : hoare.

Lemma hoare_RnAddressAndModify (unit : Z) (step : StepValue) :
  hoare (RnAddressAndModify unit step) (fun _ => True).
Proof. unfold RnAddressAndModify. hoare_auto. Qed.
#[local] Hint Resolve hoare_RnAddressAndModify : hoare.

Lemma hoare_predec_sp : hoare (predec_sp) (fun _ => True).
Proof. unfold predec_sp. hoare_auto. Qed.
#[local] Hint Resolve hoare_predec_sp : hoare.

Lemma hoare_postinc_sp : hoare (postinc_sp) (fun _ => True).
Proof. unfold postinc_sp. hoare_auto. Qed.
#[local] Hint Resolve hoare_postinc_sp : hoare.

Lemma hoare_PushPC : hoare (PushPC) (fun _ => True).
Proof. unfold PushPC. hoare_auto. Qed.
#[local] Hint Resolve hoare_PushPC : hoare.

Lemma hoare_PopPC : hoare (PopPC) (fun _ => True).
Proof. unfold PopPC. hoare_auto. Qed.
#[local] Hint Resolve hoare_PopPC : hoare.

Lemma hoare_SetPC_Save (new_pc : Z) : hoare (SetPC_Save new_pc) (fun _ => True).
Proof. unfold SetPC_Save. hoare_auto. Qed.
#[local] Hint Resolve hoare_SetPC_Save : hoare.

Lemma hoare_undefined (opcode : Z) : hoare (undefined opcode) (fun _ => True).
Proof. unfold undefined. hoare_auto. Qed.
#[local] Hint Resolve hoare_undefined : hoare.

Lemma hoare_nop : hoare (nop) (fun _ => True).
Proof. unfold nop. hoare_auto. Qed.
#[local] Hint Resolve hoare_nop : hoare.

Lemma hoare_norm (a b : RegName) (bs : StepValue) : hoare (norm a b bs) (fun _ => True).
Proof. unfold norm. hoare_auto. Qed.
#[local] Hint Resolve hoare_norm : hoare.

Lemma hoare_swap (swap_v : SwapTypeValue) : hoare (swap swap_v) (fun _ => True).
Proof. unfold swap. hoare_auto. Qed.
#[local] Hint Resolve hoare_swap : hoare.

Lemma hoare_trap : hoare (trap) (fun _ => True).
Proof. unfold trap. hoare_auto. Qed.
#[local] Hint Resolve hoare_trap : hoare.

Lemma hoare_SumBase_value (base : SumBase) (acc : RegName) :
  hoare (SumBase_value base acc) (fun _ => True).
Proof. unfold SumBase_value. hoare_auto. Qed.
#[local] Hint Resolve hoare_SumBase_value : hoare.

Lemma hoare_ProductSum (base : SumBase) (acc : RegName) (p0 p1 : ProductSumConfig) :
  hoare (ProductSum base acc p0 p1) (fun _ => True).
Proof. unfold ProductSum. hoare_auto. Qed.
#[local] Hint Resolve hoare_ProductSum : hoare.

Lemma hoare_AlmGeneric (op : AlmOp) (a : Z) (b : RegName) :
  hoare (AlmGeneric op a b) (fun _ => True).
Proof. unfold AlmGeneric. hoare_auto. Qed.
#[local] Hint Resolve hoare_AlmGeneric : hoare.

Lemma hoare_LoadFromMemory_MemImm8 (addr : Z) :
  hoare (LoadFromMemory_MemImm8 addr) (fun _ => True).
Proof. unfold LoadFromMemory_MemImm8. hoare_auto. Qed.
#[local] Hint Resolve hoare_LoadFromMemory_MemImm8 : hoare.

Lemma hoare_LoadFromMemory_MemImm16 (addr : Z) :
  hoare (LoadFromMemory_MemImm16 addr) (fun _ => True).
Proof. unfold LoadFromMemory_MemImm16. hoare_auto. Qed.
#[local] Hint Resolve hoare_LoadFromMemory_MemImm16 : hoare.

Lemma hoare_LoadFromMemory_MemR7Imm16 (addr : Z) :
  hoare (LoadFromMemory_MemR7Imm16 addr) (fun _ => True).
Proof. unfold LoadFromMemory_MemR7Imm16. hoare_auto. Qed.
#[local] Hint Resolve hoare_LoadFromMemory_MemR7Imm16 : hoare.

Lemma hoare_LoadFromMemory_MemR7Imm7s (addr : Z) :
  hoare (LoadFromMemory_MemR7Imm7s addr) (fun _ => True).
Proof. unfold LoadFromMemory_MemR7Imm7s. hoare_auto. Qed.
#[local] Hint Resolve hoare_LoadFromMemory_MemR7Imm7s : hoare.

Lemma hoare_StoreToMemory_MemImm8 (addr value : Z) :
  hoare (StoreToMemory_MemImm8 addr value) (fun _ => True).
Proof. unfold StoreToMemory_MemImm8. hoare_auto. Qed.
#[local] Hint Resolve hoare_StoreToMemory_MemImm8 : hoare.

Lemma hoare_StoreToMemory_MemImm16 (addr value : Z) :
  hoare (StoreToMemory_MemImm16 addr value) (fun _ => True).
Proof. unfold StoreToMemory_MemImm16. hoare_auto. Qed.
#[local] Hint Resolve hoare_StoreToMemory_MemImm16 : hoare.

Lemma hoare_StoreToMemory_MemR7Imm16 (addr value : Z) :
  hoare (StoreToMemory_MemR7Imm16 addr value) (fun _ => True).
Proof. unfold StoreToMemory_MemR7Imm16. hoare_auto. Qed.
#[local] Hint Resolve hoare_StoreToMemory_MemR7Imm16 : hoare.

Lemma hoare_StoreToMemory_MemR7Imm7s (addr value : Z) :
  hoare (StoreToMemory_MemR7Imm7s addr value) (fun _ => True).
Proof. unfold StoreToMemory_MemR7Imm7s. hoare_auto. Qed.
#[local] Hint Resolve hoare_StoreToMemory_MemR7Imm7s : hoare.

Lemma hoare_alm_MemImm8 (op : AlmOp) (a : Z) (b : RegName) :
  hoare (alm_MemImm8 op a b) (fun _ => True).
Proof. unfold alm_MemImm8. hoare_auto. Qed.
#[local] Hint Resolve hoare_alm_MemImm8 : hoare.

Lemma hoare_alm_Rn (op : AlmOp) (a : RegName) (as_ : StepValue) (b : RegName) :
  hoare (alm_Rn op a as_ b) (fun _ => True).
Proof. unfold alm_Rn. hoare_auto. Qed.
#[local] Hint Resolve hoare_alm_Rn : hoare.

Lemma hoare_CheckBus40OprandAllowed (op : AlmOp) :
  hoare (CheckBus40OprandAllowed op) (fun _ => True).
Proof. unfold CheckBus40OprandAllowed. hoare_auto. Qed.
#[local] Hint Resolve hoare_CheckBus40OprandAllowed : hoare.

Lemma hoare_alm_Register (op : AlmOp) (a : RegName) (b : RegName) :
  hoare (alm_Register op a b) (fun _ => True).
Proof. unfold alm_Register. hoare_auto. Qed.
#[local] Hint Resolve hoare_alm_Register : hoare.

Lemma hoare_alm_r6 (op : AlmOp) (b : RegName) : hoare (alm_r6 op b) (fun _ => True).
Proof. unfold alm_r6. hoare_auto. Qed.
#[local] Hint Resolve hoare_alm_r6 : hoare.

Lemma hoare_alu_MemImm16 (op : AlmOp) (a : Z) (b : RegName) :
  hoare (alu_MemImm16 op a b) (fun _ => True).
Proof. unfold alu_MemImm16. hoare_auto. Qed.
#[local] Hint Resolve hoare_alu_MemImm16 : hoare.

Lemma hoare_alu_MemR7Imm16 (op : AlmOp) (a : Z) (b : RegName) :
  hoare (alu_MemR7Imm16 op a b) (fun _ => True).
Proof. unfold alu_MemR7Imm16. hoare_auto. Qed.
#[local] Hint Resolve hoare_alu_MemR7Imm16 : hoare.

Lemma hoare_alu_Imm16 (op : AlmOp) (a : Z) (b : RegName) :
  hoare (alu_Imm16 op a b) (fun _ => True).
Proof. unfold alu_Imm16. hoare_auto. Qed.
#[local] Hint Resolve hoare_alu_Imm16 : hoare.

Lemma hoare_alu_Imm8 (op : AlmOp) (a : Z) (b : RegName) :
  hoare (alu_Imm8 op a b) (fun _ => True).
Proof. unfold alu_Imm8. hoare_auto. Qed.
#[local] Hint Resolve hoare_alu_Imm8 : hoare.

Lemma hoare_alu_MemR7Imm7s (op : AlmOp) (a : Z) (b : RegName) :
  hoare (alu_MemR7Imm7s op a b) (fun _ => True).
Proof. unfold alu_MemR7Imm7s. hoare_auto. Qed.
#[local] Hint Resolve hoare_alu_MemR7Imm7s : hoare.

Lemma hoare_or_ (a b c : RegName) : hoare (or_ a b c) (fun _ => True).
Proof. unfold or_. hoare_auto. Qed.
#[local] Hint Resolve hoare_or_ : hoare.

Lemma hoare_GenericAlb (op : AlbOp) (a b : Z) :
  hoare (GenericAlb op a b) (fun r => 0 <= r < 2 ^ 16).
Proof. unfold GenericAlb. hoare_auto. Qed.
#[local] Hint Resolve hoare_GenericAlb : hoare.

Lemma hoare_alb_MemImm8 (op : AlbOp) (a : Z) (b : Z) :
  hoare (alb_MemImm8 op a b) (fun _ => True).
Proof. unfold alb_MemImm8. hoare_auto. Qed.
#[local] Hint Resolve hoare_alb_MemImm8 : hoare.

Lemma hoare_alb_Rn (op : AlbOp) (a : Z) (b : RegName) (bs : StepValue) :
  hoare (alb_Rn op a b bs) (fun _ => True).
Proof. unfold alb_Rn. hoare_auto. Qed.
#[local] Hint Resolve hoare_alb_Rn : hoare.

Lemma hoare_alb_Register (op : AlbOp) (a : Z) (b : RegName) :
  hoare (alb_Register op a b) (fun _ => True).
Proof. unfold alb_Register. hoare_auto. Qed.
#[local] Hint Resolve hoare_alb_Register : hoare.

Lemma hoare_alb_r6 (op : AlbOp) (a : Z) : hoare (alb_r6 op a) (fun _ => True).
Proof. unfold alb_r6. hoare_auto. Qed.
#[local] Hint Resolve hoare_alb_r6 : hoare.

Lemma hoare_alb_SttMod (op : AlbOp) (a : Z) (b : RegName) :
  hoare (alb_SttMod op a b) (fun _ => True).
Proof. unfold alb_SttMod. hoare_auto. Qed.
#[local] Hint Resolve hoare_alb_SttMod : hoare.

Lemma hoare_add (a b : RegName) : hoare (add a b) (fun _ => True).
Proof. unfold add. hoare_auto. Qed.
#[local] Hint Resolve hoare_add : hoare.

Lemma hoare_add_p1 (b : RegName) : hoare (add_p1 b) (fun _ => True).
Proof. unfold add_p1. hoare_auto. Qed.
#[local] Hint Resolve hoare_add_p1 : hoare.

Lemma hoare_add_Px (a b : RegName) : hoare (add_Px a b) (fun _ => True).
Proof. unfold add_Px. hoare_auto. Qed.
#[local] Hint Resolve hoare_add_Px : hoare.

Lemma hoare_add_p0_p1 (c : RegName) : hoare (add_p0_p1 c) (fun _ => True).
Proof. unfold add_p0_p1. hoare_auto. Qed.
#[local] Hint Resolve hoare_add_p0_p1 : hoare.

Lemma hoare_add_p0_p1a (c : RegName) : hoare (add_p0_p1a c) (fun _ => True).
Proof. unfold add_p0_p1a. hoare_auto. Qed.
#[local] Hint Resolve hoare_add_p0_p1a : hoare.

Lemma hoare_add3_p0_p1 (c : RegName) : hoare (add3_p0_p1 c) (fun _ => True).
Proof. unfold add3_p0_p1. hoare_auto. Qed.
#[local] Hint Resolve hoare_add3_p0_p1 : hoare.

Lemma hoare_add3_p0_p1a (c : RegName) : hoare (add3_p0_p1a c) (fun _ => True).
Proof. unfold add3_p0_p1a. hoare_auto. Qed.
#[local] Hint Resolve hoare_add3_p0_p1a : hoare.

Lemma hoare_add3_p0a_p1a (c : RegName) : hoare (add3_p0a_p1a c) (fun _ => True).
Proof. unfold add3_p0a_p1a. hoare_auto. Qed.
#[local] Hint Resolve hoare_add3_p0a_p1a : hoare.

Lemma hoare_sub_ (a b : RegName) : hoare (sub_ a b) (fun _ => True).
Proof. unfold sub_. hoare_auto. Qed.
#[local] Hint Resolve hoare_sub_ : hoare.

Lemma hoare_sub_p1 (b : RegName) : hoare (sub_p1 b) (fun _ => True).
Proof. unfold sub_p1. hoare_auto. Qed.
#[local] Hint Resolve hoare_sub_p1 : hoare.

Lemma hoare_sub_Px (a b : RegName) : hoare (sub_Px a b) (fun _ => True).
Proof. unfold sub_Px. hoare_auto. Qed.
#[local] Hint Resolve hoare_sub_Px : hoare.

Lemma hoare_sub_p0_p1 (c : RegName) : hoare (sub_p0_p1 c) (fun _ => True).
Proof. unfold sub_p0_p1. hoare_auto. Qed.
#[local] Hint Resolve hoare_sub_p0_p1 : hoare.

Lemma hoare_sub_p0_p1a (c : RegName) : hoare (sub_p0_p1a c) (fun _ => True).
Proof. unfold sub_p0_p1a. hoare_auto. Qed.
#[local] Hint Resolve hoare_sub_p0_p1a : hoare.

Lemma hoare_sub3_p0_p1 (c : RegName) : hoare (sub3_p0_p1 c) (fun _ => True).
Proof. unfold sub3_p0_p1. hoare_auto. Qed.
#[local] Hint Resolve hoare_sub3_p0_p1 : hoare.

Lemma hoare_sub3_p0_p1a (c : RegName) : hoare (sub3_p0_p1a c) (fun _ => True).
Proof. unfold sub3_p0_p1a. hoare_auto. Qed.
#[local] Hint Resolve hoare_sub3_p0_p1a : hoare.

Lemma hoare_sub3_p0a_p1a (c : RegName) : hoare (sub3_p0a_p1a c) (fun _ => True).
Proof. unfold sub3_p0a_p1a. hoare_auto. Qed.
#[local] Hint Resolve hoare_sub3_p0a_p1a : hoare.

Lemma hoare_addsub_p0_p1 (c : RegName) : hoare (addsub_p0_p1 c) (fun _ => True).
Proof. unfold addsub_p0_p1. hoare_auto. Qed.
#[local] Hint Resolve hoare_addsub_p0_p1 : hoare.

Lemma hoare_addsub_p1_p0 (c : RegName) : hoare (addsub_p1_p0 c) (fun _ => True).
Proof. unfold addsub_p1_p0. hoare_auto. Qed.
#[local] Hint Resolve hoare_addsub_p1_p0 : hoare.

Lemma hoare_addsub_p0_p1a (c : RegName) : hoare (addsub_p0_p1a c) (fun _ => True).
Proof. unfold addsub_p0_p1a. hoare_auto. Qed.
#[local] Hint Resolve hoare_addsub_p0_p1a : hoare.

Lemma hoare_addsub_p1a_p0 (c : RegName) : hoare (addsub_p1a_p0 c) (fun _ => True).
Proof. unfold addsub_p1a_p0. hoare_auto. Qed.
#[local] Hint Resolve hoare_addsub_p1a_p0 : hoare.

Lemma hoare_arp_add_sub (hsub lsub : bool) (a asi asj : Z) (b : RegName) :
  hoare (arp_add_sub hsub lsub a asi asj b) (fun _ => True).
Proof. unfold arp_add_sub. hoare_auto. Qed.
#[local] Hint Resolve hoare_arp_add_sub : hoare.

Lemma hoare_ar_add_sub_sv (hsub lsub : bool) (a as_ : Z) (b : RegName) :
  hoare (ar_add_sub_sv hsub lsub a as_ b) (fun _ => True).
Proof. unfold ar_add_sub_sv. hoare_auto. Qed.
#[local] Hint Resolve hoare_ar_add_sub_sv : hoare.

Lemma hoare_sub_add_i_mov_j_sv (a asi asj : Z) (b : RegName) :
  hoare (sub_add_i_mov_j_sv a asi asj b) (fun _ => True).
Proof. unfold sub_add_i_mov_j_sv. hoare_auto. Qed.
#[local] Hint Resolve hoare_sub_add_i_mov_j_sv : hoare.

Lemma hoare_sub_add_j_mov_i_sv (a asi asj : Z) (b : RegName) :
  hoare (sub_add_j_mov_i_sv a asi asj b) (fun _ => True).
Proof. unfold sub_add_j_mov_i_sv. hoare_auto. Qed.
#[local] Hint Resolve hoare_sub_add_j_mov_i_sv : hoare.

Lemma hoare_add_sub_i_mov_j (a asi asj : Z) (b : RegName) :
  hoare (add_sub_i_mov_j a asi asj b) (fun _ => True).
Proof. unfold add_sub_i_mov_j. hoare_auto. Qed.
#[local] Hint Resolve hoare_add_sub_i_mov_j : hoare.

Lemma hoare_add_sub_j_mov_i (a asi asj : Z) (b : RegName) :
  hoare (add_sub_j_mov_i a asi asj b) (fun _ => True).
Proof. unfold add_sub_j_mov_i. hoare_auto. Qed.
#[local] Hint Resolve hoare_add_sub_j_mov_i : hoare.

Lemma hoare_ShiftBus40 (value sv : Z) (dest : RegName) :
  hoare (ShiftBus40 value sv dest) (fun _ => True).
Proof. unfold ShiftBus40. hoare_auto. Qed.
#[local] Hint Resolve hoare_ShiftBus40 : hoare.

Lemma hoare_Moda (op : ModaOp) (a : RegName) (cond : Cond) :
  hoare (Moda op a cond) (fun _ => True).
Proof. unfold Moda. hoare_auto. Qed.
#[local] Hint Resolve hoare_Moda : hoare.

Lemma hoare_moda4 (op : ModaOp) (a : RegName) (cond : Cond) :
  hoare (moda4 op a cond) (fun _ => True).
Proof. unfold moda4. hoare_auto. Qed.
#[local] Hint Resolve hoare_moda4 : hoare.

Lemma hoare_moda3 (op : ModaOp) (a : RegName) (cond : Cond) :
  hoare (moda3 op a cond) (fun _ => True).
Proof. unfold moda3. hoare_auto. Qed.
#[local] Hint Resolve hoare_moda3 : hoare.

Lemma hoare_pacr1 (a : RegName) : hoare (pacr1 a) (fun _ => True).
Proof. unfold pacr1. hoare_auto. Qed.
#[local] Hint Resolve hoare_pacr1 : hoare.

Lemma hoare_clr (a b : Z) : hoare (clr a b) (fun _ => True).
Proof. unfold clr. hoare_auto. Qed.
#[local] Hint Resolve hoare_clr : hoare.

Lemma hoare_clrr (a b : Z) : hoare (clrr a b) (fun _ => True).
Proof. unfold clrr. hoare_auto. Qed.
#[local] Hint Resolve hoare_clrr : hoare.

Lemma hoare_BlockRepeat (lc address : Z) : hoare (BlockRepeat lc address) (fun _ => True).
Proof.
  apply hoare_intro. intros mc (A0 & A1 & B0 & B1 & Hb & Hl).
  unfold BlockRepeat, bind, gets, modify, throw.
  cbn. destruct (Z.ltb_spec 3 (regs.bcn (rf mc))) as [ L | L ].
  - repeat split; first [ assumption | lia | apply Hl ].
  - cbn. rewrite u16_small by lia. inv_done.
Qed.
#[local] Hint Resolve hoare_BlockRepeat : hoare.

Lemma hoare_bkrep_Imm8 (a addr : Z) : hoare (bkrep_Imm8 a addr) (fun _ => True).
Proof. unfold bkrep_Imm8. hoare_auto. Qed.
#[local] Hint Resolve hoare_bkrep_Imm8 : hoare.

Lemma hoare_bkrep_Register (a : RegName) (addr_low addr_high : Z) :
  hoare (bkrep_Register a addr_low addr_high) (fun _ => True).
Proof. unfold bkrep_Register. hoare_auto. Qed.
#[local] Hint Resolve hoare_bkrep_Register : hoare.

Lemma hoare_bkrep_r6 (addr_low addr_high : Z) :
  hoare (bkrep_r6 addr_low addr_high) (fun _ => True).
Proof. unfold bkrep_r6. hoare_auto. Qed.
#[local] Hint Resolve hoare_bkrep_r6 : hoare.

Lemma hoare_RestoreBlockRepeat_r (unit : Z) :
  hoare (RestoreBlockRepeat (ref_r unit)) (fun _ => True).
Proof.
  apply hoare_intro. intros mc Hinv.
  unfold RestoreBlockRepeat, preinc, bind, gets, modify, throw, DataRead, when, ret.
  repeat (cbn;
          match goal with
          | |- context [ if ?c then _ else _ ] => destruct c eqn:?
          | |- context [ copy_backward ?z ?n ?l ?d ?a ] =>
              destruct (copy_backward z n l d a) eqn:?
          end);
    cbn; inv_arith.
Qed.

Lemma hoare_RestoreBlockRepeat_sp : hoare (RestoreBlockRepeat ref_sp) (fun _ => True).
Proof.
  apply hoare_intro. intros mc Hinv.
  unfold RestoreBlockRepeat, preinc, bind, gets, modify, throw, DataRead, when, ret.
  repeat (cbn;
          match goal with
          | |- context [ if ?c then _ else _ ] => destruct c eqn:?
          | |- context [ copy_backward ?z ?n ?l ?d ?a ] =>
              destruct (copy_backward z n l d a) eqn:?
          end);
    cbn; inv_arith.
Qed.

Lemma hoare_StoreBlockRepeat_r (unit : Z) :
  hoare (StoreBlockRepeat (ref_r unit)) (fun _ => True).
Proof.
  apply hoare_intro. intros mc Hinv.
  unfold StoreBlockRepeat, postdec, bind, gets, modify, throw, DataWrite, when, ret.
  run_cases; inv_arith.
Qed.

Lemma hoare_StoreBlockRepeat_sp : hoare (StoreBlockRepeat ref_sp) (fun _ => True).
Proof.
  apply hoare_intro. intros mc Hinv.
  unfold StoreBlockRepeat, postdec, bind, gets, modify, throw, DataWrite, when, ret.
  run_cases; inv_arith.
Qed.
#[local] Hint Resolve hoare_RestoreBlockRepeat_r hoare_RestoreBlockRepeat_sp
  hoare_StoreBlockRepeat_r hoare_StoreBlockRepeat_sp : hoare.

Lemma hoare_bkreprst (a : Z) : hoare (bkreprst a) (fun _ => True).
Proof. unfold bkreprst. hoare_auto. Qed.
#[local] Hint Resolve hoare_bkreprst : hoare.

Lemma hoare_bkreprst_memsp : hoare (bkreprst_memsp) (fun _ => True).
Proof. unfold bkreprst_memsp. hoare_auto. Qed.
#[local] Hint Resolve hoare_bkreprst_memsp : hoare.

Lemma hoare_bkrepsto (a : Z) : hoare (bkrepsto a) (fun _ => True).
Proof. unfold bkrepsto. hoare_auto. Qed.
#[local] Hint Resolve hoare_bkrepsto : hoare.

Lemma hoare_bkrepsto_memsp : hoare (bkrepsto_memsp) (fun _ => True).
Proof. unfold bkrepsto_memsp. hoare_auto. Qed.
#[local] Hint Resolve hoare_bkrepsto_memsp : hoare.

Lemma hoare_banke (flags : Z) : hoare (banke flags) (fun _ => True).
Proof. unfold banke. hoare_auto. Qed.
#[local] Hint Resolve hoare_banke : hoare.

Lemma hoare_bankr : hoare (bankr) (fun _ => True).
Proof. unfold bankr. hoare_auto. Qed.
#[local] Hint Resolve hoare_bankr : hoare.

Lemma hoare_bankr_Ar (a : Z) : hoare (bankr_Ar a) (fun _ => True).
Proof. unfold bankr_Ar. hoare_auto. Qed.
#[local] Hint Resolve hoare_bankr_Ar : hoare.

Lemma hoare_bankr_Ar_Arp (a b : Z) : hoare (bankr_Ar_Arp a b) (fun _ => True).
Proof. unfold bankr_Ar_Arp. hoare_auto. Qed.
#[local] Hint Resolve hoare_bankr_Ar_Arp : hoare.

Lemma hoare_bankr_Arp (a : Z) : hoare (bankr_Arp a) (fun _ => True).
Proof. unfold bankr_Arp. hoare_auto. Qed.
#[local] Hint Resolve hoare_bankr_Arp : hoare.

Lemma hoare_bitrev (a : RegName) : hoare (bitrev a) (fun _ => True).
Proof. unfold bitrev. hoare_auto. Qed.
#[local] Hint Resolve hoare_bitrev : hoare.

Lemma hoare_bitrev_dbrv (a : RegName) : hoare (bitrev_dbrv a) (fun _ => True).
Proof. unfold bitrev_dbrv. hoare_auto. Qed.
#[local] Hint Resolve hoare_bitrev_dbrv : hoare.

Lemma hoare_bitrev_ebrv (a : RegName) : hoare (bitrev_ebrv a) (fun _ => True).
Proof. unfold bitrev_ebrv. hoare_auto. Qed.
#[local] Hint Resolve hoare_bitrev_ebrv : hoare.

Lemma hoare_br (addr_low addr_high : Z) (cond : Cond) :
  hoare (br addr_low addr_high cond) (fun _ => True).
Proof. unfold br. hoare_auto. Qed.
#[local] Hint Resolve hoare_br : hoare.

Lemma hoare_brr (addr : Z) (cond : Cond) : hoare (brr addr cond) (fun _ => True).
Proof. unfold brr. hoare_auto. Qed.
#[local] Hint Resolve hoare_brr : hoare.

Lemma hoare_break_ : hoare break_ (fun _ => True).
Proof.
  apply hoare_intro. intros mc Hinv.
  unfold break_, bind, gets, modify, throw.
  run_cases; inv_arith.
Qed.
#[local] Hint Resolve hoare_break_ : hoare.

Lemma hoare_call (addr_low addr_high : Z) (cond : Cond) :
  hoare (call addr_low addr_high cond) (fun _ => True).
Proof. unfold call. hoare_auto. Qed.
#[local] Hint Resolve hoare_call : hoare.

Lemma hoare_calla_Axl (a : RegName) : hoare (calla_Axl a) (fun _ => True).
Proof. unfold calla_Axl. hoare_auto. Qed.
#[local] Hint Resolve hoare_calla_Axl : hoare.

Lemma hoare_calla_Ax (a : RegName) : hoare (calla_Ax a) (fun _ => True).
Proof. unfold calla_Ax. hoare_auto. Qed.
#[local] Hint Resolve hoare_calla_Ax : hoare.

Lemma hoare_callr (addr : Z) (cond : Cond) : hoare (callr addr cond) (fun _ => True).
Proof. unfold callr. hoare_auto. Qed.
#[local] Hint Resolve hoare_callr : hoare.

Lemma hoare_ContextStore : hoare (ContextStore) (fun _ => True).
Proof. unfold ContextStore. hoare_auto. Qed.
#[local] Hint Resolve hoare_ContextStore : hoare.

Lemma hoare_ContextRestore : hoare (ContextRestore) (fun _ => True).
Proof. unfold ContextRestore. hoare_auto. Qed.
#[local] Hint Resolve hoare_ContextRestore : hoare.

Lemma hoare_cntx_s : hoare (cntx_s) (fun _ => True).
Proof. unfold cntx_s. hoare_auto. Qed.
#[local] Hint Resolve hoare_cntx_s : hoare.

Lemma hoare_cntx_r : hoare (cntx_r) (fun _ => True).
Proof. unfold cntx_r. hoare_auto. Qed.
#[local] Hint Resolve hoare_cntx_r : hoare.

Lemma hoare_ret_ (c : Cond) : hoare (ret_ c) (fun _ => True).
Proof. unfold ret_. hoare_auto. Qed.
#[local] Hint Resolve hoare_ret_ : hoare.

Lemma hoare_retd : hoare (retd) (fun _ => True).
Proof. unfold retd. hoare_auto. Qed.
#[local] Hint Resolve hoare_retd : hoare.

Lemma hoare_reti (c : Cond) : hoare (reti c) (fun _ => True).
Proof. unfold reti. hoare_auto. Qed.
#[local] Hint Resolve hoare_reti : hoare.

Lemma hoare_retic (c : Cond) : hoare (retic c) (fun _ => True).
Proof. unfold retic. hoare_auto. Qed.
#[local] Hint Resolve hoare_retic : hoare.

Lemma hoare_retid : hoare (retid) (fun _ => True).
Proof. unfold retid. hoare_auto. Qed.
#[local] Hint Resolve hoare_retid : hoare.

Lemma hoare_retidc : hoare (retidc) (fun _ => True).
Proof. unfold retidc. hoare_auto. Qed.
#[local] Hint Resolve hoare_retidc : hoare.

Lemma hoare_rets (a : Z) : hoare (rets a) (fun _ => True).
Proof. unfold rets. hoare_auto. Qed.
#[local] Hint Resolve hoare_rets : hoare.

Lemma hoare_load_ps (a : Z) : hoare (load_ps a) (fun _ => True).
Proof. unfold load_ps. hoare_auto. Qed.
#[local] Hint Resolve hoare_load_ps : hoare.

Lemma hoare_load_stepi (a : Z) : hoare (load_stepi a) (fun _ => True).
Proof. unfold load_stepi. hoare_auto. Qed.
#[local] Hint Resolve hoare_load_stepi : hoare.

Lemma hoare_load_stepj (a : Z) : hoare (load_stepj a) (fun _ => True).
Proof. unfold load_stepj. hoare_auto. Qed.
#[local] Hint Resolve hoare_load_stepj : hoare.

Lemma hoare_load_page (a : Z) : hoare (load_page a) (fun _ => True).
Proof. unfold load_page. hoare_auto. Qed.
#[local] Hint Resolve hoare_load_page : hoare.

Lemma hoare_load_modi (a : Z) : hoare (load_modi a) (fun _ => True).
Proof. unfold load_modi. hoare_auto. Qed.
#[local] Hint Resolve hoare_load_modi : hoare.

Lemma hoare_load_modj (a : Z) : hoare (load_modj a) (fun _ => True).
Proof. unfold load_modj. hoare_auto. Qed.
#[local] Hint Resolve hoare_load_modj : hoare.

Lemma hoare_load_movpd (a : Z) : hoare (load_movpd a) (fun _ => True).
Proof. unfold load_movpd. hoare_auto. Qed.
#[local] Hint Resolve hoare_load_movpd : hoare.

Lemma hoare_load_ps01 (a : Z) : hoare (load_ps01 a) (fun _ => True).
Proof. unfold load_ps01. hoare_auto. Qed.
#[local] Hint Resolve hoare_load_ps01 : hoare.

Lemma hoare_push16 (value : Z) : hoare (push16 value) (fun _ => True).
Proof. unfold push16. hoare_auto. Qed.
#[local] Hint Resolve hoare_push16 : hoare.

Lemma hoare_pop16 : hoare (pop16) (fun _ => True).
Proof. unfold pop16. hoare_auto. Qed.
#[local] Hint Resolve hoare_pop16 : hoare.

Lemma hoare_push_Imm16 (a : Z) : hoare (push_Imm16 a) (fun _ => True).
Proof. unfold push_Imm16. hoare_auto. Qed.
#[local] Hint Resolve hoare_push_Imm16 : hoare.

Lemma hoare_push_Register (a : RegName) : hoare (push_Register a) (fun _ => True).
Proof. unfold push_Register. hoare_auto. Qed.
#[local] Hint Resolve hoare_push_Register : hoare.

Lemma hoare_push_Abe (a : RegName) : hoare (push_Abe a) (fun _ => True).
Proof. unfold push_Abe. hoare_auto. Qed.
#[local] Hint Resolve hoare_push_Abe : hoare.

Lemma hoare_push_ArArpSttMod (a : RegName) : hoare (push_ArArpSttMod a) (fun _ => True).
Proof. unfold push_ArArpSttMod. hoare_auto. Qed.
#[local] Hint Resolve hoare_push_ArArpSttMod : hoare.

Lemma hoare_push_prpage : hoare (push_prpage) (fun _ => True).
Proof. unfold push_prpage. hoare_auto. Qed.
#[local] Hint Resolve hoare_push_prpage : hoare.

Lemma hoare_push_Px (a : RegName) : hoare (push_Px a) (fun _ => True).
Proof. unfold push_Px. hoare_auto. Qed.
#[local] Hint Resolve hoare_push_Px : hoare.

Lemma hoare_push_r6 : hoare (push_r6) (fun _ => True).
Proof. unfold push_r6. hoare_auto. Qed.
#[local] Hint Resolve hoare_push_r6 : hoare.

Lemma hoare_push_repc : hoare (push_repc) (fun _ => True).
Proof. unfold push_repc. hoare_auto. Qed.
#[local] Hint Resolve hoare_push_repc : hoare.

Lemma hoare_push_x0 : hoare (push_x0) (fun _ => True).
Proof. unfold push_x0. hoare_auto. Qed.
#[local] Hint Resolve hoare_push_x0 : hoare.

Lemma hoare_push_x1 : hoare (push_x1) (fun _ => True).
Proof. unfold push_x1. hoare_auto. Qed.
#[local] Hint Resolve hoare_push_x1 : hoare.

Lemma hoare_push_y1 : hoare (push_y1) (fun _ => True).
Proof. unfold push_y1. hoare_auto. Qed.
#[local] Hint Resolve hoare_push_y1 : hoare.

Lemma hoare_pusha (a : RegName) : hoare (pusha a) (fun _ => True).
Proof. unfold pusha. hoare_auto. Qed.
#[local] Hint Resolve hoare_pusha : hoare.

Lemma hoare_pop (a : RegName) : hoare (pop a) (fun _ => True).
Proof. unfold pop. hoare_auto. Qed.
#[local] Hint Resolve hoare_pop : hoare.

Lemma hoare_pop_Abe (a : RegName) : hoare (pop_Abe a) (fun _ => True).
Proof. unfold pop_Abe. hoare_auto. Qed.
#[local] Hint Resolve hoare_pop_Abe : hoare.

Lemma hoare_pop_prpage : hoare (pop_prpage) (fun _ => True).
Proof. unfold pop_prpage. hoare_auto. Qed.
#[local] Hint Resolve hoare_pop_prpage : hoare.

Lemma hoare_pop_Px (a : RegName) : hoare (pop_Px a) (fun _ => True).
Proof. unfold pop_Px. hoare_auto. Qed.
#[local] Hint Resolve hoare_pop_Px : hoare.

Lemma hoare_pop_r6 : hoare (pop_r6) (fun _ => True).
Proof. unfold pop_r6. hoare_auto. Qed.
#[local] Hint Resolve hoare_pop_r6 : hoare.

Lemma hoare_pop_repc : hoare (pop_repc) (fun _ => True).
Proof. unfold pop_repc. hoare_auto. Qed.
#[local] Hint Resolve hoare_pop_repc : hoare.

Lemma hoare_pop_x0 : hoare (pop_x0) (fun _ => True).
Proof. unfold pop_x0. hoare_auto. Qed.
#[local] Hint Resolve hoare_pop_x0 : hoare.

Lemma hoare_pop_x1 : hoare (pop_x1) (fun _ => True).
Proof. unfold pop_x1. hoare_auto. Qed.
#[local] Hint Resolve hoare_pop_x1 : hoare.

Lemma hoare_pop_y1 : hoare (pop_y1) (fun _ => True).
Proof. unfold pop_y1. hoare_auto. Qed.
#[local] Hint Resolve hoare_pop_y1 : hoare.

Lemma hoare_popa (a : RegName) : hoare (popa a) (fun _ => True).
Proof. unfold popa. hoare_auto. Qed.
#[local] Hint Resolve hoare_popa : hoare.

Lemma hoare_Repeat (repc : Z) : hoare (Repeat repc) (fun _ => True).
Proof. unfold Repeat. hoare_auto. Qed.
#[local] Hint Resolve hoare_Repeat : hoare.

Lemma hoare_rep_Imm8 (a : Z) : hoare (rep_Imm8 a) (fun _ => True).
Proof. unfold rep_Imm8. hoare_auto. Qed.
#[local] Hint Resolve hoare_rep_Imm8 : hoare.

Lemma hoare_rep_Register (a : RegName) : hoare (rep_Register a) (fun _ => True).
Proof. unfold rep_Register. hoare_auto. Qed.
#[local] Hint Resolve hoare_rep_Register : hoare.

Lemma hoare_rep_r6 : hoare (rep_r6) (fun _ => True).
Proof. unfold rep_r6. hoare_auto. Qed.
#[local] Hint Resolve hoare_rep_r6 : hoare.

Lemma hoare_shfc (a b : RegName) (cond : Cond) : hoare (shfc a b cond) (fun _ => True).
Proof. unfold shfc. hoare_auto. Qed.
#[local] Hint Resolve hoare_shfc : hoare.

Lemma hoare_shfi (a b : RegName) (s : Z) : hoare (shfi a b s) (fun _ => True).
Proof. unfold shfi. hoare_auto. Qed.
#[local] Hint Resolve hoare_shfi : hoare.

Lemma hoare_tst4b (b bs : Z) : hoare (tst4b b bs) (fun _ => True).
Proof. unfold tst4b. hoare_auto. Qed.
#[local] Hint Resolve hoare_tst4b : hoare.

Lemma hoare_tst4b_Ax (b bs : Z) (c : RegName) : hoare (tst4b_Ax b bs c) (fun _ => True).
Proof. unfold tst4b_Ax. hoare_auto. Qed.
#[local] Hint Resolve hoare_tst4b_Ax : hoare.

Lemma hoare_tstb_MemImm8 (a b : Z) : hoare (tstb_MemImm8 a b) (fun _ => True).
Proof. unfold tstb_MemImm8. hoare_auto. Qed.
#[local] Hint Resolve hoare_tstb_MemImm8 : hoare.

Lemma hoare_tstb_Rn (a : RegName) (as_ : StepValue) (b : Z) :
  hoare (tstb_Rn a as_ b) (fun _ => True).
Proof. unfold tstb_Rn. hoare_auto. Qed.
#[local] Hint Resolve hoare_tstb_Rn : hoare.

Lemma hoare_tstb_Register (a : RegName) (b : Z) : hoare (tstb_Register a b) (fun _ => True).
Proof. unfold tstb_Register. hoare_auto. Qed.
#[local] Hint Resolve hoare_tstb_Register : hoare.

Lemma hoare_tstb_r6 (b : Z) : hoare (tstb_r6 b) (fun _ => True).
Proof. unfold tstb_r6. hoare_auto. Qed.
#[local] Hint Resolve hoare_tstb_r6 : hoare.

Lemma hoare_and_ (a b c : RegName) : hoare (and_ a b c) (fun _ => True).
Proof. unfold and_. hoare_auto. Qed.
#[local] Hint Resolve hoare_and_ : hoare.

Lemma hoare_dint : hoare (dint) (fun _ => True).
Proof. unfold dint. hoare_auto. Qed.
#[local] Hint Resolve hoare_dint : hoare.

Lemma hoare_eint : hoare (eint) (fun _ => True).
Proof. unfold eint. hoare_auto. Qed.
#[local] Hint Resolve hoare_eint : hoare.

Lemma hoare_MulGeneric (op : MulOp) (a : RegName) : hoare (MulGeneric op a) (fun _ => True).
Proof. unfold MulGeneric. hoare_auto. Qed.
#[local] Hint Resolve hoare_MulGeneric : hoare.

Lemma hoare_mul_Rn_Imm16 (op : MulOp) (y : RegName) (ys : StepValue) (x : Z) (a : RegName) :
  hoare (mul_Rn_Imm16 op y ys x a) (fun _ => True).
Proof. unfold mul_Rn_Imm16. hoare_auto. Qed.
#[local] Hint Resolve hoare_mul_Rn_Imm16 : hoare.

Lemma hoare_mul_y0_Rn (op : MulOp) (x : RegName) (xs : StepValue) (a : RegName) :
  hoare (mul_y0_Rn op x xs a) (fun _ => True).
Proof. unfold mul_y0_Rn. hoare_auto. Qed.
#[local] Hint Resolve hoare_mul_y0_Rn : hoare.

Lemma hoare_mul_y0_Register (op : MulOp) (x : RegName) (a : RegName) :
  hoare (mul_y0_Register op x a) (fun _ => True).
Proof. unfold mul_y0_Register. hoare_auto. Qed.
#[local] Hint Resolve hoare_mul_y0_Register : hoare.

Lemma hoare_mul_R45_R0123 (op : MulOp) (y : RegName) (ys : StepValue) (x : RegName) (xs : StepValue) (a : RegName) :
  hoare (mul_R45_R0123 op y ys x xs a) (fun _ => True).
Proof. unfold mul_R45_R0123. hoare_auto. Qed.
#[local] Hint Resolve hoare_mul_R45_R0123 : hoare.

Lemma hoare_mul_y0_r6 (op : MulOp) (a : RegName) : hoare (mul_y0_r6 op a) (fun _ => True).
Proof. unfold mul_y0_r6. hoare_auto. Qed.
#[local] Hint Resolve hoare_mul_y0_r6 : hoare.

Lemma hoare_mul_y0_MemImm8 (op : MulOp) (x : Z) (a : RegName) :
  hoare (mul_y0_MemImm8 op x a) (fun _ => True).
Proof. unfold mul_y0_MemImm8. hoare_auto. Qed.
#[local] Hint Resolve hoare_mul_y0_MemImm8 : hoare.

Lemma hoare_mpyi (x : Z) : hoare (mpyi x) (fun _ => True).
Proof. unfold mpyi. hoare_auto. Qed.
#[local] Hint Resolve hoare_mpyi : hoare.

Lemma hoare_msu_R45_R0123 (y : RegName) (ys : StepValue) (x : RegName) (xs : StepValue) (a : RegName) :
  hoare (msu_R45_R0123 y ys x xs a) (fun _ => True).
Proof. unfold msu_R45_R0123. hoare_auto. Qed.
#[local] Hint Resolve hoare_msu_R45_R0123 : hoare.

Lemma hoare_msu_Rn_Imm16 (y : RegName) (ys : StepValue) (x : Z) (a : RegName) :
  hoare (msu_Rn_Imm16 y ys x a) (fun _ => True).
Proof. unfold msu_Rn_Imm16. hoare_auto. Qed.
#[local] Hint Resolve hoare_msu_Rn_Imm16 : hoare.

Lemma hoare_msusu (x xs : Z) (a : RegName) : hoare (msusu x xs a) (fun _ => True).
Proof. unfold msusu. hoare_auto. Qed.
#[local] Hint Resolve hoare_msusu : hoare.

Lemma hoare_mac_x1to0 (a : RegName) : hoare (mac_x1to0 a) (fun _ => True).
Proof. unfold mac_x1to0. hoare_auto. Qed.
#[local] Hint Resolve hoare_mac_x1to0 : hoare.

Lemma hoare_mac1 (xy xis yjs : Z) (a : RegName) : hoare (mac1 xy xis yjs a) (fun _ => True).
Proof. unfold mac1. hoare_auto. Qed.
#[local] Hint Resolve hoare_mac1 : hoare.

Lemma hoare_modr_ (a : RegName) (as_ : StepValue) (dmod : bool) :
  hoare (modr_ a as_ dmod) (fun _ => True).
Proof. unfold modr_. hoare_auto. Qed.
#[local] Hint Resolve hoare_modr_ : hoare.

Lemma hoare_modr (a : RegName) (as_ : StepValue) : hoare (modr a as_) (fun _ => True).
Proof. unfold modr. hoare_auto. Qed.
#[local] Hint Resolve hoare_modr : hoare.

Lemma hoare_modr_dmod (a : RegName) (as_ : StepValue) :
  hoare (modr_dmod a as_) (fun _ => True).
Proof. unfold modr_dmod. hoare_auto. Qed.
#[local] Hint Resolve hoare_modr_dmod : hoare.

Lemma hoare_modr_i2 (a : RegName) : hoare (modr_i2 a) (fun _ => True).
Proof. unfold modr_i2. hoare_auto. Qed.
#[local] Hint Resolve hoare_modr_i2 : hoare.

Lemma hoare_modr_i2_dmod (a : RegName) : hoare (modr_i2_dmod a) (fun _ => True).
Proof. unfold modr_i2_dmod. hoare_auto. Qed.
#[local] Hint Resolve hoare_modr_i2_dmod : hoare.

Lemma hoare_modr_d2 (a : RegName) : hoare (modr_d2 a) (fun _ => True).
Proof. unfold modr_d2. hoare_auto. Qed.
#[local] Hint Resolve hoare_modr_d2 : hoare.

Lemma hoare_modr_d2_dmod (a : RegName) : hoare (modr_d2_dmod a) (fun _ => True).
Proof. unfold modr_d2_dmod. hoare_auto. Qed.
#[local] Hint Resolve hoare_modr_d2_dmod : hoare.

Lemma hoare_modr_arp (dmodi dmodj : bool) (a asi asj : Z) :
  hoare (modr_arp dmodi dmodj a asi asj) (fun _ => True).
Proof. unfold modr_arp. hoare_auto. Qed.
#[local] Hint Resolve hoare_modr_arp : hoare.

Lemma hoare_movd (a : RegName) (as_ : StepValue) (b : RegName) (bs : StepValue) :
  hoare (movd a as_ b bs) (fun _ => True).
Proof. unfold movd. hoare_auto. Qed.
#[local] Hint Resolve hoare_movd : hoare.

Lemma hoare_movp_Axl (a b : RegName) : hoare (movp_Axl a b) (fun _ => True).
Proof. unfold movp_Axl. hoare_auto. Qed.
#[local] Hint Resolve hoare_movp_Axl : hoare.

Lemma hoare_movp_Ax (a b : RegName) : hoare (movp_Ax a b) (fun _ => True).
Proof. unfold movp_Ax. hoare_auto. Qed.
#[local] Hint Resolve hoare_movp_Ax : hoare.

Lemma hoare_movp_Rn (a : RegName) (as_ : StepValue) (b : RegName) (bs : StepValue) :
  hoare (movp_Rn a as_ b bs) (fun _ => True).
Proof. unfold movp_Rn. hoare_auto. Qed.
#[local] Hint Resolve hoare_movp_Rn : hoare.

Lemma hoare_movpdw (a : RegName) : hoare (movpdw a) (fun _ => True).
Proof. unfold movpdw. hoare_auto. Qed.
#[local] Hint Resolve hoare_movpdw : hoare.

Lemma hoare_mov_Ab_Ab (a b : RegName) : hoare (mov_Ab_Ab a b) (fun _ => True).
Proof. unfold mov_Ab_Ab. hoare_auto. Qed.
#[local] Hint Resolve hoare_mov_Ab_Ab : hoare.

Lemma hoare_mov_dvm (a : RegName) : hoare (mov_dvm a) (fun _ => True).
Proof. unfold mov_dvm. hoare_auto. Qed.
#[local] Hint Resolve hoare_mov_dvm : hoare.

Lemma hoare_mov_x0 (a : RegName) : hoare (mov_x0 a) (fun _ => True).
Proof. unfold mov_x0. hoare_auto. Qed.
#[local] Hint Resolve hoare_mov_x0 : hoare.

Lemma hoare_mov_x1 (a : RegName) : hoare (mov_x1 a) (fun _ => True).
Proof. unfold mov_x1. hoare_auto. Qed.
#[local] Hint Resolve hoare_mov_x1 : hoare.

Lemma hoare_mov_y1 (a : RegName) : hoare (mov_y1 a) (fun _ => True).
Proof. unfold mov_y1. hoare_auto. Qed.
#[local] Hint Resolve hoare_mov_y1 : hoare.

Lemma hoare_mov_Ablh_MemImm8 (a : RegName) (b : Z) :
  hoare (mov_Ablh_MemImm8 a b) (fun _ => True).
Proof. unfold mov_Ablh_MemImm8. hoare_auto. Qed.
#[local] Hint Resolve hoare_mov_Ablh_MemImm8 : hoare.

Lemma hoare_mov_Axl_MemImm16 (a : RegName) (b : Z) :
  hoare (mov_Axl_MemImm16 a b) (fun _ => True).
Proof. unfold mov_Axl_MemImm16. hoare_auto. Qed.
#[local] Hint Resolve hoare_mov_Axl_MemImm16 : hoare.

Lemma hoare_mov_Axl_MemR7Imm16 (a : RegName) (b : Z) :
  hoare (mov_Axl_MemR7Imm16 a b) (fun _ => True).
Proof. unfold mov_Axl_MemR7Imm16. hoare_auto. Qed.
#[local] Hint Resolve hoare_mov_Axl_MemR7Imm16 : hoare.

Lemma hoare_mov_Axl_MemR7Imm7s (a : RegName) (b : Z) :
  hoare (mov_Axl_MemR7Imm7s a b) (fun _ => True).
Proof. unfold mov_Axl_MemR7Imm7s. hoare_auto. Qed.
#[local] Hint Resolve hoare_mov_Axl_MemR7Imm7s : hoare.

Lemma hoare_mov_MemImm16_Ax (a : Z) (b : RegName) :
  hoare (mov_MemImm16_Ax a b) (fun _ => True).
Proof. unfold mov_MemImm16_Ax. hoare_auto. Qed.
#[local] Hint Resolve hoare_mov_MemImm16_Ax : hoare.

Lemma hoare_mov_MemImm8 (a : Z) (b : RegName) : hoare (mov_MemImm8 a b) (fun _ => True).
Proof. unfold mov_MemImm8. hoare_auto. Qed.
#[local] Hint Resolve hoare_mov_MemImm8 : hoare.

Lemma hoare_mov_eu (a : Z) (b : RegName) : hoare (mov_eu a b) (fun _ => True).
Proof. unfold mov_eu. hoare_auto. Qed.
#[local] Hint Resolve hoare_mov_eu : hoare.

Lemma hoare_mov_sv_MemImm8 (a : Z) : hoare (mov_sv_MemImm8 a) (fun _ => True).
Proof. unfold mov_sv_MemImm8. hoare_auto. Qed.
#[local] Hint Resolve hoare_mov_sv_MemImm8 : hoare.

Lemma hoare_mov_dvm_to (b : RegName) : hoare (mov_dvm_to b) (fun _ => True).
Proof. unfold mov_dvm_to. hoare_auto. Qed.
#[local] Hint Resolve hoare_mov_dvm_to : hoare.

Lemma hoare_mov_icr_to (b : RegName) : hoare (mov_icr_to b) (fun _ => True).
Proof. unfold mov_icr_to. hoare_auto. Qed.
#[local] Hint Resolve hoare_mov_icr_to : hoare.

Lemma hoare_mov_Imm (a : Z) (b : RegName) : hoare (mov_Imm a b) (fun _ => True).
Proof. unfold mov_Imm. hoare_auto. Qed.
#[local] Hint Resolve hoare_mov_Imm : hoare.

Lemma hoare_mov_icr_Imm5 (a : Z) : hoare (mov_icr_Imm5 a) (fun _ => True).
Proof. unfold mov_icr_Imm5. hoare_auto. Qed.
#[local] Hint Resolve hoare_mov_icr_Imm5 : hoare.

Lemma hoare_mov_Imm8s (a : Z) (b : RegName) : hoare (mov_Imm8s a b) (fun _ => True).
Proof. unfold mov_Imm8s. hoare_auto. Qed.
#[local] Hint Resolve hoare_mov_Imm8s : hoare.

Lemma hoare_mov_sv_Imm8s (a : Z) : hoare (mov_sv_Imm8s a) (fun _ => True).
Proof. unfold mov_sv_Imm8s. hoare_auto. Qed.
#[local] Hint Resolve hoare_mov_sv_Imm8s : hoare.

Lemma hoare_mov_MemR7Imm16_Ax (a : Z) (b : RegName) :
  hoare (mov_MemR7Imm16_Ax a b) (fun _ => True).
Proof. unfold mov_MemR7Imm16_Ax. hoare_auto. Qed.
#[local] Hint Resolve hoare_mov_MemR7Imm16_Ax : hoare.

Lemma hoare_mov_MemR7Imm7s_Ax (a : Z) (b : RegName) :
  hoare (mov_MemR7Imm7s_Ax a b) (fun _ => True).
Proof. unfold mov_MemR7Imm7s_Ax. hoare_auto. Qed.
#[local] Hint Resolve hoare_mov_MemR7Imm7s_Ax : hoare.

Lemma hoare_mov_Rn (a : RegName) (as_ : StepValue) (b : RegName) :
  hoare (mov_Rn a as_ b) (fun _ => True).
Proof. unfold mov_Rn. hoare_auto. Qed.
#[local] Hint Resolve hoare_mov_Rn : hoare.

Lemma hoare_mov_memsp_to (b : RegName) : hoare (mov_memsp_to b) (fun _ => True).
Proof. unfold mov_memsp_to. hoare_auto. Qed.
#[local] Hint Resolve hoare_mov_memsp_to : hoare.

Lemma hoare_mov_mixp_to (b : RegName) : hoare (mov_mixp_to b) (fun _ => True).
Proof. unfold mov_mixp_to. hoare_auto. Qed.
#[local] Hint Resolve hoare_mov_mixp_to : hoare.

Lemma hoare_mov_RnOld_MemImm8 (a : RegName) (b : Z) :
  hoare (mov_RnOld_MemImm8 a b) (fun _ => True).
Proof. unfold mov_RnOld_MemImm8. hoare_auto. Qed.
#[local] Hint Resolve hoare_mov_RnOld_MemImm8 : hoare.

Lemma hoare_mov_icr_Register (a : RegName) : hoare (mov_icr_Register a) (fun _ => True).
Proof. unfold mov_icr_Register. hoare_auto. Qed.
#[local] Hint Resolve hoare_mov_icr_Register : hoare.

Lemma hoare_mov_mixp (a : RegName) : hoare (mov_mixp a) (fun _ => True).
Proof. unfold mov_mixp. hoare_auto. Qed.
#[local] Hint Resolve hoare_mov_mixp : hoare.

Lemma hoare_mov_Register_Rn (a b : RegName) (bs : StepValue) :
  hoare (mov_Register_Rn a b bs) (fun _ => True).
Proof. unfold mov_Register_Rn. hoare_auto. Qed.
#[local] Hint Resolve hoare_mov_Register_Rn : hoare.

Lemma hoare_mov_Register_Bx (a b : RegName) : hoare (mov_Register_Bx a b) (fun _ => True).
Proof. unfold mov_Register_Bx. hoare_auto. Qed.
#[local] Hint Resolve hoare_mov_Register_Bx : hoare.

Lemma hoare_mov_Register_Register (a b : RegName) (b_storage : Z) :
  hoare (mov_Register_Register a b b_storage) (fun _ => True).
Proof. unfold mov_Register_Register. hoare_auto. Qed.
#[local] Hint Resolve hoare_mov_Register_Register : hoare.

Lemma hoare_mov_repc_to (b : RegName) : hoare (mov_repc_to b) (fun _ => True).
Proof. unfold mov_repc_to. hoare_auto. Qed.
#[local] Hint Resolve hoare_mov_repc_to : hoare.

Lemma hoare_mov_sv_to (b : Z) : hoare (mov_sv_to b) (fun _ => True).
Proof. unfold mov_sv_to. hoare_auto. Qed.
#[local] Hint Resolve hoare_mov_sv_to : hoare.

Lemma hoare_mov_x0_to (b : RegName) : hoare (mov_x0_to b) (fun _ => True).
Proof. unfold mov_x0_to. hoare_auto. Qed.
#[local] Hint Resolve hoare_mov_x0_to : hoare.

Lemma hoare_mov_x1_to (b : RegName) : hoare (mov_x1_to b) (fun _ => True).
Proof. unfold mov_x1_to. hoare_auto. Qed.
#[local] Hint Resolve hoare_mov_x1_to : hoare.

Lemma hoare_mov_y1_to (b : RegName) : hoare (mov_y1_to b) (fun _ => True).
Proof. unfold mov_y1_to. hoare_auto. Qed.
#[local] Hint Resolve hoare_mov_y1_to : hoare.

Lemma hoare_mov_r6_Imm16 (a : Z) : hoare (mov_r6_Imm16 a) (fun _ => True).
Proof. unfold mov_r6_Imm16. hoare_auto. Qed.
#[local] Hint Resolve hoare_mov_r6_Imm16 : hoare.

Lemma hoare_mov_repc_Imm16 (a : Z) : hoare (mov_repc_Imm16 a) (fun _ => True).
Proof. unfold mov_repc_Imm16. hoare_auto. Qed.
#[local] Hint Resolve hoare_mov_repc_Imm16 : hoare.

Lemma hoare_mov_stepi0 (a : Z) : hoare (mov_stepi0 a) (fun _ => True).
Proof. unfold mov_stepi0. hoare_auto. Qed.
#[local] Hint Resolve hoare_mov_stepi0 : hoare.

Lemma hoare_mov_stepj0 (a : Z) : hoare (mov_stepj0 a) (fun _ => True).
Proof. unfold mov_stepj0. hoare_auto. Qed.
#[local] Hint Resolve hoare_mov_stepj0 : hoare.

Lemma hoare_mov_prpage_Imm4 (a : Z) : hoare (mov_prpage_Imm4 a) (fun _ => True).
Proof. unfold mov_prpage_Imm4. hoare_auto. Qed.
#[local] Hint Resolve hoare_mov_prpage_Imm4 : hoare.

Lemma hoare_mov_a0h_stepi0 : hoare (mov_a0h_stepi0) (fun _ => True).
Proof. unfold mov_a0h_stepi0. hoare_auto. Qed.
#[local] Hint Resolve hoare_mov_a0h_stepi0 : hoare.

Lemma hoare_mov_a0h_stepj0 : hoare (mov_a0h_stepj0) (fun _ => True).
Proof. unfold mov_a0h_stepj0. hoare_auto. Qed.
#[local] Hint Resolve hoare_mov_a0h_stepj0 : hoare.

Lemma hoare_mov_stepi0_a0h : hoare (mov_stepi0_a0h) (fun _ => True).
Proof. unfold mov_stepi0_a0h. hoare_auto. Qed.
#[local] Hint Resolve hoare_mov_stepi0_a0h : hoare.

Lemma hoare_mov_stepj0_a0h : hoare (mov_stepj0_a0h) (fun _ => True).
Proof. unfold mov_stepj0_a0h. hoare_auto. Qed.
#[local] Hint Resolve hoare_mov_stepj0_a0h : hoare.

Lemma hoare_mov_prpage_Abl (a : RegName) : hoare (mov_prpage_Abl a) (fun _ => True).
Proof. unfold mov_prpage_Abl. hoare_auto. Qed.
#[local] Hint Resolve hoare_mov_prpage_Abl : hoare.

Lemma hoare_mov_repc_Abl (a : RegName) : hoare (mov_repc_Abl a) (fun _ => True).
Proof. unfold mov_repc_Abl. hoare_auto. Qed.
#[local] Hint Resolve hoare_mov_repc_Abl : hoare.

Lemma hoare_mov_Abl (a b : RegName) : hoare (mov_Abl a b) (fun _ => True).
Proof. unfold mov_Abl. hoare_auto. Qed.
#[local] Hint Resolve hoare_mov_Abl : hoare.

Lemma hoare_mov_prpage_to (b : RegName) : hoare (mov_prpage_to b) (fun _ => True).
Proof. unfold mov_prpage_to. hoare_auto. Qed.
#[local] Hint Resolve hoare_mov_prpage_to : hoare.

Lemma hoare_mov_to_Abl (a b : RegName) : hoare (mov_to_Abl a b) (fun _ => True).
Proof. unfold mov_to_Abl. hoare_auto. Qed.
#[local] Hint Resolve hoare_mov_to_Abl : hoare.

Lemma hoare_mov_repc_to_ArRn1 (b bs : Z) : hoare (mov_repc_to_ArRn1 b bs) (fun _ => True).
Proof. unfold mov_repc_to_ArRn1. hoare_auto. Qed.
#[local] Hint Resolve hoare_mov_repc_to_ArRn1 : hoare.

Lemma hoare_mov_to_ArRn1 (a : RegName) (b bs : Z) :
  hoare (mov_to_ArRn1 a b bs) (fun _ => True).
Proof. unfold mov_to_ArRn1. hoare_auto. Qed.
#[local] Hint Resolve hoare_mov_to_ArRn1 : hoare.

Lemma hoare_mov_repc_ArRn1 (a as_ : Z) : hoare (mov_repc_ArRn1 a as_) (fun _ => True).
Proof. unfold mov_repc_ArRn1. hoare_auto. Qed.
#[local] Hint Resolve hoare_mov_repc_ArRn1 : hoare.

Lemma hoare_mov_ArRn1 (a as_ : Z) (b : RegName) : hoare (mov_ArRn1 a as_ b) (fun _ => True).
Proof. unfold mov_ArRn1. hoare_auto. Qed.
#[local] Hint Resolve hoare_mov_ArRn1 : hoare.

Lemma hoare_mov_repc_to_MemR7Imm16 (b : Z) : hoare (mov_repc_to_MemR7Imm16 b) (fun _ => True).
Proof. unfold mov_repc_to_MemR7Imm16. hoare_auto. Qed.
#[local] Hint Resolve hoare_mov_repc_to_MemR7Imm16 : hoare.

Lemma hoare_mov_ArArpSttMod_MemR7Imm16 (a : RegName) (b : Z) :
  hoare (mov_ArArpSttMod_MemR7Imm16 a b) (fun _ => True).
Proof. unfold mov_ArArpSttMod_MemR7Imm16. hoare_auto. Qed.
#[local] Hint Resolve hoare_mov_ArArpSttMod_MemR7Imm16 : hoare.

Lemma hoare_mov_repc_MemR7Imm16 (a : Z) : hoare (mov_repc_MemR7Imm16 a) (fun _ => True).
Proof. unfold mov_repc_MemR7Imm16. hoare_auto. Qed.
#[local] Hint Resolve hoare_mov_repc_MemR7Imm16 : hoare.

Lemma hoare_mov_MemR7Imm16_ArArpSttMod (a : Z) (b : RegName) :
  hoare (mov_MemR7Imm16_ArArpSttMod a b) (fun _ => True).
Proof. unfold mov_MemR7Imm16_ArArpSttMod. hoare_auto. Qed.
#[local] Hint Resolve hoare_mov_MemR7Imm16_ArArpSttMod : hoare.

Lemma hoare_mov_pc (a : RegName) : hoare (mov_pc a) (fun _ => True).
Proof. unfold mov_pc. hoare_auto. Qed.
#[local] Hint Resolve hoare_mov_pc : hoare.

Lemma hoare_mov_mixp_r6 : hoare (mov_mixp_r6) (fun _ => True).
Proof. unfold mov_mixp_r6. hoare_auto. Qed.
#[local] Hint Resolve hoare_mov_mixp_r6 : hoare.

Lemma hoare_mov_p0h_to (b : RegName) : hoare (mov_p0h_to b) (fun _ => True).
Proof. unfold mov_p0h_to. hoare_auto. Qed.
#[local] Hint Resolve hoare_mov_p0h_to : hoare.

Lemma hoare_mov_p0h_r6 : hoare (mov_p0h_r6) (fun _ => True).
Proof. unfold mov_p0h_r6. hoare_auto. Qed.
#[local] Hint Resolve hoare_mov_p0h_r6 : hoare.

Lemma hoare_mov_p0 (a : RegName) : hoare (mov_p0 a) (fun _ => True).
Proof. unfold mov_p0. hoare_auto. Qed.
#[local] Hint Resolve hoare_mov_p0 : hoare.

Lemma hoare_mov_p1_to (b : RegName) : hoare (mov_p1_to b) (fun _ => True).
Proof. unfold mov_p1_to. hoare_auto. Qed.
#[local] Hint Resolve hoare_mov_p1_to : hoare.

Lemma hoare_mov2_Px (a : RegName) (b bs : Z) : hoare (mov2_Px a b bs) (fun _ => True).
Proof. unfold mov2_Px. hoare_auto. Qed.
#[local] Hint Resolve hoare_mov2_Px : hoare.

Lemma hoare_mov2s (a : RegName) (b bs : Z) : hoare (mov2s a b bs) (fun _ => True).
Proof. unfold mov2s. hoare_auto. Qed.
#[local] Hint Resolve hoare_mov2s : hoare.

Lemma hoare_mov2_to_Px (a as_ : Z) (b : RegName) : hoare (mov2_to_Px a as_ b) (fun _ => True).
Proof. unfold mov2_to_Px. hoare_auto. Qed.
#[local] Hint Resolve hoare_mov2_to_Px : hoare.

Lemma hoare_mova_Ab (a : RegName) (b bs : Z) : hoare (mova_Ab a b bs) (fun _ => True).
Proof. unfold mova_Ab. hoare_auto. Qed.
#[local] Hint Resolve hoare_mova_Ab : hoare.

Lemma hoare_mova_to_Ab (a as_ : Z) (b : RegName) : hoare (mova_to_Ab a as_ b) (fun _ => True).
Proof. unfold mova_to_Ab. hoare_auto. Qed.
#[local] Hint Resolve hoare_mova_to_Ab : hoare.

Lemma hoare_mov_r6_to (b : RegName) : hoare (mov_r6_to b) (fun _ => True).
Proof. unfold mov_r6_to. hoare_auto. Qed.
#[local] Hint Resolve hoare_mov_r6_to : hoare.

Lemma hoare_mov_r6_mixp : hoare (mov_r6_mixp) (fun _ => True).
Proof. unfold mov_r6_mixp. hoare_auto. Qed.
#[local] Hint Resolve hoare_mov_r6_mixp : hoare.

Lemma hoare_mov_r6_Register (a : RegName) : hoare (mov_r6_Register a) (fun _ => True).
Proof. unfold mov_r6_Register. hoare_auto. Qed.
#[local] Hint Resolve hoare_mov_r6_Register : hoare.

Lemma hoare_mov_memsp_r6 : hoare (mov_memsp_r6) (fun _ => True).
Proof. unfold mov_memsp_r6. hoare_auto. Qed.
#[local] Hint Resolve hoare_mov_memsp_r6 : hoare.

Lemma hoare_mov_r6_to_Rn (b : RegName) (bs : StepValue) :
  hoare (mov_r6_to_Rn b bs) (fun _ => True).
Proof. unfold mov_r6_to_Rn. hoare_auto. Qed.
#[local] Hint Resolve hoare_mov_r6_to_Rn : hoare.

Lemma hoare_mov_r6_Rn (a : RegName) (as_ : StepValue) :
  hoare (mov_r6_Rn a as_) (fun _ => True).
Proof. unfold mov_r6_Rn. hoare_auto. Qed.
#[local] Hint Resolve hoare_mov_r6_Rn : hoare.

Lemma hoare_mov2_axh_m_y0_m (a : RegName) (b bs : Z) :
  hoare (mov2_axh_m_y0_m a b bs) (fun _ => True).
Proof. unfold mov2_axh_m_y0_m. hoare_auto. Qed.
#[local] Hint Resolve hoare_mov2_axh_m_y0_m : hoare.

Lemma hoare_mov2_ax_mij (a : RegName) (b bsi bsj : Z) :
  hoare (mov2_ax_mij a b bsi bsj) (fun _ => True).
Proof. unfold mov2_ax_mij. hoare_auto. Qed.
#[local] Hint Resolve hoare_mov2_ax_mij : hoare.

Lemma hoare_mov2_ax_mji (a : RegName) (b bsi bsj : Z) :
  hoare (mov2_ax_mji a b bsi bsj) (fun _ => True).
Proof. unfold mov2_ax_mji. hoare_auto. Qed.
#[local] Hint Resolve hoare_mov2_ax_mji : hoare.

Lemma hoare_mov2_mij_ax (a asi asj : Z) (b : RegName) :
  hoare (mov2_mij_ax a asi asj b) (fun _ => True).
Proof. unfold mov2_mij_ax. hoare_auto. Qed.
#[local] Hint Resolve hoare_mov2_mij_ax : hoare.

Lemma hoare_mov2_mji_ax (a asi asj : Z) (b : RegName) :
  hoare (mov2_mji_ax a asi asj b) (fun _ => True).
Proof. unfold mov2_mji_ax. hoare_auto. Qed.
#[local] Hint Resolve hoare_mov2_mji_ax : hoare.

Lemma hoare_mov2_abh_m (ax ay : RegName) (b bs : Z) :
  hoare (mov2_abh_m ax ay b bs) (fun _ => True).
Proof. unfold mov2_abh_m. hoare_auto. Qed.
#[local] Hint Resolve hoare_mov2_abh_m : hoare.

Lemma hoare_exchange (to_j rnd : bool) (a : RegName) (b bsi bsj : Z) :
  hoare (exchange to_j rnd a b bsi bsj) (fun _ => True).
Proof. unfold exchange. hoare_auto. Qed.
#[local] Hint Resolve hoare_exchange : hoare.

Lemma hoare_movs_MemImm8 (a : Z) (b : RegName) : hoare (movs_MemImm8 a b) (fun _ => True).
Proof. unfold movs_MemImm8. hoare_auto. Qed.
#[local] Hint Resolve hoare_movs_MemImm8 : hoare.

Lemma hoare_movs_Rn (a : RegName) (as_ : StepValue) (b : RegName) :
  hoare (movs_Rn a as_ b) (fun _ => True).
Proof. unfold movs_Rn. hoare_auto. Qed.
#[local] Hint Resolve hoare_movs_Rn : hoare.

Lemma hoare_movs_Register (a b : RegName) : hoare (movs_Register a b) (fun _ => True).
Proof. unfold movs_Register. hoare_auto. Qed.
#[local] Hint Resolve hoare_movs_Register : hoare.

Lemma hoare_movs_r6_to (b : RegName) : hoare (movs_r6_to b) (fun _ => True).
Proof. unfold movs_r6_to. hoare_auto. Qed.
#[local] Hint Resolve hoare_movs_r6_to : hoare.

Lemma hoare_movsi (a b : RegName) (s : Z) : hoare (movsi a b s) (fun _ => True).
Proof. unfold movsi. hoare_auto. Qed.
#[local] Hint Resolve hoare_movsi : hoare.

Lemma hoare_movr_ArRn2 (a as_ : Z) (b : RegName) : hoare (movr_ArRn2 a as_ b) (fun _ => True).
Proof. unfold movr_ArRn2. hoare_auto. Qed.
#[local] Hint Resolve hoare_movr_ArRn2 : hoare.

Lemma hoare_round16 (value16 : Z) : hoare (round16 value16) (fun _ => True).
Proof. unfold round16. hoare_auto. Qed.
#[local] Hint Resolve hoare_round16 : hoare.

Lemma hoare_movr_Rn (a : RegName) (as_ : StepValue) (b : RegName) :
  hoare (movr_Rn a as_ b) (fun _ => True).
Proof. unfold movr_Rn. hoare_auto. Qed.
#[local] Hint Resolve hoare_movr_Rn : hoare.

Lemma hoare_movr_Register (a b : RegName) : hoare (movr_Register a b) (fun _ => True).
Proof. unfold movr_Register. hoare_auto. Qed.
#[local] Hint Resolve hoare_movr_Register : hoare.

Lemma hoare_movr_Bx (a b : RegName) : hoare (movr_Bx a b) (fun _ => True).
Proof. unfold movr_Bx. hoare_auto. Qed.
#[local] Hint Resolve hoare_movr_Bx : hoare.

Lemma hoare_movr_r6_to (b : RegName) : hoare (movr_r6_to b) (fun _ => True).
Proof. unfold movr_r6_to. hoare_auto. Qed.
#[local] Hint Resolve hoare_movr_r6_to : hoare.

Lemma hoare_ExpStore (b : RegName) : hoare (ExpStore b) (fun _ => True).
Proof. unfold ExpStore. hoare_auto. Qed.
#[local] Hint Resolve hoare_ExpStore : hoare.

Lemma hoare_exp_Bx (a : RegName) : hoare (exp_Bx a) (fun _ => True).
Proof. unfold exp_Bx. hoare_auto. Qed.
#[local] Hint Resolve hoare_exp_Bx : hoare.

Lemma hoare_exp_Bx_Ax (a b : RegName) : hoare (exp_Bx_Ax a b) (fun _ => True).
Proof. unfold exp_Bx_Ax. hoare_auto. Qed.
#[local] Hint Resolve hoare_exp_Bx_Ax : hoare.

Lemma hoare_exp_Rn (a : RegName) (as_ : StepValue) : hoare (exp_Rn a as_) (fun _ => True).
Proof. unfold exp_Rn. hoare_auto. Qed.
#[local] Hint Resolve hoare_exp_Rn : hoare.

Lemma hoare_exp_Rn_Ax (a : RegName) (as_ : StepValue) (b : RegName) :
  hoare (exp_Rn_Ax a as_ b) (fun _ => True).
Proof. unfold exp_Rn_Ax. hoare_auto. Qed.
#[local] Hint Resolve hoare_exp_Rn_Ax : hoare.

Lemma hoare_exp_Register (a : RegName) : hoare (exp_Register a) (fun _ => True).
Proof. unfold exp_Register. hoare_auto. Qed.
#[local] Hint Resolve hoare_exp_Register : hoare.

Lemma hoare_exp_Register_Ax (a b : RegName) : hoare (exp_Register_Ax a b) (fun _ => True).
Proof. unfold exp_Register_Ax. hoare_auto. Qed.
#[local] Hint Resolve hoare_exp_Register_Ax : hoare.

Lemma hoare_exp_r6 : hoare (exp_r6) (fun _ => True).
Proof. unfold exp_r6. hoare_auto. Qed.
#[local] Hint Resolve hoare_exp_r6 : hoare.

Lemma hoare_exp_r6_Ax (b : RegName) : hoare (exp_r6_Ax b) (fun _ => True).
Proof. unfold exp_r6_Ax. hoare_auto. Qed.
#[local] Hint Resolve hoare_exp_r6_Ax : hoare.

Lemma hoare_lim (a b : RegName) : hoare (lim a b) (fun _ => True).
Proof. unfold lim. hoare_auto. Qed.
#[local] Hint Resolve hoare_lim : hoare.

Lemma hoare_vtrclr0 : hoare (vtrclr0) (fun _ => True).
Proof. unfold vtrclr0. hoare_auto. Qed.
#[local] Hint Resolve hoare_vtrclr0 : hoare.

Lemma hoare_vtrclr1 : hoare (vtrclr1) (fun _ => True).
Proof. unfold vtrclr1. hoare_auto. Qed.
#[local] Hint Resolve hoare_vtrclr1 : hoare.

Lemma hoare_vtrclr : hoare (vtrclr) (fun _ => True).
Proof. unfold vtrclr. hoare_auto. Qed.
#[local] Hint Resolve hoare_vtrclr : hoare.

Lemma hoare_vtrmov0 (a : RegName) : hoare (vtrmov0 a) (fun _ => True).
Proof. unfold vtrmov0. hoare_auto. Qed.
#[local] Hint Resolve hoare_vtrmov0 : hoare.

Lemma hoare_vtrmov1 (a : RegName) : hoare (vtrmov1 a) (fun _ => True).
Proof. unfold vtrmov1. hoare_auto. Qed.
#[local] Hint Resolve hoare_vtrmov1 : hoare.

Lemma hoare_vtrmov (a : RegName) : hoare (vtrmov a) (fun _ => True).
Proof. unfold vtrmov. hoare_auto. Qed.
#[local] Hint Resolve hoare_vtrmov : hoare.

Lemma hoare_vtrshr : hoare (vtrshr) (fun _ => True).
Proof. unfold vtrshr. hoare_auto. Qed.
#[local] Hint Resolve hoare_vtrshr : hoare.

Lemma hoare_clrp0 : hoare (clrp0) (fun _ => True).
Proof. unfold clrp0. hoare_auto. Qed.
#[local] Hint Resolve hoare_clrp0 : hoare.

Lemma hoare_clrp1 : hoare (clrp1) (fun _ => True).
Proof. unfold clrp1. hoare_auto. Qed.
#[local] Hint Resolve hoare_clrp1 : hoare.

Lemma hoare_clrp : hoare (clrp) (fun _ => True).
Proof. unfold clrp. hoare_auto. Qed.
#[local] Hint Resolve hoare_clrp : hoare.

Lemma hoare_CounterAcc (name : RegName) : hoare (CounterAcc name) (fun _ => True).
Proof. unfold CounterAcc. hoare_auto. Qed.
#[local] Hint Resolve hoare_CounterAcc : hoare.

Lemma hoare_max_min (test : Z -> bool) (a : RegName) (bs : StepValue) :
  hoare (max_min test a bs) (fun _ => True).
Proof. unfold max_min. hoare_auto. Qed.
#[local] Hint Resolve hoare_max_min : hoare.

Lemma hoare_max_min_r0 (test : Z -> bool) (a : RegName) (bs : StepValue) :
  hoare (max_min_r0 test a bs) (fun _ => True).
Proof. unfold max_min_r0. hoare_auto. Qed.
#[local] Hint Resolve hoare_max_min_r0 : hoare.

Lemma hoare_divs (a : Z) (b : RegName) : hoare (divs a b) (fun _ => True).
Proof. unfold divs. hoare_auto. Qed.
#[local] Hint Resolve hoare_divs : hoare.

Lemma hoare_sqr_sqr_add3_Ab (a b : RegName) : hoare (sqr_sqr_add3_Ab a b) (fun _ => True).
Proof. unfold sqr_sqr_add3_Ab. hoare_auto. Qed.
#[local] Hint Resolve hoare_sqr_sqr_add3_Ab : hoare.

Lemma hoare_sqr_sqr_add3_ArRn2 (a as_ : Z) (b : RegName) :
  hoare (sqr_sqr_add3_ArRn2 a as_ b) (fun _ => True).
Proof. unfold sqr_sqr_add3_ArRn2. hoare_auto. Qed.
#[local] Hint Resolve hoare_sqr_sqr_add3_ArRn2 : hoare.

Lemma hoare_sqr_mpysu_add3a (a b : RegName) : hoare (sqr_mpysu_add3a a b) (fun _ => True).
Proof. unfold sqr_mpysu_add3a. hoare_auto. Qed.
#[local] Hint Resolve hoare_sqr_mpysu_add3a : hoare.

Lemma hoare_cmp (a b : RegName) : hoare (cmp a b) (fun _ => True).
Proof. unfold cmp. hoare_auto. Qed.
#[local] Hint Resolve hoare_cmp : hoare.

Lemma hoare_cmp_b0_b1 : hoare (cmp_b0_b1) (fun _ => True).
Proof. unfold cmp_b0_b1. hoare_auto. Qed.
#[local] Hint Resolve hoare_cmp_b0_b1 : hoare.

Lemma hoare_cmp_b1_b0 : hoare (cmp_b1_b0) (fun _ => True).
Proof. unfold cmp_b1_b0. hoare_auto. Qed.
#[local] Hint Resolve hoare_cmp_b1_b0 : hoare.

Lemma hoare_cmp_p1_to (b : RegName) : hoare (cmp_p1_to b) (fun _ => True).
Proof. unfold cmp_p1_to. hoare_auto. Qed.
#[local] Hint Resolve hoare_cmp_p1_to : hoare.

Lemma hoare_MinMaxVtr (a b : RegName) (min : bool) : hoare (MinMaxVtr a b min) (fun _ => True).
Proof. unfold MinMaxVtr. hoare_auto. Qed.
#[local] Hint Resolve hoare_MinMaxVtr : hoare.

Lemma hoare_max2_vtr (a : RegName) : hoare (max2_vtr a) (fun _ => True).
Proof. unfold max2_vtr. hoare_auto. Qed.
#[local] Hint Resolve hoare_max2_vtr : hoare.

Lemma hoare_min2_vtr (a : RegName) : hoare (min2_vtr a) (fun _ => True).
Proof. unfold min2_vtr. hoare_auto. Qed.
#[local] Hint Resolve hoare_min2_vtr : hoare.

Lemma hoare_max2_vtr_Ax_Bx (a b : RegName) : hoare (max2_vtr_Ax_Bx a b) (fun _ => True).
Proof. unfold max2_vtr_Ax_Bx. hoare_auto. Qed.
#[local] Hint Resolve hoare_max2_vtr_Ax_Bx : hoare.

Lemma hoare_min2_vtr_Ax_Bx (a b : RegName) : hoare (min2_vtr_Ax_Bx a b) (fun _ => True).
Proof. unfold min2_vtr_Ax_Bx. hoare_auto. Qed.
#[local] Hint Resolve hoare_min2_vtr_Ax_Bx : hoare.

Lemma hoare_minmax2_vtr_mov (min high : bool) (a b : RegName) (c cs : Z) :
  hoare (minmax2_vtr_mov min high a b c cs) (fun _ => True).
Proof. unfold minmax2_vtr_mov. hoare_auto. Qed.
#[local] Hint Resolve hoare_minmax2_vtr_mov : hoare.

Lemma hoare_minmax2_vtr_movij (min ij : bool) (a b : RegName) (c csi csj : Z) :
  hoare (minmax2_vtr_movij min ij a b c csi csj) (fun _ => True).
Proof. unfold minmax2_vtr_movij. hoare_auto. Qed.
#[local] Hint Resolve hoare_minmax2_vtr_movij : hoare.

Lemma hoare_mov_sv_sum (alt : bool) (base : SumBase) (p1 : ProductSumConfig) (a as_ : Z) (b : RegName) :
  hoare (mov_sv_sum alt base p1 a as_ b) (fun _ => True).
Proof. unfold mov_sv_sum. hoare_auto. Qed.
#[local] Hint Resolve hoare_mov_sv_sum : hoare.

Lemma hoare_Cbs (u v r : Z) (c : CbsCondValue) : hoare (Cbs u v r c) (fun _ => True).
Proof. unfold Cbs. hoare_auto. Qed.
#[local] Hint Resolve hoare_Cbs : hoare.

Lemma hoare_cbs_Axh (a : RegName) (c : CbsCondValue) : hoare (cbs_Axh a c) (fun _ => True).
Proof. unfold cbs_Axh. hoare_auto. Qed.
#[local] Hint Resolve hoare_cbs_Axh : hoare.

Lemma hoare_cbs_Axh_Bxh (a b : RegName) (c : CbsCondValue) :
  hoare (cbs_Axh_Bxh a b c) (fun _ => True).
Proof. unfold cbs_Axh_Bxh. hoare_auto. Qed.
#[local] Hint Resolve hoare_cbs_Axh_Bxh : hoare.

Lemma hoare_cbs_ArpRn1 (a asi asj : Z) (c : CbsCondValue) :
  hoare (cbs_ArpRn1 a asi asj c) (fun _ => True).
Proof. unfold cbs_ArpRn1. hoare_auto. Qed.
#[local] Hint Resolve hoare_cbs_ArpRn1 : hoare.

Lemma hoare_mma_sum (a : RegName) (k : MmaConfig) : hoare (mma_sum a k) (fun _ => True).
Proof. unfold mma_sum. hoare_auto. Qed.
#[local] Hint Resolve hoare_mma_sum : hoare.

Lemma hoare_mma_mul (k : MmaConfig) : hoare (mma_mul k) (fun _ => True).
Proof. unfold mma_mul. hoare_auto. Qed.
#[local] Hint Resolve hoare_mma_mul : hoare.

Lemma hoare_swap_x : hoare (swap_x) (fun _ => True).
Proof. unfold swap_x. hoare_auto. Qed.
#[local] Hint Resolve hoare_swap_x : hoare.

Lemma hoare_mma (a : RegName) (k : MmaConfig) : hoare (mma a k) (fun _ => True).
Proof. unfold mma. hoare_auto. Qed.
#[local] Hint Resolve hoare_mma : hoare.

Lemma hoare_mma_arp (xy i j : Z) (dmodi dmodj : bool) (a : RegName) (k : MmaConfig) :
  hoare (mma_arp xy i j dmodi dmodj a k) (fun _ => True).
Proof. unfold mma_arp. hoare_auto. Qed.
#[local] Hint Resolve hoare_mma_arp : hoare.

Lemma hoare_mma_mx_xy (y ys : Z) (a : RegName) (k : MmaConfig) :
  hoare (mma_mx_xy y ys a k) (fun _ => True).
Proof. unfold mma_mx_xy. hoare_auto. Qed.
#[local] Hint Resolve hoare_mma_mx_xy : hoare.

Lemma hoare_mma_xy_mx (y ys : Z) (a : RegName) (k : MmaConfig) :
  hoare (mma_xy_mx y ys a k) (fun _ => True).
Proof. unfold mma_xy_mx. hoare_auto. Qed.
#[local] Hint Resolve hoare_mma_xy_mx : hoare.

Lemma hoare_mma_my_my (x xs : Z) (a : RegName) (k : MmaConfig) :
  hoare (mma_my_my x xs a k) (fun _ => True).
Proof. unfold mma_my_my. hoare_auto. Qed.
#[local] Hint Resolve hoare_mma_my_my : hoare.

Lemma hoare_mma_mov_Axh_Bxh (u v : RegName) (w ws : Z) (a : RegName) (k : MmaConfig) :
  hoare (mma_mov_Axh_Bxh u v w ws a k) (fun _ => True).
Proof. unfold mma_mov_Axh_Bxh. hoare_auto. Qed.
#[local] Hint Resolve hoare_mma_mov_Axh_Bxh : hoare.

Lemma hoare_mma_mov_ArRn2 (w ws : Z) (a : RegName) (k : MmaConfig) :
  hoare (mma_mov_ArRn2 w ws a k) (fun _ => True).
Proof. unfold mma_mov_ArRn2. hoare_auto. Qed.
#[local] Hint Resolve hoare_mma_mov_ArRn2 : hoare.

Lemma hoare_addhp (a as_ : Z) (b c : RegName) : hoare (addhp a as_ b c) (fun _ => True).
Proof. unfold addhp. hoare_auto. Qed.
#[local] Hint Resolve hoare_addhp : hoare.

Lemma hoare_mov_ext0 (a : Z) : hoare (mov_ext0 a) (fun _ => True).
Proof. unfold mov_ext0. hoare_auto. Qed.
#[local] Hint Resolve hoare_mov_ext0 : hoare.

Lemma hoare_mov_ext1 (a : Z) : hoare (mov_ext1 a) (fun _ => True).
Proof. unfold mov_ext1. hoare_auto. Qed.
#[local] Hint Resolve hoare_mov_ext1 : hoare.

Lemma hoare_mov_ext2 (a : Z) : hoare (mov_ext2 a) (fun _ => True).
Proof. unfold mov_ext2. hoare_auto. Qed.
#[local] Hint Resolve hoare_mov_ext2 : hoare.

Lemma hoare_mov_ext3 (a : Z) : hoare (mov_ext3 a) (fun _ => True).
Proof. unfold mov_ext3. hoare_auto. Qed.
#[local] Hint Resolve hoare_mov_ext3 : hoare.

Lemma hoare_exec (i : Inst) : hoare (exec i) (fun _ => True).
Proof.
  destruct i; cbn [exec];
    unfold
      add_add, add_sub, sub_add, sub_sub, add_sub_sv, sub_add_sv, modr_eemod,
      modr_edmod, modr_demod, modr_ddmod, exchange_iaj, exchange_riaj,
      exchange_jai, exchange_rjai, max_ge, max_gt, min_le, min_lt, max_ge_r0,
      max_gt_r0, min_le_r0, min_lt_r0, max2_vtr_movl, max2_vtr_movh,
      min2_vtr_movl, min2_vtr_movh, max2_vtr_movij, max2_vtr_movji,
      min2_vtr_movij, min2_vtr_movji, mov_addsubsv, mov_addsubsv_Alt,
      mov_addsubrndsv, mov_addsubrndsv_Alt, mov_sub3sv, mov_sub3sv_Alt,
      mov_sub3rndsv, mov_sub3rndsv_Alt;
    solve [ eauto with hoare nocore ].
Qed.
#[local] Hint Resolve hoare_exec : hoare.

Lemma hoare_fetch : hoare (fetch) (fun _ => True).
Proof. unfold fetch. hoare_auto. Qed.
#[local] Hint Resolve hoare_fetch : hoare.

Lemma hoare_Run_rep : hoare (Run_rep) (fun _ => True).
Proof. unfold Run_rep. hoare_auto. Qed.
#[local] Hint Resolve hoare_Run_rep : hoare.

Lemma hoare_Run_bkrep : hoare Run_bkrep (fun _ => True).
Proof.
  apply hoare_intro. intros mc Hinv.
  unfold Run_bkrep, bind, get_regs, modify, when, ret.
  run_cases; inv_arith.
Qed.
#[local] Hint Resolve hoare_Run_bkrep : hoare.

Lemma hoare_Run_interrupt_scan (is_ : list Z) :
  hoare (Run_interrupt_scan is_) (fun _ => True).
Proof. induction is_ as [ | i rest IH ]; cbn [Run_interrupt_scan]; hoare_auto. Qed.
#[local] Hint Resolve hoare_Run_interrupt_scan : hoare.

Lemma hoare_Run_interrupts : hoare (Run_interrupts) (fun _ => True).
Proof. unfold Run_interrupts. hoare_auto. Qed.
#[local] Hint Resolve hoare_Run_interrupts : hoare.

Lemma hoare_Run_fetch (decoders : Z -> Matcher) :
  hoare (Run_fetch decoders) (fun _ => True).
Proof. unfold Run_fetch. hoare_auto. Qed.
#[local] Hint Resolve hoare_Run_fetch : hoare.

Lemma hoare_Run_cycle (decoders : Z -> Matcher) :
  hoare (Run_cycle decoders) (fun _ => True).
Proof. unfold Run_cycle. hoare_auto. Qed.
#[local] Hint Resolve hoare_Run_cycle : hoare.

Lemma hoare_Run (decoders : Z -> Matcher) (cycles : nat) :
  hoare (Run decoders cycles) (fun _ => True).
Proof. induction cycles as [ | n IH ]; cbn [Run]; hoare_auto. Qed.
#[local] Hint Resolve hoare_Run : hoare.

Lemma hoare_SignalInterrupt (i : Z) : hoare (SignalInterrupt i) (fun _ => True).
Proof. unfold SignalInterrupt. hoare_auto. Qed.
#[local] Hint Resolve hoare_SignalInterrupt : hoare.

Lemma hoare_SignalVectoredInterrupt (address : Z) :
  hoare (SignalVectoredInterrupt address) (fun _ => True).
Proof. unfold SignalVectoredInterrupt. hoare_auto. Qed.
#[local] Hint Resolve hoare_SignalVectoredInterrupt : hoare.

(** The reset state satisfies the invariant. *)
Lemma Invariant_reset : Invariant reset_regs.
Proof. repeat split; cbn; first [ lia | discriminate ]. Qed.

(** Where the model does not stop at undefined behaviour, the universal
    invariant is kept: from a state in which every accumulator (a0, a1, b0,
    b1) is the sign extension of its low 40 bits, [bcn] lies in 0..4 and
    [lp] holds exactly when [bcn] is positive, every instruction handler
    ends in such a state, whether it returns or throws, and so does [Run]
    after any number of cycles; a run that stops at undefined behaviour
    ends in the state it had reached.  The operations of the register-file
    interface are taken to preserve the invariant
    ([RegisterFile_invariant]). *)
Theorem invariant_preserved (decoders : Z -> Matcher) (mc : Machine) :
  Invariant (rf mc) ->
  (forall i, Invariant (rf (final (exec i mc)))) /\
  (forall n, Invariant (rf (final (Run decoders n mc)))).
Proof.
  intros Hinv. split.
  - intros i. exact (hoare_elim _ _ (hoare_exec i) mc Hinv).
  - intros n. exact (hoare_elim _ _ (hoare_Run decoders n) mc Hinv).
Qed.

(** C1.  Where the invariant is not guaranteed.  [RestoreBlockRepeat]
    makes room for the restored frame with
    [std::copy_backward(begin, begin + bcn, begin + 1)], whose destination
    ends at index 1 instead of [bcn + 1].  From a state that satisfies the
    invariant with [bcn] 2 or 3 (so [lp] is set), the copy assigns
    [bkrep_stack[0]] and then a cell in front of the array: the checked
    copy fails, and [RestoreBlockRepeat], [bkreprst_memsp] and the dispatch
    of the instruction stop at undefined behaviour before anything is
    written.  With [bcn] 1 the copy stays inside the array. *)
Theorem RestoreBlockRepeat_out_of_bounds (address_reg : u16_ref) (mc : Machine) :
  Invariant (rf mc) ->
  2 <= regs.bcn (rf mc) <= 3 ->
  (forall stack : Z -> BlockRepeatFrame,
     copy_backward 4 (Z.to_nat (regs.bcn (rf mc))) (regs.bcn (rf mc)) 1 stack = None /\
     copy_backward 4 (Z.to_nat 1) 1 1 stack = Some (upd stack 0 (stack 0))) /\
  RestoreBlockRepeat address_reg mc = Throw undefined_behaviour mc /\
  bkreprst_memsp mc = Throw undefined_behaviour mc /\
  exec I_bkreprst_memsp mc = Throw undefined_behaviour mc.
Proof.
  intros (_ & _ & _ & _ & _ & Hlp) Hb.
  assert (Elp : regs.lp (rf mc) = true) by (apply Hlp; lia).
  assert (Hcopy : forall stack : Z -> BlockRepeatFrame,
             copy_backward 4 (Z.to_nat (regs.bcn (rf mc))) (regs.bcn (rf mc)) 1 stack
             = None).
  { intros stack.
    assert (regs.bcn (rf mc) = 2 \/ regs.bcn (rf mc) = 3) as [ -> | -> ] by lia;
      reflexivity. }
  assert (Hrun : forall x, RestoreBlockRepeat x mc = Throw undefined_behaviour mc).
  { intros x. unfold RestoreBlockRepeat.
    unfold bind at 1. unfold gets at 1. rewrite Elp.
    unfold bind at 1. unfold bind at 1. unfold gets at 1.
    destruct (Z.ltb_spec 3 (regs.bcn (rf mc))) as [ L | L ]; [ lia | ].
    unfold bind at 1. unfold gets at 1. rewrite Hcopy. reflexivity. }
  split; [ | split; [ apply Hrun | split; apply Hrun ] ].
  intros stack. split; [ apply Hcopy | reflexivity ].
Qed.

End Preservation.

(* ================================================================= *)
(** ** Further properties of the interpreter *)

Ltac destruct_cmp c :=
  lazymatch c with
  | ?a <? ?b => destruct (Z.ltb_spec a b)
  | ?a <=? ?b => destruct (Z.leb_spec a b)
  | ?a =? ?b => destruct (Z.eqb_spec a b)
  end.

Ltac bool_arith :=
  repeat match goal with
    | |- context [ if ?c then _ else _ ] =>
        lazymatch c with
        | context [ if _ then _ else _ ] => fail
        | _ => destruct_cmp c
        end
    end;
  repeat match goal with
    | |- context [ ?a <? ?b ] => destruct (Z.ltb_spec a b)
    | |- context [ ?a <=? ?b ] => destruct (Z.leb_spec a b)
    | |- context [ ?a =? ?b ] => destruct (Z.eqb_spec a b)
    end;
  cbn [negb andb orb xorb]; try reflexivity; try lia; try (exfalso; lia).

Ltac b2z_consts :=
  change (Z.b2z true) with 1 in *; change (Z.b2z false) with 0 in *.

(** *** Bits as arithmetic *)

Lemma bit_of x n : 0 <= n -> nz ((x >> n) .& 1) = Z.testbit x n.
Proof.
  intros Hn. change 1 with (Z.ones 1) at 1.
  rewrite Z.land_ones, Z.shiftr_div_pow2 by lia. change (2 ^ 1) with 2.
  rewrite <- Z.testbit_spec' by lia. unfold nz.
  destruct (Z.testbit x n); reflexivity.
Qed.

Lemma testbit_top x k :
  0 < k -> Z.testbit x (k - 1) = (2 ^ (k - 1) <=? x mod 2 ^ k).
Proof.
  intros Hk.
  pose proof (Z.testbit_spec' x (k - 1) ltac:(lia)) as Hb.
  assert (Hp : 0 < 2 ^ (k - 1)) by (apply Z.pow_pos_nonneg; lia).
  assert (E : 2 ^ k = 2 ^ (k - 1) * 2).
  { replace k with (k - 1 + 1) at 1 by lia. rewrite Z.pow_add_r by lia. reflexivity. }
  rewrite E, Z.rem_mul_r by lia. rewrite <- Hb.
  pose proof (Z.mod_pos_bound x (2 ^ (k - 1)) Hp).
  destruct (Z.testbit x (k - 1));
    [ change (Z.b2z true) with 1 | change (Z.b2z false) with 0 ]; bool_arith.
Qed.

Lemma testbit_39 x : Z.testbit x 39 = (2 ^ 39 <=? x mod 2 ^ 40).
Proof. apply (testbit_top x 40). lia. Qed.

Lemma testbit_63 x : Z.testbit x 63 = (2 ^ 63 <=? x mod 2 ^ 64).
Proof. apply (testbit_top x 64). lia. Qed.

Lemma testbit_u64 x n : 0 <= n < 64 -> Z.testbit (u64 x) n = Z.testbit x n.
Proof. intros H. unfold u64. apply Z.mod_pow2_bits_low. lia. Qed.

Lemma testbit_not64 x n : 0 <= n < 64 -> Z.testbit (not64 x) n = negb (Z.testbit x n).
Proof. intros H. unfold not64. rewrite testbit_u64 by lia. apply Z.lnot_spec. lia. Qed.

Lemma SignExtend64_40_low v : SignExtend64 40 v mod 2 ^ 40 = v mod 2 ^ 40.
Proof.
  rewrite SignExtend64_40_eq. pow_consts.
  pose proof (Z.mod_pos_bound v 1099511627776 ltac:(lia)).
  destruct (Z.ltb_spec (v mod 1099511627776) 549755813888).
  - apply Z.mod_mod. lia.
  - replace (18446744073709551616 - 1099511627776) with (16777215 * 1099511627776) by lia.
    rewrite Z.mod_add by lia. apply Z.mod_mod. lia.
Qed.

Lemma signed_40_eq v :
  signed 40 v = if v mod 2 ^ 40 <? 2 ^ 39 then v mod 2 ^ 40 else v mod 2 ^ 40 - 2 ^ 40.
Proof. reflexivity. Qed.

Lemma lor_shiftl lo hi k :
  0 <= k -> 0 <= lo < 2 ^ k -> lo .| (hi << k) = lo + hi * 2 ^ k.
Proof.
  intros Hk Hlo. rewrite Z.shiftl_mul_pow2, Z.lor_comm, (Z.mul_comm hi) by lia.
  rewrite lor_block by assumption. lia.
Qed.

Lemma signed_16_eq v :
  signed 16 v = if v mod 2 ^ 16 <? 2 ^ 15 then v mod 2 ^ 16 else v mod 2 ^ 16 - 2 ^ 16.
Proof. reflexivity. Qed.

Section Further.
Context {RF : RegisterFile}.

(** *** The flags of an addition or subtraction *)

(** X1.  [AddSub a b sub] reads its operands as 40-bit two's complement
    numbers.  With [s] their exact sum (difference when [sub] is set), it
    sets [fv] exactly when [s] lies outside the signed 40-bit range, in
    which case the returned value is [s] wrapped around by 2^40 and
    otherwise is [s]; it sets [fc[0]] to the carry out of bit 39 of the
    unsigned addition, for a subtraction to the borrow; [flv] is
    sticky: it is set when [fv] is and is never cleared.  The returned
    value is always the sign extension of its low 40 bits. *)
Theorem AddSub_flags (a b : Z) (sub : bool) (mc : Machine) :
  let s := if sub then signed 40 a - signed 40 b else signed 40 a + signed 40 b in
  let c := if sub then a mod 2 ^ 40 <? b mod 2 ^ 40
           else 2 ^ 40 <=? a mod 2 ^ 40 + b mod 2 ^ 40 in
  let v := (s <? - 2 ^ 39) || (2 ^ 39 <=? s) in
  exists r mc',
    AddSub a b sub mc = Ok r mc' /\ is_SE40 r /\
    signed 40 r = (if v then if s <? 0 then s + 2 ^ 40 else s - 2 ^ 40 else s) /\
    regs.fc (rf mc') 0 = c /\
    regs.fv (rf mc') = v /\
    regs.flv (rf mc') = regs.flv (rf mc) || v.
Proof.
  intros s c v.
  set (A := a mod 2 ^ 40). set (B := b mod 2 ^ 40).
  set (res := u64 (if sub then A - B else A + B)).
  set (V := nz (((not64 (A .^ (if sub then not64 B else B)) .& (A .^ res)) >> 39) .& 1)).
  assert (HA : 0 <= A < 2 ^ 40) by (apply Z.mod_pos_bound; lia).
  assert (HB : 0 <= B < 2 ^ 40) by (apply Z.mod_pos_bound; lia).
  assert (Er : SignExtend64 40 res mod 2 ^ 40 = (if sub then A - B else A + B) mod 2 ^ 40).
  { rewrite SignExtend64_40_low. apply u64_mod40. }
  assert (EC : nz ((res >> 40) .& 1) = c).
  { rewrite bit_of by lia. unfold res. rewrite testbit_u64 by lia.
    rewrite (testbit_top _ 41) by lia. change (41 - 1) with 40.
    subst c. fold A B. change (2 ^ 41) with 2199023255552. pow_consts.
    destruct sub.
    - destruct (Z.ltb_spec A B).
      + rewrite <- (Z.mod_add _ 1) by lia. rewrite Z.mod_small by lia. bool_arith.
      + rewrite Z.mod_small by lia. bool_arith.
    - rewrite Z.mod_small by lia. reflexivity. }
  assert (EV : V = v).
  { unfold V. rewrite bit_of by lia.
    rewrite Z.land_spec, !Z.lxor_spec, testbit_not64, Z.lxor_spec by lia.
    assert (E39 : forall x, Z.testbit x 39 = (2 ^ 39 <=? x mod 2 ^ 40)).
    { intros x. apply (testbit_top x 40). lia. }
    assert (EB : Z.testbit (if sub then not64 B else B) 39
                 = if sub then negb (2 ^ 39 <=? B) else (2 ^ 39 <=? B)).
    { destruct sub; [ rewrite testbit_not64 by lia | ];
        rewrite E39, (Z.mod_small B) by lia; reflexivity. }
    rewrite EB, !E39, (Z.mod_small A) by lia.
    unfold res. rewrite u64_mod40.
    subst v s. rewrite !signed_40_eq. fold A B. pow_consts.
    destruct sub.
    - destruct (Z.ltb_spec A B).
      + rewrite <- (Z.mod_add (A - B) 1) by lia. rewrite Z.mod_small by lia. bool_arith.
      + rewrite Z.mod_small by lia. bool_arith.
    - destruct (Z.ltb_spec (A + B) 1099511627776).
      + rewrite Z.mod_small by lia. bool_arith.
      + rewrite <- (Z.mod_add (A + B) (-1)) by lia. rewrite Z.mod_small by lia. bool_arith. }
  assert (ES : signed 40 (SignExtend64 40 res)
               = (if v then if s <? 0 then s + 2 ^ 40 else s - 2 ^ 40 else s)).
  { rewrite signed_40_eq, Er. subst v s. rewrite !signed_40_eq. fold A B. pow_consts.
    destruct sub.
    - destruct (Z.ltb_spec A B).
      + rewrite <- (Z.mod_add (A - B) 1) by lia. rewrite Z.mod_small by lia. bool_arith.
      + rewrite Z.mod_small by lia. bool_arith.
    - destruct (Z.ltb_spec (A + B) 1099511627776).
      + rewrite Z.mod_small by lia. bool_arith.
      + rewrite <- (Z.mod_add (A + B) (-1)) by lia. rewrite Z.mod_small by lia. bool_arith. }
  unfold AddSub, bind, modify, gets, when, ret. cbn.
  rewrite !land_mask40. fold A B. fold res. fold V. rewrite EC, EV.
  destruct v eqn:Ev; cbn;
    (eexists; eexists; split; [ reflexivity | ]);
    (split; [ apply SignExtend64_40_is_SE40 | ]);
    (split; [ exact ES | ]); cbn;
    (split; [ unfold upd; reflexivity | ]);
    (split; [ reflexivity | ]).
  - rewrite orb_true_r. reflexivity.
  - rewrite orb_false_r. reflexivity.
Qed.

(** *** Saturation as clamping *)

(** X2.  Saturation clamps: for an accumulator value [v] (the sign
    extension of its low 40 bits), [SaturateAcc_Unconditional v] returns
    the accumulator value whose signed reading is that of [v] clamped to
    the signed 32-bit range; [fls] is set exactly when the value was out of
    that range and is never cleared.  The result is the sign extension of
    its low 32 bits, so saturating it again changes nothing, and
    [SaturateAcc_Unconditional_NoFlag] computes the same value. *)
Theorem SaturateAcc_Unconditional_clamp (v : Z) (mc : Machine) :
  is_SE40 v ->
  exists r mc',
    SaturateAcc_Unconditional v mc = Ok r mc' /\
    signed 40 r = Z.max (- 2 ^ 31) (Z.min (2 ^ 31 - 1) (signed 40 v)) /\
    is_SE40 r /\ r = SignExtend64 32 r /\
    SaturateAcc_Unconditional_NoFlag v = r /\
    SaturateAcc_Unconditional_NoFlag r = r /\
    regs.fls (rf mc') =
      regs.fls (rf mc) || ((signed 40 v <? - 2 ^ 31) || (2 ^ 31 <=? signed 40 v)).
Proof.
  intros Hv. apply is_SE40_iff in Hv.
  unfold SaturateAcc_Unconditional, SaturateAcc_Unconditional_NoFlag, bind, modify, ret.
  assert (Hsat : (v =? SignExtend64 32 v)
                 = negb ((signed 40 v <? - 2 ^ 31) || (2 ^ 31 <=? signed 40 v))).
  { unfold SignExtend64, SignExtend. rewrite signed_40_eq.
    change (32 - 1) with 31. pow_consts.
    bool_arith; exfalso; Z.to_euclidean_division_equations; lia. }
  assert (Hneg : nz (v >> 39) = (signed 40 v <? 0)).
  { rewrite shr39_testbit by (right; apply is_SE40_iff; exact Hv).
    rewrite testbit_39, signed_40_eq. pow_consts.
    pose proof (Z.mod_pos_bound v 1099511627776 ltac:(lia)). bool_arith. }
  rewrite Hsat, Hneg, negb_involutive.
  destruct ((signed 40 v <? - 2 ^ 31) || (2 ^ 31 <=? signed 40 v)) eqn:Hout.
  - apply orb_true_iff in Hout.
    destruct (signed 40 v <? 0) eqn:Hs; cbn;
      (eexists; eexists; split; [ reflexivity | ]);
      rewrite orb_true_r;
      (split; [ | split; [ apply is_SE40_iff; pow_consts; lia | ] ]);
      [ | repeat split; reflexivity | | repeat split; reflexivity ];
      change (signed 40 18446744071562067968) with (-2147483648);
      change (signed 40 2147483647) with 2147483647; pow_consts;
      (apply Z.ltb_lt in Hs || apply Z.ltb_ge in Hs);
      destruct Hout as [Hout | Hout];
      (apply Z.ltb_lt in Hout || apply Z.leb_le in Hout); lia.
  - apply orb_false_iff in Hout. destruct Hout as [H1 H2].
    apply Z.ltb_ge in H1. apply Z.leb_gt in H2. cbn.
    assert (Hse : v = SignExtend64 32 v).
    { apply Z.eqb_eq. rewrite Hsat. reflexivity. }
    eexists; eexists; split; [ reflexivity | ].
    rewrite <- Hse, Z.eqb_refl. cbn. rewrite orb_false_r.
    repeat split; try reflexivity;
      first [ exact Hse | apply is_SE40_iff; exact Hv | pow_consts; lia ].
Qed.

(** *** Multiplication *)

Lemma SignExtend32_16_signed x :
  0 <= x < 2 ^ 16 -> SignExtend32 16 x = signed 16 x mod 2 ^ 32.
Proof.
  intros Hx. unfold SignExtend32, SignExtend. rewrite signed_16_eq.
  change (16 - 1) with 15. change (2 ^ 15) with 32768. pow_consts.
  rewrite (Z.mod_small x) by lia. cbv zeta.
  destruct (Z.ltb_spec x 32768).
  - rewrite Z.mod_small by lia. reflexivity.
  - rewrite <- (Z.mod_add (x - 65536) 1) by lia. rewrite Z.mod_small by lia. lia.
Qed.

Lemma product_bus (P : Z) (sgn : bool) :
  (if sgn then - 2 ^ 31 <= P < 2 ^ 31 else 0 <= P < 2 ^ 32) ->
  let p := u32 P in
  let psign := if sgn then nz (p >> 31) else false in
  SignExtend64 33 (p .| (Z.b2z psign << 32)) = u64 P.
Proof.
  intros HP p psign.
  assert (Hp : 0 <= p < 2 ^ 32) by (apply Z.mod_pos_bound; lia).
  rewrite lor_shiftl by lia.
  unfold SignExtend64, SignExtend, u64. change (33 - 1) with 32.
  change (2 ^ 33) with 8589934592. pow_consts.
  destruct sgn.
  - assert (Es : psign = (P <? 0)).
    { unfold psign, nz. rewrite Z.shiftr_div_pow2 by lia. unfold p, u32 in *. pow_consts.
      bool_arith; exfalso; Z.to_euclidean_division_equations; lia. }
    rewrite Es. unfold p, u32 in *. pow_consts.
    destruct (Z.ltb_spec P 0); [ change (Z.b2z true) with 1 | change (Z.b2z false) with 0 ];
      cbv zeta.
    + rewrite <- (Z.mod_add P 1 4294967296), (Z.mod_small (P + 1 * 4294967296)) by lia.
      rewrite (Z.mod_small (P + 1 * 4294967296 + 1 * 4294967296)) by lia.
      rewrite <- (Z.mod_add P 1 18446744073709551616), (Z.mod_small (P + _)) by lia.
      bool_arith.
    + rewrite (Z.mod_small P 4294967296) by lia.
      rewrite (Z.mod_small (P + 0 * _)) by lia. rewrite (Z.mod_small P) by lia.
      bool_arith.
  - unfold psign, p, u32 in *. pow_consts. change (Z.b2z false) with 0. cbv zeta.
    rewrite (Z.mod_small P 4294967296) by lia.
    rewrite (Z.mod_small (P + 0 * _)) by lia. rewrite (Z.mod_small P) by lia.
    bool_arith.
Qed.

Lemma product_fits (P : Z) (sgn : bool) :
  (if sgn then - 2 ^ 31 <= P < 2 ^ 31 else 0 <= P < 2 ^ 32) ->
  is_SE40 (u64 P) /\ signed 40 (u64 P) = P.
Proof.
  intros HP. rewrite signed_40_eq, u64_mod40. split.
  - apply is_SE40_iff. unfold u64. pow_consts.
    destruct sgn; Z.to_euclidean_division_equations; lia.
  - pow_consts. destruct sgn; bool_arith; Z.to_euclidean_division_equations; lia.
Qed.

(** X3.  The multiplier computes exact products.  With [ym] and the
    product shift [ps[unit]] zero and 16-bit [x[unit]] and [y[unit]],
    [DoMultiplication unit x_sign y_sign] followed by the read of the
    product register on the 40-bit bus yields the 64-bit two's complement
    pattern of the exact product [X * Y], where a factor whose sign flag
    is set is read as a signed 16-bit number and otherwise as an unsigned
    one.  The product fits the accumulator: the value is the sign extension
    of its low 40 bits, and its signed reading is [X * Y]. *)
Theorem DoMultiplication_exact (unit : Z) (x_sign y_sign : bool) (mc : Machine) :
  unit = 0 \/ unit = 1 ->
  regs.ym (rf mc) = 0 ->
  regs.ps (rf mc) unit = 0 ->
  0 <= regs.x (rf mc) unit < 2 ^ 16 ->
  0 <= regs.y (rf mc) unit < 2 ^ 16 ->
  let X := if x_sign then signed 16 (regs.x (rf mc) unit) else regs.x (rf mc) unit in
  let Y := if y_sign then signed 16 (regs.y (rf mc) unit) else regs.y (rf mc) unit in
  exists mc',
    (DoMultiplication unit x_sign y_sign ;;
     ProductToBus40 (if unit =? 0 then RegName.p0 else RegName.p1)) mc
    = Ok (u64 (X * Y)) mc' /\
    is_SE40 (u64 (X * Y)) /\ signed 40 (u64 (X * Y)) = X * Y /\
    mem mc' = mem mc.
Proof.
  intros Hu Hym Hps Hx Hy X Y.
  set (x := regs.x (rf mc) unit) in *. set (y := regs.y (rf mc) unit) in *.
  assert (HX : if x_sign then - 2 ^ 15 <= X < 2 ^ 15 else 0 <= X < 2 ^ 16).
  { subst X. destruct x_sign; [ | exact Hx ]. rewrite signed_16_eq.
    change (2 ^ 15) with 32768. pow_consts. rewrite Z.mod_small by lia. bool_arith. }
  assert (HY : if y_sign then - 2 ^ 15 <= Y < 2 ^ 15 else 0 <= Y < 2 ^ 16).
  { subst Y. destruct y_sign; [ | exact Hy ]. rewrite signed_16_eq.
    change (2 ^ 15) with 32768. pow_consts. rewrite Z.mod_small by lia. bool_arith. }
  assert (HP : if x_sign || y_sign then - 2 ^ 31 <= X * Y < 2 ^ 31 else 0 <= X * Y < 2 ^ 32).
  { change (2 ^ 15) with 32768 in *. pow_consts.
    destruct x_sign, y_sign; cbn [orb]; nia. }
  assert (Ep : u32 ((if x_sign then SignExtend32 16 x else x)
                    * (if y_sign then SignExtend32 16 y else y)) = u32 (X * Y)).
  { unfold u32. rewrite (Z.mul_mod (X) (Y)) by lia.
    rewrite (Z.mul_mod (if x_sign then _ else _)) by lia. f_equal. f_equal.
    - subst X. destruct x_sign; [ | reflexivity ].
      rewrite SignExtend32_16_signed by exact Hx. apply Z.mod_mod. lia.
    - subst Y. destruct y_sign; [ | reflexivity ].
      rewrite SignExtend32_16_signed by exact Hy. apply Z.mod_mod. lia. }
  pose proof (product_bus (X * Y) (x_sign || y_sign) HP) as Hbus. cbv zeta in Hbus.
  pose proof (product_fits (X * Y) (x_sign || y_sign) HP) as Hr.
  unfold DoMultiplication, ProductToBus40, bind, modify, gets, get_regs, ret.
  rewrite Hym. fold x y. change (0 =? 1) with false. change (0 =? 3) with false.
  change (0 =? 2) with false. cbn [orb andb].
  rewrite Ep.
  destruct Hu as [-> | ->]; change (0 =? 0) with true; change (1 =? 0) with false;
    cbv iota; destruct (x_sign || y_sign) eqn:Hs; cbn;
    rewrite ?upd_same; cbn in Hps; rewrite Hps;
    (eexists; split; [ f_equal; exact Hbus | ]);
    (split; [ apply Hr | split; [ apply Hr | reflexivity ] ]).
Qed.

(** *** Rotation through the carry *)

Lemma land_1 x : x .& 1 = x mod 2.
Proof. change 1 with (Z.ones 1). apply Z.land_ones. lia. Qed.

Lemma nz_b2z c : nz (Z.b2z c) = c.
Proof. destruct c; reflexivity. Qed.

Lemma b2z_range c : 0 <= Z.b2z c <= 1.
Proof. destruct c; b2z_consts; lia. Qed.

Lemma b2z_nz x : 0 <= x <= 1 -> Z.b2z (nz x) = x.
Proof.
  intros H. assert (x = 0 \/ x = 1) as [-> | ->] by lia; reflexivity.
Qed.

Lemma rotate_right_left v c :
  is_SE40 v ->
  let r := SignExtend64 40 (((v .& 0xFFFFFFFFFF) >> 1) .| (Z.b2z c << 39)) in
  SignExtend64 40 (u64 (r << 1) .| Z.b2z (nz ((v .& 0xFFFFFFFFFF) .& 1))) = v /\
  nz ((r >> 39) .& 1) = c.
Proof.
  intros Hv r.
  pose proof (b2z_range c) as Hc.
  assert (Hr : r mod 2 ^ 40 = (v mod 2 ^ 40) / 2 + Z.b2z c * 2 ^ 39).
  { unfold r. rewrite SignExtend64_40_low, land_mask40, Z.shiftr_div_pow2 by lia.
    change (2 ^ 1) with 2. pow_consts.
    rewrite lor_shiftl by (pow_consts; Z.to_euclidean_division_equations; lia).
    pow_consts. apply Z.mod_small. Z.to_euclidean_division_equations. lia. }
  split.
  - transitivity (SignExtend64 40 v); [ | symmetry; exact Hv ]. apply SignExtend64_40_mod.
    rewrite land_mask40, land_1, Z.shiftl_mul_pow2 by lia. change (2 ^ 1) with 2.
    assert (Hb : Z.b2z (nz ((v mod 2 ^ 40) mod 2)) = (v mod 2 ^ 40) mod 2).
    { apply b2z_nz. Z.to_euclidean_division_equations. lia. }
    rewrite Hb.
    assert (He : u64 (r * 2) = 2 ^ 1 * (u64 (r * 2) / 2)).
    { unfold u64. pow_consts. change (2 ^ 1) with 2. Z.to_euclidean_division_equations. lia. }
    rewrite He, lor_block by (change (2 ^ 1) with 2; Z.to_euclidean_division_equations; lia).
    rewrite <- He. rewrite <- Zplus_mod_idemp_l, u64_mod40, Zplus_mod_idemp_l.
    revert Hr. generalize (Z.b2z c) Hc. intros bc Hbc. pow_consts. intros Hr.
    Z.to_euclidean_division_equations. lia.
  - rewrite bit_of, testbit_39, Hr by lia. destruct c; b2z_consts; pow_consts;
      bool_arith; exfalso; Z.to_euclidean_division_equations; lia.
Qed.

Lemma rotate_left_right v c :
  is_SE40 v ->
  let r := SignExtend64 40 (u64 (v << 1) .| Z.b2z c) in
  SignExtend64 40 (((r .& 0xFFFFFFFFFF) >> 1) .| (Z.b2z (nz ((v >> 39) .& 1)) << 39)) = v /\
  nz ((r .& 0xFFFFFFFFFF) .& 1) = c.
Proof.
  intros Hv r.
  pose proof (b2z_range c) as Hc.
  assert (He : u64 (v << 1) = 2 ^ 1 * (u64 (v * 2) / 2)).
  { rewrite Z.shiftl_mul_pow2 by lia. unfold u64. pow_consts. change (2 ^ 1) with 2.
    Z.to_euclidean_division_equations. lia. }
  assert (Hr : r mod 2 ^ 40 = 2 * ((v mod 2 ^ 40) mod 2 ^ 39) + Z.b2z c).
  { unfold r. rewrite SignExtend64_40_low.
    rewrite He, lor_block by (change (2 ^ 1) with 2; lia).
    rewrite <- He, Z.shiftl_mul_pow2 by lia.
    rewrite <- Zplus_mod_idemp_l, u64_mod40, Zplus_mod_idemp_l.
    change (2 ^ 1) with 2. pow_consts.
    generalize (Z.b2z c) Hc. intros bc Hbc.
    Z.to_euclidean_division_equations. lia. }
  split.
  - transitivity (SignExtend64 40 v); [ | symmetry; exact Hv ]. apply SignExtend64_40_mod.
    rewrite land_mask40, Hr, bit_of, testbit_39, Z.shiftr_div_pow2 by lia.
    change (2 ^ 1) with 2.
    rewrite lor_shiftl
      by (pow_consts; generalize (Z.b2z c) Hc; intros; Z.to_euclidean_division_equations; lia).
    pow_consts. generalize (Z.b2z c) Hc. intros bc Hbc.
    destruct (Z.leb_spec 549755813888 (v mod 1099511627776));
      b2z_consts;
      Z.to_euclidean_division_equations; lia.
  - rewrite land_mask40, Hr, land_1. unfold nz.
    destruct c; b2z_consts;
      bool_arith; exfalso; Z.to_euclidean_division_equations; lia.
Qed.

(** X4.  Rotations through the carry are inverse to each other.  Under a
    condition that always passes, and for an accumulator that holds the
    sign extension of its low 40 bits, [Moda Ror] followed by [Moda Rol]
    restores both the accumulator and the carry [fc[0]], and so does
    [Moda Rol] followed by [Moda Ror]: the pair acts as a 41-bit rotation
    of the accumulator together with the carry. *)
Theorem Moda_rotate_round_trip (a : RegName) (cond : Cond) (v : Z) (mc : Machine) :
  (forall rs, ConditionPass rs cond = true) ->
  GetAcc a mc = Ok v mc ->
  is_SE40 v ->
  forall op1 op2,
    (op1 = ModaOp.Ror /\ op2 = ModaOp.Rol) \/ (op1 = ModaOp.Rol /\ op2 = ModaOp.Ror) ->
    exists mc',
      (Moda op1 a cond ;; Moda op2 a cond) mc = Ok tt mc' /\
      GetAcc a mc' = Ok v mc' /\
      regs.fc (rf mc') 0 = regs.fc (rf mc) 0 /\
      mem mc' = mem mc.
Proof.
  intros Hcond Hget Hv op1 op2 Hop.
  pose proof (rotate_right_left v (regs.fc (rf mc) 0) Hv) as [RL1 RL2].
  pose proof (rotate_left_right v (regs.fc (rf mc) 0) Hv) as [LR1 LR2].
  assert (S1 : forall x, (SignExtend64 40 x =? SignExtend64 40 (SignExtend64 40 x)) = true).
  { intros x. apply Z.eqb_eq. apply SignExtend64_40_is_SE40. }
  destruct Hop as [[-> ->] | [-> ->]];
    destruct a; try (unfold GetAcc, throw in Hget; discriminate);
    unfold GetAcc, gets in Hget; injection Hget as Hget;
    unfold Moda, SetAcc_NoSaturation, SetAcc_, SetAccFlag, SetAcc_Simple, GetAcc,
      bind, gets, modify, when, ret;
    rewrite Hcond; cbn; rewrite Hget, S1; cbn; rewrite Hcond; cbn;
    rewrite ?upd_same, S1; cbn; rewrite ?upd_same;
    (eexists; split; [ reflexivity | ]); cbn; rewrite ?upd_same;
    first [ rewrite RL1, RL2 | rewrite LR1, LR2 ];
    (split; [ rewrite <- Hget; reflexivity | split; reflexivity ]).
Qed.

(** *** Maximum and minimum of the two accumulators *)

Lemma signed_40_SE40 v :
  is_SE40 v -> signed 40 v = if v <? 2 ^ 39 then v else v - 2 ^ 64.
Proof.
  intros H. apply is_SE40_iff in H. rewrite signed_40_eq. pow_consts.
  bool_arith; Z.to_euclidean_division_equations; lia.
Qed.

Lemma signed_40_range v : - 2 ^ 39 <= signed 40 v < 2 ^ 39.
Proof.
  rewrite signed_40_eq. pow_consts.
  pose proof (Z.mod_pos_bound v 1099511627776 ltac:(lia)). bool_arith.
Qed.

Lemma signed_40_inj u v : is_SE40 u -> is_SE40 v -> signed 40 u = signed 40 v -> u = v.
Proof.
  intros Hu Hv. rewrite (signed_40_SE40 u Hu), (signed_40_SE40 v Hv).
  apply is_SE40_iff in Hu, Hv. pow_consts. bool_arith.
Qed.

Lemma difference_sign u v :
  is_SE40 u -> is_SE40 v ->
  let d := u64 (v - u) in
  ((d >> 63) .& 1 = if signed 40 v <? signed 40 u then 1 else 0) /\
  (d =? 0) = (signed 40 v =? signed 40 u).
Proof.
  intros Hu Hv d.
  rewrite (signed_40_SE40 u Hu), (signed_40_SE40 v Hv).
  apply is_SE40_iff in Hu, Hv.
  assert (Hb : (d >> 63) .& 1 = Z.b2z (Z.testbit d 63)).
  { rewrite land_1, Z.shiftr_div_pow2 by lia. symmetry. apply Z.testbit_spec'. lia. }
  rewrite Hb, testbit_63.
  unfold d, u64. rewrite Z.mod_mod by lia.
  change (2 ^ 63) with 9223372036854775808. pow_consts.
  split; bool_arith; b2z_consts; try reflexivity; exfalso;
    Z.to_euclidean_division_equations; lia.
Qed.

Lemma extremum_tests u v :
  is_SE40 u -> is_SE40 v ->
  let d := u64 (v - u) in
  cond_ge d = (signed 40 u <=? signed 40 v) /\
  cond_gt d = (signed 40 u <? signed 40 v) /\
  cond_le d = (signed 40 v <=? signed 40 u) /\
  cond_lt d = (signed 40 v <? signed 40 u).
Proof.
  intros Hu Hv d. destruct (difference_sign u v Hu Hv) as [Hs Hz]. fold d in Hs, Hz.
  unfold cond_ge, cond_gt, cond_le, cond_lt, nz. rewrite Hs, Hz.
  repeat split; bool_arith.
Qed.

Lemma RnAndModify_run unit step mc :
  exists x, RnAndModify unit step mc
            = Ok (regs.r (rf mc) unit) {| rf := set_r unit x (rf mc); mem := mem mc |}.
Proof.
  unfold RnAndModify, RnAndModify_, bind, get_regs, modify, ret.
  match goal with |- context [ if ?c then _ else _ ] => destruct c end;
    eexists; reflexivity.
Qed.

(** X5.  The extremum handlers select by signed comparison.  With [u] the
    accumulator [a] (a0 or a1) and [v] the other one, both sign extensions
    of their low 40 bits, [max_ge] and [max_gt] leave the signed maximum
    of the two in [a] and [min_le] and [min_lt] the signed minimum.  [fm]
    tells whether [v] was taken: when [u <= v] for [max_ge], [u < v] for
    [max_gt], [v <= u] for [min_le] and [v < u] for [min_lt]; then [mixp]
    receives the value [r0] had before its post-modification, otherwise
    it is unchanged.  The other accumulator is not written. *)
Theorem max_min_extremum (a : RegName) (bs : StepValue) (u v : Z) (mc : Machine) :
  a = RegName.a0 \/ a = RegName.a1 ->
  GetAcc a mc = Ok u mc ->
  (ca <- CounterAcc a ;; GetAcc ca) mc = Ok v mc ->
  is_SE40 u -> is_SE40 v ->
  let su := signed 40 u in
  let sv := signed 40 v in
  let spec (handler : RegName -> StepValue -> M void) (taken : bool) (extremum : Z) :=
    exists w mc',
      handler a bs mc = Ok tt mc' /\
      GetAcc a mc' = Ok w mc' /\
      w = (if taken then v else u) /\
      signed 40 w = extremum /\
      (ca <- CounterAcc a ;; GetAcc ca) mc' = Ok v mc' /\
      regs.fm (rf mc') = taken /\
      regs.mixp (rf mc') = (if taken then regs.r (rf mc) 0 else regs.mixp (rf mc)) /\
      mem mc' = mem mc in
  spec max_ge (su <=? sv) (Z.max su sv) /\
  spec max_gt (su <? sv) (Z.max su sv) /\
  spec min_le (sv <=? su) (Z.min su sv) /\
  spec min_lt (sv <? su) (Z.min su sv).
Proof.
  intros Ha Hu Hv Su Sv su sv spec.
  destruct (extremum_tests u v Su Sv) as (T1 & T2 & T3 & T4).
  destruct (RnAndModify_run 0 bs mc) as [x Hr].
  assert (Hgen : forall test (taken : bool) extremum,
             test (u64 (v - u)) = taken ->
             signed 40 (if taken then v else u) = extremum ->
             spec (max_min test) taken extremum).
  { intros test taken extremum Ht He. unfold spec.
    exists (if taken then v else u).
    destruct Ha as [-> | ->];
      unfold bind, GetAcc, CounterAcc, gets, ret in Hu, Hv; cbv beta iota in Hu, Hv;
      injection Hu as Hu; injection Hv as Hv;
      unfold max_min, bind, GetAcc, CounterAcc, gets, ret; cbv beta iota;
      rewrite Hr, Hu, Hv, Ht;
      destruct taken; unfold SetAcc_Simple, modify; cbn;
      (eexists; split; [ reflexivity | ]); cbn; rewrite ?upd_same;
      unfold upd; cbn; change (1 =? 0) with false; change (0 =? 1) with false; cbv iota;
      repeat split; try reflexivity; try exact He; congruence. }
  repeat split; apply Hgen; try assumption; subst su sv; bool_arith.
Qed.
(** *** Stepping an address up and down in modulo mode *)

Section ModuloDown.
Variables (mod_ : Z).
Hypothesis mod_range : 0 < mod_ < 512.

(** One iteration with step -1, in either dialect: the offset inside the
    block goes from zero to [mod_] and otherwise down by one. *)
Lemma StepAddress_iteration_minus_1 legacy a :
  0 <= a < 2 ^ 16 -> a mod 2 ^ block_bits mod_ <= mod_ ->
  StepAddress_iteration legacy false mod_ 0xFFFF a =
  2 ^ block_bits mod_ * (a / 2 ^ block_bits mod_) +
  (if a mod 2 ^ block_bits mod_ =? 0 then mod_ else a mod 2 ^ block_bits mod_ - 1).
Proof.
  intros Ha Hlo.
  pose proof (block_bits_range mod_ mod_range) as Hk.
  pose proof (mod_lt_block mod_ mod_range) as Hm.
  set (bb := block_bits mod_) in *.
  assert (P0 : 0 < 2 ^ bb) by (apply Z.pow_pos_nonneg; lia).
  pose proof (Z.mod_pos_bound a (2 ^ bb) P0) as Hb.
  assert (X : 65536 = 2 ^ (16 - bb) * 2 ^ bb).
  { rewrite <- Z.pow_add_r by lia. replace (16 - bb + bb) with 16 by lia. reflexivity. }
  unfold StepAddress_iteration.
  destruct legacy; cbn [orb negb andb].
  - change (nz (65535 >> 15)) with true. cbn [negb]. cbv iota.
    change (not16 65535) with 0. rewrite Z.lor_0_r.
    rewrite smear_ones by exact mod_range. fold (block_bits mod_); fold bb.
    rewrite land_not16_ones by lia.
    rewrite !Z.land_ones by lia.
    rewrite andb_true_r.
    destruct (Z.eqb_spec (a mod 2 ^ bb) 0) as [ E | E ].
    + apply lor_block; lia.
    + assert (E1 : (a + 65535) mod 2 ^ bb = a mod 2 ^ bb - 1).
      { replace (a + 65535) with (a - 1 + 2 ^ (16 - bb) * 2 ^ bb) by lia.
        rewrite Z.mod_add by lia.
        rewrite <- Zminus_mod_idemp_l. apply Z.mod_small. lia. }
      rewrite E1. apply lor_block; lia.
  - change (65535 <? 32768) with false. cbv iota.
    rewrite smear_ones by exact mod_range. fold (block_bits mod_); fold bb.
    rewrite land_not16_ones by lia.
    rewrite !Z.land_ones by lia.
    destruct (Z.eqb_spec (a mod 2 ^ bb) 0) as [ E | E ].
    + assert (E1 : u16 (u16 (mod_ + 1) + 65535) = mod_).
      { unfold u16. pow_consts. rewrite (Z.mod_small (mod_ + 1)) by lia.
        replace (mod_ + 1 + 65535) with (mod_ + 1 * 65536) by lia.
        rewrite Z.mod_add by lia. apply Z.mod_small. lia. }
      rewrite E1, (Z.mod_small mod_) by lia. apply lor_block; lia.
    + assert (Hbb : 2 ^ bb <= 512).
      { change 512 with (2 ^ 9). apply Z.pow_le_mono_r; lia. }
      assert (E1 : u16 (a mod 2 ^ bb + 65535) = a mod 2 ^ bb - 1).
      { unfold u16. pow_consts.
        replace (a mod 2 ^ bb + 65535) with (a mod 2 ^ bb - 1 + 1 * 65536) by lia.
        rewrite Z.mod_add by lia. apply Z.mod_small. lia. }
      rewrite E1, (Z.mod_small (a mod 2 ^ bb - 1)) by lia. apply lor_block; lia.
Qed.
End ModuloDown.

Section StepInverse.
Variables (rs : RegisterState) (unit : Z).
Hypothesis modulo_mode : regs.m rs unit = true.
Hypothesis not_brv : regs.brv rs unit = false.
Hypothesis mod_range : 0 < unit_mod rs unit < 512.

Lemma StepAddress_Increase a :
  StepAddress rs unit a StepValue.Increase false =
  StepAddress_iteration (regs.legacy_mod rs) false (unit_mod rs unit) 1 a.
Proof.
  unfold StepAddress. rewrite not_brv, modulo_mode. cbn [andb negb].
  change (1 =? 0) with false. cbv iota. fold (unit_mod rs unit).
  destruct (Z.eqb_spec (unit_mod rs unit) 0); [ lia | ].
  rewrite andb_false_r. reflexivity.
Qed.

Lemma StepAddress_Decrease a :
  StepAddress rs unit a StepValue.Decrease false =
  StepAddress_iteration (regs.legacy_mod rs) false (unit_mod rs unit) 0xFFFF a.
Proof.
  unfold StepAddress. rewrite not_brv, modulo_mode. cbn [andb negb].
  change (65535 =? 0) with false. cbv iota. fold (unit_mod rs unit).
  destruct (Z.eqb_spec (unit_mod rs unit) 0); [ lia | ].
  rewrite andb_false_r. reflexivity.
Qed.

Lemma mask_low x :
  x .& smear 0 (unit_mod rs unit) = x mod 2 ^ block_bits (unit_mod rs unit).
Proof.
  rewrite smear_ones by exact mod_range.
  apply Z.land_ones. unfold block_bits. pose proof (Z.log2_nonneg (unit_mod rs unit)). lia.
Qed.

Lemma block_split x lo' :
  0 <= x < 2 ^ 16 -> 0 <= lo' <= unit_mod rs unit ->
  let k := block_bits (unit_mod rs unit) in
  let y := 2 ^ k * (x / 2 ^ k) + lo' in
  y = x - x mod 2 ^ k + lo' /\ 0 <= y < 2 ^ 16 /\ y mod 2 ^ k = lo'.
Proof.
  intros Hx Hlo k y.
  pose proof (block_bits_range _ mod_range) as Hk.
  pose proof (mod_lt_block _ mod_range) as Hm. fold k in Hk, Hm.
  assert (P0 : 0 < 2 ^ k) by (apply Z.pow_pos_nonneg; lia).
  assert (X : 65536 = 2 ^ (16 - k) * 2 ^ k).
  { rewrite <- Z.pow_add_r by lia. replace (16 - k + k) with 16 by lia. reflexivity. }
  pose proof (Z.mod_pos_bound x (2 ^ k) P0) as Hb.
  pose proof (Z.div_mod x (2 ^ k) ltac:(lia)) as DM.
  assert (Q : 0 <= x / 2 ^ k < 2 ^ (16 - k)).
  { split; [ apply Z.div_pos; lia | ].
    apply Z.div_lt_upper_bound; [ lia | ]. rewrite Z.mul_comm, <- X. pow_consts. lia. }
  assert (R : y mod 2 ^ k = lo').
  { unfold y. rewrite Z.add_comm, Z.mul_comm, Z.mod_add by lia. apply Z.mod_small. lia. }
  pow_consts. repeat split; first [ exact R | unfold y; lia | unfold y; nia ].
Qed.

(** [Increase] and [Decrease] on an address whose offset is at most the
    modulus: the value, its range and its new offset. *)
Lemma StepAddress_Increase_spec x :
  0 <= x < 2 ^ 16 -> x .& smear 0 (unit_mod rs unit) <= unit_mod rs unit ->
  let mod_ := unit_mod rs unit in
  let mask := smear 0 mod_ in
  let y := StepAddress rs unit x StepValue.Increase false in
  y = (if x .& mask =? mod_ then x - mod_ else x + 1) /\
  0 <= y < 2 ^ 16 /\ y .& mask <= mod_ /\
  y .& mask = (if x .& mask =? mod_ then 0 else x .& mask + 1).
Proof.
  intros Hx Hxl mod_ mask y. unfold mask, mod_ in *. rewrite !mask_low in *.
  unfold y. rewrite StepAddress_Increase.
  rewrite (StepAddress_iteration_plus_1 _ mod_range) by assumption.
  set (k := block_bits (unit_mod rs unit)) in *.
  pose proof (block_bits_range _ mod_range) as Hk. fold k in Hk.
  assert (P0 : 0 < 2 ^ k) by (apply Z.pow_pos_nonneg; lia).
  pose proof (Z.mod_pos_bound x (2 ^ k) P0) as Hb.
  set (lo' := if x mod 2 ^ k =? unit_mod rs unit then 0 else x mod 2 ^ k + 1).
  assert (B : 0 <= lo' <= unit_mod rs unit) by (subst lo'; bool_arith).
  destruct (block_split x lo' Hx B) as (E & Rg & R). fold k in E, Rg, R.
  rewrite R. repeat split; try lia. rewrite E. subst lo'. bool_arith.
Qed.

Lemma StepAddress_Decrease_spec x :
  0 <= x < 2 ^ 16 -> x .& smear 0 (unit_mod rs unit) <= unit_mod rs unit ->
  let mod_ := unit_mod rs unit in
  let mask := smear 0 mod_ in
  let y := StepAddress rs unit x StepValue.Decrease false in
  y = (if x .& mask =? 0 then x + mod_ else x - 1) /\
  0 <= y < 2 ^ 16 /\ y .& mask <= mod_ /\
  y .& mask = (if x .& mask =? 0 then mod_ else x .& mask - 1).
Proof.
  intros Hx Hxl mod_ mask y. unfold mask, mod_ in *. rewrite !mask_low in *.
  unfold y. rewrite StepAddress_Decrease.
  rewrite (StepAddress_iteration_minus_1 _ mod_range) by assumption.
  set (k := block_bits (unit_mod rs unit)) in *.
  pose proof (block_bits_range _ mod_range) as Hk. fold k in Hk.
  assert (P0 : 0 < 2 ^ k) by (apply Z.pow_pos_nonneg; lia).
  pose proof (Z.mod_pos_bound x (2 ^ k) P0) as Hb.
  set (lo' := if x mod 2 ^ k =? 0 then unit_mod rs unit else x mod 2 ^ k - 1).
  assert (B : 0 <= lo' <= unit_mod rs unit) by (subst lo'; bool_arith).
  destruct (block_split x lo' Hx B) as (E & Rg & R). fold k in E, Rg, R.
  rewrite R. repeat split; try lia. rewrite E. subst lo'. bool_arith.
Qed.

(** X6.  Modulo stepping by one.  For an address unit in modulo mode ([m]
    set, [brv] clear) with a modulus [mod] in 1..511, and a 16-bit
    address [a] whose offset [a & mask] inside its block is at most [mod]
    ([mask] is the smear of [mod]): [Increase] moves the offset from [mod]
    to zero and otherwise adds one, [Decrease] moves it from zero to [mod]
    and otherwise subtracts one, whichever dialect [legacy_mod] selects.
    Both keep the address in range, so the two steps are inverse to each
    other. *)
Theorem StepAddress_Increase_Decrease (a : Z) :
  0 <= a < 2 ^ 16 -> a .& smear 0 (unit_mod rs unit) <= unit_mod rs unit ->
  let mod_ := unit_mod rs unit in
  let mask := smear 0 mod_ in
  let inc x := StepAddress rs unit x StepValue.Increase false in
  let dec x := StepAddress rs unit x StepValue.Decrease false in
  inc a = (if a .& mask =? mod_ then a - mod_ else a + 1) /\
  dec a = (if a .& mask =? 0 then a + mod_ else a - 1) /\
  0 <= inc a < 2 ^ 16 /\ inc a .& mask <= mod_ /\
  0 <= dec a < 2 ^ 16 /\ dec a .& mask <= mod_ /\
  dec (inc a) = a /\ inc (dec a) = a.
Proof.
  intros Ha Hlo mod_ mask inc dec.
  destruct (StepAddress_Increase_spec a Ha Hlo) as (I1 & I2 & I3 & I4).
  destruct (StepAddress_Decrease_spec a Ha Hlo) as (D1 & D2 & D3 & D4).
  destruct (StepAddress_Decrease_spec _ I2 I3) as (DI & _).
  destruct (StepAddress_Increase_spec _ D2 D3) as (ID & _).
  fold mod_ mask in I1, I2, I3, I4, D1, D2, D3, D4, DI, ID, Hlo.
  fold (inc a) in I1, I2, I3, I4, DI. fold (dec a) in D1, D2, D3, D4, ID.
  fold (dec (inc a)) in DI. fold (inc (dec a)) in ID.
  assert (Hb : 0 <= a .& mask).
  { unfold mask, mod_. rewrite mask_low. apply Z.mod_pos_bound.
    apply Z.pow_pos_nonneg; [ lia | ].
    pose proof (block_bits_range _ mod_range). lia. }
  repeat split; try assumption; try lia.
  - rewrite DI, I4, I1. bool_arith.
  - rewrite ID, D4, D1. bool_arith.
Qed.

(** *** The offset address in modulo mode *)

Lemma smear_1 m : 0 < m < 512 -> smear 1 m = smear 0 m.
Proof.
  intros H.
  assert (A : forallb (fun n => smear 1 (Z.of_nat n) =? smear 0 (Z.of_nat n))
                (seq 1 511) = true) by (vm_compute; reflexivity).
  rewrite forallb_forall in A. specialize (A (Z.to_nat m)).
  rewrite Z2Nat.id in A by lia. apply Z.eqb_eq, A, in_seq. lia.
Qed.

(** X7.  In modulo mode the offset by one agrees with the step by one.
    Under the conditions of X6, the address [OffsetAddress] computes for
    [PlusOne] is the one [StepAddress] computes for [Increase], and the one
    for [MinusOne] is the one for [Decrease]: the offset wraps from [mod]
    to zero and from zero to [mod].  Hence [PlusOne] and [MinusOne] are
    inverse to each other. *)
Theorem OffsetAddress_modulo (a : Z) :
  0 <= a < 2 ^ 16 -> a .& smear 0 (unit_mod rs unit) <= unit_mod rs unit ->
  let plus x := OffsetAddress_ rs unit x OffsetValue.PlusOne false in
  let minus x := OffsetAddress_ rs unit x OffsetValue.MinusOne false in
  plus a = StepAddress rs unit a StepValue.Increase false /\
  minus a = StepAddress rs unit a StepValue.Decrease false /\
  minus (plus a) = a /\ plus (minus a) = a.
Proof.
  intros Ha Hlo plus minus.
  assert (Hplus : forall x, 0 <= x < 2 ^ 16 ->
             x .& smear 0 (unit_mod rs unit) <= unit_mod rs unit ->
             plus x = StepAddress rs unit x StepValue.Increase false).
  { intros x Hx Hxl. destruct (StepAddress_Increase_spec x Hx Hxl) as (I1 & I2 & _).
    rewrite I1. unfold plus, OffsetAddress_.
    rewrite modulo_mode, not_brv. cbn [andb negb]. fold (unit_mod rs unit).
    rewrite smear_1 by exact mod_range.
    rewrite I1 in I2.
    destruct (Z.eqb_spec (x .& smear 0 (unit_mod rs unit)) (unit_mod rs unit)) as [ E | E ].
    - rewrite mask_low in E.
      rewrite smear_ones by exact mod_range. fold (block_bits (unit_mod rs unit)).
      pose proof (block_bits_range _ mod_range) as Hk.
      rewrite land_not16_ones by lia.
      pose proof (Z.div_mod x (2 ^ block_bits (unit_mod rs unit))
                    ltac:(apply Z.pow_nonzero; lia)) as DM.
      lia.
    - apply u16_small. exact I2. }
  assert (Hminus : forall x, 0 <= x < 2 ^ 16 ->
             x .& smear 0 (unit_mod rs unit) <= unit_mod rs unit ->
             minus x = StepAddress rs unit x StepValue.Decrease false).
  { intros x Hx Hxl. destruct (StepAddress_Decrease_spec x Hx Hxl) as (D1 & D2 & _).
    rewrite D1. unfold minus, OffsetAddress_.
    rewrite modulo_mode, not_brv. cbn [andb negb]. fold (unit_mod rs unit).
    rewrite smear_1 by exact mod_range.
    rewrite D1 in D2.
    destruct (Z.eqb_spec (x .& smear 0 (unit_mod rs unit)) 0) as [ E | E ].
    - rewrite mask_low in E.
      pose proof (block_bits_range _ mod_range) as Hk.
      pose proof (mod_lt_block _ mod_range) as Hm.
      pose proof (Z.div_mod x (2 ^ block_bits (unit_mod rs unit))
                    ltac:(apply Z.pow_nonzero; lia)) as DM.
      rewrite E, Z.add_0_r in DM. rewrite DM at 1.
      rewrite lor_block by lia. lia.
    - apply u16_small. exact D2. }
  destruct (StepAddress_Increase_spec a Ha Hlo) as (I1 & I2 & I3 & I4).
  destruct (StepAddress_Decrease_spec a Ha Hlo) as (D1 & D2 & D3 & D4).
  destruct (StepAddress_Decrease_spec _ I2 I3) as (DI & _).
  destruct (StepAddress_Increase_spec _ D2 D3) as (ID & _).
  assert (Hb : 0 <= a .& smear 0 (unit_mod rs unit)).
  { rewrite mask_low. apply Z.mod_pos_bound.
    apply Z.pow_pos_nonneg; [ lia | ].
    pose proof (block_bits_range _ mod_range). lia. }
  repeat split.
  - apply Hplus; assumption.
  - apply Hminus; assumption.
  - rewrite (Hplus a Ha Hlo), (Hminus _ I2 I3), DI, I4, I1. bool_arith.
  - rewrite (Hminus a Ha Hlo), (Hplus _ D2 D3), ID, D4, D1. bool_arith.
Qed.
End StepInverse.
(** *** The stack *)

Lemma push16_run v mc :
  push16 v mc =
  Ok tt {| rf := regs.set_sp (u16 (regs.sp (rf mc) - 1)) (rf mc);
           mem := {| data := upd (data (mem mc)) (u16 (regs.sp (rf mc) - 1)) v;
                     prog := prog (mem mc) |} |}.
Proof. reflexivity. Qed.

Lemma pop16_run mc :
  pop16 mc =
  Ok (data (mem mc) (regs.sp (rf mc)))
     {| rf := regs.set_sp (u16 (regs.sp (rf mc) + 1)) (rf mc); mem := mem mc |}.
Proof. reflexivity. Qed.

Lemma sp_down_up sp : 0 <= sp < 2 ^ 16 -> u16 (u16 (sp - 1) + 1) = sp.
Proof.
  intros H. unfold u16. rewrite Zplus_mod_idemp_l.
  replace (sp - 1 + 1) with sp by lia. apply Z.mod_small. exact H.
Qed.

Lemma sp_down_down_up sp : 0 <= sp < 2 ^ 16 -> u16 (u16 (u16 (sp - 1) - 1) + 1) = u16 (sp - 1).
Proof. intros H. apply sp_down_up. apply u16_range. Qed.

Lemma sp_down_neq sp : u16 (u16 (sp - 1) - 1) <> u16 (sp - 1).
Proof.
  unfold u16. rewrite Zminus_mod_idemp_l. pow_consts.
  Z.to_euclidean_division_equations. lia.
Qed.

(** X8.  The stack is last-in first-out and wraps around at 16 bits.
    From a 16-bit [sp], pushing [a] and then [b] and popping into r6 and
    then into x0 leaves [b] in r6 and [a] in x0 and restores [sp]; the two
    words went to the addresses [sp - 1] and [sp - 2], taken modulo 2^16,
    and no other data word and no program word was written. *)
Theorem push_pop_lifo (a b : Z) (mc : Machine) :
  0 <= regs.sp (rf mc) < 2 ^ 16 ->
  exists mc',
    (push_Imm16 a ;; push_Imm16 b ;; pop_r6 ;; pop_x0) mc = Ok tt mc' /\
    regs.r (rf mc') 6 = b /\ regs.x (rf mc') 0 = a /\
    regs.sp (rf mc') = regs.sp (rf mc) /\
    data (mem mc') (u16 (regs.sp (rf mc) - 1)) = a /\
    data (mem mc') (u16 (regs.sp (rf mc) - 2)) = b /\
    (forall addr, addr <> u16 (regs.sp (rf mc) - 1) -> addr <> u16 (regs.sp (rf mc) - 2) ->
                  data (mem mc') addr = data (mem mc) addr) /\
    prog (mem mc') = prog (mem mc).
Proof.
  intros Hsp.
  pose proof (sp_down_neq (regs.sp (rf mc))) as Hne.
  assert (E2 : u16 (regs.sp (rf mc) - 2) = u16 (u16 (regs.sp (rf mc) - 1) - 1)).
  { unfold u16. rewrite Zminus_mod_idemp_l. f_equal. lia. }
  rewrite E2.
  unfold push_Imm16, pop_r6, pop_x0, push16, pop16, predec_sp, postinc_sp,
    bind, gets, modify, DataWrite, DataRead, ret.
  cbn. rewrite sp_down_down_up, sp_down_up by assumption.
  eexists. split; [ reflexivity | ]. cbn.
  rewrite !upd_same. rewrite (upd_other _ _ (u16 (regs.sp (rf mc) - 1))) by congruence.
  rewrite !upd_same.
  repeat split; try reflexivity.
  intros addr N1 N2. rewrite !upd_other by assumption. reflexivity.
Qed.

Lemma join16 x : 0 <= x -> ((x >> 16) << 16) .| (x .& 0xFFFF) = x.
Proof.
  intros Hx. change 0xFFFF with (Z.ones 16). rewrite Z.land_ones by lia.
  rewrite Z.lor_comm, lor_shiftl by (try apply Z.mod_pos_bound; lia).
  rewrite Z.shiftr_div_pow2 by lia.
  pose proof (Z.div_mod x (2 ^ 16) ltac:(lia)). lia.
Qed.

Lemma SignExtend64_32_low v : SignExtend64 32 (v .& 0xFFFFFFFF) = SignExtend64 32 v.
Proof.
  change 0xFFFFFFFF with (Z.ones 32). rewrite Z.land_ones by lia.
  unfold SignExtend64, SignExtend. rewrite Z.mod_mod by lia. reflexivity.
Qed.

Lemma SE32_is_SE40 v : v = SignExtend64 32 v -> is_SE40 v.
Proof.
  intros H. apply is_SE40_iff. rewrite H. unfold SignExtend64, SignExtend.
  change (32 - 1) with 31. pow_consts.
  pose proof (Z.mod_pos_bound v 4294967296 ltac:(lia)). cbv zeta. bool_arith.
Qed.

(** X9.  [pusha] and [popa] are inverse on values that fit 32 bits.  For
    an accumulator [a] among a0, a1, b0 and b1 that holds the sign
    extension [v] of its low 32 bits, and a 16-bit [sp], [pusha a]
    followed by [popa a] puts [v] back into [a] and restores [sp]; the
    other accumulators and the saturation flag [fls] are untouched.  The
    high word is on top of the stack, at [sp - 2], the low word below it
    at [sp - 1]. *)
Theorem pusha_popa_round_trip (a : RegName) (v : Z) (mc : Machine) :
  a = RegName.a0 \/ a = RegName.a1 \/ a = RegName.b0 \/ a = RegName.b1 ->
  GetAcc a mc = Ok v mc ->
  v = SignExtend64 32 v ->
  0 <= regs.sp (rf mc) < 2 ^ 16 ->
  exists mc',
    (pusha a ;; popa a) mc = Ok tt mc' /\
    GetAcc a mc' = Ok v mc' /\
    regs.a (rf mc') 0 = regs.a (rf mc) 0 /\ regs.a (rf mc') 1 = regs.a (rf mc) 1 /\
    regs.b (rf mc') 0 = regs.b (rf mc) 0 /\ regs.b (rf mc') 1 = regs.b (rf mc) 1 /\
    regs.sp (rf mc') = regs.sp (rf mc) /\
    regs.fls (rf mc') = regs.fls (rf mc) /\
    data (mem mc') (u16 (regs.sp (rf mc) - 1)) = v .& 0xFFFF /\
    data (mem mc') (u16 (regs.sp (rf mc) - 2)) = (v >> 16) .& 0xFFFF.
Proof.
  intros Ha Hget Hfit Hsp.
  pose proof (SE32_is_SE40 v Hfit) as Hse. unfold is_SE40 in Hse.
  pose proof (sp_down_neq (regs.sp (rf mc))) as Hne.
  assert (E2 : u16 (regs.sp (rf mc) - 2) = u16 (u16 (regs.sp (rf mc) - 1) - 1)).
  { unfold u16. rewrite Zminus_mod_idemp_l. f_equal. lia. }
  assert (Hlow : 0 <= v .& 0xFFFFFFFF).
  { change 0xFFFFFFFF with (Z.ones 32). rewrite Z.land_ones by lia.
    apply Z.mod_pos_bound. lia. }
  assert (Hjoin : SignExtend64 32 ((((v .& 0xFFFFFFFF) >> 16) << 16)
                                   .| ((v .& 0xFFFFFFFF) .& 0xFFFF)) = v).
  { rewrite join16 by exact Hlow. rewrite SignExtend64_32_low. symmetry. exact Hfit. }
  assert (Hl : (v .& 0xFFFFFFFF) .& 0xFFFF = v .& 0xFFFF).
  { rewrite <- Z.land_assoc. reflexivity. }
  assert (Hh : (v .& 0xFFFFFFFF) >> 16 = (v >> 16) .& 0xFFFF).
  { rewrite Z.shiftr_land. reflexivity. }
  assert (Hsat : forall s m, SaturateAcc v s m = Ok v m).
  { intros s m. unfold SaturateAcc, SaturateAcc_Unconditional, bind, gets, ret.
    rewrite <- Hfit, Z.eqb_refl. cbn. destruct (regs.sar (rf m) (Z.b2z s)); reflexivity. }
  rewrite E2.
  unfold pusha, popa, SetAcc, SetAcc_, SetAccFlag.
  unfold bind at 1. unfold bind at 1. rewrite Hget.
  unfold bind at 1. rewrite Hsat.
  unfold push16, pop16, predec_sp, postinc_sp, bind, gets, modify, DataWrite, DataRead, ret.
  cbn. rewrite sp_down_down_up, sp_down_up by assumption.
  rewrite !upd_same. rewrite (upd_other _ _ (u16 (regs.sp (rf mc) - 1))) by congruence.
  rewrite !upd_same. rewrite Hjoin, <- Hse, <- Hfit, !Z.eqb_refl. cbn.
  assert (Hs2 : forall m, (if negb (regs.sar (rf mc) (Z.b2z true))
                           then SaturateAcc_Unconditional v else ret v) m = Ok v m).
  { intros m. unfold SaturateAcc_Unconditional, ret. rewrite <- Hfit, Z.eqb_refl. cbn.
    destruct (regs.sar (rf mc) (Z.b2z true)); reflexivity. }
  rewrite Hs2.
  destruct Ha as [-> | [-> | [-> | ->]]];
    unfold GetAcc, gets in Hget; injection Hget as Hget;
    cbn; (eexists; split; [ reflexivity | ]); cbn;
    rewrite ?upd_same; unfold upd; cbn;
    rewrite Hl, Hh;
    repeat split; try reflexivity; try congruence;
    repeat match goal with
      | |- context [ ?x =? ?y ] => destruct (Z.eqb_spec x y)
      end; congruence.
Qed.

(** *** Call and return *)

Lemma pc_join pc :
  0 <= pc < 2 ^ 18 -> (pc .& 0xFFFF) .| (((pc >> 16) .& 3) << 16) = pc.
Proof.
  intros H. change 0xFFFF with (Z.ones 16). change 3 with (Z.ones 2).
  rewrite !Z.land_ones, Z.shiftr_div_pow2 by lia.
  rewrite lor_shiftl by (try apply Z.mod_pos_bound; lia).
  change (2 ^ 18) with 262144 in H. change (2 ^ 2) with 4. pow_consts.
  Z.to_euclidean_division_equations. lia.
Qed.

(** X10.  A call returns to where it came from.  With a program counter
    below 2^18 and a 16-bit [sp], [call] (its condition passing) pushes
    the two halves of [pc] and jumps to the target; if the code that
    follows comes back with the same [sp], leaves the two pushed words and
    [pc_endian] alone, then [ret] (its condition passing) restores [pc]
    and [sp], for either order [pc_endian] selects for the two halves. *)
Theorem call_ret_round_trip (low high : Z) (cond cond' : Cond) (body : M void)
    (mc : Machine) :
  (forall rs, ConditionPass rs cond = true) ->
  (forall rs, ConditionPass rs cond' = true) ->
  0 <= regs.pc (rf mc) < 2 ^ 18 ->
  0 <= regs.sp (rf mc) < 2 ^ 16 ->
  (forall m1, exists m2,
      body m1 = Ok tt m2 /\
      regs.sp (rf m2) = regs.sp (rf m1) /\
      regs.pc_endian (rf m2) = regs.pc_endian (rf m1) /\
      data (mem m2) (regs.sp (rf m1)) = data (mem m1) (regs.sp (rf m1)) /\
      data (mem m2) (u16 (regs.sp (rf m1) + 1)) = data (mem m1) (u16 (regs.sp (rf m1) + 1))) ->
  exists mc1 mc',
    call low high cond mc = Ok tt mc1 /\
    regs.pc (rf mc1) = low .| (high << 16) /\
    regs.sp (rf mc1) = u16 (regs.sp (rf mc) - 2) /\
    (call low high cond ;; body ;; ret_ cond') mc = Ok tt mc' /\
    regs.pc (rf mc') = regs.pc (rf mc) /\
    regs.sp (rf mc') = regs.sp (rf mc).
Proof.
  intros Hc Hc' Hpc Hsp Hbody.
  pose proof (sp_down_neq (regs.sp (rf mc))) as Hne.
  assert (E2 : u16 (regs.sp (rf mc) - 2) = u16 (u16 (regs.sp (rf mc) - 1) - 1)).
  { unfold u16. rewrite Zminus_mod_idemp_l. f_equal. lia. }
  rewrite E2.
  unfold call, ret_, PushPC, PopPC, predec_sp, postinc_sp, SetPC, GetPcL, GetPcH,
    bind, gets, modify, when, DataWrite, DataRead, ret.
  rewrite Hc.
  destruct (regs.pc_endian (rf mc) =? 1) eqn:He; cbn;
    match goal with
    | |- context [ body ?m ] =>
        destruct (Hbody m) as (m2 & Hb & Hsp2 & Hen2 & Hd1 & Hd2); rewrite Hb
    end;
    cbn in Hsp2, Hen2, Hd1, Hd2;
    rewrite sp_down_down_up in Hd2 by assumption;
    rewrite upd_same in Hd1;
    rewrite upd_other, upd_same in Hd2 by congruence;
    rewrite Hc', Hen2, He, Hsp2, Hd1; cbn;
    rewrite sp_down_down_up, Hd2, sp_down_up by assumption;
    (eexists; eexists; split; [ reflexivity | ]); cbn;
    (split; [ reflexivity | ]); (split; [ reflexivity | ]);
    (split; [ reflexivity | ]); cbn;
    (split; [ apply pc_join; exact Hpc | reflexivity ]).
Qed.
(** *** The guard on the program counter *)

Lemma land_ones_range v k : 0 <= k -> 0 <= v .& Z.ones k < 2 ^ k.
Proof.
  intros Hk. rewrite Z.land_ones by lia. apply Z.mod_pos_bound.
  apply Z.pow_pos_nonneg; lia.
Qed.

(** X11.  Where the guard of [SetPC_Save] can fire.  [mov_pc] moves the
    low 32 bits of an accumulator to [pc] when they are below 0x40000 and
    otherwise throws "pc flies" and changes nothing.  [calla] cannot
    throw: for an [Ax] operand it masks the target to 18 bits and for an
    [Axl] operand the target is a 16-bit word, so after pushing the return
    address it always sets [pc], to a value below 2^18. *)
Theorem SetPC_Save_guard (a : RegName) (v : Z) (mc : Machine) :
  GetAcc a mc = Ok v mc ->
  mov_pc a mc =
    (if v .& 0xFFFFFFFF <? 0x40000
     then Ok tt {| rf := regs.set_pc (v .& 0xFFFFFFFF) (rf mc); mem := mem mc |}
     else Throw "pc flies" mc) /\
  (a = RegName.a0 \/ a = RegName.a1 ->
   exists mc1 mc',
     PushPC mc = Ok tt mc1 /\
     calla_Ax a mc = Ok tt mc' /\
     mc' = {| rf := regs.set_pc (v .& 0x3FFFF) (rf mc1); mem := mem mc1 |} /\
     0 <= regs.pc (rf mc') < 2 ^ 18) /\
  (a = RegName.a0l \/ a = RegName.a1l ->
   exists mc1 mc',
     PushPC mc = Ok tt mc1 /\
     calla_Axl a mc = Ok tt mc' /\
     mc' = {| rf := regs.set_pc (v .& 0xFFFF) (rf mc1); mem := mem mc1 |} /\
     0 <= regs.pc (rf mc') < 2 ^ 16).
Proof.
  intros Hget.
  assert (Hpush : exists mc1, PushPC mc = Ok tt mc1 /\
                    regs.a (rf mc1) = regs.a (rf mc) /\ regs.b (rf mc1) = regs.b (rf mc)).
  { unfold PushPC, predec_sp, bind, gets, modify, DataWrite.
    destruct (regs.pc_endian (rf mc) =? 1); cbn; eexists; repeat split. }
  destruct Hpush as (mc1 & Hpush & Ha & Hb).
  assert (R18 : 0 <= v .& 0x3FFFF < 2 ^ 18) by (apply (land_ones_range v 18); lia).
  assert (R16 : 0 <= v .& 0xFFFF < 2 ^ 16) by (apply (land_ones_range v 16); lia).
  split; [ | split ].
  - unfold mov_pc, bind. rewrite Hget. unfold SetPC_Save, throw, modify.
    destruct (Z.leb_spec 0x40000 (v .& 0xFFFFFFFF)); bool_arith.
  - intros Hax. exists mc1. eexists. split; [ exact Hpush | ].
    unfold calla_Ax, bind. rewrite Hpush.
    assert (Hget1 : GetAcc a mc1 = Ok v mc1).
    { destruct Hax as [-> | ->]; unfold GetAcc, gets in *; injection Hget as Hget;
        rewrite Ha, Hget; reflexivity. }
    rewrite Hget1. unfold SetPC_Save, modify.
    change (2 ^ 18) with 262144 in R18.
    destruct (Z.leb_spec 0x40000 (v .& 0x3FFFF)); [ lia | ].
    split; [ reflexivity | ]. split; [ reflexivity | ]. cbn.
    change (2 ^ 18) with 262144. exact R18.
  - intros Hax. exists mc1. eexists. split; [ exact Hpush | ].
    unfold calla_Axl, bind. rewrite Hpush.
    assert (Hbus : RegToBus16 a mc1 = Ok (v .& 0xFFFF) mc1).
    { destruct Hax as [-> | ->]; unfold GetAcc, gets in Hget; injection Hget as Hget;
        unfold RegToBus16, RegToBus16_, GetAcc, bind, gets, ret;
        rewrite Ha, Hget; reflexivity. }
    rewrite Hbus. unfold SetPC_Save, modify. pow_consts.
    destruct (Z.leb_spec 0x40000 (v .& 0xFFFF)); [ lia | ].
    split; [ reflexivity | ]. split; [ reflexivity | ]. cbn. exact R16.
Qed.
(** *** Block repeat under [Run] *)

Section BlockLoop.
Variable decoders : Z -> Matcher.
Variables (P k addr : Z) (body : list Inst).
Local Abbreviation m := (Z.of_nat (List.length body)).
Hypothesis P_range : 0 <= P /\ P + 2 + m < 2 ^ 32.
Hypothesis k_range : 0 <= k < 2 ^ 16.
Hypothesis body_nonempty : body <> [].
Hypothesis body_steady : forall i, In i body -> loop_steady i.
Hypothesis addr_end : addr .| ((P + 2) .& 0x30000) = P + 1 + m.

Lemma bkrep_program_ext mc mc' :
  (forall a, prog (mem mc') a = prog (mem mc) a) ->
  bkrep_program decoders P k addr body mc -> bkrep_program decoders P k addr body mc'.
Proof.
  unfold bkrep_program. intros E (H1 & H2 & H3). rewrite !E.
  repeat split; try assumption; rewrite !E; apply (H3 j i H).
Qed.

Lemma Run_bkrep_inside mc :
  u32 (end_ (regs.bkrep_stack (rf mc) (regs.bcn (rf mc) - 1)) + 1) <> regs.pc (rf mc) ->
  Run_bkrep mc = Ok tt mc.
Proof.
  intros H. unfold Run_bkrep, bind, get_regs, when.
  destruct (Z.eqb_spec (u32 (end_ (regs.bkrep_stack (rf mc) (regs.bcn (rf mc) - 1)) + 1))
              (regs.pc (rf mc))); [ contradiction | ].
  rewrite andb_false_r. destruct mc; reflexivity.
Qed.

Lemma Run_bkrep_again mc :
  regs.lp (rf mc) = true ->
  u32 (end_ (regs.bkrep_stack (rf mc) (regs.bcn (rf mc) - 1)) + 1) = regs.pc (rf mc) ->
  lc (regs.bkrep_stack (rf mc) (regs.bcn (rf mc) - 1)) <> 0 ->
  Run_bkrep mc =
  Ok tt {| rf := regs.set_pc (start (regs.bkrep_stack (rf mc) (regs.bcn (rf mc) - 1)))
                   (set_frame_lc (regs.bcn (rf mc) - 1)
                      (u16 (lc (regs.bkrep_stack (rf mc) (regs.bcn (rf mc) - 1)) - 1))
                      (rf mc));
           mem := mem mc |}.
Proof.
  intros Hlp He Hc. unfold Run_bkrep, bind, get_regs, when, modify.
  rewrite Hlp, He, Z.eqb_refl. cbn [andb].
  destruct (Z.eqb_spec (lc (regs.bkrep_stack (rf mc) (regs.bcn (rf mc) - 1))) 0);
    [ contradiction | ].
  cbn. rewrite upd_same. reflexivity.
Qed.

Lemma Run_bkrep_exit mc :
  regs.lp (rf mc) = true ->
  u32 (end_ (regs.bkrep_stack (rf mc) (regs.bcn (rf mc) - 1)) + 1) = regs.pc (rf mc) ->
  lc (regs.bkrep_stack (rf mc) (regs.bcn (rf mc) - 1)) = 0 ->
  Run_bkrep mc =
  Ok tt {| rf := regs.set_lp (nz (u16 (regs.bcn (rf mc) - 1)))
                   (regs.set_bcn (u16 (regs.bcn (rf mc) - 1)) (rf mc));
           mem := mem mc |}.
Proof.
  intros Hlp He Hc. unfold Run_bkrep, bind, get_regs, when, modify.
  rewrite Hlp, He, Z.eqb_refl, Hc. reflexivity.
Qed.

Lemma Run_log_one mc i mc1 mc2 :
  Run_fetch decoders mc = Ok i mc1 ->
  (exec i ;; Run_interrupts) mc1 = Ok tt mc2 ->
  Run_log decoders 1 mc = ([i], Ok tt mc2).
Proof. intros E1 E2. rewrite Run_log_S, E1, E2. reflexivity. Qed.

Lemma Run_log_app a : forall b mc l1 mc1 l2 o,
  Run_log decoders a mc = (l1, Ok tt mc1) ->
  Run_log decoders b mc1 = (l2, o) ->
  Run_log decoders (a + b) mc = (l1 ++ l2, o).
Proof.
  induction a as [ | a IH ]; intros b mc l1 mc1 l2 o E1 E2.
  - cbn in E1. injection E1 as <- <-. exact E2.
  - change (S a + b)%nat with (S (a + b)). rewrite Run_log_S in E1 |- *.
    destruct (Run_fetch decoders mc) as [ i mcf | msg mcf ]; [ | discriminate ].
    destruct ((exec i ;; Run_interrupts) mcf) as [ [] mcx | msg mcx ]; [ | discriminate ].
    destruct (Run_log decoders a mcx) as [ la oa ] eqn:Ea.
    injection E1 as <- ->.
    rewrite (IH b mcx la mc1 l2 o Ea E2). reflexivity.
Qed.

(** One cycle inside the block. *)
Lemma block_cycle mc j c i :
  bkrep_program decoders P k addr body mc ->
  in_block P m (Z.of_nat j) c mc ->
  nth_error body j = Some i ->
  0 <= c < 2 ^ 16 ->
  exists mc',
    Run_log decoders 1 mc = ([i], Ok tt mc') /\
    bkrep_program decoders P k addr body mc' /\
    (if Z.of_nat j + 1 <? m then in_block P m (Z.of_nat j + 1) c mc'
     else if c =? 0 then after_block P m mc'
     else in_block P m 0 (c - 1) mc').
Proof.
  intros HP (Hpc & Hlp & Hbcn & Hf & Hrep & Hie) Hi Hc.
  pose proof HP as (_ & _ & Hbody). destruct (Hbody j i Hi) as (HN & HC).
  assert (Hj : Z.of_nat j < m).
  { apply Nat2Z.inj_lt. apply nth_error_Some. rewrite Hi. discriminate. }
  assert (Hin : In i body) by (eapply nth_error_In; exact Hi).
  assert (EF0 : Run_fetch decoders mc =
                (Run_bkrep ;; ret i)
                  {| rf := regs.set_pc (P + 2 + Z.of_nat j + 1) (rf mc); mem := mem mc |}).
  { rewrite Run_fetch_plain by (rewrite Hpc; exact HN).
    unfold bind at 1. rewrite Run_rep_off by exact Hrep.
    rewrite Hpc, HC, u32_small by lia. reflexivity. }
  set (mcf := {| rf := regs.set_pc (P + 2 + Z.of_nat j + 1) (rf mc); mem := mem mc |}) in *.
  assert (Hend : u32 (end_ (regs.bkrep_stack (rf mcf) (regs.bcn (rf mcf) - 1)) + 1)
                 = P + 2 + m).
  { cbn. rewrite Hbcn. change (1 - 1) with 0. rewrite Hf. cbn.
    rewrite u32_small by lia. lia. }
  assert (Hlc : lc (regs.bkrep_stack (rf mcf) (regs.bcn (rf mcf) - 1)) = c).
  { cbn. rewrite Hbcn. change (1 - 1) with 0. rewrite Hf. reflexivity. }
  assert (Hst : start (regs.bkrep_stack (rf mcf) (regs.bcn (rf mcf) - 1)) = P + 2).
  { cbn. rewrite Hbcn. change (1 - 1) with 0. rewrite Hf. reflexivity. }
  assert (Finish : forall mcb,
             Run_bkrep mcf = Ok tt mcb ->
             mem mcb = mem mc -> regs.ie (rf mcb) = false ->
             exists mc',
               Run_log decoders 1 mc = ([i], Ok tt mc') /\
               bkrep_program decoders P k addr body mc' /\
               regs.pc (rf mc') = regs.pc (rf mcb) /\
               regs.rep (rf mc') = regs.rep (rf mcb) /\
               regs.lp (rf mc') = regs.lp (rf mcb) /\
               regs.bcn (rf mc') = regs.bcn (rf mcb) /\
               regs.ie (rf mc') = regs.ie (rf mcb) /\
               regs.bkrep_stack (rf mc') 0 = regs.bkrep_stack (rf mcb) 0).
  { intros mcb Eb Em Hieb.
    destruct (body_steady i Hin mcb) as (mc' & E1 & S1 & S2 & S3 & S4 & S5 & S6 & S7).
    exists mc'. split; [ | split ].
    - apply Run_log_one with mcb.
      + rewrite EF0. unfold bind. rewrite Eb. reflexivity.
      + unfold bind. rewrite E1. apply Run_interrupts_off. rewrite S5. exact Hieb.
    - apply bkrep_program_ext with mc; [ | exact HP ].
      intros a. rewrite S7, Em. reflexivity.
    - repeat split; try assumption. apply S6. }
  destruct (Z.ltb_spec (Z.of_nat j + 1) m) as [ Hin_ | Hlast ].
  - destruct (Finish mcf) as (mc' & EL & HP' & F1 & F2 & F3 & F4 & F5 & F6).
    + apply Run_bkrep_inside. rewrite Hend. cbn. lia.
    + reflexivity.
    + exact Hie.
    + exists mc'. split; [ exact EL | ]. split; [ exact HP' | ].
      unfold in_block. rewrite F1, F2, F3, F4, F5, F6. cbn.
      repeat split; try assumption. lia.
  - destruct (Z.eqb_spec c 0) as [ Hc0 | Hc0 ].
    + destruct (Finish {| rf := regs.set_lp (nz (u16 (regs.bcn (rf mcf) - 1)))
                               (regs.set_bcn (u16 (regs.bcn (rf mcf) - 1)) (rf mcf));
                          mem := mem mcf |})
        as (mc' & EL & HP' & F1 & F2 & F3 & F4 & F5 & F6).
      * apply Run_bkrep_exit; [ exact Hlp | rewrite Hend; cbn; lia | rewrite Hlc; exact Hc0 ].
      * reflexivity.
      * exact Hie.
      * exists mc'. split; [ exact EL | ]. split; [ exact HP' | ].
        unfold after_block. rewrite F1, F2, F3, F4, F5. cbn. rewrite Hbcn.
        repeat split; try assumption; try reflexivity. lia.
    + destruct (Finish {| rf := regs.set_pc
                                  (start (regs.bkrep_stack (rf mcf) (regs.bcn (rf mcf) - 1)))
                                  (set_frame_lc (regs.bcn (rf mcf) - 1)
                                     (u16 (lc (regs.bkrep_stack (rf mcf)
                                                 (regs.bcn (rf mcf) - 1)) - 1))
                                     (rf mcf));
                          mem := mem mcf |})
        as (mc' & EL & HP' & F1 & F2 & F3 & F4 & F5 & F6).
      * apply Run_bkrep_again; [ exact Hlp | rewrite Hend; cbn; lia | rewrite Hlc; exact Hc0 ].
      * reflexivity.
      * exact Hie.
      * exists mc'. split; [ exact EL | ]. split; [ exact HP' | ].
        unfold in_block. rewrite F1, F2, F3, F4, F5, F6. rewrite Hst, Hlc. cbn.
        rewrite Hbcn. change (1 - 1) with 0. rewrite upd_same, Hf. cbn.
        rewrite u16_small by lia.
        repeat split; try assumption; try reflexivity. lia.
Qed.

Lemma firstn_S_nth {A : Type} (l : list A) : forall n x,
  nth_error l n = Some x -> firstn (S n) l = firstn n l ++ [x].
Proof.
  induction l as [ | y l IH ]; intros [ | n ] x H; try discriminate.
  - injection H as ->. reflexivity.
  - cbn [firstn app]. f_equal. apply IH. exact H.
Qed.

(** The first [n] instructions of a pass. *)
Lemma block_prefix c (n : nat) : forall mc,
  (n < List.length body)%nat ->
  0 <= c < 2 ^ 16 ->
  bkrep_program decoders P k addr body mc ->
  in_block P m 0 c mc ->
  exists mc',
    Run_log decoders n mc = (firstn n body, Ok tt mc') /\
    bkrep_program decoders P k addr body mc' /\
    in_block P m (Z.of_nat n) c mc'.
Proof.
  induction n as [ | n IH ]; intros mc Hn Hc HP Hin.
  - exists mc. split; [ reflexivity | split; [ exact HP | exact Hin ] ].
  - destruct (IH mc ltac:(lia) Hc HP Hin) as (mc1 & E1 & HP1 & Hin1).
    destruct (nth_error body n) as [ i | ] eqn:Hi;
      [ | apply nth_error_None in Hi; lia ].
    destruct (block_cycle mc1 n c i HP1 Hin1 Hi Hc) as (mc2 & E2 & HP2 & Hin2).
    destruct (Z.ltb_spec (Z.of_nat n + 1) m); [ | lia ].
    exists mc2. split; [ | split; [ exact HP2 | ] ].
    + replace (S n) with (n + 1)%nat by lia.
      rewrite (Run_log_app n 1 mc _ mc1 _ _ E1 E2).
      rewrite Nat.add_1_r, (firstn_S_nth body n i Hi). reflexivity.
    + rewrite Nat2Z.inj_succ. replace (Z.succ (Z.of_nat n)) with (Z.of_nat n + 1) by lia.
      exact Hin2.
Qed.

(** One pass through the block. *)
Lemma block_pass c mc :
  0 <= c < 2 ^ 16 ->
  bkrep_program decoders P k addr body mc ->
  in_block P m 0 c mc ->
  exists mc',
    Run_log decoders (List.length body) mc = (body, Ok tt mc') /\
    bkrep_program decoders P k addr body mc' /\
    (if c =? 0 then after_block P m mc' else in_block P m 0 (c - 1) mc').
Proof.
  intros Hc HP Hin.
  assert (Hlen : (0 < List.length body)%nat).
  { destruct body; [ contradiction | cbn; lia ]. }
  destruct (block_prefix c (List.length body - 1) mc ltac:(lia) Hc HP Hin)
    as (mc1 & E1 & HP1 & Hin1).
  destruct (nth_error body (List.length body - 1)) as [ i | ] eqn:Hi;
    [ | apply nth_error_None in Hi; lia ].
  destruct (block_cycle mc1 _ c i HP1 Hin1 Hi Hc) as (mc2 & E2 & HP2 & Hin2).
  destruct (Z.ltb_spec (Z.of_nat (List.length body - 1) + 1) m); [ lia | ].
  exists mc2. split; [ | split; [ exact HP2 | exact Hin2 ] ].
  replace (List.length body) with (List.length body - 1 + 1)%nat at 1 by lia.
  rewrite (Run_log_app _ 1 mc _ mc1 _ _ E1 E2).
  rewrite <- (firstn_S_nth body _ i Hi).
  replace (S (List.length body - 1)) with (List.length body) by lia.
  rewrite firstn_all. reflexivity.
Qed.

(** All the passes. *)
Lemma block_loop (n : nat) : forall mc,
  Z.of_nat n < 2 ^ 16 ->
  bkrep_program decoders P k addr body mc ->
  in_block P m 0 (Z.of_nat n) mc ->
  exists mc',
    Run_log decoders (S n * List.length body) mc
      = (List.concat (repeat body (S n)), Ok tt mc') /\
    after_block P m mc'.
Proof.
  induction n as [ | n IH ]; intros mc Hn HP Hin.
  - destruct (block_pass 0 mc ltac:(cbn; lia) HP Hin) as (mc1 & E1 & HP1 & Hout).
    change (0 =? 0) with true in Hout. cbv iota in Hout.
    exists mc1. split; [ | exact Hout ].
    rewrite Nat.mul_1_l. cbn [repeat List.concat]. rewrite app_nil_r. exact E1.
  - destruct (block_pass (Z.of_nat (S n)) mc ltac:(lia) HP Hin) as (mc1 & E1 & HP1 & Hin1).
    destruct (Z.eqb_spec (Z.of_nat (S n)) 0) as [ E | _ ]; [ lia | ].
    replace (Z.of_nat (S n) - 1) with (Z.of_nat n) in Hin1 by lia.
    destruct (IH mc1 ltac:(lia) HP1 Hin1) as (mc' & E2 & Hout).
    exists mc'. split; [ | exact Hout ].
    change (S (S n) * List.length body)%nat
      with (List.length body + S n * List.length body)%nat.
    rewrite (Run_log_app _ _ mc _ mc1 _ _ E1 E2). reflexivity.
Qed.

Lemma Run_fetch_expand mc :
  NeedExpansion (decoders (prog (mem mc) (regs.pc (rf mc)))) = true ->
  Run_fetch decoders mc =
  (Run_rep ;; Run_bkrep ;;
   ret (decoder_call (decoders (prog (mem mc) (regs.pc (rf mc))))
          (prog (mem mc) (regs.pc (rf mc)))
          (prog (mem mc) (u32 (regs.pc (rf mc) + 1)))))
    {| rf := regs.set_pc (u32 (u32 (regs.pc (rf mc) + 1) + 1)) (rf mc); mem := mem mc |}.
Proof.
  intros H. unfold Run_fetch. unfold bind at 1. rewrite fetch_eq.
  unfold bind at 1. rewrite H. rewrite fetch_eq. reflexivity.
Qed.

(** X12.  A block repeat runs its body [k + 1] times.  Let the words at
    [P] and [P + 1] decode to [bkrep k, addr] and the words from [P + 2]
    on to the one-word instructions of the non-empty list [body], none of
    which throws or touches the PC, the repeat and block-repeat state,
    [ie] or the program memory; let [addr], completed by the page bits of
    the PC, be the address of the last of them.  Started at [pc = P]
    outside any loop, [Run] dispatches [bkrep] and then the whole body
    [k + 1] times over, in that order, in its next
    [1 + (k + 1) * length body] cycles; after that the frame is popped
    ([bcn = 0], [lp] clear) and the PC is just past the block. *)
Theorem bkrep_executes_body_k_plus_1_times (mc : Machine) :
  bkrep_program decoders P k addr body mc ->
  regs.pc (rf mc) = P -> regs.rep (rf mc) = false ->
  regs.lp (rf mc) = false -> regs.bcn (rf mc) = 0 -> regs.ie (rf mc) = false ->
  exists mc',
    Run_log decoders (S (S (Z.to_nat k) * List.length body)) mc =
      (I_bkrep_Imm8 k addr :: List.concat (repeat body (S (Z.to_nat k))), Ok tt mc') /\
    after_block P m mc'.
Proof.
  intros HP Hpc Hrep Hlp Hbcn Hie.
  pose proof HP as (HN & HC & _).
  set (mcf := {| rf := regs.set_pc (P + 2) (rf mc); mem := mem mc |}).
  assert (EF : Run_fetch decoders mc = Ok (I_bkrep_Imm8 k addr) mcf).
  { rewrite Run_fetch_expand by (rewrite Hpc; exact HN).
    unfold bind at 1. rewrite Run_rep_off by assumption.
    unfold bind at 1. rewrite Run_bkrep_off by assumption.
    rewrite Hpc, (u32_small (P + 1)) by lia. rewrite HC, u32_small by lia.
    unfold ret, mcf. do 3 f_equal. lia. }
  assert (EX : exists mc1,
             (exec (I_bkrep_Imm8 k addr) ;; Run_interrupts) mcf = Ok tt mc1 /\
             in_block P m 0 k mc1 /\ mem mc1 = mem mc).
  { unfold mcf.
    unfold exec, bkrep_Imm8, BlockRepeat, Run_interrupts, bind, gets, get_regs, modify, when.
    cbn. rewrite Hbcn. change (3 <? 0) with false. cbn. rewrite Hie. cbn.
    eexists. split; [ reflexivity | ]. split; [ | reflexivity ].
    unfold in_block. cbn. rewrite Hbcn, !upd_same. cbn. rewrite addr_end.
    repeat split; try assumption; try reflexivity. lia. }
  destruct EX as (mc1 & EX & Hin1 & Hm1).
  destruct (block_loop (Z.to_nat k) mc1) as (mc' & EL & Hout).
  - rewrite Z2Nat.id by lia. lia.
  - apply bkrep_program_ext with mc; [ rewrite Hm1; reflexivity | exact HP ].
  - rewrite Z2Nat.id by lia. exact Hin1.
  - exists mc'. split; [ | exact Hout ].
    rewrite Run_log_S, EF, EX, EL. reflexivity.
Qed.
End BlockLoop.
(** *** Entering and leaving a block repeat by hand *)

(** X13.  [break] undoes the push of [bkrep].  With at most three loops
    under way ([bcn] in 0..3, [lp] set exactly when [bcn] is positive),
    [BlockRepeat lc address] followed by [break_] restores [bcn] and [lp];
    the frame [bkrep_stack[bcn]] keeps the values the push stored there,
    the other frames, the PC and the memory are as before: [break_] does
    not jump.  Outside a loop ([lp] clear) [break_] throws "not in a loop"
    and changes nothing. *)
Theorem BlockRepeat_break (lc_ address : Z) (mc : Machine) :
  0 <= regs.bcn (rf mc) <= 3 ->
  (regs.lp (rf mc) = true <-> 0 < regs.bcn (rf mc)) ->
  (exists mc',
     (BlockRepeat lc_ address ;; break_) mc = Ok tt mc' /\
     regs.bcn (rf mc') = regs.bcn (rf mc) /\
     regs.lp (rf mc') = regs.lp (rf mc) /\
     regs.pc (rf mc') = regs.pc (rf mc) /\
     regs.bkrep_stack (rf mc') (regs.bcn (rf mc))
       = {| start := regs.pc (rf mc); end_ := address; lc := lc_ |} /\
     (forall i, i <> regs.bcn (rf mc) ->
                regs.bkrep_stack (rf mc') i = regs.bkrep_stack (rf mc) i) /\
     mem mc' = mem mc) /\
  (regs.lp (rf mc) = false -> break_ mc = Throw "not in a loop" mc).
Proof.
  intros Hb Hlp. split.
  - unfold BlockRepeat, break_, bind, gets, modify.
    destruct (Z.ltb_spec 3 (regs.bcn (rf mc))); [ lia | ]. cbn.
    assert (E1 : u16 (u16 (regs.bcn (rf mc) + 1) - 1) = regs.bcn (rf mc)).
    { rewrite (u16_small (regs.bcn (rf mc) + 1)) by (pow_consts; lia).
      replace (regs.bcn (rf mc) + 1 - 1) with (regs.bcn (rf mc)) by lia.
      apply u16_small. pow_consts. lia. }
    rewrite E1.
    eexists. split; [ reflexivity | ].
    unfold set_frame_lc, set_frame_end, set_frame_start, set_frame. cbn.
    rewrite !upd_same. cbn.
    repeat split.
    + unfold nz. destruct (Z.eqb_spec (regs.bcn (rf mc)) 0) as [ E | E ]; cbn.
      * destruct (regs.lp (rf mc)); [ | reflexivity ].
        assert (0 < regs.bcn (rf mc)) by (apply Hlp; reflexivity). lia.
      * symmetry. apply Hlp. lia.
    + intros i Hi. rewrite !upd_other by exact Hi. reflexivity.
  - intros H. unfold break_, bind, gets, throw. rewrite H. reflexivity.
Qed.

(** *** Saving and restoring a block-repeat frame *)

Lemma frame_flag (lp : bool) (hi : Z) :
  0 <= hi < 4 ->
  let flag := u16 (u16 (u16 (Z.b2z lp << 15) .| hi) .| (hi << 8)) in
  nz (u16 (flag >> 15)) = lp /\ flag .& 3 = hi /\ (flag >> 8) .& 3 = hi.
Proof.
  intros H flag. subst flag.
  assert (hi = 0 \/ hi = 1 \/ hi = 2 \/ hi = 3) as [-> | [-> | [-> | ->]]] by lia;
    destruct lp; vm_compute; repeat split.
Qed.

Lemma join_low_high x : 0 <= x -> (x .& 0xFFFF) .| ((x >> 16) << 16) = x.
Proof. intros H. rewrite Z.lor_comm. apply join16. exact H. Qed.

Lemma stack_slots sp :
  0 <= sp < 2 ^ 16 ->
  let a1 := u16 (sp - 1) in
  let a2 := u16 (a1 - 1) in
  let a3 := u16 (a2 - 1) in
  let a4 := u16 (a3 - 1) in
  u16 (a4 + 1) = a3 /\ u16 (a3 + 1) = a2 /\ u16 (a2 + 1) = a1 /\ u16 (a1 + 1) = sp /\
  a3 <> a2 /\ a3 <> a1 /\ a3 <> sp /\ a2 <> a1 /\ a2 <> sp /\ a1 <> sp.
Proof.
  intros H a1 a2 a3 a4. subst a1 a2 a3 a4. unfold u16. pow_consts.
  repeat split; Z.to_euclidean_division_equations; lia.
Qed.

Lemma StoreBlockRepeat_sp_run mc :
  let f := regs.bkrep_stack (rf mc) 0 in
  let sp := regs.sp (rf mc) in
  let flag := u16 (u16 (u16 (Z.b2z (regs.lp (rf mc)) << 15) .| (start f >> 16))
                   .| ((start f >> 16) << 8)) in
  exists mcs,
    StoreBlockRepeat ref_sp mc = Ok tt mcs /\
    regs.sp (rf mcs) = u16 (u16 (u16 (u16 (sp - 1) - 1) - 1) - 1) /\
    data (mem mcs) =
      upd (upd (upd (upd (data (mem mc)) sp (lc f))
                  (u16 (sp - 1)) (start f .& 0xFFFF))
             (u16 (u16 (sp - 1) - 1)) (end_ f .& 0xFFFF))
        (u16 (u16 (u16 (sp - 1) - 1) - 1)) flag /\
    (regs.lp (rf mc) = false ->
     regs.lp (rf mcs) = false /\ regs.bcn (rf mcs) = regs.bcn (rf mc) /\
     regs.bkrep_stack (rf mcs) = regs.bkrep_stack (rf mc)) /\
    (regs.lp (rf mc) = true -> regs.bcn (rf mc) = 1 ->
     regs.lp (rf mcs) = false /\ regs.bcn (rf mcs) = 0 /\
     regs.bkrep_stack (rf mcs) = regs.bkrep_stack (rf mc)) /\
    (regs.lp (rf mc) = true -> regs.bcn (rf mc) = 2 ->
     regs.lp (rf mcs) = true /\ regs.bcn (rf mcs) = 1 /\
     regs.bkrep_stack (rf mcs)
       = upd (regs.bkrep_stack (rf mc)) 0 (regs.bkrep_stack (rf mc) 1)).
Proof.
  intros f sp flag.
  unfold StoreBlockRepeat, postdec, ref_sp, bind, gets, modify, DataWrite, when, ret.
  cbn. fold f sp flag.
  destruct (regs.lp (rf mc)) eqn:Elp; cbn.
  - destruct (Z.eq_dec (regs.bcn (rf mc)) 1) as [ E1 | N1 ].
    + rewrite E1. change (u16 (1 - 1) =? 0) with true.
      change (Z.to_nat (1 - 1)) with 0%nat. cbn.
      eexists. split; [ reflexivity | ]. cbn.
      repeat split; try discriminate; intros; repeat split;
        first [ reflexivity | lia | congruence ].
    + destruct (Z.eq_dec (regs.bcn (rf mc)) 2) as [ E2 | N2 ].
      * rewrite E2. change (u16 (2 - 1) =? 0) with false.
        change (Z.to_nat (2 - 1)) with 1%nat. change (u16 (2 - 1)) with 1. cbn.
        eexists. split; [ reflexivity | ]. cbn.
        repeat split; try discriminate; intros; repeat split;
          first [ reflexivity | lia | congruence ].
      * destruct (u16 (regs.bcn (rf mc) - 1) =? 0);
          (eexists; split; [ reflexivity | ]); cbn;
          repeat split; try discriminate; intros; contradiction.
  - eexists. split; [ reflexivity | ]. cbn.
    repeat split; try discriminate; exact Elp.
Qed.

Lemma copy_backward_one {T : Type} (arr : Z -> T) :
  copy_backward 4 (Z.to_nat 1) 1 1 arr = Some (upd arr 0 (arr 0)).
Proof. reflexivity. Qed.

Lemma RestoreBlockRepeat_sp_run mcs (flag e s l : Z) :
  let sp := regs.sp (rf mcs) in
  data (mem mcs) (u16 (sp + 1)) = flag ->
  data (mem mcs) (u16 (u16 (sp + 1) + 1)) = e ->
  data (mem mcs) (u16 (u16 (u16 (sp + 1) + 1) + 1)) = s ->
  data (mem mcs) (u16 (u16 (u16 (u16 (sp + 1) + 1) + 1) + 1)) = l ->
  (regs.lp (rf mcs) = true -> regs.bcn (rf mcs) = 1 /\ nz (u16 (flag >> 15)) = true) ->
  exists mcr,
    RestoreBlockRepeat ref_sp mcs = Ok tt mcr /\
    regs.sp (rf mcr) = u16 (u16 (u16 (u16 (sp + 1) + 1) + 1) + 1) /\
    mem mcr = mem mcs /\
    regs.lp (rf mcr) = regs.lp (rf mcs) || nz (u16 (flag >> 15)) /\
    regs.bcn (rf mcr) =
      (if regs.lp (rf mcs) then 2
       else if nz (u16 (flag >> 15)) then 1 else regs.bcn (rf mcs)) /\
    (forall i, regs.bkrep_stack (rf mcr) i =
       if i =? 0 then {| start := s .| ((flag .& 3) << 16);
                         end_ := e .| (((flag >> 8) .& 3) << 16);
                         lc := l |}
       else regs.bkrep_stack (rf mcs) i).
Proof.
  intros sp. subst sp. intros Hflag He Hs Hl Hlp.
  unfold RestoreBlockRepeat, preinc, ref_sp, bind, gets, modify, DataRead, when, ret.
  cbn.
  destruct (regs.lp (rf mcs)) eqn:Elp; cbn.
  - destruct (Hlp eq_refl) as (Eb & Ev).
    rewrite Eb. change (3 <? 1) with false. cbv beta iota.
    rewrite copy_backward_one. cbn. rewrite ?Elp, ?Eb.
    rewrite Hflag, Ev. cbn. rewrite ?He, ?Hs, ?Hl, ?Hflag.
    eexists. split; [ reflexivity | ]. cbn.
    change (u16 (1 + 1)) with 2.
    do 4 (split; [ rewrite ?Elp, ?Ev, ?Eb; reflexivity | ]).
    intros i. unfold set_frame_lc, set_frame_start, set_frame_end, set_frame. cbn.
    rewrite !upd_same. cbn. unfold upd.
    destruct (Z.eqb_spec i 0); reflexivity.
  - rewrite ?Elp. rewrite Hflag.
    destruct (nz (u16 (flag >> 15))) eqn:Ev; cbn; rewrite ?He, ?Hs, ?Hl, ?Hflag;
      (eexists; split; [ reflexivity | ]); cbn;
      do 4 (split; [ rewrite ?Elp, ?Ev, ?Eb; reflexivity | ]);
      intros i; unfold set_frame_lc, set_frame_start, set_frame_end, set_frame; cbn;
      rewrite !upd_same; cbn; unfold upd;
      destruct (Z.eqb_spec i 0); reflexivity.
Qed.

(** X14.  A stored frame comes back.  Let at most two loops be under way
    ([bcn] in 0..2, [lp] set exactly when [bcn] is positive), [sp] be a
    16-bit value, and the frame [bkrep_stack[0]] have a [start] below 2^18
    and an [end] in the same 64K page as [start].  Then [bkrepsto_memsp]
    followed by [bkreprst_memsp] restores [bcn], [lp], [sp] and every
    frame of the stack.  The frame travels in four words below [sp]:
    the counter, the low halves of [start] and [end], and a flag word
    that holds [lp] in bit 15 and the page of [start] twice. *)
Theorem bkrepsto_bkreprst_round_trip (mc : Machine) :
  0 <= regs.bcn (rf mc) <= 2 ->
  (regs.lp (rf mc) = true <-> 0 < regs.bcn (rf mc)) ->
  0 <= regs.sp (rf mc) < 2 ^ 16 ->
  0 <= start (regs.bkrep_stack (rf mc) 0) < 2 ^ 18 ->
  0 <= end_ (regs.bkrep_stack (rf mc) 0) ->
  end_ (regs.bkrep_stack (rf mc) 0) >> 16 = start (regs.bkrep_stack (rf mc) 0) >> 16 ->
  exists mc',
    (bkrepsto_memsp ;; bkreprst_memsp) mc = Ok tt mc' /\
    regs.bcn (rf mc') = regs.bcn (rf mc) /\
    regs.lp (rf mc') = regs.lp (rf mc) /\
    regs.sp (rf mc') = regs.sp (rf mc) /\
    (forall i, regs.bkrep_stack (rf mc') i = regs.bkrep_stack (rf mc) i) /\
    data (mem mc') (regs.sp (rf mc)) = lc (regs.bkrep_stack (rf mc) 0).
Proof.
  intros Hb Hlp Hsp Hst Hen Hpage.
  destruct (stack_slots (regs.sp (rf mc)) Hsp)
    as (U4 & U3 & U2 & U1 & N32 & N31 & N30 & N21 & N20 & N10).
  cbv zeta in *.
  set (f := regs.bkrep_stack (rf mc) 0) in *.
  assert (Hhi : 0 <= start f >> 16 < 4).
  { rewrite Z.shiftr_div_pow2 by lia. change (2 ^ 18) with 262144 in Hst. pow_consts.
    Z.to_euclidean_division_equations. lia. }
  destruct (frame_flag (regs.lp (rf mc)) (start f >> 16) Hhi) as (F1 & F2 & F3).
  cbv zeta in F1, F2, F3.
  set (flag := u16 (u16 (u16 (Z.b2z (regs.lp (rf mc)) << 15) .| (start f >> 16))
                    .| ((start f >> 16) << 8))) in *.
  assert (Js : (start f .& 0xFFFF) .| ((flag .& 3) << 16) = start f).
  { rewrite F2. apply join_low_high. lia. }
  assert (Je : (end_ f .& 0xFFFF) .| (((flag >> 8) .& 3) << 16) = end_ f).
  { rewrite F3, <- Hpage. apply join_low_high. lia. }
  assert (Hf : {| start := start f; end_ := end_ f; lc := lc f |} = f) by (destruct f; reflexivity).
  destruct (StoreBlockRepeat_sp_run mc) as (mcs & Es & Ssp & Sdata & S0 & S1 & S2).
  cbv zeta in Ssp, Sdata. fold f in Sdata. fold flag in Sdata.
  assert (Hcases : (regs.lp (rf mc) = false /\ regs.bcn (rf mc) = 0) \/
                   (regs.lp (rf mc) = true /\ regs.bcn (rf mc) = 1) \/
                   (regs.lp (rf mc) = true /\ regs.bcn (rf mc) = 2)).
  { destruct (regs.lp (rf mc)) eqn:Elp.
    - assert (0 < regs.bcn (rf mc)) by (apply Hlp; reflexivity). lia.
    - left. split; [ reflexivity | ].
      destruct (Z.eq_dec (regs.bcn (rf mc)) 0) as [ E | E ]; [ exact E | ].
      assert (false = true) by (apply Hlp; lia). discriminate. }
  destruct (RestoreBlockRepeat_sp_run mcs flag (end_ f .& 0xFFFF) (start f .& 0xFFFF) (lc f))
    as (mcr & Er & Rsp & Rmem & Rlp & Rbcn & Rst).
  - rewrite Ssp, Sdata, U4. apply upd_same.
  - rewrite Ssp, Sdata, U4, U3. rewrite upd_other by congruence. apply upd_same.
  - rewrite Ssp, Sdata, U4, U3, U2. rewrite !upd_other by congruence. apply upd_same.
  - rewrite Ssp, Sdata, U4, U3, U2, U1. rewrite !upd_other by congruence. apply upd_same.
  - intros Hl. destruct Hcases as [ (Elp & Eb) | [ (Elp & Eb) | (Elp & Eb) ] ].
    + destruct (S0 Elp) as (L & _). congruence.
    + destruct (S1 Elp Eb) as (L & _). congruence.
    + destruct (S2 Elp Eb) as (_ & B & _). split; [ exact B | ]. rewrite F1. exact Elp.
  - exists mcr. split; [ unfold bkrepsto_memsp, bkreprst_memsp, bind; rewrite Es; exact Er | ].
    rewrite Rsp, Ssp, U4, U3, U2, U1, Rlp, Rbcn, F1, Rmem, Sdata.
    assert (Hstack : forall i, regs.bkrep_stack (rf mcr) i = regs.bkrep_stack (rf mc) i).
    { intros i. rewrite Rst, Js, Je, Hf.
      destruct Hcases as [ (Elp & Eb) | [ (Elp & Eb) | (Elp & Eb) ] ].
      - destruct (S0 Elp) as (_ & _ & St). rewrite St.
        destruct (Z.eqb_spec i 0) as [ -> | ]; reflexivity.
      - destruct (S1 Elp Eb) as (_ & _ & St). rewrite St.
        destruct (Z.eqb_spec i 0) as [ -> | ]; reflexivity.
      - destruct (S2 Elp Eb) as (_ & _ & St). rewrite St.
        destruct (Z.eqb_spec i 0) as [ -> | ]; [ reflexivity | ].
        apply upd_other. assumption. }
    destruct Hcases as [ (Elp & Eb) | [ (Elp & Eb) | (Elp & Eb) ] ].
    + destruct (S0 Elp) as (L & B & _). rewrite ?L, ?B, ?Elp, ?Eb.
      do 3 (split; [ reflexivity | ]). split; [ exact Hstack | ].
      rewrite !upd_other by congruence. apply upd_same.
    + destruct (S1 Elp Eb) as (L & B & _). rewrite ?L, ?B, ?Elp, ?Eb.
      do 3 (split; [ reflexivity | ]). split; [ exact Hstack | ].
      rewrite !upd_other by congruence. apply upd_same.
    + destruct (S2 Elp Eb) as (L & B & _). rewrite ?L, ?B, ?Elp, ?Eb.
      do 3 (split; [ reflexivity | ]). split; [ exact Hstack | ].
      rewrite !upd_other by congruence. apply upd_same.
Qed.
(** *** Interrupts that are not taken *)

(** X15.  When no interrupt is taken.  The interrupt step at the end of a
    cycle leaves the machine as it is when interrupts are disabled ([ie]
    clear), when a single-instruction repeat is under way ([rep] set), or
    when no interrupt in 0..2 is both enabled and pending and the vectored
    interrupt is not both enabled and pending: nothing is pushed, and no
    pending bit is lost. *)
Theorem Run_interrupts_masked (mc : Machine) :
  regs.ie (rf mc) = false \/ regs.rep (rf mc) = true \/
  (none_pending (rf mc) /\ regs.vim (rf mc) && regs.vip (rf mc) = false) ->
  Run_interrupts mc = Ok tt mc.
Proof.
  intros [ H | [ H | (H & Hv) ] ].
  - apply Run_interrupts_off. exact H.
  - apply Run_interrupts_rep. exact H.
  - unfold Run_interrupts, bind, get_regs, when.
    destruct (regs.ie (rf mc) && negb (regs.rep (rf mc))); [ | reflexivity ].
    rewrite (Run_interrupt_scan_none [0; 1; 2] mc)
      by (intros j Hj; apply H; cbn in Hj; lia).
    cbn [negb andb].
    rewrite Hv. reflexivity.
Qed.

(** *** Interrupt and return *)

(** X16.  An interrupt handler returns to the interrupted code.  With
    [ie] set, [rep] clear, a PC below 2^18 and a 16-bit [sp]: if [i] is the
    first interrupt that is enabled and pending and its context switch
    [ic[i]] is off, the interrupt step jumps to the vector [0x0006 + 8 * i]
    with [ie] clear, and a [reti] (its condition passing) executed there
    restores the PC and [sp] and sets [ie] again; [ip[i]] stays clear and
    the other pending bits are as before. *)
Theorem interrupt_reti_round_trip (i : Z) (c : Cond) (mc : Machine) :
  (forall rs, ConditionPass rs c = true) ->
  regs.ie (rf mc) = true -> regs.rep (rf mc) = false ->
  first_pending (rf mc) i ->
  regs.ic (rf mc) i = false ->
  0 <= regs.pc (rf mc) < 2 ^ 18 ->
  0 <= regs.sp (rf mc) < 2 ^ 16 ->
  exists mc1 mc',
    Run_interrupts mc = Ok tt mc1 /\
    regs.pc (rf mc1) = 0x0006 + 8 * i /\
    regs.ie (rf mc1) = false /\
    reti c mc1 = Ok tt mc' /\
    regs.pc (rf mc') = regs.pc (rf mc) /\
    regs.sp (rf mc') = regs.sp (rf mc) /\
    regs.ie (rf mc') = true /\
    regs.ip (rf mc') i = false /\
    (forall j, j <> i -> regs.ip (rf mc') j = regs.ip (rf mc) j).
Proof.
  intros Hc Hie Hrep (Hi & Him & Hip & Hmin) Hic Hpc Hsp.
  pose proof (sp_down_neq (regs.sp (rf mc))) as Hne.
  pose proof (pc_join (regs.pc (rf mc)) Hpc) as Hj.
  assert (Hcases : i = 0 \/ i = 1 \/ i = 2) by lia.
  assert (H0 : 0 < i -> regs.im (rf mc) 0 && regs.ip (rf mc) 0 = false)
    by (intros; apply Hmin; lia).
  assert (H1 : 1 < i -> regs.im (rf mc) 1 && regs.ip (rf mc) 1 = false)
    by (intros; apply Hmin; lia).
  unfold Run_interrupts, Run_interrupt_scan, reti, PushPC, PopPC, predec_sp, postinc_sp,
    SetPC, GetPcL, GetPcH, bind, gets, get_regs, modify, when, DataWrite, DataRead, ret.
  rewrite Hie, Hrep. cbn [andb negb].
  destruct Hcases as [ -> | [ -> | -> ] ];
    rewrite ?H0, ?H1 by lia; rewrite Him, Hip; cbn [andb];
    cbn; destruct (regs.pc_endian (rf mc) =? 1) eqn:He; cbn;
    rewrite ?upd_same, ?Hic; cbn;
    (eexists; eexists; split; [ reflexivity | ]); cbn;
    (split; [ reflexivity | ]); (split; [ reflexivity | ]);
    rewrite Hc; cbn; rewrite He; cbn;
    rewrite sp_down_down_up, sp_down_up by assumption;
    rewrite ?upd_same; rewrite ?(upd_other _ _ (u16 (regs.sp (rf mc) - 1))) by congruence;
    rewrite ?upd_same;
    (split; [ reflexivity | ]); cbn; rewrite ?upd_same;
    (split; [ exact Hj | ]); (split; [ reflexivity | ]);
    (split; [ reflexivity | ]); (split; [ reflexivity | ]);
    intros j Hjn; apply upd_other; exact Hjn.
Qed.
(** *** Registers on the 16-bit bus *)

Lemma SaturateAcc_fits v s mc : v = SignExtend64 32 v -> SaturateAcc v s mc = Ok v mc.
Proof.
  intros H. unfold SaturateAcc, SaturateAcc_Unconditional, bind, gets, ret.
  rewrite <- H, Z.eqb_refl. cbn. destruct (regs.sar (rf mc) (Z.b2z s)); reflexivity.
Qed.

Lemma SetAcc_GetAcc (a : RegName) (v : Z) (mc : Machine) :
  v = SignExtend64 32 v ->
  (exists u, GetAcc a mc = Ok u mc) ->
  exists mc', SetAcc a v mc = Ok tt mc' /\ GetAcc a mc' = Ok v mc' /\ mem mc' = mem mc.
Proof.
  intros Hfit (u & Hu).
  pose proof (SE32_is_SE40 v Hfit) as Hse. unfold is_SE40 in Hse.
  unfold SetAcc, SetAcc_, SetAccFlag. rewrite <- Hse, Z.eqb_refl. cbn [negb].
  unfold bind at 1. unfold bind at 1. unfold modify at 1.
  unfold bind at 1. unfold modify at 1. unfold bind at 1. unfold modify at 1.
  unfold modify at 1. unfold bind at 1. rewrite SaturateAcc_fits by exact Hfit.
  destruct a; try (unfold GetAcc, throw in Hu; discriminate);
    unfold SetAcc_Simple, GetAcc, modify, gets; cbn;
    (eexists; split; [ reflexivity | ]); cbn; rewrite upd_same; split; reflexivity.
Qed.

Lemma bus_word_acc v :
  0 <= v < 2 ^ 16 ->
  let w := SignExtend64 16 v in
  w = SignExtend64 32 w /\ w .& 0xFFFF = v.
Proof.
  intros H w. subst w. change 0xFFFF with (Z.ones 16). rewrite Z.land_ones by lia.
  unfold SignExtend64, SignExtend. change (16 - 1) with 15. change (32 - 1) with 31.
  change (2 ^ 15) with 32768. pow_consts. rewrite (Z.mod_small v) by lia. cbv zeta.
  destruct (Z.ltb_spec v 32768).
  - rewrite !(Z.mod_small v) by lia. split; [ | reflexivity ].
    destruct (Z.ltb_spec v 2147483648); lia.
  - split.
    + replace (v + (18446744073709551616 - 65536))
        with (v + 4294901760 + 4294967295 * 4294967296) by lia.
      rewrite Z.mod_add by lia. rewrite Z.mod_small by lia.
      destruct (Z.ltb_spec (v + 4294901760) 2147483648); lia.
    + replace (v + (18446744073709551616 - 65536))
        with (v + 281474976710655 * 65536) by lia.
      rewrite Z.mod_add by lia. apply Z.mod_small. lia.
Qed.

Lemma bus_word_low v :
  0 <= v < 2 ^ 16 -> v = SignExtend64 32 v /\ v .& 0xFFFF = v.
Proof.
  intros H. split.
  - symmetry. apply SignExtend64_small; [ lia | ]. change (2 ^ (32 - 1)) with 2147483648.
    pow_consts. lia.
  - change 0xFFFF with (Z.ones 16). rewrite Z.land_ones by lia. apply Z.mod_small. exact H.
Qed.

Lemma bus_word_high v :
  0 <= v < 2 ^ 16 ->
  let w := SignExtend64 32 (v << 16) in
  w = SignExtend64 32 w /\ (w >> 16) .& 0xFFFF = v.
Proof.
  intros H w. subst w. change 0xFFFF with (Z.ones 16). rewrite Z.land_ones by lia.
  rewrite Z.shiftr_div_pow2, Z.shiftl_mul_pow2 by lia.
  unfold SignExtend64, SignExtend. change (32 - 1) with 31. pow_consts.
  rewrite (Z.mod_small (v * 65536)) by lia. cbv zeta.
  destruct (Z.ltb_spec (v * 65536) 2147483648).
  - rewrite (Z.mod_small (v * 65536)) by lia.
    destruct (Z.ltb_spec (v * 65536) 2147483648); [ | lia ].
    rewrite Z.div_mul by lia. split; [ reflexivity | apply Z.mod_small; lia ].
  - split.
    + replace (v * 65536 + (18446744073709551616 - 4294967296))
        with (v * 65536 + 4294967295 * 4294967296) by lia.
      rewrite Z.mod_add by lia. rewrite Z.mod_small by lia.
      destruct (Z.ltb_spec (v * 65536) 2147483648); lia.
    + replace (v * 65536 + (18446744073709551616 - 4294967296))
        with ((v + 281474976645120) * 65536) by lia.
      rewrite Z.div_mul by lia.
      replace (v + 281474976645120) with (v + 4294967295 * 65536) by lia.
      rewrite Z.mod_add by lia. apply Z.mod_small. lia.
Qed.

(** X17.  What is written over the 16-bit bus is read back.  For an
    accumulator or one of its low or high words, an address register, a
    multiplier input, [sp] or [sv], and a 16-bit value [v],
    [RegFromBus16 reg v] followed by [RegToBus16] of the same register, with
    or without saturation on the move, returns [v]; the memory is not
    touched.  Writing a whole accumulator sign-extends [v], writing its low
    word zero-extends it and writing its high word clears the low word, and
    none of the three values saturates. *)
Theorem RegFromBus16_RegToBus16 (reg : RegName) (v : Z) (mc : Machine) :
  bus_register reg = true ->
  0 <= v < 2 ^ 16 ->
  exists mc',
    RegFromBus16 reg v mc = Ok tt mc' /\
    (forall sat, RegToBus16_ reg sat mc' = Ok v mc') /\
    mem mc' = mem mc.
Proof.
  intros Hreg Hv.
  destruct (bus_word_acc v Hv) as (A1 & A2).
  destruct (bus_word_low v Hv) as (L1 & L2).
  destruct (bus_word_high v Hv) as (H1 & H2). cbv zeta in A1, A2, H1, H2.
  assert (Acc : forall a w,
             (exists u, GetAcc a mc = Ok u mc) -> w = SignExtend64 32 w ->
             exists mc', SetAcc a w mc = Ok tt mc' /\ GetAcc a mc' = Ok w mc' /\
                         (forall s, SaturateAcc w s mc' = Ok w mc') /\ mem mc' = mem mc).
  { intros a w Hu Hw. destruct (SetAcc_GetAcc a w mc Hw Hu) as (mc' & E1 & E2 & E3).
    exists mc'. repeat split; try assumption. intros s. apply SaturateAcc_fits. exact Hw. }
  destruct reg; try discriminate;
    try (unfold RegFromBus16, RegToBus16_, modify, gets; cbn;
         eexists; split; [ reflexivity | ]; cbn; rewrite ?upd_same;
         split; [ intros sat; reflexivity | reflexivity ]);
    unfold RegFromBus16, RegToBus16_;
    match goal with
    | |- exists mc', SetAcc ?a ?w mc = _ /\ _ =>
        destruct (Acc a w) as (mc' & E1 & E2 & E3 & E4);
        [ eexists; unfold GetAcc, gets; reflexivity | assumption | ];
        exists mc'; split; [ exact E1 | ]; split; [ | exact E4 ];
        intros sat; unfold bind; rewrite ?E2; destruct sat;
        unfold bind; rewrite ?E2, ?E3; unfold ret; congruence
    end.
Qed.
(** *** The normalisation exponent *)

Lemma SE40_u64_signed v : is_SE40 v -> v = u64 (signed 40 v).
Proof.
  intros H. rewrite (signed_40_SE40 v H). apply is_SE40_iff in H. unfold u64. pow_consts.
  destruct (Z.ltb_spec v 549755813888).
  - symmetry. apply Z.mod_small. lia.
  - rewrite <- (Z.mod_add _ 1) by lia.
    replace (v - 18446744073709551616 + 1 * 18446744073709551616) with v by lia.
    symmetry. apply Z.mod_small. lia.
Qed.

Lemma sign_bit v : is_SE40 v -> (v >> 39) .& 1 = if signed 40 v <? 0 then 1 else 0.
Proof.
  intros H. rewrite land_1, Z.shiftr_div_pow2 by lia.
  rewrite <- Z.testbit_spec' by lia. rewrite testbit_39, signed_40_eq. pow_consts.
  pose proof (Z.mod_pos_bound v 1099511627776 ltac:(lia)).
  bool_arith; b2z_consts; lia.
Qed.

Lemma bit_agrees_with_sign v bit :
  is_SE40 v -> 0 <= bit <= 38 ->
  - 2 ^ (bit + 1) <= signed 40 v < 2 ^ (bit + 1) ->
  (((v >> bit) .& 1) =? ((v >> 39) .& 1)) = true <-> - 2 ^ bit <= signed 40 v < 2 ^ bit.
Proof.
  intros H Hb Hs. rewrite (sign_bit v H).
  rewrite land_1, Z.shiftr_div_pow2 by lia. rewrite <- Z.testbit_spec' by lia.
  rewrite (SE40_u64_signed v H) at 1. rewrite testbit_u64 by lia.
  set (s := signed 40 v) in *.
  replace bit with (bit + 1 - 1) at 1 by lia. rewrite testbit_top by lia.
  replace (bit + 1 - 1) with bit by lia.
  assert (E : 2 ^ (bit + 1) = 2 * 2 ^ bit).
  { rewrite Z.pow_add_r by lia. change (2 ^ 1) with 2. lia. }
  assert (Pp : 0 < 2 ^ bit) by (apply Z.pow_pos_nonneg; lia).
  rewrite E in *. set (p := 2 ^ bit) in *. clearbody p.
  destruct (Z.ltb_spec s 0).
  - rewrite <- (Z.mod_add s 1) by lia. rewrite Z.mod_small by lia.
    destruct (Z.leb_spec p (s + 1 * (2 * p))); b2z_consts;
      rewrite Z.eqb_eq; lia.
  - rewrite Z.mod_small by lia.
    destruct (Z.leb_spec p s); b2z_consts; rewrite Z.eqb_eq; lia.
Qed.

Lemma Exp_loop_spec v (fuel : nat) : forall bit count,
  is_SE40 v ->
  Z.of_nat fuel = bit + 1 -> count = 38 - bit -> 0 <= bit <= 38 ->
  - 2 ^ (bit + 1) <= signed 40 v < 2 ^ (bit + 1) ->
  let c := Exp_loop fuel v ((v >> 39) .& 1) bit count in
  0 <= c <= 39 /\
  - 2 ^ (39 - c) <= signed 40 v < 2 ^ (39 - c) /\
  (c < 39 -> ~ (- 2 ^ (38 - c) <= signed 40 v < 2 ^ (38 - c))).
Proof.
  induction fuel as [ | fuel IH ]; intros bit count H Hf Hc Hb Hs; [ lia | ].
  cbn [Exp_loop].
  pose proof (bit_agrees_with_sign v bit H Hb Hs) as Hbit.
  destruct (((v >> bit) .& 1) =? ((v >> 39) .& 1)) eqn:E; cbn [negb].
  - assert (Hin : - 2 ^ bit <= signed 40 v < 2 ^ bit) by (apply Hbit; reflexivity).
    destruct (Z.eqb_spec bit 0) as [ -> | Hn ].
    + cbv zeta. subst count. change (38 - 0 + 1) with 39.
      change (39 - 39) with 0. change (2 ^ 0) with 1 in *. repeat split; lia.
    + apply IH; try assumption; try lia.
      replace (bit - 1 + 1) with bit by lia. exact Hin.
  - cbv zeta. subst count.
    replace (39 - (38 - bit)) with (bit + 1) by lia.
    replace (38 - (38 - bit)) with bit by lia.
    repeat split; try lia;
      try (intros _ Hin; apply Hbit in Hin; discriminate).
Qed.

(** X18.  [Exp] is the normalisation exponent.  For an accumulator value
    [v] (the sign extension of its low 40 bits), read as a signed number,
    the 16-bit result of [Exp v], read as a signed number [e], lies in
    -8..31 and tells how far [v] can be shifted left and still fit 32
    signed bits: [v] lies in the range of [32 - e] signed bits and, unless
    [e] is 31, not in the range of [31 - e] signed bits.  A negative [e]
    counts the right shifts that are needed. *)
Theorem Exp_normalises (v : Z) :
  is_SE40 v ->
  let e := signed 16 (Exp v) in
  - 8 <= e <= 31 /\
  - 2 ^ (31 - e) <= signed 40 v < 2 ^ (31 - e) /\
  (e < 31 -> ~ (- 2 ^ (30 - e) <= signed 40 v < 2 ^ (30 - e))).
Proof.
  intros H e.
  pose proof (Exp_loop_spec v 39 38 0 H eq_refl eq_refl ltac:(lia) (signed_40_range v))
    as (C1 & C2 & C3).
  cbv zeta in C1, C2, C3.
  set (c := Exp_loop 39 v ((v >> 39) .& 1) 38 0) in *.
  assert (He : e = c - 8).
  { unfold e, Exp. fold c. rewrite signed_16_eq. unfold u16. pow_consts.
    rewrite Z.mod_mod by lia. change (2 ^ 15) with 32768.
    destruct (Z.leb_spec 8 c).
    - rewrite Z.mod_small by lia. destruct (Z.ltb_spec (c - 8) 32768); lia.
    - rewrite <- (Z.mod_add _ 1) by lia. rewrite Z.mod_small by lia.
      destruct (Z.ltb_spec (c - 8 + 1 * 65536) 32768); lia. }
  rewrite He.
  replace (31 - (c - 8)) with (39 - c) by lia.
  replace (30 - (c - 8)) with (38 - c) by lia.
  repeat split; try lia; try (intros Hlt; apply C3; lia).
Qed.
(** *** The arithmetic right shift *)

Lemma right_shift_amount n :
  1 <= n <= 2 ^ 15 ->
  u16 (not16 (2 ^ 16 - n) + 1) = n /\ ((2 ^ 16 - n) >> 15 =? 0) = false.
Proof.
  intros H. change (2 ^ 15) with 32768 in H. split.
  - unfold not16, u16, Z.lnot. pow_consts.
    rewrite Zplus_mod_idemp_l.
    replace (Z.pred (- (65536 - n)) + 1) with (n + (-1) * 65536) by lia.
    rewrite Z.mod_add by lia. apply Z.mod_small. lia.
  - rewrite Z.shiftr_div_pow2 by lia. change (2 ^ 15) with 32768. pow_consts.
    apply Z.eqb_neq. Z.to_euclidean_division_equations. lia.
Qed.

Lemma single_bit x k : 0 <= k -> nz (x .& (1 << k)) = Z.testbit x k.
Proof.
  intros Hk.
  assert (E : x .& (1 << k) = Z.b2z (Z.testbit x k) << k).
  { apply Z.bits_inj'. intros i Hi.
    rewrite Z.land_spec, !Z.shiftl_spec by lia.
    destruct (Z.eq_dec i k) as [ -> | N ].
    - rewrite Z.sub_diag. change (Z.testbit 1 0) with true.
      rewrite andb_true_r. destruct (Z.testbit x k); reflexivity.
    - replace (Z.testbit 1 (i - k)) with false.
      + rewrite andb_false_r. destruct (Z.testbit x k); b2z_consts.
        * destruct (Z.ltb_spec (i - k) 0);
            [ rewrite Z.testbit_neg_r by lia; reflexivity | ].
          symmetry. apply (Z.bits_above_log2 1 (i - k)); [ lia | cbn; lia ].
        * symmetry. apply Z.bits_0.
      + destruct (Z.ltb_spec (i - k) 0);
          [ rewrite Z.testbit_neg_r by lia; reflexivity | ].
        symmetry. apply (Z.bits_above_log2 1 (i - k)); [ lia | cbn; lia ]. }
  rewrite E. unfold nz. rewrite Z.shiftl_mul_pow2 by lia.
  assert (0 < 2 ^ k) by (apply Z.pow_pos_nonneg; lia).
  destruct (Z.testbit x k); b2z_consts; bool_arith.
Qed.

Lemma signed_40_mod v : signed 40 v mod 2 ^ 40 = v mod 2 ^ 40.
Proof.
  rewrite signed_40_eq. pow_consts.
  pose proof (Z.mod_pos_bound v 1099511627776 ltac:(lia)).
  destruct (Z.ltb_spec (v mod 1099511627776) 549755813888).
  - apply Z.mod_mod. lia.
  - rewrite <- (Z.mod_add _ 1) by lia.
    replace (v mod 1099511627776 - 1099511627776 + 1 * 1099511627776)
      with (v mod 1099511627776) by lia.
    apply Z.mod_mod. lia.
Qed.

Lemma testbit_beyond s i :
  0 <= i -> - 2 ^ i <= s < 2 ^ i -> Z.testbit s i = (s <? 0).
Proof.
  intros Hi Hs. replace i with (i + 1 - 1) at 1 by lia. rewrite testbit_top by lia.
  replace (i + 1 - 1) with i by lia.
  assert (E : 2 ^ (i + 1) = 2 * 2 ^ i).
  { rewrite Z.pow_add_r by lia. change (2 ^ 1) with 2. lia. }
  assert (Pp : 0 < 2 ^ i) by (apply Z.pow_pos_nonneg; lia).
  rewrite E. set (p := 2 ^ i) in *. clearbody p.
  destruct (Z.ltb_spec s 0).
  - rewrite <- (Z.mod_add s 1) by lia. rewrite Z.mod_small by lia. bool_arith.
  - rewrite Z.mod_small by lia. bool_arith.
Qed.

Lemma u64_signed_small q :
  - 2 ^ 39 <= q < 2 ^ 39 ->
  is_SE40 (u64 q) /\ signed 40 (u64 q) = q.
Proof.
  intros H. rewrite signed_40_eq, u64_mod40. split.
  - apply is_SE40_iff. unfold u64. pow_consts. Z.to_euclidean_division_equations. lia.
  - pow_consts. bool_arith; Z.to_euclidean_division_equations; lia.
Qed.

Lemma shift_right_value v n :
  1 <= n <= 39 ->
  SignExtend64 (40 - n) ((v mod 2 ^ 40) >> n) = u64 (signed 40 v / 2 ^ n).
Proof.
  intros Hn. rewrite signed_40_eq, Z.shiftr_div_pow2 by lia.
  set (V := v mod 2 ^ 40).
  assert (HV : 0 <= V < 2 ^ 40) by (apply Z.mod_pos_bound; lia).
  assert (PA : 0 < 2 ^ n) by (apply Z.pow_pos_nonneg; lia).
  assert (PH : 0 < 2 ^ (39 - n)) by (apply Z.pow_pos_nonneg; lia).
  assert (EB : 2 ^ (40 - n) = 2 * 2 ^ (39 - n)).
  { replace (40 - n) with (1 + (39 - n)) by lia. rewrite Z.pow_add_r by lia. reflexivity. }
  assert (E39 : 2 ^ 39 = 2 ^ (39 - n) * 2 ^ n).
  { rewrite <- Z.pow_add_r by lia. f_equal. lia. }
  assert (HH : 2 ^ (39 - n) <= 2 ^ 38) by (apply Z.pow_le_mono_r; lia).
  unfold SignExtend64, SignExtend, u64.
  replace (40 - n - 1) with (39 - n) by lia. rewrite EB.
  change (2 ^ 40) with (2 * 2 ^ 39) in *. rewrite E39 in *.
  change (2 ^ 38) with 274877906944 in HH. change (2 ^ 64) with 18446744073709551616.
  set (A := 2 ^ n) in *. set (H := 2 ^ (39 - n)) in *. clearbody A H. clearbody V.
  assert (Hq : 0 <= V / A < 2 * H).
  { split; [ apply Z.div_pos; lia | apply Z.div_lt_upper_bound; lia ]. }
  rewrite (Z.mod_small (V / A)) by lia. cbv zeta.
  assert (Hiff : V / A < H <-> V < H * A).
  { pose proof (Z.div_mod V A ltac:(lia)). pose proof (Z.mod_pos_bound V A PA).
    split; intros; nia. }
  destruct (Z.ltb_spec (V / A) H) as [ L | L ]; destruct (Z.ltb_spec V (H * A)) as [ L' | L' ];
    try (exfalso; lia).
  - symmetry. apply Z.mod_small. lia.
  - replace (V - 2 * (H * A)) with (V + (- (2 * H)) * A) by lia.
    rewrite Z.div_add by lia.
    rewrite <- (Z.mod_add _ 1) by lia. symmetry.
    rewrite Z.mod_small by lia. lia.
Qed.

Lemma shift_right_all v n :
  40 <= n -> signed 40 v / 2 ^ n = if signed 40 v <? 0 then -1 else 0.
Proof.
  intros Hn. pose proof (signed_40_range v) as Hs.
  assert (HA : 2 ^ 40 <= 2 ^ n) by (apply Z.pow_le_mono_r; lia).
  pow_consts. set (A := 2 ^ n) in *. clearbody A.
  destruct (Z.ltb_spec (signed 40 v) 0).
  - symmetry. apply Z.div_unique with (r := signed 40 v + A); lia.
  - apply Z.div_small. lia.
Qed.

Lemma fits_32 w :
  is_SE40 w ->
  (SignExtend64 32 w =? w) = negb ((signed 40 w <? - 2 ^ 31) || (2 ^ 31 <=? signed 40 w)).
Proof.
  intros H. apply is_SE40_iff in H.
  unfold SignExtend64, SignExtend. rewrite signed_40_eq.
  change (32 - 1) with 31. pow_consts.
  bool_arith; exfalso; Z.to_euclidean_division_equations; lia.
Qed.

Lemma SetAcc_Simple_run (dest : RegName) (r : Z) (m0 m : Machine) :
  (exists u, GetAcc dest m0 = Ok u m0) ->
  exists mc',
    SetAcc_Simple dest r m = Ok tt mc' /\
    GetAcc dest mc' = Ok r mc' /\
    regs.fc (rf mc') = regs.fc (rf m) /\
    regs.fv (rf mc') = regs.fv (rf m) /\
    regs.fls (rf mc') = regs.fls (rf m) /\
    mem mc' = mem m.
Proof.
  intros (u & Hu).
  destruct dest; try (unfold GetAcc, throw in Hu; discriminate);
    unfold SetAcc_Simple, GetAcc, modify, gets; cbn;
    (eexists; split; [ reflexivity | ]); cbn; rewrite upd_same; repeat split.
Qed.

(** X19.  The right shift is a floor division.  In arithmetic mode
    ([s = 0]), for a shift count [n] in 1..2^15 given, as the code wants
    it, by the 16-bit two's complement of [-n], [ShiftBus40] writes to the
    accumulator the floor of [v / 2^n], where [v] is read as a signed
    40-bit number; a count of 40 or more leaves 0 or -1.  When [sar[1]] is
    clear, a quotient that does not fit 32 signed bits is replaced by the
    nearer bound of that range and [fls] is set.  [fc[0]] receives the
    last bit shifted out, and [fv] is cleared. *)
Theorem ShiftBus40_right (v n : Z) (dest : RegName) (mc : Machine) :
  regs.s (rf mc) = 0 ->
  1 <= n <= 2 ^ 15 ->
  (exists u, GetAcc dest mc = Ok u mc) ->
  let q := signed 40 v / 2 ^ n in
  let sat := negb (regs.sar (rf mc) 1) && ((q <? - 2 ^ 31) || (2 ^ 31 <=? q)) in
  exists r mc',
    ShiftBus40 v (2 ^ 16 - n) dest mc = Ok tt mc' /\
    GetAcc dest mc' = Ok r mc' /\
    is_SE40 r /\
    signed 40 r = (if sat then if q <? 0 then - 2 ^ 31 else 2 ^ 31 - 1 else q) /\
    regs.fc (rf mc') 0 = Z.testbit (signed 40 v) (n - 1) /\
    regs.fv (rf mc') = false /\
    regs.fls (rf mc') = regs.fls (rf mc) || sat /\
    mem mc' = mem mc.
Proof.
  intros Hs Hn (u & Hu) q sat.
  destruct (right_shift_amount n Hn) as (Ensv & Edir).
  pose proof (signed_40_range v) as Hrange.
  assert (PA : 0 < 2 ^ n) by (apply Z.pow_pos_nonneg; lia).
  assert (Hq : - 2 ^ 39 <= q < 2 ^ 39).
  { unfold q. assert (2 <= 2 ^ n).
    { change 2 with (2 ^ 1) at 1. apply Z.pow_le_mono_r; lia. }
    pow_consts. set (A := 2 ^ n) in *. clearbody A.
    split; [ apply Z.div_le_lower_bound | apply Z.div_lt_upper_bound ]; nia. }
  destruct (u64_signed_small q Hq) as (Hse & Hsq).
  assert (Hneg : (q <? 0) = (signed 40 v <? 0)).
  { unfold q. set (A := 2 ^ n) in *. clearbody A.
    destruct (Z.ltb_spec (signed 40 v) 0).
    - apply Z.ltb_lt. apply Z.div_lt_upper_bound; lia.
    - apply Z.ltb_ge. apply Z.div_pos; lia. }
  assert (Hsign : ((v .& 0xFFFFFFFFFF) >> 39 =? 1) = (q <? 0)).
  { rewrite Hneg, land_mask40, signed_40_eq, Z.shiftr_div_pow2 by lia. pow_consts.
    pose proof (Z.mod_pos_bound v 1099511627776 ltac:(lia)).
    bool_arith; exfalso; Z.to_euclidean_division_equations; lia. }
  pose proof (fits_32 (u64 q) Hse) as Hfit. rewrite Hsq in Hfit.
  unfold ShiftBus40.
  set (V := v .& 0xFFFFFFFFFF) in *.
  unfold bind at 1. unfold gets at 1. rewrite Hs. cbv beta iota zeta.
  rewrite Edir, Ensv. change (0 =? 0) with true. cbv beta iota.
  match goal with
  | |- context [ bind (bind ?P _) _ ] =>
      assert (Prod : exists W,
                 P mc = Ok W {| rf := set_fc 0 (Z.testbit (signed 40 v) (n - 1)) (rf mc);
                                mem := mem mc |} /\
                 SignExtend64 40 W = u64 q)
  end.
  { unfold bind, modify, gets, ret. subst V.
    destruct (Z.leb_spec 40 n) as [ Hbig | Hsmall ]; cbn; rewrite ?upd_same.
    - rewrite bit_of, land_mask40 by lia.
      assert (Eb : Z.testbit (v mod 2 ^ 40) 39 = (signed 40 v <? 0)).
      { rewrite testbit_39, Z.mod_mod, signed_40_eq by lia. pow_consts.
        pose proof (Z.mod_pos_bound v 1099511627776 ltac:(lia)). bool_arith. }
      assert (Ef : Z.testbit (signed 40 v) (n - 1) = (signed 40 v <? 0)).
      { apply testbit_beyond; [ lia | ].
        assert (2 ^ 39 <= 2 ^ (n - 1)) by (apply Z.pow_le_mono_r; lia). lia. }
      rewrite Eb, Ef. eexists. split; [ reflexivity | ].
      unfold q. rewrite shift_right_all by lia.
      destruct (signed 40 v <? 0); reflexivity.
    - rewrite single_bit, land_mask40 by lia.
      assert (Ef : Z.testbit (v mod 2 ^ 40) (n - 1) = Z.testbit (signed 40 v) (n - 1)).
      { rewrite <- (signed_40_mod v). apply Z.mod_pow2_bits_low. lia. }
      rewrite Ef. eexists. split; [ reflexivity | ].
      rewrite shift_right_value by lia. fold q. symmetry. exact Hse. }
  destruct Prod as (W & EP & EW).
  unfold bind at 1. unfold bind at 1. rewrite EP. cbv beta iota.
  unfold when, bind at 1, modify at 1, ret at 1. cbv beta iota.
  rewrite EW.
  set (r0 := u64 q) in *. clearbody r0.
  unfold SetAccFlag. unfold is_SE40 in Hse. rewrite <- Hse, Z.eqb_refl. cbv beta iota.
  change (negb true) with false. cbv iota.
  unfold bind, modify, get_regs, ret. cbn.
  rewrite Hs. change (0 =? 0) with true. cbn [andb orb negb].
  rewrite Hfit, negb_involutive, Hsign. fold sat.
  assert (Hu' : exists u, GetAcc dest mc = Ok u mc) by (exists u; exact Hu).
  subst sat.
  destruct (regs.sar (rf mc) 1) eqn:Esar; cbn [negb andb];
    [ | destruct ((q <? - 2 ^ 31) || (2 ^ 31 <=? q)) eqn:Eout ]; cbv beta iota;
    match goal with
    | |- exists r mc', SetAcc_Simple dest ?R ?M = _ /\ _ =>
        destruct (SetAcc_Simple_run dest R mc M Hu') as (mc' & E1 & E2 & E3 & E4 & E5 & E6);
        exists R, mc'
    end;
    rewrite E3, E4, E5, E6; cbn; rewrite ?upd_same;
    (split; [ exact E1 | ]); (split; [ exact E2 | ]);
    rewrite ?orb_false_r, ?orb_true_r.
  - repeat split; assumption.
  - split; [ destruct (q <? 0); apply is_SE40_iff; pow_consts; lia | ].
    split; [ destruct (q <? 0); reflexivity | ]. repeat split.
  - repeat split; assumption.
Qed.
(** *** The left shift *)

Lemma signed_eq k x :
  signed k x = if x mod 2 ^ k <? 2 ^ (k - 1) then x mod 2 ^ k else x mod 2 ^ k - 2 ^ k.
Proof. reflexivity. Qed.

Lemma pow2_half k : 0 < k -> 2 ^ k = 2 * 2 ^ (k - 1) /\ 0 < 2 ^ (k - 1).
Proof.
  intros H. split.
  - replace k with (1 + (k - 1)) at 1 by lia. rewrite Z.pow_add_r by lia. reflexivity.
  - apply Z.pow_pos_nonneg; lia.
Qed.

Lemma signed_range k x : 0 < k -> - 2 ^ (k - 1) <= signed k x < 2 ^ (k - 1).
Proof.
  intros H. destruct (pow2_half k H) as (E & P). rewrite signed_eq, E.
  pose proof (Z.mod_pos_bound x (2 * 2 ^ (k - 1)) ltac:(lia)).
  destruct (Z.ltb_spec (x mod (2 * 2 ^ (k - 1))) (2 ^ (k - 1))); lia.
Qed.

Lemma signed_small k s : 0 < k -> - 2 ^ (k - 1) <= s < 2 ^ (k - 1) -> signed k s = s.
Proof.
  intros H Hs. destruct (pow2_half k H) as (E & P). rewrite signed_eq, E.
  set (h := 2 ^ (k - 1)) in *. clearbody h.
  destruct (Z.ltb_spec s 0).
  - rewrite <- (Z.mod_add s 1) by lia. rewrite Z.mod_small by lia.
    destruct (Z.ltb_spec (s + 1 * (2 * h)) h); lia.
  - rewrite Z.mod_small by lia. destruct (Z.ltb_spec s h); lia.
Qed.

Lemma signed_mod k x y : x mod 2 ^ k = y mod 2 ^ k -> signed k x = signed k y.
Proof. intros H. rewrite !signed_eq, H. reflexivity. Qed.

Lemma SignExtend64_as_signed k x : 0 < k <= 64 -> SignExtend64 k x = u64 (signed k x).
Proof.
  intros H. destruct (pow2_half k ltac:(lia)) as (E & P).
  assert (L : 2 ^ k <= 2 ^ 64) by (apply Z.pow_le_mono_r; lia).
  unfold SignExtend64, SignExtend, u64. rewrite signed_eq. cbv zeta.
  pose proof (Z.mod_pos_bound x (2 ^ k) ltac:(lia)) as Hm.
  set (low := x mod 2 ^ k) in *. clearbody low.
  set (h := 2 ^ (k - 1)) in *. set (t := 2 ^ k) in *. clearbody h t.
  pow_consts.
  destruct (Z.ltb_spec low h).
  - symmetry. apply Z.mod_small. lia.
  - rewrite <- (Z.mod_add (low - t) 1) by lia. symmetry.
    rewrite Z.mod_small by lia. lia.
Qed.

Lemma mod_mod_pow2 a k j : 0 <= k <= j -> (a mod 2 ^ j) mod 2 ^ k = a mod 2 ^ k.
Proof.
  intros H.
  assert (E : 2 ^ j = 2 ^ k * 2 ^ (j - k)).
  { rewrite <- Z.pow_add_r by lia. f_equal. lia. }
  assert (0 < 2 ^ k) by (apply Z.pow_pos_nonneg; lia).
  assert (0 < 2 ^ (j - k)) by (apply Z.pow_pos_nonneg; lia).
  rewrite E, Z.rem_mul_r by lia.
  rewrite Z.mul_comm, Z.mod_add by lia. apply Z.mod_mod. lia.
Qed.

Lemma u64_inj_signed a b :
  - 2 ^ 63 <= a < 2 ^ 63 -> - 2 ^ 63 <= b < 2 ^ 63 -> (u64 a =? u64 b) = (a =? b).
Proof.
  intros Ha Hb. unfold u64. change (2 ^ 63) with 9223372036854775808 in *. pow_consts.
  bool_arith; exfalso; Z.to_euclidean_division_equations; lia.
Qed.

(** The overflow test of the left shift. *)
Lemma left_shift_overflow v n :
  0 <= n <= 39 ->
  (SignExtend64 40 (v mod 2 ^ 40) =? SignExtend64 (40 - n) (v mod 2 ^ 40))
  = (- 2 ^ 39 <=? signed 40 v * 2 ^ n) && (signed 40 v * 2 ^ n <? 2 ^ 39).
Proof.
  intros Hn. rewrite !SignExtend64_as_signed by lia.
  assert (E40 : signed 40 (v mod 2 ^ 40) = signed 40 v).
  { apply signed_mod. apply Z.mod_mod. lia. }
  rewrite E40.
  pose proof (signed_40_range v) as R40.
  pose proof (signed_range (40 - n) (v mod 2 ^ 40) ltac:(lia)) as Rk.
  assert (L : 2 ^ (40 - n - 1) <= 2 ^ 39) by (apply Z.pow_le_mono_r; lia).
  rewrite u64_inj_signed
    by (change (2 ^ 63) with 9223372036854775808; pow_consts; lia).
  assert (PA : 0 < 2 ^ n) by (apply Z.pow_pos_nonneg; lia).
  assert (E39 : 2 ^ 39 = 2 ^ (40 - n - 1) * 2 ^ n).
  { rewrite <- Z.pow_add_r by lia. f_equal. lia. }
  assert (Hk : signed (40 - n) (v mod 2 ^ 40) = signed (40 - n) (signed 40 v)).
  { apply signed_mod. rewrite mod_mod_pow2 by lia.
    rewrite <- (mod_mod_pow2 (signed 40 v) (40 - n) 40) by lia.
    rewrite signed_40_mod. rewrite mod_mod_pow2 by lia. reflexivity. }
  rewrite Hk in *.
  set (s := signed 40 v) in *.
  destruct (Z.eqb_spec s (signed (40 - n) s)) as [ Eq | Ne ].
  - rewrite Eq at 1 2. rewrite E39.
    set (A := 2 ^ n) in *. set (h := 2 ^ (40 - n - 1)) in *.
    symmetry. apply andb_true_iff. split; [ apply Z.leb_le | apply Z.ltb_lt ]; nia.
  - symmetry. apply andb_false_iff.
    destruct (Z.leb_spec (- 2 ^ 39) (s * 2 ^ n)); [ | left; reflexivity ].
    destruct (Z.ltb_spec (s * 2 ^ n) (2 ^ 39)); [ | right; reflexivity ].
    exfalso. apply Ne. symmetry. apply signed_small; [ lia | ].
    rewrite E39 in *.
    set (A := 2 ^ n) in *. set (h := 2 ^ (40 - n - 1)) in *. nia.
Qed.

Lemma left_shift_value v n :
  0 <= n ->
  signed 40 (SignExtend64 40 (u64 ((v mod 2 ^ 40) << n))) = signed 40 (signed 40 v * 2 ^ n).
Proof.
  intros Hn. apply signed_mod.
  rewrite SignExtend64_40_low, u64_mod40, Z.shiftl_mul_pow2 by lia.
  rewrite <- (Z.mul_mod_idemp_l (signed 40 v)) by lia. rewrite signed_40_mod. reflexivity.
Qed.

Lemma left_shift_carry v n :
  0 <= n <= 39 ->
  nz (u64 ((v mod 2 ^ 40) << n) .& (1 << 40)) = Z.testbit (v mod 2 ^ 40) (40 - n).
Proof.
  intros Hn. rewrite single_bit, testbit_u64, Z.shiftl_spec by lia. reflexivity.
Qed.

Lemma SetAcc_Simple_flv (dest : RegName) (r : Z) (m mc' : Machine) :
  SetAcc_Simple dest r m = Ok tt mc' -> regs.flv (rf mc') = regs.flv (rf m).
Proof.
  destruct dest; unfold SetAcc_Simple, modify, throw; intros H; try discriminate;
    injection H as <-; reflexivity.
Qed.

(** X20.  The left shift multiplies, and reports what does not fit.  In
    arithmetic mode ([s = 0]), for a shift count [n] below 2^15 and [v] read
    as a signed 40-bit number, let [p] be the exact product [v * 2^n].
    [ShiftBus40] sets [fv] exactly when [p] does not fit 40 signed bits
    ([flv] is sticky).  With [sar[1]] set the accumulator receives the low
    40 bits of [p]; with [sar[1]] clear it receives [p] when [p] fits 32
    signed bits and otherwise the nearer bound of that range, and [fls] is
    set.  [fc[0]] is the last bit shifted out of the 40 bits, and is clear
    for a count of 40 or more. *)
Theorem ShiftBus40_left (v n : Z) (dest : RegName) (mc : Machine) :
  regs.s (rf mc) = 0 ->
  0 <= n < 2 ^ 15 ->
  (exists u, GetAcc dest mc = Ok u mc) ->
  let p := signed 40 v * 2 ^ n in
  let over := negb ((- 2 ^ 39 <=? p) && (p <? 2 ^ 39)) in
  let sat := negb (regs.sar (rf mc) 1) && ((p <? - 2 ^ 31) || (2 ^ 31 <=? p)) in
  exists r mc',
    ShiftBus40 v n dest mc = Ok tt mc' /\
    GetAcc dest mc' = Ok r mc' /\
    is_SE40 r /\
    signed 40 r = (if sat then if p <? 0 then - 2 ^ 31 else 2 ^ 31 - 1 else signed 40 p) /\
    (over = false -> signed 40 p = p) /\
    regs.fv (rf mc') = over /\
    regs.flv (rf mc') = regs.flv (rf mc) || over /\
    regs.fc (rf mc') 0 = (if 40 <=? n then false else Z.testbit (v mod 2 ^ 40) (40 - n)) /\
    regs.fls (rf mc') = regs.fls (rf mc) || sat /\
    mem mc' = mem mc.
Proof.
  intros Hs Hn (u & Hu) p over sat.
  assert (Hu' : exists u, GetAcc dest mc = Ok u mc) by (exists u; exact Hu).
  change (2 ^ 15) with 32768 in Hn.
  assert (Edir : (n >> 15 =? 0) = true).
  { apply Z.eqb_eq. apply shiftr_small; [ lia | ]. change (2 ^ 15) with 32768. lia. }
  pose proof (signed_40_range v) as Hrange.
  assert (PA : 0 < 2 ^ n) by (apply Z.pow_pos_nonneg; lia).
  assert (Hneg : (p <? 0) = (signed 40 v <? 0)).
  { unfold p. set (A := 2 ^ n) in *. clearbody A.
    destruct (Z.ltb_spec (signed 40 v) 0); [ apply Z.ltb_lt | apply Z.ltb_ge ]; nia. }
  assert (Hsign : ((v .& 0xFFFFFFFFFF) >> 39 =? 1) = (p <? 0)).
  { rewrite Hneg, land_mask40, signed_40_eq, Z.shiftr_div_pow2 by lia. pow_consts.
    pose proof (Z.mod_pos_bound v 1099511627776 ltac:(lia)).
    bool_arith; exfalso; Z.to_euclidean_division_equations; lia. }
  assert (Hfitp : over = false -> signed 40 p = p).
  { unfold over. intros H. apply negb_false_iff, andb_true_iff in H. destruct H as (H1 & H2).
    apply Z.leb_le in H1. apply Z.ltb_lt in H2. apply signed_small; [ lia | ].
    change (2 ^ (40 - 1)) with (2 ^ 39). lia. }
  assert (Hout : over = true -> ((p <? - 2 ^ 31) || (2 ^ 31 <=? p)) = true).
  { unfold over. intros H. apply negb_true_iff, andb_false_iff in H. pow_consts.
    destruct H as [ H | H ]; [ apply Z.leb_gt in H | apply Z.ltb_ge in H ]; bool_arith. }
  unfold ShiftBus40.
  set (V := v .& 0xFFFFFFFFFF) in *.
  unfold bind at 1. unfold gets at 1. rewrite Hs. cbv beta iota zeta.
  rewrite Edir. change (0 =? 0) with true. cbv beta iota.
  match goal with
  | |- context [ bind ?P _ ] =>
      assert (Prod : exists W,
                 P mc = Ok W {| rf := set_fc 0 (if 40 <=? n then false
                                               else Z.testbit (v mod 2 ^ 40) (40 - n))
                                       ((if over then regs.set_flv true else fun rs => rs)
                                          (regs.set_fv over (rf mc)));
                                mem := mem mc |} /\
                 signed 40 (SignExtend64 40 W) = signed 40 p)
  end.
  { unfold when, bind, modify, gets, ret. subst V. rewrite land_mask40.
    destruct (Z.leb_spec 40 n) as [ Hbig | Hsmall ]; cbn.
    - assert (E2 : 2 ^ n = 2 ^ 40 * 2 ^ (n - 40)).
      { rewrite <- Z.pow_add_r by lia. f_equal. lia. }
      assert (PB : 0 < 2 ^ (n - 40)) by (apply Z.pow_pos_nonneg; lia).
      assert (Eo : nz (v mod 2 ^ 40) = over).
      { unfold over, p, nz. rewrite E2. rewrite signed_40_eq in *. pow_consts.
        pose proof (Z.mod_pos_bound v 1099511627776 ltac:(lia)).
        set (B := 2 ^ (n - 40)) in *. clearbody B.
        bool_arith; exfalso; nia. }
      rewrite Eo. destruct over; cbn; (eexists; split; [ reflexivity | ]);
        change (SignExtend64 40 0) with 0; change (signed 40 0) with 0; symmetry;
        rewrite signed_40_eq; unfold p; rewrite E2;
        replace (signed 40 v * (2 ^ 40 * 2 ^ (n - 40)))
          with ((signed 40 v * 2 ^ (n - 40)) * 2 ^ 40) by lia;
        rewrite Z.mod_mul by lia; reflexivity.
    - rewrite left_shift_overflow by lia. fold p. fold over.
      rewrite left_shift_carry by lia.
      destruct over; cbn; (eexists; split; [ reflexivity | ]);
        apply left_shift_value; lia. }
  destruct Prod as (W & EP & EW).
  unfold bind at 1. rewrite EP. cbv beta iota.
  pose proof (SignExtend64_40_is_SE40 W) as Hse.
  set (r0 := SignExtend64 40 W) in *. clearbody r0.
  pose proof (fits_32 r0 Hse) as Hfit. rewrite EW in Hfit.
  unfold SetAccFlag. unfold is_SE40 in Hse. rewrite <- Hse, Z.eqb_refl. cbv beta iota.
  change (negb true) with false. cbv iota.
  unfold bind, modify, get_regs, ret. cbn.
  assert (Ep : regs.s ((if over then regs.set_flv true else fun rs => rs)
                         (regs.set_fv over (rf mc))) = 0
               /\ regs.sar ((if over then regs.set_flv true else fun rs => rs)
                              (regs.set_fv over (rf mc))) = regs.sar (rf mc)
               /\ regs.fv ((if over then regs.set_flv true else fun rs => rs)
                             (regs.set_fv over (rf mc))) = over
               /\ regs.flv ((if over then regs.set_flv true else fun rs => rs)
                              (regs.set_fv over (rf mc))) = regs.flv (rf mc) || over
               /\ regs.fls ((if over then regs.set_flv true else fun rs => rs)
                              (regs.set_fv over (rf mc))) = regs.fls (rf mc)).
  { destruct over; cbn; rewrite ?orb_true_r, ?orb_false_r; repeat split; exact Hs. }
  destruct Ep as (P1 & P2 & P3 & P4 & P5).
  rewrite P1, P2, P3. change (0 =? 0) with true. cbn [andb].
  rewrite Hfit, negb_involutive, Hsign.
  assert (Esat : over || ((signed 40 p <? - 2 ^ 31) || (2 ^ 31 <=? signed 40 p))
                 = (p <? - 2 ^ 31) || (2 ^ 31 <=? p)).
  { destruct over eqn:Eo.
    - rewrite (Hout eq_refl). reflexivity.
    - rewrite (Hfitp eq_refl). reflexivity. }
  rewrite Esat. fold sat.
  subst sat.
  destruct (regs.sar (rf mc) 1) eqn:Esar; cbn [negb andb];
    [ | destruct ((p <? - 2 ^ 31) || (2 ^ 31 <=? p)) eqn:Eout ]; cbv beta iota;
    match goal with
    | |- exists r mc', SetAcc_Simple dest ?R ?M = _ /\ _ =>
        destruct (SetAcc_Simple_run dest R mc M Hu') as (mc' & E1 & E2 & E3 & E4 & E5 & E6);
        exists R, mc'
    end;
    rewrite (SetAcc_Simple_flv _ _ _ _ E1);
    rewrite E3, E4, E5, E6; cbn; rewrite ?upd_same, ?P3, ?P4, ?P5;
    (split; [ exact E1 | ]); (split; [ exact E2 | ]);
    rewrite ?orb_false_r, ?orb_true_r.
  - repeat split; assumption.
  - split; [ destruct (p <? 0); apply is_SE40_iff; pow_consts; lia | ].
    split; [ destruct (p <? 0); reflexivity | ]. repeat split; assumption.
  - repeat split; assumption.
Qed.
(** *** Addition, subtraction and comparison on an accumulator *)

Lemma AddSub_frame a b sub mc :
  exists mc',
    AddSub a b sub mc = Ok (SignExtend64 40 (if sub then a - b else a + b)) mc' /\
    mem mc' = mem mc /\
    regs.a (rf mc') = regs.a (rf mc) /\ regs.b (rf mc') = regs.b (rf mc) /\
    regs.sar (rf mc') = regs.sar (rf mc) /\ regs.fls (rf mc') = regs.fls (rf mc).
Proof.
  destruct (AddSub_value a b sub mc) as (mc' & E & Em).
  exists mc'. split; [ exact E | ]. split; [ exact Em | ].
  revert E. unfold AddSub, bind, modify, gets, when, ret. cbn.
  match goal with |- context [ regs.set_fv ?c _ ] => destruct c end; cbn;
    intros E; injection E as _ <-; repeat split.
Qed.

Lemma sign_of_SE40 v : is_SE40 v -> nz (v >> 39) = (signed 40 v <? 0).
Proof.
  intros H. rewrite shr39_testbit by (right; exact H).
  rewrite testbit_39, signed_40_eq. pow_consts.
  pose proof (Z.mod_pos_bound v 1099511627776 ltac:(lia)). bool_arith.
Qed.

Lemma zero_of_SE40 v : is_SE40 v -> (v =? 0) = (signed 40 v =? 0).
Proof.
  intros H. rewrite (signed_40_SE40 v H). apply is_SE40_iff in H. pow_consts. bool_arith.
Qed.

Lemma fits_32_sym w :
  is_SE40 w ->
  (w =? SignExtend64 32 w) = negb ((signed 40 w <? - 2 ^ 31) || (2 ^ 31 <=? signed 40 w)).
Proof. intros H. rewrite Z.eqb_sym. apply fits_32. exact H. Qed.

(** [SetAccFlag] on an accumulator value, in terms of its signed reading. *)
Lemma SetAccFlag_signed v m :
  is_SE40 v ->
  exists m',
    SetAccFlag v m = Ok tt m' /\
    regs.fz (rf m') = (signed 40 v =? 0) /\
    regs.fm (rf m') = (signed 40 v <? 0) /\
    regs.fe (rf m') = ((signed 40 v <? - 2 ^ 31) || (2 ^ 31 <=? signed 40 v)) /\
    regs.a (rf m') = regs.a (rf m) /\ regs.b (rf m') = regs.b (rf m) /\
    regs.sar (rf m') = regs.sar (rf m) /\ regs.fls (rf m') = regs.fls (rf m) /\
    mem m' = mem m.
Proof.
  intros H. unfold SetAccFlag. pose proof H as H'. unfold is_SE40 in H'.
  rewrite <- H', Z.eqb_refl. cbn [negb]. unfold bind, modify. cbn.
  eexists. split; [ reflexivity | ]. cbn.
  rewrite (zero_of_SE40 v H), (sign_of_SE40 v H), (fits_32_sym v H), negb_involutive.
  repeat split.
Qed.

(** The saturation of [SetAcc]: the value stored and the flag [fls]. *)
Lemma SaturateAcc_signed v s m :
  is_SE40 v ->
  let out := (signed 40 v <? - 2 ^ 31) || (2 ^ 31 <=? signed 40 v) in
  let sat := negb (regs.sar (rf m) (Z.b2z s)) && out in
  exists r m',
    SaturateAcc v s m = Ok r m' /\
    is_SE40 r /\
    signed 40 r = (if sat then if signed 40 v <? 0 then - 2 ^ 31 else 2 ^ 31 - 1
                   else signed 40 v) /\
    regs.fls (rf m') = regs.fls (rf m) || sat /\
    regs.a (rf m') = regs.a (rf m) /\ regs.b (rf m') = regs.b (rf m) /\
    regs.fz (rf m') = regs.fz (rf m) /\ regs.fm (rf m') = regs.fm (rf m) /\
    regs.fe (rf m') = regs.fe (rf m) /\
    mem m' = mem m.
Proof.
  intros H out sat.
  unfold SaturateAcc, SaturateAcc_Unconditional, bind, gets, modify, ret.
  rewrite (fits_32_sym v H), negb_involutive, (sign_of_SE40 v H). fold out. subst sat.
  destruct (regs.sar (rf m) (Z.b2z s)); cbn [negb andb];
    [ | destruct out eqn:Eo ]; cbn.
  - exists v, m. rewrite orb_false_r. repeat split. exact H.
  - destruct (signed 40 v <? 0); (eexists; eexists; split; [ reflexivity | ]); cbn;
      rewrite orb_true_r;
      (split; [ apply is_SE40_iff; pow_consts; lia | ]); repeat split.
  - exists v, m. rewrite orb_false_r. repeat split. exact H.
Qed.

Lemma signed_40_SE40_arg x : signed 40 (SignExtend64 40 x) = signed 40 x.
Proof. apply signed_mod. apply SignExtend64_40_low. Qed.

Lemma signed_40_add a b : signed 40 (a + b) = signed 40 (signed 40 a + signed 40 b).
Proof.
  apply signed_mod. rewrite Zplus_mod, <- (signed_40_mod a), <- (signed_40_mod b).
  rewrite <- Zplus_mod. reflexivity.
Qed.

Lemma signed_40_sub a b : signed 40 (a - b) = signed 40 (signed 40 a - signed 40 b).
Proof.
  apply signed_mod. rewrite Zminus_mod, <- (signed_40_mod a), <- (signed_40_mod b).
  rewrite <- Zminus_mod. reflexivity.
Qed.

(** The common part of addition, subtraction and comparison: [AddSub]
    followed by [SetAccFlag]. *)
Lemma AddSub_SetAccFlag_run (u a : Z) (sub : bool) (b : RegName) (mc : Machine) :
  b = RegName.a0 \/ b = RegName.a1 ->
  GetAcc b mc = Ok u mc ->
  let w := signed 40 (if sub then signed 40 u - signed 40 a
                      else signed 40 u + signed 40 a) in
  exists res m1 m2,
    AddSub u a sub mc = Ok res m1 /\
    SetAccFlag res m1 = Ok tt m2 /\
    is_SE40 res /\ signed 40 res = w /\
    regs.fz (rf m2) = (w =? 0) /\
    regs.fm (rf m2) = (w <? 0) /\
    regs.fe (rf m2) = ((w <? - 2 ^ 31) || (2 ^ 31 <=? w)) /\
    regs.a (rf m2) = regs.a (rf mc) /\ regs.b (rf m2) = regs.b (rf mc) /\
    regs.sar (rf m2) = regs.sar (rf mc) /\ regs.fls (rf m2) = regs.fls (rf mc) /\
    mem m2 = mem mc /\
    GetAcc b m2 = Ok u m2.
Proof.
  intros Hb Hu w.
  destruct (AddSub_frame u a sub mc) as (m1 & EA & Em1 & Ea1 & Eb1 & Esar1 & Efls1).
  set (res := SignExtend64 40 (if sub then u - a else u + a)) in *.
  assert (Hres : is_SE40 res) by apply SignExtend64_40_is_SE40.
  assert (Hw : signed 40 res = w).
  { unfold res, w. rewrite signed_40_SE40_arg.
    destruct sub; [ apply signed_40_sub | apply signed_40_add ]. }
  destruct (SetAccFlag_signed res m1 Hres)
    as (m2 & EF & Fz & Fm & Fe & Fa & Fb & Fsar & Ffls & Fmem).
  rewrite Hw in Fz, Fm, Fe.
  exists res, m1, m2.
  rewrite Fa, Fb, Fsar, Ffls, Fmem, Ea1, Eb1, Esar1, Efls1, Em1.
  do 12 (split; [ first [ assumption | reflexivity ] | ]).
  destruct Hb as [ -> | -> ]; unfold GetAcc, gets in *; injection Hu as Hu;
    rewrite Fa, Ea1, Hu; reflexivity.
Qed.

(** [AddSub] followed by [SetAcc], as [Add] and [Sub] run them. *)
Lemma AddSub_SetAcc_run (u a : Z) (sub : bool) (b : RegName) (mc : Machine) :
  b = RegName.a0 \/ b = RegName.a1 ->
  GetAcc b mc = Ok u mc ->
  let w := signed 40 (if sub then signed 40 u - signed 40 a
                      else signed 40 u + signed 40 a) in
  let out := (w <? - 2 ^ 31) || (2 ^ 31 <=? w) in
  let sat := negb (regs.sar (rf mc) 1) && out in
  exists r mc',
    (result <- AddSub u a sub ;; SetAcc b result) mc = Ok tt mc' /\
    GetAcc b mc' = Ok r mc' /\
    regs.fz (rf mc') = (w =? 0) /\
    regs.fm (rf mc') = (w <? 0) /\
    regs.fe (rf mc') = out /\
    (is_SE40 r /\
     signed 40 r = (if sat then if w <? 0 then - 2 ^ 31 else 2 ^ 31 - 1 else w) /\
     regs.fls (rf mc') = regs.fls (rf mc) || sat) /\
    mem mc' = mem mc.
Proof.
  intros Hb Hu w out sat.
  destruct (AddSub_SetAccFlag_run u a sub b mc Hb Hu)
    as (res & m1 & m2 & EA & EF & Hres & Hw & Fz & Fm & Fe & Fa & Fb & Fsar & Ffls & Fmem & Hu2).
  fold w in Hw, Fz, Fm, Fe. fold out in Fe.
  destruct (SaturateAcc_signed res true m2 Hres)
    as (r & m3 & ES & Sse & Sval & Sfls & Sa & Sb & Sz & Sm & Se & Smem).
  cbv zeta in Sval, Sfls. rewrite Hw in Sval, Sfls.
  change (Z.b2z true) with 1 in Sval, Sfls. rewrite Fsar in Sval, Sfls.
  fold out in Sval, Sfls. fold sat in Sval, Sfls.
  destruct (SetAcc_Simple_run b r mc m3 (ex_intro _ u Hu))
    as (mc' & E1 & E2 & E3 & E4 & E5 & E6).
  exists r, mc'. split.
  { unfold bind at 1. rewrite EA.
    unfold SetAcc, SetAcc_, bind. rewrite EF. cbn [negb]. rewrite ES. exact E1. }
  split; [ exact E2 | ].
  assert (Fl : regs.fz (rf mc') = regs.fz (rf m3) /\ regs.fm (rf mc') = regs.fm (rf m3)
               /\ regs.fe (rf mc') = regs.fe (rf m3)).
  { revert E1. destruct Hb as [ -> | -> ]; unfold SetAcc_Simple, modify;
      intros E; injection E as <-; repeat split. }
  destruct Fl as (L1 & L2 & L3).
  rewrite L1, L2, L3, Sz, Sm, Se, E5, E6, Sfls, Smem, Ffls, Fmem.
  repeat split; assumption.
Qed.

(** X21.  Addition, subtraction and comparison.  Let the accumulator
    [b] (a0 or a1) hold [u], and let [w] be the sum of [u] and the operand
    [a] for [Add], their difference for [Sub] and [Cmp], both read as
    signed 40-bit numbers and the result wrapped to 40 bits.  [AlmGeneric]
    sets [fz], [fm] and [fe] from [w]: zero, negative, and not
    representable in 32 signed bits.  [Add] and [Sub] store [w] in [b], or,
    when [sar[1]] is clear and [w] does not fit 32 signed bits, the nearer
    bound of that range, setting [fls].  [Cmp] stores nothing: all four
    accumulators and [fls] are as before. *)
Theorem AlmGeneric_add_sub_cmp (op : AlmOp) (a : Z) (b : RegName) (u : Z) (mc : Machine) :
  op = AlmOp.Add \/ op = AlmOp.Sub \/ op = AlmOp.Cmp ->
  b = RegName.a0 \/ b = RegName.a1 ->
  GetAcc b mc = Ok u mc ->
  let e := match op with
           | AlmOp.Add => signed 40 u + signed 40 a
           | _ => signed 40 u - signed 40 a
           end in
  let w := signed 40 e in
  let out := (w <? - 2 ^ 31) || (2 ^ 31 <=? w) in
  let sat := negb (regs.sar (rf mc) 1) && out in
  exists r mc',
    AlmGeneric op a b mc = Ok tt mc' /\
    GetAcc b mc' = Ok r mc' /\
    regs.fz (rf mc') = (w =? 0) /\
    regs.fm (rf mc') = (w <? 0) /\
    regs.fe (rf mc') = out /\
    (match op with
     | AlmOp.Cmp =>
         r = u /\ regs.a (rf mc') = regs.a (rf mc) /\ regs.b (rf mc') = regs.b (rf mc) /\
         regs.fls (rf mc') = regs.fls (rf mc)
     | _ =>
         is_SE40 r /\
         signed 40 r = (if sat then if w <? 0 then - 2 ^ 31 else 2 ^ 31 - 1 else w) /\
         regs.fls (rf mc') = regs.fls (rf mc) || sat
     end) /\
    mem mc' = mem mc.
Proof.
  intros Hop Hb Hu.
  destruct Hop as [ -> | [ -> | -> ] ]; cbv zeta.
  - destruct (AddSub_SetAcc_run u a false b mc Hb Hu) as (r & mc' & E & H).
    exists r, mc'. split; [ | exact H ].
    unfold AlmGeneric. unfold bind at 1. rewrite Hu. exact E.
  - destruct (AddSub_SetAcc_run u a true b mc Hb Hu) as (r & mc' & E & H).
    exists r, mc'. split; [ | exact H ].
    unfold AlmGeneric. unfold bind at 1. rewrite Hu. exact E.
  - destruct (AddSub_SetAccFlag_run u a true b mc Hb Hu)
      as (res & m1 & m2 & EA & EF & Hres & Hw & Fz & Fm & Fe & Fa & Fb & Fsar & Ffls & Fmem & Hu2).
    exists u, m2. split.
    { unfold AlmGeneric, bind. rewrite Hu. cbn [negb]. rewrite EA. exact EF. }
    repeat split; assumption.
Qed.
(** *** Division steps *)

Lemma SetAcc_NoSaturation_run (b : RegName) (x : Z) (m0 m : Machine) :
  is_SE40 x ->
  (exists u, GetAcc b m0 = Ok u m0) ->
  exists mc',
    SetAcc_NoSaturation b x m = Ok tt mc' /\
    GetAcc b mc' = Ok x mc' /\
    regs.page (rf mc') = regs.page (rf m) /\
    mem mc' = mem m.
Proof.
  intros H (u & Hu).
  unfold SetAcc_NoSaturation, SetAcc_, SetAccFlag. unfold is_SE40 in H.
  rewrite <- H, Z.eqb_refl. cbn [negb].
  destruct b; try (unfold GetAcc, throw in Hu; discriminate);
    unfold SetAcc_Simple, GetAcc, bind, modify, gets, ret; cbn;
    (eexists; split; [ reflexivity | ]); cbn; rewrite upd_same; repeat split.
Qed.

(** The comparison [divs] makes: [P * r + q], with [q] below [P], is
    below [P * x] exactly when [r] is below [x]. *)
Lemma scaled_compare (P q r x : Z) :
  0 <= q < P -> (P * r + q <? P * x) = (r <? x).
Proof.
  intros Hq.
  destruct (Z.ltb_spec r x) as [ L | L ].
  - apply Z.ltb_lt.
    assert (P * (r + 1) <= P * x) by (apply Z.mul_le_mono_nonneg_l; lia). lia.
  - apply Z.ltb_ge.
    assert (P * x <= P * r) by (apply Z.mul_le_mono_nonneg_l; lia). lia.
Qed.

Section Division.

(** The dividend [N] and the divisor [d]. *)
Variables (N d : Z).

Lemma dividing_step (P E v : Z) :
  0 < P -> 0 < E -> 0 <= d ->
  dividing N d P (2 * E) v ->
  dividing N d (2 * P) E (if v <? d * (P * E) then 2 * v else 2 * (v - d * (P * E)) + 1).
Proof.
  intros HP HE Hd (q & r & Hq & Hr & HN & Hv).
  assert (C : (v <? d * (P * E)) = (r <? d * E)).
  { rewrite Hv. replace (d * (P * E)) with (P * (d * E)) by ring.
    apply scaled_compare. exact Hq. }
  rewrite C. destruct (Z.ltb_spec r (d * E)) as [ L | L ].
  - exists (2 * q), r.
    repeat split; first [ lia | rewrite HN; ring | rewrite Hv; ring ].
  - exists (2 * q + 1), (r - d * E).
    repeat split; first [ lia | rewrite HN; ring | rewrite Hv; ring ].
Qed.

Lemma dividing_bound (P F v : Z) :
  0 < P -> 0 < F -> 0 <= d -> dividing N d P F v -> 0 <= v < P * (d * F).
Proof.
  intros HP HF Hd (q & r & Hq & Hr & HN & Hv). subst v.
  assert (P * (r + 1) <= P * (d * F)) by (apply Z.mul_le_mono_nonneg_l; lia).
  assert (0 <= P * r) by (apply Z.mul_nonneg_nonneg; lia).
  lia.
Qed.

Lemma dividing_done (P v : Z) :
  0 < d -> dividing N d P 1 v -> v = P * (N mod d) + N / d.
Proof.
  intros Hd (q & r & Hq & Hr & HN & Hv).
  assert (E : q = N / d /\ r = N mod d).
  { assert (HN' : N = d * q + r) by (rewrite HN; ring).
    pose proof (Z.div_mod_unique d q (N / d) r (N mod d)) as U.
    apply U; [ left; lia | left; apply Z.mod_pos_bound; lia | ].
    rewrite <- HN'. apply Z.div_mod. lia. }
  destruct E as [ <- <- ]. exact Hv.
Qed.

Variables (a : Z) (b : RegName).
Hypothesis Hd : 0 <= d < 2 ^ 16.

(** One [divs]: the divisor, moved up by 15 bits, is subtracted if
    that leaves no negative number, and the accumulator moves up by one
    bit, with the new quotient bit at the bottom. *)
Lemma divs_run (v : Z) (mc : Machine) :
  GetAcc b mc = Ok v mc ->
  data (mem mc) (u16 (a + (regs.page (rf mc) << 8))) = d ->
  0 <= v < 2 ^ 38 ->
  exists mc',
    divs a b mc = Ok tt mc' /\
    GetAcc b mc' =
      Ok (if v <? d * 2 ^ 15 then 2 * v else 2 * (v - d * 2 ^ 15) + 1) mc' /\
    regs.page (rf mc') = regs.page (rf mc) /\
    mem mc' = mem mc.
Proof.
  intros Hu Hdat Hv.
  unfold divs, LoadFromMemory_MemImm8, DataRead. unfold bind at 1 2. unfold gets at 1.
  rewrite Hdat. unfold bind at 1. rewrite Hu.
  assert (Hsh : d << 15 = d * 2 ^ 15) by (apply Z.shiftl_mul_pow2; lia).
  rewrite Hsh.
  set (D := d * 2 ^ 15) in *.
  assert (HD : 0 <= D < 2 ^ 31) by (unfold D; lia).
  clearbody D. clear Hsh.
  assert (C : nz (u64 (v - D) >> 63) = (v <? D)).
  { unfold nz, u64. rewrite Z.shiftr_div_pow2 by lia.
    destruct (Z.ltb_spec v D) as [ L | L ].
    - replace ((v - D) mod 2 ^ 64) with (v - D + 2 ^ 64)
        by (apply Z.mod_unique with (-1); lia).
      replace ((v - D + 2 ^ 64) / 2 ^ 63) with 1
        by (apply Z.div_unique with (v - D + 2 ^ 63); lia).
      reflexivity.
    - rewrite Z.mod_small by lia. rewrite Z.div_small by lia. reflexivity. }
  rewrite C.
  destruct (Z.ltb_spec v D) as [ L | L ].
  - assert (S40 : is_SE40 (2 * v)) by (apply is_SE40_iff; left; lia).
    assert (E : SignExtend64 40 (u64 (v << 1)) = 2 * v).
    { rewrite Z.shiftl_mul_pow2 by lia. change (2 ^ 1) with 2.
      unfold u64. rewrite Z.mod_small by lia.
      replace (v * 2) with (2 * v) by ring. symmetry. exact S40. }
    rewrite E.
    apply (SetAcc_NoSaturation_run b (2 * v) mc mc); [ exact S40 | ].
    exists v. exact Hu.
  - assert (S40 : is_SE40 (2 * (v - D) + 1)) by (apply is_SE40_iff; left; lia).
    assert (E : SignExtend64 40 (u64 (u64 (u64 (v - D) << 1) + 1)) = 2 * (v - D) + 1).
    { rewrite Z.shiftl_mul_pow2 by lia. change (2 ^ 1) with 2.
      unfold u64.
      rewrite (Z.mod_small (v - D)) by lia.
      rewrite (Z.mod_small ((v - D) * 2)) by lia.
      rewrite Z.mod_small by lia.
      replace ((v - D) * 2 + 1) with (2 * (v - D) + 1) by ring. symmetry. exact S40. }
    rewrite E.
    apply (SetAcc_NoSaturation_run b _ mc mc); [ exact S40 | ].
    exists v. exact Hu.
Qed.

Lemma divs_iterate (n : nat) :
  forall (P F v : Z) (mc : Machine),
    0 < P -> 0 < F -> P * (2 ^ Z.of_nat n * F) = 2 ^ 16 ->
    GetAcc b mc = Ok v mc ->
    data (mem mc) (u16 (a + (regs.page (rf mc) << 8))) = d ->
    dividing N d P (2 ^ Z.of_nat n * F) v ->
    exists v' mc',
      iterate n (divs a b) mc = Ok tt mc' /\
      GetAcc b mc' = Ok v' mc' /\
      dividing N d (2 ^ Z.of_nat n * P) F v' /\
      mem mc' = mem mc.
Proof.
  induction n as [ | n IH ]; intros P F v mc HP HF HPF Hu Hdat Hdiv.
  - change (2 ^ Z.of_nat 0) with 1 in *. rewrite Z.mul_1_l in *.
    exists v, mc. repeat split; assumption.
  - assert (Hpow : 2 ^ Z.of_nat (S n) = 2 * 2 ^ Z.of_nat n).
    { rewrite Nat2Z.inj_succ, Z.pow_succ_r by lia. reflexivity. }
    rewrite Hpow in *.
    assert (Hn : 0 < 2 ^ Z.of_nat n) by (apply Z.pow_pos_nonneg; lia).
    set (E := 2 ^ Z.of_nat n * F) in *.
    assert (HE : 0 < E) by (apply Z.mul_pos_pos; assumption).
    replace (2 * 2 ^ Z.of_nat n * F) with (2 * E) in * by (unfold E; ring).
    assert (HPE : P * E = 2 ^ 15).
    { assert (2 * (P * E) = 2 ^ 16) by (rewrite <- HPF; ring). lia. }
    pose proof (dividing_bound P (2 * E) v HP ltac:(lia) ltac:(lia) Hdiv) as Hv.
    assert (Hv38 : 0 <= v < 2 ^ 38).
    { replace (P * (d * (2 * E))) with (d * (P * (2 * E))) in Hv by ring.
      rewrite HPF in Hv. lia. }
    destruct (divs_run v mc Hu Hdat Hv38) as (m1 & E1 & Hu1 & Hp1 & Hm1).
    pose proof (dividing_step P E v HP HE ltac:(lia) Hdiv) as Hdiv1.
    rewrite HPE in Hdiv1.
    set (v1 := if v <? d * 2 ^ 15 then 2 * v else 2 * (v - d * 2 ^ 15) + 1) in *.
    destruct (IH (2 * P) F v1 m1) as (v' & mc' & E2 & Hu2 & Hdiv2 & Hm2).
    + lia.
    + exact HF.
    + fold E. rewrite <- HPF. ring.
    + exact Hu1.
    + rewrite Hm1, Hp1. exact Hdat.
    + fold E. exact Hdiv1.
    + exists v', mc'. split.
      { cbn [iterate]. unfold bind at 1. rewrite E1. exact E2. }
      split; [ exact Hu2 | ]. split.
      * replace (2 * 2 ^ Z.of_nat n * P) with (2 ^ Z.of_nat n * (2 * P)) by ring.
        exact Hdiv2.
      * rewrite Hm2. exact Hm1.
Qed.

End Division.

(** X22.  Sixteen division steps divide.  Let the accumulator [b]
    hold the dividend [N] and the data word that [divs]
    addresses hold the divisor [d], a 16-bit word, with
    [0 <= N < d * 2 ^ 16].  Then sixteen runs of [divs] in a row leave
    the quotient [N / d] in the low word of [b] and the remainder
    [N mod d] in the word above it; the memory is unchanged. *)
Theorem divs_divides (a : Z) (b : RegName) (N d : Z) (mc : Machine) :
  GetAcc b mc = Ok N mc ->
  data (mem mc) (u16 (a + (regs.page (rf mc) << 8))) = d ->
  0 <= d < 2 ^ 16 ->
  0 <= N < d * 2 ^ 16 ->
  exists mc',
    iterate 16 (divs a b) mc = Ok tt mc' /\
    GetAcc b mc' = Ok (2 ^ 16 * (N mod d) + N / d) mc' /\
    mem mc' = mem mc.
Proof.
  intros Hu Hdat Hd HN.
  destruct (divs_iterate N d a b Hd 16 1 1 N mc) as (v' & mc' & E & Hu' & Hdiv & Hm).
  - lia.
  - lia.
  - reflexivity.
  - exact Hu.
  - exact Hdat.
  - exists 0, N. change (2 ^ Z.of_nat 16 * 1) with (2 ^ 16). repeat split; lia.
  - exists mc'. split; [ exact E | ]. split; [ | exact Hm ].
    rewrite Hu'. f_equal.
    change (2 ^ Z.of_nat 16 * 1) with (2 ^ 16) in Hdiv.
    apply (dividing_done N d (2 ^ 16) v'); [ lia | exact Hdiv ].
Qed.
(** *** 16-bit addition and subtraction on a memory word *)

Lemma low_word x : x .& 0xFFFF = x mod 2 ^ 16.
Proof. change 0xFFFF with (Z.ones 16). apply Z.land_ones. lia. Qed.

Lemma add_carry_16 a b :
  0 <= a < 2 ^ 16 -> 0 <= b < 2 ^ 16 -> nz ((a + b) >> 16) = (2 ^ 16 <=? a + b).
Proof.
  intros Ha Hb. unfold nz. rewrite Z.shiftr_div_pow2 by lia.
  destruct (Z.leb_spec (2 ^ 16) (a + b)) as [ L | L ].
  - replace ((a + b) / 2 ^ 16) with 1
      by (apply Z.div_unique with (a + b - 2 ^ 16); lia).
    reflexivity.
  - rewrite Z.div_small by lia. reflexivity.
Qed.

Lemma sub_borrow_16 a b :
  0 <= a < 2 ^ 16 -> 0 <= b < 2 ^ 16 ->
  nz (u32 (b - a) >> 16) = (b <? a) /\ u32 (b - a) .& 0xFFFF = (b - a) mod 2 ^ 16.
Proof.
  intros Ha Hb. unfold nz, u32. rewrite low_word, Z.shiftr_div_pow2 by lia.
  destruct (Z.ltb_spec b a) as [ L | L ].
  - replace ((b - a) mod 2 ^ 32) with (b - a + 2 ^ 32)
      by (apply Z.mod_unique with (-1); lia).
    split.
    + replace ((b - a + 2 ^ 32) / 2 ^ 16) with (2 ^ 16 - 1)
        by (apply Z.div_unique with (b - a + 2 ^ 16); lia).
      reflexivity.
    + replace (b - a + 2 ^ 32) with (b - a + 2 ^ 16 * 2 ^ 16) by lia.
      apply Z.mod_add. lia.
  - rewrite (Z.mod_small (b - a) (2 ^ 32)) by lia. split.
    + rewrite Z.div_small by lia. reflexivity.
    + reflexivity.
Qed.

Lemma sign_32 s : - 2 ^ 31 <= s < 2 ^ 31 -> nz (u32 s >> 31) = (s <? 0).
Proof.
  intros Hs. unfold nz, u32. rewrite Z.shiftr_div_pow2 by lia.
  destruct (Z.ltb_spec s 0) as [ L | L ].
  - replace (s mod 2 ^ 32) with (s + 2 ^ 32) by (apply Z.mod_unique with (-1); lia).
    replace ((s + 2 ^ 32) / 2 ^ 31) with 1
      by (apply Z.div_unique with (s + 2 ^ 31); lia).
    reflexivity.
  - rewrite Z.mod_small by lia. rewrite Z.div_small by lia. reflexivity.
Qed.

Lemma sign_of_sum_16 (a b : Z) (sub : bool) :
  0 <= a < 2 ^ 16 -> 0 <= b < 2 ^ 16 ->
  nz (u32 (if sub then SignExtend32 16 b - SignExtend32 16 a
           else SignExtend32 16 b + SignExtend32 16 a) >> 31)
  = ((if sub then signed 16 b - signed 16 a else signed 16 b + signed 16 a) <? 0).
Proof.
  intros Ha Hb.
  rewrite (SignExtend32_16_signed a Ha), (SignExtend32_16_signed b Hb).
  pose proof (signed_range 16 a ltac:(lia)) as Ra.
  pose proof (signed_range 16 b ltac:(lia)) as Rb.
  change (16 - 1) with 15 in Ra, Rb.
  set (sa := signed 16 a) in *. set (sb := signed 16 b) in *. clearbody sa sb.
  destruct sub.
  - rewrite <- (sign_32 (sb - sa)) by lia. unfold u32.
    rewrite <- Zminus_mod. reflexivity.
  - rewrite <- (sign_32 (sb + sa)) by lia. unfold u32.
    rewrite <- Zplus_mod. reflexivity.
Qed.

(** X23.  [addv], [subv] and [cmpv] on a memory word.  Let the data
    word that [alb] addresses hold [w], and let [a] be the 16-bit
    immediate.  [Addv] stores the sum and [Subv] the difference [w - a],
    both modulo 2^16; [Cmpv] computes the difference and stores nothing.
    In all three, [fc[0]] tells that the exact result is outside
    [0, 2^16) (a carry or a borrow), [fm] that the result of the same
    operation on the signed readings of the two words is negative, and [fz]
    that the 16-bit result is zero.  No other data word changes. *)
Theorem alb_MemImm8_arithmetic (op : AlbOp) (a b : Z) (mc : Machine) :
  op = AlbOp.Addv \/ op = AlbOp.Subv \/ op = AlbOp.Cmpv ->
  0 <= a < 2 ^ 16 ->
  let addr := u16 (b + (regs.page (rf mc) << 8)) in
  let w := data (mem mc) addr in
  0 <= w < 2 ^ 16 ->
  let e := match op with AlbOp.Addv => w + a | _ => w - a end in
  let s := match op with
           | AlbOp.Addv => signed 16 w + signed 16 a
           | _ => signed 16 w - signed 16 a
           end in
  exists mc',
    alb_MemImm8 op a b mc = Ok tt mc' /\
    data (mem mc') addr = (match op with AlbOp.Cmpv => w | _ => e mod 2 ^ 16 end) /\
    (forall x, x <> addr -> data (mem mc') x = data (mem mc) x) /\
    regs.fc (rf mc') 0 = negb ((0 <=? e) && (e <? 2 ^ 16)) /\
    regs.fm (rf mc') = (s <? 0) /\
    regs.fz (rf mc') = (e mod 2 ^ 16 =? 0).
Proof.
  intros Hop Ha addr w Hw e s.
  pose proof (add_carry_16 w a Hw Ha) as Cadd.
  destruct (sub_borrow_16 a w Ha Hw) as (Csub & Lsub).
  pose proof (sign_of_sum_16 a w false Ha Hw) as Sadd.
  pose proof (sign_of_sum_16 a w true Ha Hw) as Ssub.
  cbv iota in Sadd, Ssub.
  assert (Badd : negb ((0 <=? w + a) && (w + a <? 2 ^ 16)) = (2 ^ 16 <=? w + a))
    by bool_arith.
  assert (Bsub : negb ((0 <=? w - a) && (w - a <? 2 ^ 16)) = (w <? a)) by bool_arith.
  destruct Hop as [ -> | [ -> | -> ] ]; subst e s; cbv iota;
    unfold alb_MemImm8, LoadFromMemory_MemImm8, StoreToMemory_MemImm8, GenericAlb,
      IsAlbModifying, DataRead, DataWrite, when, bind, gets, modify, ret; cbn;
    fold addr; fold w;
    (eexists; split; [ reflexivity | ]); cbn; fold addr; fold w.
  - rewrite upd_same, low_word.
    replace (a + w) with (w + a) by ring. rewrite Cadd, Sadd, Badd.
    repeat split. intros x Hx. apply upd_other. exact Hx.
  - rewrite upd_same, Lsub, Csub, Ssub, Bsub.
    repeat split. intros x Hx. apply upd_other. exact Hx.
  - rewrite Lsub, Csub, Ssub, Bsub. repeat split.
Qed.
(** *** Multiply and accumulate *)

(** [AddSub] and [SetAcc] leave the multiplier alone. *)
Lemma AddSub_SetAcc_frame (u p : Z) (sub : bool) (a : RegName) (mc mc' : Machine) :
  a = RegName.a0 \/ a = RegName.a1 ->
  (result <- AddSub u p sub ;; SetAcc a result) mc = Ok tt mc' ->
  regs.x (rf mc') = regs.x (rf mc) /\ regs.y (rf mc') = regs.y (rf mc) /\
  regs.ym (rf mc') = regs.ym (rf mc) /\ regs.ps (rf mc') = regs.ps (rf mc) /\
  regs.p (rf mc') = regs.p (rf mc) /\ regs.psign (rf mc') = regs.psign (rf mc).
Proof.
  intros Ha.
  unfold bind, AddSub, SetAcc, SetAcc_, SetAccFlag, SaturateAcc, SaturateAcc_Unconditional,
    modify, gets, when, ret, throw, bind.
  cbn.
  repeat (match goal with
          | |- context [ if ?c then _ else _ ] => destruct c
          end; cbn);
    try discriminate;
    destruct Ha as [ -> | -> ]; unfold SetAcc_Simple, modify;
    intros E; injection E as <-; repeat split.
Qed.

(** One multiplication in unit 0, and the product as the 40-bit bus
    then shows it. *)
Lemma DoMultiplication_run (x_sign y_sign : bool) (mc : Machine) :
  regs.ym (rf mc) = 0 ->
  regs.ps (rf mc) 0 = 0 ->
  0 <= regs.x (rf mc) 0 < 2 ^ 16 ->
  0 <= regs.y (rf mc) 0 < 2 ^ 16 ->
  let X := if x_sign then signed 16 (regs.x (rf mc) 0) else regs.x (rf mc) 0 in
  let Y := if y_sign then signed 16 (regs.y (rf mc) 0) else regs.y (rf mc) 0 in
  exists mc',
    DoMultiplication 0 x_sign y_sign mc = Ok tt mc' /\
    ProductToBus40 RegName.p0 mc' = Ok (u64 (X * Y)) mc' /\
    regs.a (rf mc') = regs.a (rf mc) /\ regs.b (rf mc') = regs.b (rf mc) /\
    regs.sar (rf mc') = regs.sar (rf mc) /\ regs.fls (rf mc') = regs.fls (rf mc) /\
    mem mc' = mem mc.
Proof.
  intros Hym Hps Hx Hy X Y.
  set (x := regs.x (rf mc) 0) in *. set (y := regs.y (rf mc) 0) in *.
  assert (HX : if x_sign then - 2 ^ 15 <= X < 2 ^ 15 else 0 <= X < 2 ^ 16).
  { subst X. destruct x_sign; [ | exact Hx ]. rewrite signed_16_eq.
    change (2 ^ 15) with 32768. pow_consts. rewrite Z.mod_small by lia. bool_arith. }
  assert (HY : if y_sign then - 2 ^ 15 <= Y < 2 ^ 15 else 0 <= Y < 2 ^ 16).
  { subst Y. destruct y_sign; [ | exact Hy ]. rewrite signed_16_eq.
    change (2 ^ 15) with 32768. pow_consts. rewrite Z.mod_small by lia. bool_arith. }
  assert (HP : if x_sign || y_sign then - 2 ^ 31 <= X * Y < 2 ^ 31 else 0 <= X * Y < 2 ^ 32).
  { change (2 ^ 15) with 32768 in *. pow_consts.
    destruct x_sign, y_sign; cbn [orb]; nia. }
  assert (Ep : u32 ((if x_sign then SignExtend32 16 x else x)
                    * (if y_sign then SignExtend32 16 y else y)) = u32 (X * Y)).
  { unfold u32. rewrite (Z.mul_mod (X) (Y)) by lia.
    rewrite (Z.mul_mod (if x_sign then _ else _)) by lia. f_equal. f_equal.
    - subst X. destruct x_sign; [ | reflexivity ].
      rewrite SignExtend32_16_signed by exact Hx. apply Z.mod_mod. lia.
    - subst Y. destruct y_sign; [ | reflexivity ].
      rewrite SignExtend32_16_signed by exact Hy. apply Z.mod_mod. lia. }
  pose proof (product_bus (X * Y) (x_sign || y_sign) HP) as Hbus. cbv zeta in Hbus.
  unfold DoMultiplication, bind, modify, gets, get_regs, ret.
  rewrite Hym. fold x y. change (0 =? 1) with false. change (0 =? 3) with false.
  change (0 =? 2) with false. cbn [orb andb].
  rewrite Ep.
  destruct (x_sign || y_sign) eqn:Hs;
    (eexists; split; [ reflexivity | ]);
    unfold ProductToBus40, bind, get_regs, ret; cbn;
    rewrite ?upd_same; rewrite Hps;
    (split; [ f_equal; exact Hbus | repeat split ]).
Qed.

(** X24.  Multiply and accumulate.  [MulGeneric] with [Mac], [Macsu],
    [Macus] or [Macuu] first adds the product that unit 0 holds from
    before, [p], to the accumulator [a] (a0 or a1), as signed 40-bit
    numbers, with the sum wrapped to 40 bits and then, when [sar[1]] is
    clear, clamped to the signed 32-bit range; only then it multiplies.
    With [ym] and [ps[0]] zero, the product that unit 0 shows afterwards
    is the exact product of [x0] and [y0], where [Mac] reads both as
    signed 16-bit numbers, [Macsu] only [y0], [Macus] only [x0] and
    [Macuu] neither. *)
Theorem MulGeneric_mac (op : MulOp) (a : RegName) (u p : Z) (mc : Machine) :
  op = MulOp.Mac \/ op = MulOp.Macsu \/ op = MulOp.Macus \/ op = MulOp.Macuu ->
  a = RegName.a0 \/ a = RegName.a1 ->
  GetAcc a mc = Ok u mc ->
  ProductToBus40 RegName.p0 mc = Ok p mc ->
  regs.ym (rf mc) = 0 ->
  regs.ps (rf mc) 0 = 0 ->
  0 <= regs.x (rf mc) 0 < 2 ^ 16 ->
  0 <= regs.y (rf mc) 0 < 2 ^ 16 ->
  let X := match op with
           | MulOp.Mac | MulOp.Macus => signed 16 (regs.x (rf mc) 0)
           | _ => regs.x (rf mc) 0
           end in
  let Y := match op with
           | MulOp.Mac | MulOp.Macsu => signed 16 (regs.y (rf mc) 0)
           | _ => regs.y (rf mc) 0
           end in
  let w := signed 40 (signed 40 u + signed 40 p) in
  let out := (w <? - 2 ^ 31) || (2 ^ 31 <=? w) in
  let sat := negb (regs.sar (rf mc) 1) && out in
  exists r mc',
    MulGeneric op a mc = Ok tt mc' /\
    GetAcc a mc' = Ok r mc' /\
    is_SE40 r /\
    signed 40 r = (if sat then if w <? 0 then - 2 ^ 31 else 2 ^ 31 - 1 else w) /\
    regs.fls (rf mc') = regs.fls (rf mc) || sat /\
    ProductToBus40 RegName.p0 mc' = Ok (u64 (X * Y)) mc' /\
    mem mc' = mem mc.
Proof.
  intros Hop Ha Hu Hp Hym Hps Hx Hy X Y w out sat.
  destruct (AddSub_SetAcc_run u p false a mc Ha Hu)
    as (r & m1 & E1 & Hr & _ & _ & _ & (Rse & Rval & Rfls) & Rmem).
  destruct (AddSub_SetAcc_frame u p false a mc m1 Ha E1)
    as (Fx & Fy & Fym & Fps & _ & _).
  assert (Acc : (value <- GetAcc a ;; product <- ProductToBus40 RegName.p0 ;;
                 result <- AddSub value product false ;; SetAcc a result) mc = Ok tt m1).
  { unfold bind at 1. rewrite Hu. unfold bind at 1. rewrite Hp. exact E1. }
  assert (Mul : forall xs ys,
             exists mc',
               DoMultiplication 0 xs ys m1 = Ok tt mc' /\
               ProductToBus40 RegName.p0 mc' =
                 Ok (u64 ((if xs then signed 16 (regs.x (rf mc) 0) else regs.x (rf mc) 0)
                          * (if ys then signed 16 (regs.y (rf mc) 0) else regs.y (rf mc) 0)))
                    mc' /\
               GetAcc a mc' = Ok r mc' /\
               regs.fls (rf mc') = regs.fls (rf mc) || sat /\
               mem mc' = mem mc).
  { intros xs ys.
    destruct (DoMultiplication_run xs ys m1) as (mc' & E2 & P2 & A2 & B2 & S2 & L2 & M2).
    - rewrite Fym. exact Hym.
    - rewrite Fps. exact Hps.
    - rewrite Fx. exact Hx.
    - rewrite Fy. exact Hy.
    - exists mc'. rewrite Fx, Fy in P2. rewrite L2, M2.
      repeat split; try assumption.
      destruct Ha as [ -> | -> ]; unfold GetAcc, gets in *; injection Hr as Hr;
        rewrite A2, Hr; reflexivity. }
  destruct Hop as [ -> | [ -> | [ -> | -> ] ] ]; subst X Y; cbv iota.
  - destruct (Mul true true) as (mc' & E2 & P2 & A2 & L2 & M2).
    exists r, mc'. split.
    { unfold MulGeneric. unfold bind at 1. rewrite Acc. exact E2. }
    repeat split; assumption.
  - destruct (Mul false true) as (mc' & E2 & P2 & A2 & L2 & M2).
    exists r, mc'. split.
    { unfold MulGeneric. unfold bind at 1. rewrite Acc. exact E2. }
    repeat split; assumption.
  - destruct (Mul true false) as (mc' & E2 & P2 & A2 & L2 & M2).
    exists r, mc'. split.
    { unfold MulGeneric. unfold bind at 1. rewrite Acc. exact E2. }
    repeat split; assumption.
  - destruct (Mul false false) as (mc' & E2 & P2 & A2 & L2 & M2).
    exists r, mc'. split.
    { unfold MulGeneric. unfold bind at 1. rewrite Acc. exact E2. }
    repeat split; assumption.
Qed.
End Further.

(* ================================================================= *)
(** ** Examples *)

#[local] Existing Instance sample_RF.


Lemma sample_RF_invariant : RegisterFile_invariant sample_RF.
Proof.
  unfold RegisterFile_invariant.
  repeat match goal with |- _ /\ _ => split end; intros;
    match goal with H : Invariant _ |- _ => exact H end.
Qed.

Lemma sample_RF_Shadow_frame : Shadow_frame sample_RF.
Proof. intros f [ -> | -> ] rs; repeat split. Qed.

(** C1 after two nested [bkrep]s from the reset state: the state satisfies
    the invariant, and [bkreprst_memsp] stops at undefined behaviour. *)
Lemma RestoreBlockRepeat_out_of_bounds_witness :
  Invariant (rf nested_loops_machine) /\
  regs.bcn (rf nested_loops_machine) = 2 /\
  exec I_bkreprst_memsp nested_loops_machine =
    Throw undefined_behaviour nested_loops_machine.
Proof.
  assert (Hinv : Invariant (rf nested_loops_machine)).
  { repeat split; cbn; first [ lia | discriminate | reflexivity ]. }
  split; [ exact Hinv | ]. split; [ reflexivity | ].
  apply (RestoreBlockRepeat_out_of_bounds ref_sp nested_loops_machine Hinv).
  vm_compute. split; discriminate.
Defined.

(** The invariant at the reset state, for the sample register file and
    decode table. *)
Lemma invariant_preserved_witness :
  (forall i, Invariant (rf (final (exec i reset_machine)))) /\
  (forall n, Invariant (rf (final (Run sample_decoders n reset_machine)))).
Proof.
  apply (invariant_preserved sample_RF_invariant sample_decoders reset_machine).
  repeat split; cbn; first [ lia | discriminate ].
Defined.

(** C2 on [irq_machine]: interrupts 1 and 2 are pending, interrupt 1 is
    taken and interrupt 2 stays pending; the old PC 0x1234 is pushed from
    [sp = 0x100], low half first. *)
Lemma interrupt_acceptance_witness :
  regs.pc (rf (final (Run_interrupts irq_machine))) = 0x000E /\
  regs.ip (rf (final (Run_interrupts irq_machine))) 1 = false /\
  regs.ip (rf (final (Run_interrupts irq_machine))) 2 = true /\
  regs.ie (rf (final (Run_interrupts irq_machine))) = false /\
  regs.sp (rf (final (Run_interrupts irq_machine))) = 0xFE /\
  data (mem (final (Run_interrupts irq_machine))) 0xFF = 0x1234 /\
  data (mem (final (Run_interrupts irq_machine))) 0xFE = 0.
Proof.
  assert (F : first_pending (rf irq_machine) 1).
  { split; [ lia | ]. split; [ reflexivity | ]. split; [ reflexivity | ].
    intros j Hj. assert (j = 0) as -> by lia. reflexivity. }
  destruct (interrupt_acceptance irq_machine sample_RF_Shadow_frame
              eq_refl eq_refl) as [ H _ ].
  destruct (H 1 F) as (H1 & H2 & H3 & H4 & (P1 & P2 & P3 & _) & _).
  split; [ exact H1 | ]. split; [ exact H2 | ].
  split; [ rewrite H3 by lia; reflexivity | ].
  split; [ exact H4 | ].
  split; [ exact P1 | ]. split; [ exact P2 | exact P3 ].
Defined.

(** C3 with a two-word instruction: after [rep 1] the two-word
    [mov 0x1234, r6] is dispatched once; the rewind by one word makes the
    next cycle decode its second word 0x1234 as an opcode of its own. *)
Lemma rep_two_word_counterexample :
  fst (Run_log sample_decoders 3 rep_two_word_machine) =
    [I_rep_Imm8 1; I_mov_r6_Imm16 0x1234; I_nop] /\
  regs.rep (rf (final (snd (Run_log sample_decoders 3 rep_two_word_machine)))) = false /\
  regs.pc (rf (final (snd (Run_log sample_decoders 3 rep_two_word_machine)))) = 3.
Proof. vm_compute. repeat split. Qed.

(** C3 on [rep_machine]: [rep 2] and three dispatches of [load_page 5]. *)
Lemma rep_executes_k_plus_1_times_witness :
  exists mc',
    Run_log sample_decoders 4 rep_machine =
      ([I_rep_Imm8 2; I_load_page 5; I_load_page 5; I_load_page 5], Ok tt mc') /\
    regs.rep (rf mc') = false /\ regs.pc (rf mc') = 2.
Proof.
  apply (rep_executes_k_plus_1_times sample_decoders 0 2 (I_load_page 5)).
  - split; [ lia | reflexivity ].
  - split; [ lia | reflexivity ].
  - intros mc. eexists. split; [ reflexivity | repeat split ].
  - repeat split.
  - reflexivity.
  - reflexivity.
  - reflexivity.
  - reflexivity.
Defined.

(** C4 on [nested_machine]: the frame in slot 0 stays where it is and the
    new, innermost frame goes to slot 1. *)
Lemma BlockRepeat_push_counterexample :
  exists mc',
    BlockRepeat 7 0x200 nested_machine = Ok tt mc' /\
    regs.bkrep_stack (rf mc') 0 = {| start := 1; end_ := 2; lc := 3 |} /\
    regs.bkrep_stack (rf mc') 1 = {| start := 0x40; end_ := 0x200; lc := 7 |} /\
    regs.bcn (rf mc') = 2.
Proof.
  exists (final (BlockRepeat 7 0x200 nested_machine)).
  vm_compute. repeat split.
Qed.

(** C5 on [pc_edge_machine]: [brr +1] at [pc = 0x3FFFF] installs 0x40000. *)
Lemma brr_pc_unchecked_witness :
  (exists mc',
     brr (RF := sample_RF) 1 true pc_edge_machine = Ok tt mc' /\
     regs.pc (rf mc') = 0x40000 /\ 0x40000 <= regs.pc (rf mc')) /\
  SetPC_Save 0x40000 pc_edge_machine = Throw "pc flies" pc_edge_machine.
Proof.
  apply (brr_pc_unchecked (RF := sample_RF) 1 true pc_edge_machine).
  - reflexivity.
  - vm_compute. discriminate.
Defined.

(** C6 at the reset state: the carry flag is clear after the addition. *)
Lemma AddSub_basic_counterexample :
  exists mc',
    AddSub 0x00FFFFFFFF 0x01 false reset_machine = Ok 0x0100000000 mc' /\
    regs.fc (rf mc') 0 = false.
Proof.
  exists (final (AddSub 0x00FFFFFFFF 0x01 false reset_machine)).
  vm_compute. split; reflexivity.
Qed.

(** C7 for [a = 5], [b = 3]. *)
Lemma AddSub_round_trip_witness :
  exists r mc1 mc2,
    AddSub 5 3 false reset_machine = Ok r mc1 /\
    AddSub r 3 true mc1 = Ok 5 mc2.
Proof. apply (AddSub_round_trip 5 3 reset_machine). reflexivity. Defined.

(** C8 for [v = 0x80000000], which does not fit in 32 signed bits. *)
Lemma SaturateAcc_spec_witness :
  SaturateAcc 0x80000000 true reset_machine =
  Ok 0x7FFFFFFF {| rf := regs.set_fls true (rf reset_machine); mem := mem reset_machine |}.
Proof.
  apply (SaturateAcc_spec 0x80000000 true reset_machine).
  left. split; [ lia | reflexivity ].
Defined.

(** C9 with modulus 5: the mask is 7, and the addresses from 0 repeat
    after 6 steps, not after 8. *)
Lemma PlusStep_cycle_counterexample :
  smear 0 (unit_mod modulo_regs 0) = 7 /\
  map (fun n => PlusStep_orbit modulo_regs 0 n 0) (seq 0 9) = [0; 1; 2; 3; 4; 5; 0; 1; 2] /\
  regs.r (rf (final (PlusStep_times 6 0 {| rf := modulo_regs; mem := reset_mem |}))) 0 = 0.
Proof. vm_compute. repeat split. Qed.

(** C9 with modulus 5 from the address 0x1233, with the step +1 taken
    from the bank register [stepi0]: six steps lead back to 0x1233. *)
Lemma PlusStep_cycle_witness :
  exists mc',
    PlusStep_times 6 0 bank_modulo_machine = Ok tt mc' /\
    regs.r (rf mc') 0 = 0x1233.
Proof.
  destruct (PlusStep_cycle 0 bank_modulo_machine) as (H1 & H2 & _).
  - reflexivity.
  - reflexivity.
  - reflexivity.
  - split; reflexivity.
  - reflexivity.
  - split; [ discriminate | reflexivity ].
  - vm_compute. discriminate.
  - destruct (H1 6%nat) as (mc' & E & R).
    exists mc'. split; [ exact E | ]. rewrite R. exact H2.
Defined.

(** C10 for [a0 = 0x1234] and the immediate 0x0F. *)
Lemma alu_Imm8_And_witness :
  exists mc',
    alu_Imm8 AlmOp.And 0x0F RegName.a0 acc_machine = Ok tt mc' /\
    (forall n, 8 <= n < 16 ->
       Z.testbit (regs.a (rf mc') 0) n = Z.testbit 0x1234 n) /\
    (forall n, n < 8 \/ 16 <= n ->
       Z.testbit (regs.a (rf mc') 0) n = Z.testbit (0x1234 .& 0x0F) n) /\
    regs.fz (rf mc') = false /\
    regs.fm (rf mc') = false /\
    regs.fe (rf mc') = false /\
    regs.fn (rf mc') = false.
Proof.
  apply (alu_Imm8_And RegName.a0 0x0F acc_machine).
  - left. reflexivity.
  - lia.
Defined.

(** X2 for [v = 2^32], which saturates to 0x7FFFFFFF. *)
Lemma SaturateAcc_Unconditional_clamp_witness :
  exists r mc',
    SaturateAcc_Unconditional 0x100000000 reset_machine = Ok r mc' /\
    signed 40 r = Z.max (- 2 ^ 31) (Z.min (2 ^ 31 - 1) (signed 40 0x100000000)) /\
    is_SE40 r /\ r = SignExtend64 32 r /\
    SaturateAcc_Unconditional_NoFlag 0x100000000 = r /\
    SaturateAcc_Unconditional_NoFlag r = r /\
    regs.fls (rf mc') =
      regs.fls (rf reset_machine)
      || ((signed 40 0x100000000 <? - 2 ^ 31) || (2 ^ 31 <=? signed 40 0x100000000)).
Proof. apply (SaturateAcc_Unconditional_clamp 0x100000000 reset_machine). reflexivity. Defined.

(** X3 for the signed [x0 = -1] times the unsigned [y0 = 3]. *)
Lemma DoMultiplication_exact_witness :
  exists mc',
    (DoMultiplication 0 true false ;; ProductToBus40 RegName.p0) mul_machine
    = Ok 0xFFFFFFFFFFFFFFFD mc' /\
    is_SE40 0xFFFFFFFFFFFFFFFD /\ signed 40 0xFFFFFFFFFFFFFFFD = -3 /\
    mem mc' = mem mul_machine.
Proof.
  apply (DoMultiplication_exact 0 true false mul_machine);
    first [ left; reflexivity | reflexivity
          | vm_compute; split; [ discriminate | reflexivity ] ].
Defined.

(** X4 for the accumulator a0 holding 0x1234, rotated right and back. *)
Lemma Moda_rotate_round_trip_witness :
  exists mc',
    (Moda (RF := sample_RF) ModaOp.Ror RegName.a0 true ;;
     Moda ModaOp.Rol RegName.a0 true) acc_machine = Ok tt mc' /\
    GetAcc RegName.a0 mc' = Ok 0x1234 mc' /\
    regs.fc (rf mc') 0 = regs.fc (rf acc_machine) 0 /\
    mem mc' = mem acc_machine.
Proof.
  apply (Moda_rotate_round_trip (RF := sample_RF) RegName.a0 true 0x1234 acc_machine);
    [ intros; reflexivity | reflexivity | reflexivity | left; split; reflexivity ].
Defined.

(** X5 for [a0 = 5] and [a1 = -2]: [max_ge] keeps 5 in a0. *)
Lemma max_min_extremum_witness :
  exists w mc',
    max_ge RegName.a0 StepValue.Zero extremum_machine = Ok tt mc' /\
    GetAcc RegName.a0 mc' = Ok w mc' /\
    w = 5 /\
    signed 40 w = 5 /\
    (ca <- CounterAcc RegName.a0 ;; GetAcc ca) mc' = Ok 0xFFFFFFFFFFFFFFFE mc' /\
    regs.fm (rf mc') = false /\
    regs.mixp (rf mc') = regs.mixp (rf extremum_machine) /\
    mem mc' = mem extremum_machine.
Proof.
  refine (proj1 (max_min_extremum RegName.a0 StepValue.Zero
                   5 0xFFFFFFFFFFFFFFFE extremum_machine _ _ _ _ _));
    first [ left; reflexivity | reflexivity ].
Defined.

(** X6 for modulus 5 at offset 5: the address 0x1235 steps up to 0x1230
    and back down to 0x1235. *)
Lemma StepAddress_Increase_Decrease_witness :
  StepAddress modulo_regs 0 0x1235 StepValue.Increase false = 0x1230 /\
  StepAddress modulo_regs 0
    (StepAddress modulo_regs 0 0x1235 StepValue.Increase false)
    StepValue.Decrease false = 0x1235.
Proof.
  assert (H1 : 0 < unit_mod modulo_regs 0 < 512) by (vm_compute; split; reflexivity).
  assert (H2 : 0 <= 0x1235 < 2 ^ 16) by (vm_compute; split; [ discriminate | reflexivity ]).
  assert (H3 : 0x1235 .& smear 0 (unit_mod modulo_regs 0) <= unit_mod modulo_regs 0)
    by (vm_compute; discriminate).
  destruct (StepAddress_Increase_Decrease modulo_regs 0 eq_refl eq_refl H1 0x1235 H2 H3)
    as (I & _ & _ & _ & _ & _ & DI & _).
  split; [ exact I | exact DI ].
Defined.

(** X7 for modulus 5 at offset 5: the offset address of 0x1235 is 0x1230,
    and one back from there is 0x1235. *)
Lemma OffsetAddress_modulo_witness :
  OffsetAddress_ modulo_regs 0 0x1235 OffsetValue.PlusOne false = 0x1230 /\
  OffsetAddress_ modulo_regs 0
    (OffsetAddress_ modulo_regs 0 0x1235 OffsetValue.PlusOne false)
    OffsetValue.MinusOne false = 0x1235.
Proof.
  assert (H1 : 0 < unit_mod modulo_regs 0 < 512) by (vm_compute; split; reflexivity).
  assert (H2 : 0 <= 0x1235 < 2 ^ 16) by (vm_compute; split; [ discriminate | reflexivity ]).
  assert (H3 : 0x1235 .& smear 0 (unit_mod modulo_regs 0) <= unit_mod modulo_regs 0)
    by (vm_compute; discriminate).
  destruct (OffsetAddress_modulo modulo_regs 0 eq_refl eq_refl H1 0x1235 H2 H3)
    as (P & _ & MP & _).
  split; [ exact P | exact MP ].
Defined.

(** X8 from the reset state, where [sp = 0]: the two words go to 0xFFFF
    and 0xFFFE. *)
Lemma push_pop_lifo_witness :
  exists mc',
    (push_Imm16 7 ;; push_Imm16 9 ;; pop_r6 ;; pop_x0) reset_machine = Ok tt mc' /\
    regs.r (rf mc') 6 = 9 /\ regs.x (rf mc') 0 = 7 /\
    regs.sp (rf mc') = 0 /\
    data (mem mc') 0xFFFF = 7 /\
    data (mem mc') 0xFFFE = 9 /\
    (forall addr, addr <> 0xFFFF -> addr <> 0xFFFE ->
                  data (mem mc') addr = data (mem reset_machine) addr) /\
    prog (mem mc') = prog (mem reset_machine).
Proof.
  apply (push_pop_lifo 7 9 reset_machine).
  vm_compute. split; [ discriminate | reflexivity ].
Defined.

(** X9 for the accumulator a0 holding 0x1234. *)
Lemma pusha_popa_round_trip_witness :
  exists mc',
    (pusha RegName.a0 ;; popa RegName.a0) acc_machine = Ok tt mc' /\
    GetAcc RegName.a0 mc' = Ok 0x1234 mc' /\
    regs.a (rf mc') 0 = regs.a (rf acc_machine) 0 /\
    regs.a (rf mc') 1 = regs.a (rf acc_machine) 1 /\
    regs.b (rf mc') 0 = regs.b (rf acc_machine) 0 /\
    regs.b (rf mc') 1 = regs.b (rf acc_machine) 1 /\
    regs.sp (rf mc') = regs.sp (rf acc_machine) /\
    regs.fls (rf mc') = regs.fls (rf acc_machine) /\
    data (mem mc') 0xFFFF = 0x1234 /\
    data (mem mc') 0xFFFE = 0.
Proof.
  apply (pusha_popa_round_trip RegName.a0 0x1234 acc_machine);
    first [ left; reflexivity | reflexivity
          | vm_compute; split; [ discriminate | reflexivity ] ].
Defined.

(** X10 for a call from 0x1234 to 0x100 and an empty body. *)
Lemma call_ret_round_trip_witness :
  exists mc1 mc',
    call (RF := sample_RF) 0x100 0 true irq_machine = Ok tt mc1 /\
    regs.pc (rf mc1) = 0x100 .| (0 << 16) /\
    regs.sp (rf mc1) = u16 (regs.sp (rf irq_machine) - 2) /\
    (call 0x100 0 true ;; nop ;; ret_ true) irq_machine = Ok tt mc' /\
    regs.pc (rf mc') = regs.pc (rf irq_machine) /\
    regs.sp (rf mc') = regs.sp (rf irq_machine).
Proof.
  apply (call_ret_round_trip (RF := sample_RF) 0x100 0 true true nop irq_machine).
  - (intros; reflexivity).
  - (intros; reflexivity).
  - (vm_compute; split; [ discriminate | reflexivity ]).
  - (vm_compute; split; [ discriminate | reflexivity ]).
  - (intros m1; exists m1; repeat split).
Defined.

(** X11 for the accumulator a0 holding 0x1234: [mov_pc] sets [pc]. *)
Lemma SetPC_Save_guard_witness :
  mov_pc RegName.a0 acc_machine =
  Ok tt {| rf := regs.set_pc 0x1234 (rf acc_machine); mem := mem acc_machine |}.
Proof. exact (proj1 (SetPC_Save_guard RegName.a0 0x1234 acc_machine eq_refl)). Defined.

(** X12 for [bkrep 2] around a block of two instructions: seven cycles,
    the block three times over. *)
Lemma bkrep_executes_body_k_plus_1_times_witness :
  exists mc',
    Run_log loop_decoders 7 loop_machine =
      ([I_bkrep_Imm8 2 3; I_load_page 5; I_load_page 6; I_load_page 5; I_load_page 6;
        I_load_page 5; I_load_page 6], Ok tt mc') /\
    after_block 0 2 mc'.
Proof.
  apply (bkrep_executes_body_k_plus_1_times loop_decoders 0 2 3
           [I_load_page 5; I_load_page 6]).
  - split; [ lia | reflexivity ].
  - split; [ lia | reflexivity ].
  - discriminate.
  - intros i [ <- | [ <- | [] ] ]; intros mc; eexists;
      (split; [ reflexivity | repeat split ]).
  - reflexivity.
  - split; [ reflexivity | split; [ reflexivity | ] ].
    intros [ | [ | [ | j ] ] ] i H; try discriminate;
      injection H as <-; split; reflexivity.
  - reflexivity.
  - reflexivity.
  - reflexivity.
  - reflexivity.
  - reflexivity.
Defined.

(** X13 with one loop under way: a second frame is pushed and dropped. *)
Lemma BlockRepeat_break_witness :
  exists mc',
    (BlockRepeat 5 0x50 ;; break_) nested_machine = Ok tt mc' /\
    regs.bcn (rf mc') = 1 /\
    regs.lp (rf mc') = true /\
    regs.pc (rf mc') = 0x40 /\
    regs.bkrep_stack (rf mc') 1 = {| start := 0x40; end_ := 0x50; lc := 5 |} /\
    (forall i, i <> 1 ->
               regs.bkrep_stack (rf mc') i = regs.bkrep_stack (rf nested_machine) i) /\
    mem mc' = mem nested_machine.
Proof.
  apply (BlockRepeat_break 5 0x50 nested_machine).
  - vm_compute. split; discriminate.
  - split; reflexivity.
Defined.

(** X14 with one loop under way and [sp = 0]: the frame is written to
    the top of the data memory and read back. *)
Lemma bkrepsto_bkreprst_round_trip_witness :
  exists mc',
    (bkrepsto_memsp ;; bkreprst_memsp) nested_machine = Ok tt mc' /\
    regs.bcn (rf mc') = regs.bcn (rf nested_machine) /\
    regs.lp (rf mc') = regs.lp (rf nested_machine) /\
    regs.sp (rf mc') = regs.sp (rf nested_machine) /\
    (forall i, regs.bkrep_stack (rf mc') i = regs.bkrep_stack (rf nested_machine) i) /\
    data (mem mc') (regs.sp (rf nested_machine))
      = lc (regs.bkrep_stack (rf nested_machine) 0).
Proof.
  apply (bkrepsto_bkreprst_round_trip nested_machine).
  - vm_compute. split; discriminate.
  - split; reflexivity.
  - vm_compute. split; [ discriminate | reflexivity ].
  - vm_compute. split; [ discriminate | reflexivity ].
  - vm_compute. discriminate.
  - reflexivity.
Defined.

(** X15 in the reset state, where [ie] is clear. *)
Lemma Run_interrupts_masked_witness :
  Run_interrupts (RF := sample_RF) reset_machine = Ok tt reset_machine.
Proof. apply (Run_interrupts_masked (RF := sample_RF) reset_machine). left. reflexivity. Defined.

(** X16 for interrupt 1 taken at [pc = 0x1234]. *)
Lemma interrupt_reti_round_trip_witness :
  exists mc1 mc',
    Run_interrupts (RF := sample_RF) irq_machine = Ok tt mc1 /\
    regs.pc (rf mc1) = 0x0006 + 8 * 1 /\
    regs.ie (rf mc1) = false /\
    reti true mc1 = Ok tt mc' /\
    regs.pc (rf mc') = regs.pc (rf irq_machine) /\
    regs.sp (rf mc') = regs.sp (rf irq_machine) /\
    regs.ie (rf mc') = true /\
    regs.ip (rf mc') 1 = false /\
    (forall j, j <> 1 -> regs.ip (rf mc') j = regs.ip (rf irq_machine) j).
Proof.
  apply (interrupt_reti_round_trip (RF := sample_RF) 1 true irq_machine).
  - intros. reflexivity.
  - reflexivity.
  - reflexivity.
  - split; [ lia | ]. split; [ reflexivity | ]. split; [ reflexivity | ].
    intros j Hj. assert (j = 0) as -> by lia. reflexivity.
  - reflexivity.
  - vm_compute. split; [ discriminate | reflexivity ].
  - vm_compute. split; [ discriminate | reflexivity ].
Defined.

(** X17 for the high word of a0 and the value 0x8001. *)
Lemma RegFromBus16_RegToBus16_witness :
  exists mc',
    RegFromBus16 (RF := sample_RF) RegName.a0h 0x8001 reset_machine = Ok tt mc' /\
    (forall sat, RegToBus16_ RegName.a0h sat mc' = Ok 0x8001 mc') /\
    mem mc' = mem reset_machine.
Proof.
  apply (RegFromBus16_RegToBus16 (RF := sample_RF) RegName.a0h 0x8001 reset_machine).
  - reflexivity.
  - vm_compute. split; [ discriminate | reflexivity ].
Defined.

(** X18 for [v = 0x1234], which needs 14 signed bits: the exponent is 18. *)
Lemma Exp_normalises_witness :
  let e := signed 16 (Exp 0x1234) in
  - 8 <= e <= 31 /\
  - 2 ^ (31 - e) <= signed 40 0x1234 < 2 ^ (31 - e) /\
  (e < 31 -> ~ (- 2 ^ (30 - e) <= signed 40 0x1234 < 2 ^ (30 - e))).
Proof. apply (Exp_normalises 0x1234). reflexivity. Defined.

(** X19 for [0x1234] shifted right by 4: the quotient is 0x123, and the
    last bit shifted out, bit 3 of 0x1234, is clear. *)
Lemma ShiftBus40_right_witness :
  exists r mc',
    ShiftBus40 0x1234 (2 ^ 16 - 4) RegName.a0 acc_machine = Ok tt mc' /\
    GetAcc RegName.a0 mc' = Ok r mc' /\
    is_SE40 r /\
    signed 40 r = 0x123 /\
    regs.fc (rf mc') 0 = false /\
    regs.fv (rf mc') = false /\
    regs.fls (rf mc') = false /\
    mem mc' = mem acc_machine.
Proof.
  apply (ShiftBus40_right 0x1234 4 RegName.a0 acc_machine).
  - reflexivity.
  - vm_compute. split; discriminate.
  - exists 0x1234. reflexivity.
Defined.

(** X20 for [2^30] shifted left by one: the product [2^31] fits 40 bits
    but not 32, so with [sar[1]] clear the accumulator saturates. *)
Lemma ShiftBus40_left_witness :
  exists r mc',
    ShiftBus40 0x40000000 1 RegName.a0 acc_machine = Ok tt mc' /\
    GetAcc RegName.a0 mc' = Ok r mc' /\
    is_SE40 r /\
    signed 40 r = 2 ^ 31 - 1 /\
    (false = false -> signed 40 0x80000000 = 0x80000000) /\
    regs.fv (rf mc') = false /\
    regs.flv (rf mc') = false /\
    regs.fc (rf mc') 0 = false /\
    regs.fls (rf mc') = true /\
    mem mc' = mem acc_machine.
Proof.
  apply (ShiftBus40_left 0x40000000 1 RegName.a0 acc_machine).
  - reflexivity.
  - vm_compute. split; [ discriminate | reflexivity ].
  - exists 0x1234. reflexivity.
Defined.

(** X21 for [sub] of 7 from [a0 = 5]: the accumulator receives -2, and
    the flags say negative, not zero, within 32 bits. *)
Lemma AlmGeneric_add_sub_cmp_witness :
  exists r mc',
    AlmGeneric AlmOp.Sub 7 RegName.a0 extremum_machine = Ok tt mc' /\
    GetAcc RegName.a0 mc' = Ok r mc' /\
    regs.fz (rf mc') = false /\
    regs.fm (rf mc') = true /\
    regs.fe (rf mc') = false /\
    (is_SE40 r /\
     signed 40 r = -2 /\
     regs.fls (rf mc') = false) /\
    mem mc' = mem extremum_machine.
Proof.
  apply (AlmGeneric_add_sub_cmp AlmOp.Sub 7 RegName.a0 5 extremum_machine).
  - right. left. reflexivity.
  - left. reflexivity.
  - reflexivity.
Defined.
(** X22 for 100 divided by 7: quotient 14, remainder 2. *)
Lemma divs_divides_witness :
  exists mc',
    iterate 16 (divs 0 RegName.a0) divs_machine = Ok tt mc' /\
    GetAcc RegName.a0 mc' = Ok (2 ^ 16 * 2 + 14) mc' /\
    mem mc' = mem divs_machine.
Proof.
  apply (divs_divides 0 RegName.a0 100 7 divs_machine).
  - reflexivity.
  - reflexivity.
  - lia.
  - lia.
Defined.
(** X23 for [subv] of 7 from the data word 0, which holds 3 here: a borrow,
    and the word becomes 0xFFFC. *)
Lemma alb_MemImm8_arithmetic_witness :
  exists mc',
    alb_MemImm8 AlbOp.Subv 7 0 alb_machine = Ok tt mc' /\
    data (mem mc') 0 = 0xFFFC /\
    (forall x, x <> 0 -> data (mem mc') x = data (mem alb_machine) x) /\
    regs.fc (rf mc') 0 = true /\
    regs.fm (rf mc') = true /\
    regs.fz (rf mc') = false.
Proof.
  apply (alb_MemImm8_arithmetic AlbOp.Subv 7 0 alb_machine).
  - right. left. reflexivity.
  - lia.
  - vm_compute. split; [ discriminate | reflexivity ].
Defined.
(** X24 for [mac] with [a0 = 10], the earlier product 4 and the factors
    -1 and 3: the accumulator becomes 14 and the product -3. *)
Lemma MulGeneric_mac_witness :
  exists r mc',
    MulGeneric MulOp.Mac RegName.a0 mac_machine = Ok tt mc' /\
    GetAcc RegName.a0 mc' = Ok r mc' /\
    is_SE40 r /\
    signed 40 r = 14 /\
    regs.fls (rf mc') = false /\
    ProductToBus40 RegName.p0 mc' = Ok (u64 (-3)) mc' /\
    mem mc' = mem mac_machine.
Proof.
  apply (MulGeneric_mac MulOp.Mac RegName.a0 10 4 mac_machine).
  - left. reflexivity.
  - left. reflexivity.
  - reflexivity.
  - reflexivity.
  - reflexivity.
  - reflexivity.
  - vm_compute. split; [ discriminate | reflexivity ].
  - vm_compute. split; [ discriminate | reflexivity ].
Defined.
